(** * NodeModal: path-addressed editing of one node of a JSON document

    Shallow embedding of [src/features/modals/NodeModal/index.tsx]:
    [normalizeNodeData], [jsonPathToString], [setValueAtPath],
    [handleSave] and the handlers [handleEdit], [handleCancel] and the
    change of the draft, together with the part of the JavaScript run
    time they rest on ([JSON.parse], [JSON.stringify], property reads
    and writes on objects and arrays held in a store of mutable
    objects).

    Modelling decisions, fixed here once:
    - a JavaScript string is its sequence of UTF-16 code units ([str]);
    - a number is an exact decimal [mant * 10 ^ expo] in lowest form; the
      rounding of binary64 and its overflow are outside the model; the
      premise [plain_tree] keeps a statement to numbers that binary64
      gives back as they were read;
    - the module is an ES module, hence strict mode: writing a property of
      a primitive throws [TypeError];
    - properties are own data properties: the built-in [length], the
      setter of [__proto__] and the names inherited from the prototypes
      are not modelled; the premises [plain_key], [plain_path],
      [data_path] and [merge_key] keep a statement to keys on which they
      make no difference;
    - the engine has a call stack and a longest string, and throws
      [RangeError] beyond them; the model has neither; the premises
      [plain_tree] and [plain_path] keep a statement to documents, drafts
      and paths far inside these limits;
    - an array is its elements, where a hole reads [undefined], and its
      named properties, which [JSON.stringify] does not print;
    - the parser and the traversal of [JSON.stringify] recurse on fuel;
      [parse_value_fuel] and [snapshot_fuel] show that the fuel they are
      run with never runs out. *)

From Stdlib Require Import ZArith NArith Lia String Ascii List Bool.
From stdpp Require Import base option list gmap sets.

Set Default Proof Using "Type".
Open Scope N_scope.

(** ** Strings: sequences of UTF-16 code units *)

Abbreviation str := (list N) (only parsing).

Definition lit (s : string) : str := map N_of_ascii (list_ascii_of_string s).

(** JSON source written with apostrophes standing for the double quote. *)
Definition json_lit (s : string) : str :=
  map (fun c => if c =? 39 then 34 else c) (lit s).

Definition dq : N := 34.
Definition backslash : N := 92.

Definition text_eqb (a b : str) : bool := bool_decide (a = b).

Fixpoint join (sep : str) (parts : list str) : str :=
  match parts with
  | [] => []
  | [p] => p
  | p :: ps => p ++ sep ++ join sep ps
  end.

(** ** Decimal digits *)

Definition is_digit (c : N) : bool := (48 <=? c) && (c <=? 57).
Definition digit_char (d : N) : N := 48 + d.

Fixpoint digits_aux (fuel : nat) (n : N) (acc : list N) : list N :=
  match fuel with
  | O => n :: acc
  | S f => if n <? 10 then n :: acc else digits_aux f (n / 10) (n mod 10 :: acc)
  end.

Definition digits (n : N) : list N := digits_aux (N.to_nat (N.size n)) n [].

Definition of_digits (ds : list N) : N := fold_left (fun a d => 10 * a + d) ds 0.

Definition show_digits (ds : list N) : str := map digit_char ds.

Definition zeros (n : nat) : list N := repeat 0 n.

Fixpoint span_digits (s : str) : list N * str :=
  match s with
  | c :: r =>
      if is_digit c then let '(ds, r') := span_digits r in (c - 48 :: ds, r')
      else ([], s)
  | [] => ([], [])
  end.

(** ** Numbers: exact decimals in lowest form *)

Record num := Num { mant : Z; expo : Z }.

#[global] Instance num_eq_dec : EqDecision num.
Proof. solve_decision. Defined.

Definition canonical (x : num) : Prop :=
  (mant x = 0%Z -> expo x = 0%Z) /\ (mant x <> 0%Z -> (mant x mod 10 <> 0)%Z).

Fixpoint strip_zeros (rds : list N) (j : nat) : list N * nat :=
  match rds with
  | d :: r => if d =? 0 then strip_zeros r (S j) else (rds, j)
  | [] => ([], j)
  end.

Definition mk_num (neg : bool) (ds : list N) (e : Z) : num :=
  let '(rds, j) := strip_zeros (rev ds) 0 in
  let m := of_digits (rev rds) in
  if m =? 0 then Num 0 0
  else Num (if neg then - Z.of_N m else Z.of_N m) (e + Z.of_nat j).

Definition num_of_N (n : N) : num := mk_num false (digits n) 0.

(** [Number::toString] in radix 10. *)
Definition Number_toString (x : num) : str :=
  let ds := digits (Z.abs_N (mant x)) in
  let k := Z.of_nat (length ds) in
  let n := (k + expo x)%Z in
  (if (mant x <? 0)%Z then lit "-" else []) ++
  if (mant x =? 0)%Z then lit "0"
  else if ((k <=? n) && (n <=? 21))%Z then
    show_digits ds ++ show_digits (zeros (Z.to_nat (n - k)))
  else if ((0 <? n) && (n <=? 21))%Z then
    show_digits (take (Z.to_nat n) ds) ++ lit "." ++ show_digits (drop (Z.to_nat n) ds)
  else if ((-6 <? n) && (n <=? 0))%Z then
    lit "0." ++ show_digits (zeros (Z.to_nat (- n))) ++ show_digits ds
  else
    let e := (n - 1)%Z in
    let es := (if (e <? 0)%Z then lit "-" else lit "+")
                ++ show_digits (digits (Z.abs_N e)) in
    match ds with
    | [] => []
    | [d] => show_digits [d] ++ lit "e" ++ es
    | d :: rest => show_digits [d] ++ lit "." ++ show_digits rest ++ lit "e" ++ es
    end.

(** The JSON number token: [-? int frac? exp?]. *)
Definition lex_int (s : str) : option (list N * str) :=
  match s with
  | c :: r =>
      if c =? 48 then Some ([0], r)
      else if is_digit c then Some (span_digits s)
      else None
  | [] => None
  end.

Definition lex_frac (s : str) : option (list N * str) :=
  match s with
  | c :: r =>
      if c =? 46 then
        match span_digits r with
        | ([], _) => None
        | (ds, r') => Some (ds, r')
        end
      else Some ([], s)
  | [] => Some ([], [])
  end.

Definition lex_exp_digits (neg : bool) (s : str) : option (Z * str) :=
  match span_digits s with
  | ([], _) => None
  | (ds, r) =>
      let e := Z.of_N (of_digits ds) in
      Some (if neg then (- e)%Z else e, r)
  end.

Definition lex_exp (s : str) : option (Z * str) :=
  match s with
  | c :: r =>
      if (c =? 101) || (c =? 69) then
        match r with
        | c' :: r' =>
            if c' =? 43 then lex_exp_digits false r'
            else if c' =? 45 then lex_exp_digits true r'
            else lex_exp_digits false r
        | [] => None
        end
      else Some (0%Z, s)
  | [] => Some (0%Z, [])
  end.

Definition lex_number (s : str) : option (num * str) :=
  let '(neg, s1) := match s with
                    | c :: r => if c =? 45 then (true, r) else (false, s)
                    | [] => (false, [])
                    end in
  '(ip, s2) ← lex_int s1;
  '(fp, s3) ← lex_frac s2;
  '(e, s4) ← lex_exp s3;
  Some (mk_num neg (ip ++ fp) (e - Z.of_nat (length fp)), s4).

(** ** Values as trees

    The shape of a JavaScript value that shares nothing: what [JSON.parse]
    builds and what [JSON.stringify] walks.  An array keeps, next to its
    elements, the properties written under names that are not indices;
    a hole of an array reads as [JUndefined]. *)

#[warnings="-register-all"]
Inductive jtree :=
| JUndefined
| JNull
| JBool (b : bool)
| JNum (n : num)
| JStr (s : str)
| JArr (elems : list jtree) (named : list (str * jtree))
| JObj (props : list (str * jtree)).

(** ** Property lists in the order of [OrdinaryOwnPropertyKeys]:
    array indices ascending, then the other names in order of creation. *)

Definition array_index (k : str) : option N :=
  match k with
  | [] => None
  | c :: r =>
      if forallb is_digit k && (negb (c =? 48) || bool_decide (r = [])) then
        let n := of_digits (map (fun c => c - 48) k) in
        if n <? 4294967295 then Some n else None
      else None
  end.

Section props.
Context {A : Type}.

Fixpoint props_lookup (ps : list (str * A)) (k : str) : option A :=
  match ps with
  | [] => None
  | (k', v) :: r => if text_eqb k' k then Some v else props_lookup r k
  end.

Fixpoint props_replace (ps : list (str * A)) (k : str) (v : A) : list (str * A) :=
  match ps with
  | [] => []
  | (k', v') :: r =>
      if text_eqb k' k then (k', v) :: r else (k', v') :: props_replace r k v
  end.

Fixpoint props_insert_index (ps : list (str * A)) (i : N) (k : str) (v : A)
  : list (str * A) :=
  match ps with
  | [] => [(k, v)]
  | (k', v') :: r =>
      match array_index k' with
      | Some j => if j <? i then (k', v') :: props_insert_index r i k v
                  else (k, v) :: ps
      | None => (k, v) :: ps
      end
  end.

(** [O[k] = v] on the own properties of an ordinary object. *)
Definition props_set (ps : list (str * A)) (k : str) (v : A) : list (str * A) :=
  match props_lookup ps k with
  | Some _ => props_replace ps k v
  | None =>
      match array_index k with
      | Some i => props_insert_index ps i k v
      | None => ps ++ [(k, v)]
      end
  end.
End props.

(** ** [JSON.stringify] on trees *)

Definition hex_digit (d : N) : N := if d <? 10 then 48 + d else 87 + d.

Definition unicode_escape (c : N) : str :=
  [backslash; 117; hex_digit (c / 4096 mod 16); hex_digit (c / 256 mod 16);
   hex_digit (c / 16 mod 16); hex_digit (c mod 16)].

Definition is_high_surrogate (c : N) : bool := (55296 <=? c) && (c <=? 56319).
Definition is_low_surrogate (c : N) : bool := (56320 <=? c) && (c <=? 57343).

Definition quote_unit (c : N) : str :=
  if c =? 8 then [backslash; 98]
  else if c =? 9 then [backslash; 116]
  else if c =? 10 then [backslash; 110]
  else if c =? 12 then [backslash; 102]
  else if c =? 13 then [backslash; 114]
  else if c =? dq then [backslash; dq]
  else if c =? backslash then [backslash; backslash]
  else if c <? 32 then unicode_escape c
  else [c].

Fixpoint quote_units (s : str) : str :=
  match s with
  | [] => []
  | c :: r =>
      if is_high_surrogate c then
        match r with
        | d :: r' =>
            if is_low_surrogate d then c :: d :: quote_units r'
            else unicode_escape c ++ quote_units r
        | [] => unicode_escape c
        end
      else if is_low_surrogate c then unicode_escape c ++ quote_units r
      else quote_unit c ++ quote_units r
  end.

(** [QuoteJSONString]. *)
Definition quote (s : str) : str := dq :: quote_units s ++ [dq].

Definition nl : str := [10].

Definition wrap (opening closing gap stepback indent : str) (partial : list str) : str :=
  match partial with
  | [] => opening ++ closing
  | _ =>
      match gap with
      | [] => opening ++ join (lit ",") partial ++ closing
      | _ => opening ++ nl ++ indent ++ join (lit "," ++ nl ++ indent) partial
               ++ nl ++ stepback ++ closing
      end
  end.

Definition member_text (gap k v : str) : str :=
  quote k ++ lit ":" ++ match gap with [] => [] | _ => lit " " end ++ v.

(** [SerializeJSONProperty]: [None] is the [undefined] result. *)
Fixpoint serialize (gap indent : str) (t : jtree) : option str :=
  match t with
  | JUndefined => None
  | JNull => Some (lit "null")
  | JBool b => Some (if b then lit "true" else lit "false")
  | JNum n => Some (Number_toString n)
  | JStr s => Some (quote s)
  | JArr elems _ =>
      let indent' := indent ++ gap in
      Some (wrap (lit "[") (lit "]") gap indent indent'
              (map (fun e => default (lit "null") (serialize gap indent' e)) elems))
  | JObj props =>
      let indent' := indent ++ gap in
      Some (wrap (lit "{") (lit "}") gap indent indent'
              (omap (fun kv => member_text gap (fst kv) <$> serialize gap indent' (snd kv))
                 props))
  end.

(** ** [JSON.parse] to trees *)

Definition is_ws (c : N) : bool := (c =? 32) || (c =? 9) || (c =? 10) || (c =? 13).

Fixpoint skip_ws (s : str) : str :=
  match s with
  | c :: r => if is_ws c then skip_ws r else s
  | [] => []
  end.

Definition hex_val (c : N) : option N :=
  if is_digit c then Some (c - 48)
  else if (97 <=? c) && (c <=? 102) then Some (c - 87)
  else if (65 <=? c) && (c <=? 70) then Some (c - 55)
  else None.

Definition unescape (c : N) : option N :=
  if c =? dq then Some dq
  else if c =? backslash then Some backslash
  else if c =? 47 then Some 47
  else if c =? 98 then Some 8
  else if c =? 102 then Some 12
  else if c =? 110 then Some 10
  else if c =? 114 then Some 13
  else if c =? 116 then Some 9
  else None.

(** The characters of a string token, read after its opening quote. *)
Fixpoint lex_string (s : str) : option (str * str) :=
  match s with
  | [] => None
  | c :: r =>
      if c =? dq then Some ([], r)
      else if c =? backslash then
        match r with
        | [] => None
        | e :: r1 =>
            if e =? 117 then
              match r1 with
              | h1 :: h2 :: h3 :: h4 :: r2 =>
                  a ← hex_val h1; b ← hex_val h2; c' ← hex_val h3; d ← hex_val h4;
                  '(str, rest) ← lex_string r2;
                  Some ((((a * 16 + b) * 16 + c') * 16 + d) :: str, rest)
              | _ => None
              end
            else
              u ← unescape e;
              '(str, rest) ← lex_string r1;
              Some (u :: str, rest)
        end
      else if c <? 32 then None
      else '(str, rest) ← lex_string r; Some (c :: str, rest)
  end.

Fixpoint strip_prefix (p s : str) : option str :=
  match p, s with
  | [], _ => Some s
  | a :: p', b :: s' => if a =? b then strip_prefix p' s' else None
  | _ :: _, [] => None
  end.

(** The next character after white space, when it is [c]. *)
Definition expect (c : N) (s : str) : option str :=
  match skip_ws s with
  | x :: r => if x =? c then Some r else None
  | [] => None
  end.

Fixpoint parse_value (fuel : nat) (s : str) : option (jtree * str) :=
  match fuel with
  | O => None
  | S f =>
      match skip_ws s with
      | [] => None
      | c :: r =>
          if c =? 123 then
            match expect 125 r with
            | Some r' => Some (JObj [], r')
            | None => parse_members f r []
            end
          else if c =? 91 then
            match expect 93 r with
            | Some r' => Some (JArr [] [], r')
            | None => parse_elements f r []
            end
          else if c =? dq then
            '(str, r') ← lex_string r; Some (JStr str, r')
          else if (c =? 45) || is_digit c then
            '(n, r') ← lex_number (c :: r); Some (JNum n, r')
          else if c =? 116 then
            r' ← strip_prefix (lit "rue") r; Some (JBool true, r')
          else if c =? 102 then
            r' ← strip_prefix (lit "alse") r; Some (JBool false, r')
          else if c =? 110 then
            r' ← strip_prefix (lit "ull") r; Some (JNull, r')
          else None
      end
  end
with parse_members (fuel : nat) (s : str) (acc : list (str * jtree))
  : option (jtree * str) :=
  match fuel with
  | O => None
  | S f =>
      r ← expect dq s;
      '(k, r1) ← lex_string r;
      r2 ← expect 58 r1;
      '(v, r3) ← parse_value f r2;
      match skip_ws r3 with
      | c :: r4 =>
          if c =? 44 then parse_members f r4 (props_set acc k v)
          else if c =? 125 then Some (JObj (props_set acc k v), r4)
          else None
      | [] => None
      end
  end
with parse_elements (fuel : nat) (s : str) (acc : list jtree)
  : option (jtree * str) :=
  match fuel with
  | O => None
  | S f =>
      '(v, r1) ← parse_value f s;
      match skip_ws r1 with
      | c :: r2 =>
          if c =? 44 then parse_elements f r2 (acc ++ [v])
          else if c =? 93 then Some (JArr (acc ++ [v]) [], r2)
          else None
      | [] => None
      end
  end.

(** The whole input is one value between white space. *)
Definition parse_text (s : str) : option jtree :=
  '(t, r) ← parse_value (2 * length s + 2) s;
  match skip_ws r with
  | [] => Some t
  | _ => None
  end.

(** [JSON.stringify(t, null, space)] for a tree.  The [undefined] result
    (only for [JUndefined] itself) is kept as the text every reader of
    the store would coerce it to. *)
Definition stringify_tree (space : nat) (t : jtree) : str :=
  default (lit "undefined") (serialize (repeat 32 space) [] t).

(** ** The store of mutable objects *)

Abbreviation loc := nat (only parsing).

Inductive val :=
| VUndef
| VNull
| VBool (b : bool)
| VNum (n : num)
| VStr (s : str)
| VRef (l : loc).

Inductive object :=
| OObj (props : list (str * val))
| OArr (elems : list val) (named : list (str * val)).

Abbreviation heap := (list object) (only parsing).

Inductive exn := SyntaxError | TypeError.

Inductive res (A : Type) :=
| Ok (a : A)
| Throw (e : exn).
Arguments Ok {A} a.
Arguments Throw {A} e.

#[global] Instance res_ret : MRet res := fun A a => Ok a.
#[global] Instance res_bind : MBind res :=
  fun A B f m => match m with Ok a => f a | Throw e => Throw e end.

(** Path segments and [ToPropertyKey]. *)
Inductive seg := SegStr (s : str) | SegNum (n : N).

#[global] Instance seg_eq_dec : EqDecision seg.
Proof. solve_decision. Defined.

Definition to_key (s : seg) : str :=
  match s with
  | SegStr k => k
  | SegNum n => Number_toString (num_of_N n)
  end.

Definition new_object (h : heap) (o : object) : val * heap := (VRef (length h), h ++ [o]).

(** [a[i] = v] on the elements of an array: writing past the end leaves holes. *)
Definition array_set {A} (hole : A) (elems : list A) (i : nat) (v : A) : list A :=
  if (i <? length elems)%nat then <[i := v]> elems
  else elems ++ repeat hole (i - length elems) ++ [v].

Definition get_own (o : object) (k : str) : val :=
  match o with
  | OObj ps => default VUndef (props_lookup ps k)
  | OArr es nm =>
      match array_index k with
      | Some i => default VUndef (es !! N.to_nat i)
      | None => default VUndef (props_lookup nm k)
      end
  end.

Definition set_own (o : object) (k : str) (v : val) : object :=
  match o with
  | OObj ps => OObj (props_set ps k v)
  | OArr es nm =>
      match array_index k with
      | Some i => OArr (array_set VUndef es (N.to_nat i) v) nm
      | None => OArr es (props_set nm k v)
      end
  end.

Definition deref (h : heap) (l : loc) : object := default (OObj []) (h !! l).

(** [target[k]]: throws on [null] and [undefined]. *)
Definition get (h : heap) (target : val) (k : str) : res val :=
  match target with
  | VUndef | VNull => Throw TypeError
  | VBool _ | VNum _ => Ok VUndef
  | VStr s =>
      Ok match array_index k with
         | Some i => match s !! N.to_nat i with Some c => VStr [c] | None => VUndef end
         | None => VUndef
         end
  | VRef l => Ok (get_own (deref h l) k)
  end.

(** [target?.[k]]. *)
Definition opt_get (h : heap) (target : val) (k : str) : val :=
  match get h target k with
  | Ok v => v
  | Throw _ => VUndef
  end.

(** [target[k] = v] in strict mode: only objects take the write. *)
Definition set (h : heap) (target : val) (k : str) (v : val) : res heap :=
  match target with
  | VRef l => Ok (<[l := set_own (deref h l) k v]> h)
  | _ => Throw TypeError
  end.

(** [typeof v === "object" && v !== null]. *)
Definition is_object (v : val) : bool :=
  match v with VRef _ => true | _ => false end.

Definition Array_isArray (h : heap) (v : val) : bool :=
  match v with
  | VRef l => match deref h l with OArr _ _ => true | OObj _ => false end
  | _ => false
  end.

Definition index_key (i : nat) : str := Number_toString (num_of_N (N.of_nat i)).

(** [Object.keys]: a hole of an array (which reads [VUndef]) has no key. *)
Definition Object_keys (h : heap) (v : val) : res (list str) :=
  match v with
  | VUndef | VNull => Throw TypeError
  | VBool _ | VNum _ => Ok []
  | VStr s => Ok (map index_key (seq 0 (length s)))
  | VRef l =>
      match deref h l with
      | OObj ps => Ok (map fst ps)
      | OArr es nm =>
          Ok (omap (fun iv => match snd iv with VUndef => None | _ => Some (index_key (fst iv)) end)
                (imap (fun i v => (i, v)) es)
              ++ map fst nm)
      end
  end.

(** [JSON.parse] builds a fresh tree of objects. *)
Section alloc_children.
Context (alloc : jtree -> heap -> val * heap).

Fixpoint alloc_list (ts : list jtree) (h : heap) : list val * heap :=
  match ts with
  | [] => ([], h)
  | t :: r =>
      let '(v, h1) := alloc t h in
      let '(vs, h2) := alloc_list r h1 in
      (v :: vs, h2)
  end.

Fixpoint alloc_props (ps : list (str * jtree)) (h : heap) : list (str * val) * heap :=
  match ps with
  | [] => ([], h)
  | (k, t) :: r =>
      let '(v, h1) := alloc t h in
      let '(vs, h2) := alloc_props r h1 in
      ((k, v) :: vs, h2)
  end.
End alloc_children.

Fixpoint alloc (t : jtree) (h : heap) : val * heap :=
  match t with
  | JUndefined => (VUndef, h)
  | JNull => (VNull, h)
  | JBool b => (VBool b, h)
  | JNum n => (VNum n, h)
  | JStr s => (VStr s, h)
  | JArr ts nm =>
      let '(vs, h1) := alloc_list alloc ts h in
      let '(nv, h2) := alloc_props alloc nm h1 in
      new_object h2 (OArr vs nv)
  | JObj ps =>
      let '(pv, h1) := alloc_props alloc ps h in
      new_object h1 (OObj pv)
  end.

Definition JSON_parse (s : str) (h : heap) : res (val * heap) :=
  match parse_text s with
  | Some t => Ok (alloc t h)
  | None => Throw SyntaxError
  end.

(** [JSON.stringify] walks the objects reachable through elements and
    properties, keeping the stack of the objects it is inside of; meeting
    one of them again is the circular structure [TypeError].  The named
    properties of an array are not visited. *)
Fixpoint snapshot (fuel : nat) (stack : list loc) (h : heap) (v : val) : res jtree :=
  match v with
  | VUndef => Ok JUndefined
  | VNull => Ok JNull
  | VBool b => Ok (JBool b)
  | VNum n => Ok (JNum n)
  | VStr s => Ok (JStr s)
  | VRef l =>
      match fuel with
      | O => Throw TypeError
      | S f =>
          if bool_decide (l ∈ stack) then Throw TypeError
          else
            match deref h l with
            | OObj ps =>
                ts ← mapM (fun kv => t ← snapshot f (l :: stack) h (snd kv); Ok (fst kv, t)) ps;
                Ok (JObj ts)
            | OArr es _ =>
                ts ← mapM (snapshot f (l :: stack) h) es;
                Ok (JArr ts [])
            end
      end
  end.

Definition JSON_stringify (space : nat) (h : heap) (v : val) : res str :=
  t ← snapshot (S (length h)) [] h v;
  Ok (stringify_tree space t).

(** ** The node of the graph view

    Modelled from the spec: the declaration of [NodeData] lives in
    [types/graph], outside the sources at hand.  A row is
    [{key?, value, type}] with a scalar value; a path is a sequence of
    object keys and array indices, and may be absent. *)

Inductive row_type :=
| TyObject | TyArray | TyProperty | TyString | TyNumber | TyBoolean | TyNull.

Inductive scalar :=
| SStr (s : str)
| SNum (n : num)
| SBool (b : bool)
| SNull.

Record NodeRow := { key : option str; value : scalar; type : row_type }.

Record NodeData := { id : str; text : list NodeRow; path : option (list seg) }.

(** Truthiness of [row.key]: present and not the empty string. *)
Definition truthy (k : option str) : bool :=
  match k with
  | Some (_ :: _) => true
  | _ => false
  end.

(** The template literal [`${v}`]. *)
Definition ToString (v : scalar) : str :=
  match v with
  | SStr s => s
  | SNum n => Number_toString n
  | SBool b => if b then lit "true" else lit "false"
  | SNull => lit "null"
  end.

Definition tree_of_scalar (v : scalar) : jtree :=
  match v with
  | SStr s => JStr s
  | SNum n => JNum n
  | SBool b => JBool b
  | SNull => JNull
  end.

Definition is_container_type (ty : row_type) : bool :=
  match ty with
  | TyArray | TyObject => true
  | _ => false
  end.

(** ** [normalizeNodeData] *)

(** The body of the [forEach]: [obj[row.key] = row.value] for the rows that
    pass both tests.  The object is local and holds scalars only. *)
Definition add_row (obj : list (str * jtree)) (row : NodeRow) : list (str * jtree) :=
  if negb (is_container_type (type row)) then
    match key row with
    | Some k => if truthy (key row) then props_set obj k (tree_of_scalar (value row)) else obj
    | None => obj
    end
  else obj.

Definition normalizeNodeData (nodeRows : list NodeRow) : str :=
  match nodeRows with
  | [] => lit "{}"
  | row0 :: _ =>
      if (length nodeRows =? 1)%nat && negb (truthy (key row0)) then ToString (value row0)
      else stringify_tree 2 (JObj (fold_left add_row nodeRows []))
  end.

(** ** [jsonPathToString] *)

Definition segment_text (s : seg) : str :=
  match s with
  | SegNum n => Number_toString (num_of_N n)
  | SegStr k => dq :: k ++ [dq]
  end.

Definition jsonPathToString (path : option (list seg)) : str :=
  match path with
  | None | Some [] => lit "$"
  | Some p => lit "$[" ++ join (lit "][") (map segment_text p) ++ lit "]"
  end.

(** ** [setValueAtPath] *)

(** The [for] loop over all segments but the last; [target] walks down,
    replacing what it finds by a fresh container where the test fails. *)
Fixpoint descend (h : heap) (target : val) (segs : list seg) : res (val * heap) :=
  match segs with
  | [] => Ok (target, h)
  | s :: rest =>
      cur ← get h target (to_key s);
      let fresh := match s with SegNum _ => OArr [] [] | SegStr _ => OObj [] end in
      let keep := match s with SegNum _ => Array_isArray h cur | SegStr _ => is_object cur end in
      h' ← (if keep then Ok h
            else let '(c, h1) := new_object h fresh in set h1 target (to_key s) c);
      target' ← get h' target (to_key s);
      descend h' target' rest
  end.

Definition setValueAtPath (obj : val) (path : option (list seg)) (value : val) (h : heap)
  : res (val * heap) :=
  match path with
  | None | Some [] => Ok (value, h)
  | Some (s0 :: p) =>
      '(target, h1) ← descend h obj (removelast (s0 :: p));
      h2 ← set h1 target (to_key (List.last p s0)) value;
      Ok (obj, h2)
  end.

(** ** [handleSave] *)

Record State := {
  json : str;
  selectedNode : option NodeData;
  nodes : list NodeData;
  editing : bool;
  draft : str;
  error : option exn
}.

Definition is_leaf (n : NodeData) : bool :=
  match text n with
  | [row] => negb (truthy (key row))
  | _ => false
  end.

(** [target = target?.[seg]] along the whole path, leaving at [undefined]. *)
Fixpoint lookup_path (h : heap) (target : val) (p : list seg) : val :=
  match p with
  | [] => target
  | s :: rest =>
      match opt_get h target (to_key s) with
      | VUndef => VUndef
      | t => lookup_path h t rest
      end
  end.

(** [Object.keys(parsed).forEach(key => target[key] = parsed[key])]. *)
Fixpoint merge_keys (h : heap) (target parsed : val) (keys : list str) : res heap :=
  match keys with
  | [] => Ok h
  | k :: rest =>
      v ← get h parsed k;
      h' ← set h target k v;
      merge_keys h' target parsed rest
  end.

Definition tree_of_seg (s : seg) : jtree :=
  match s with
  | SegStr k => JStr k
  | SegNum n => JNum (num_of_N n)
  end.

(** [JSON.stringify(path ?? [])]. *)
Definition path_text (p : option (list seg)) : str :=
  stringify_tree 0 (JArr (map tree_of_seg (default [] p)) []).

Section NodeModal.

(** Modelled from the spec: the graph store [useGraph] is a collaborator
    outside the sources at hand; [setGraph doc] is the node collection it
    holds once [setJson doc] has returned. *)
Context (setGraph : str -> list NodeData).

(** What the [try] block computes: the new document text. *)
Definition save_document (st : State) : res str :=
  '(parsed, h0) ← JSON_parse (draft st) [];
  let '(originalObj, h1) :=
    match JSON_parse (json st) h0 with
    | Ok r => r
    | Throw _ => (parsed, h0)
    end in
  match selectedNode st with
  | Some nodeData =>
      if is_leaf nodeData then
        '(newObj, h2) ← setValueAtPath originalObj (path nodeData) parsed h1;
        JSON_stringify 2 h2 newObj
      else
        match path nodeData with
        | Some p =>
            let target := lookup_path h1 originalObj p in
            if is_object target then
              keys ← Object_keys h1 parsed;
              h2 ← merge_keys h1 target parsed keys;
              '(newObj, h3) ← setValueAtPath originalObj (Some p) target h2;
              JSON_stringify 2 h3 newObj
            else
              '(newObj, h2) ← setValueAtPath originalObj (Some p) parsed h1;
              JSON_stringify 2 h2 newObj
        | None => JSON_stringify 2 h1 parsed
        end
  | None => JSON_stringify 2 h1 parsed
  end.

(** [nodes.find(n => JSON.stringify(n.path ?? []) === pathStr)]. *)
Definition relocate (ns : list NodeData) (target : option (list seg)) : option NodeData :=
  let pathStr := path_text target in
  List.find (fun n => text_eqb (path_text (path n)) pathStr) ns.

Definition handleSave (st : State) : State :=
  match save_document st with
  | Ok doc =>
      let ns := setGraph doc in
      let found := relocate ns (selectedNode st ≫= path) in
      {| json := doc;
         selectedNode := match found with Some n => Some n | None => selectedNode st end;
         nodes := ns;
         editing := false;
         draft := draft st;
         error := None |}
  | Throw e =>
      {| json := json st;
         selectedNode := selectedNode st;
         nodes := nodes st;
         editing := editing st;
         draft := draft st;
         error := Some e |}
  end.

End NodeModal.

(** ** States used in the statements *)

Definition with_error (st : State) (e : exn) : State :=
  {| json := json st;
     selectedNode := selectedNode st;
     nodes := nodes st;
     editing := editing st;
     draft := draft st;
     error := Some e |}.

Definition example_state (doc edited : string) (rows : list NodeRow) (p : option (list seg)) : State :=
  {| json := json_lit doc;
     selectedNode := Some {| id := lit "n"; text := rows; path := p |};
     nodes := [];
     editing := true;
     draft := json_lit edited;
     error := None |}.

Definition leaf_row : NodeRow := {| key := None; value := SNum (Num 1 0); type := TyNumber |}.

Definition field_row (k : string) (n : Z) : NodeRow :=
  {| key := Some (lit k); value := SNum (Num n 0); type := TyNumber |}.

Definition saved (doc edited : string) (rows : list NodeRow) (p : list seg) : State :=
  handleSave (fun _ => []) (example_state doc edited rows (Some p)).

(** ** Auxiliary notions for the number token *)

(** A digit string in lowest form: no leading zero, but for zero itself. *)
Definition lowest (ds : list N) : Prop :=
  Forall (fun d => d < 10) ds /\
  match ds with
  | [] => False
  | [_] => True
  | d :: _ => d <> 0
  end.

(** What may follow a number token: anything that does not continue it. *)
Definition ends_number (rest : str) : bool :=
  match rest with
  | [] => true
  | c :: _ => negb (is_digit c || (c =? 46) || (c =? 101) || (c =? 69))
  end.

Definition no_digit_head (rest : str) : Prop :=
  match rest with
  | c :: _ => is_digit c = false
  | [] => True
  end.

(** The text of a number token from its parts. *)
Definition number_text (neg : bool) (ip fp : list N) (ex : option Z) : str :=
  (if neg then [45] else []) ++ show_digits ip
  ++ match fp with [] => [] | _ => 46 :: show_digits fp end
  ++ match ex with
     | None => []
     | Some e => 101 :: (if (e <? 0)%Z then 45 else 43) :: show_digits (digits (Z.abs_N e))
     end.

(** ** Auxiliary notions for the round trips *)

(** The JSON text of a scalar. *)
Definition scalar_text (v : scalar) : str :=
  match v with
  | SStr s => quote s
  | SNum n => Number_toString n
  | SBool b => if b then lit "true" else lit "false"
  | SNull => lit "null"
  end.

(** Numbers as the model holds them: in lowest form. *)
Definition scalar_wf (v : scalar) : Prop :=
  match v with
  | SNum n => canonical n
  | _ => True
  end.

(** The first character of a value: no white space, no closing bracket. *)
Definition value_head (c : N) : bool :=
  negb (is_ws c) && negb (c =? 93) && negb (c =? 125).

Definition scalar_of_seg (s : seg) : scalar :=
  match s with
  | SegStr k => SStr k
  | SegNum n => SNum (num_of_N n)
  end.

(** A member [key: value] of a printed object, [wsc] after the colon. *)
Definition member (wsc : str) (kv : str * scalar) : str :=
  quote (fst kv) ++ 58 :: wsc ++ scalar_text (snd kv).

Definition set_scalar (acc : list (str * jtree)) (kv : str * scalar) : list (str * jtree) :=
  props_set acc (fst kv) (tree_of_scalar (snd kv)).

Definition entry_tree (kv : str * scalar) : str * jtree := (fst kv, tree_of_scalar (snd kv)).

(** The rows [normalizeNodeData] keeps: a key that is truthy, a type that
    is neither ["array"] nor ["object"]. *)
Definition row_entry (r : NodeRow) : option (str * scalar) :=
  if negb (is_container_type (type r)) && truthy (key r)
  then (fun k => (k, value r)) <$> key r
  else None.

Definition entries (rows : list NodeRow) : list (str * scalar) := omap row_entry rows.

Definition is_string (v : scalar) : bool :=
  match v with
  | SStr _ => true
  | _ => false
  end.

(** ** The locator of the specification: [$[seg1][seg2]...] *)

(** A string segment between double quotes, an integer segment bare. *)
Definition locator_segment (s : seg) : str :=
  match s with
  | SegStr k => [dq] ++ k ++ [dq]
  | SegNum n => Number_toString (num_of_N n)
  end.

Fixpoint locator_segments (p : list seg) : str :=
  match p with
  | [] => []
  | s :: rest => lit "[" ++ locator_segment s ++ lit "]" ++ locator_segments rest
  end.

Definition locator (p : list seg) : str := lit "$" ++ locator_segments p.

(** ** The re-locator of the specification: the first node whose path is
    the target, segment by segment; an absent path is the empty one. *)
Definition find_by_path (ns : list NodeData) (target : option (list seg)) : option NodeData :=
  List.find (fun n => bool_decide (default [] (path n) = default [] target)) ns.

(** ** The mutation on trees

    What [setValueAtPath] does to a document that shares nothing with the
    value, told on trees: properties are read and written by name, and
    the walk replaces what fails its test by a fresh container. *)

Definition tree_get (t : jtree) (k : str) : jtree :=
  match t with
  | JObj ps => default JUndefined (props_lookup ps k)
  | JArr es nm =>
      match array_index k with
      | Some i => default JUndefined (es !! N.to_nat i)
      | None => default JUndefined (props_lookup nm k)
      end
  | JStr s =>
      match array_index k with
      | Some i => match s !! N.to_nat i with Some c => JStr [c] | None => JUndefined end
      | None => JUndefined
      end
  | _ => JUndefined
  end.

Definition tree_set (t : jtree) (k : str) (v : jtree) : jtree :=
  match t with
  | JObj ps => JObj (props_set ps k v)
  | JArr es nm =>
      match array_index k with
      | Some i => JArr (array_set JUndefined es (N.to_nat i) v) nm
      | None => JArr es (props_set nm k v)
      end
  | _ => t
  end.

Definition is_container (t : jtree) : bool :=
  match t with
  | JObj _ | JArr _ _ => true
  | _ => false
  end.

Definition is_array (t : jtree) : bool :=
  match t with
  | JArr _ _ => true
  | _ => false
  end.

Definition fresh_container (s : seg) : jtree :=
  match s with
  | SegNum _ => JArr [] []
  | SegStr _ => JObj []
  end.

(** The test of the loop: what is found is kept when it passes. *)
Definition kept (s : seg) (cur : jtree) : bool :=
  match s with
  | SegNum _ => is_array cur
  | SegStr _ => is_container cur
  end.

Fixpoint tree_set_path (t : jtree) (p : list seg) (v : jtree) : jtree :=
  match p with
  | [] => v
  | s :: rest =>
      match rest with
      | [] => tree_set t (to_key s) v
      | _ =>
          let cur := tree_get t (to_key s) in
          let child := if kept s cur then cur else fresh_container s in
          tree_set t (to_key s) (tree_set_path child rest v)
      end
  end.

(** The value at a path, as [lookup_path] reads it. *)
Fixpoint tree_lookup (t : jtree) (p : list seg) : jtree :=
  match p with
  | [] => t
  | s :: rest =>
      match tree_get t (to_key s) with
      | JUndefined => JUndefined
      | c => tree_lookup c rest
      end
  end.

(** What [JSON.stringify] sees of a tree: not the named properties of
    arrays. *)
Fixpoint erase (t : jtree) : jtree :=
  match t with
  | JArr es _ => JArr (map erase es) []
  | JObj ps => JObj (map (fun kv => (fst kv, erase (snd kv))) ps)
  | _ => t
  end.

(** [setValueAtPath] on a document and a value that share nothing, both
    freshly built, observed as [JSON.stringify] walks its result. *)
Definition run_set (t : jtree) (p : list seg) (v : jtree) : res jtree :=
  let '(value, h0) := alloc v [] in
  let '(obj, h1) := alloc t h0 in
  '(newObj, h2) ← setValueAtPath obj (Some p) value h1;
  snapshot (S (length h2)) [] h2 newObj.

#[global] Instance res_fmap : FMap res :=
  fun A B f m => match m with Ok a => Ok (f a) | Throw e => Throw e end.

(** ** Trees in the store *)

(** [repr h v t F]: in the store [h] the value [v] is the root of the
    tree [t], built from the objects at the locations [F], each used
    once. *)
Inductive repr (h : heap) : val -> jtree -> gset nat -> Prop :=
| repr_undef : repr h VUndef JUndefined ∅
| repr_null : repr h VNull JNull ∅
| repr_bool b : repr h (VBool b) (JBool b) ∅
| repr_num n : repr h (VNum n) (JNum n) ∅
| repr_str s : repr h (VStr s) (JStr s) ∅
| repr_ref l o t F :
    h !! l = Some o -> repr_obj h o t F -> l ∉ F -> repr h (VRef l) t ({[l]} ∪ F)
with repr_obj (h : heap) : object -> jtree -> gset nat -> Prop :=
| repr_oobj ps tps F :
    repr_props h ps tps F -> repr_obj h (OObj ps) (JObj tps) F
| repr_oarr es nm tes tnm F1 F2 :
    repr_list h es tes F1 -> repr_props h nm tnm F2 -> F1 ## F2 ->
    repr_obj h (OArr es nm) (JArr tes tnm) (F1 ∪ F2)
with repr_list (h : heap) : list val -> list jtree -> gset nat -> Prop :=
| repr_lnil : repr_list h [] [] ∅
| repr_lcons v t vs ts F1 F2 :
    repr h v t F1 -> repr_list h vs ts F2 -> F1 ## F2 ->
    repr_list h (v :: vs) (t :: ts) (F1 ∪ F2)
with repr_props (h : heap) : list (str * val) -> list (str * jtree) -> gset nat -> Prop :=
| repr_pnil : repr_props h [] [] ∅
| repr_pcons k v t ps tps F1 F2 :
    repr h v t F1 -> repr_props h ps tps F2 -> F1 ## F2 ->
    repr_props h ((k, v) :: ps) ((k, t) :: tps) (F1 ∪ F2).

Scheme repr_mut := Minimality for repr Sort Prop
  with repr_obj_mut := Minimality for repr_obj Sort Prop
  with repr_list_mut := Minimality for repr_list Sort Prop
  with repr_props_mut := Minimality for repr_props Sort Prop.

Combined Scheme repr_mutind from repr_mut, repr_obj_mut, repr_list_mut, repr_props_mut.

(** What [alloc] builds: the tree, on fresh locations, leaving the store
    it started from as it was. *)
Definition alloc_spec (t : jtree) : Prop :=
  forall h v h', alloc t h = (v, h') ->
  exists F, repr h' v t F
            /\ (forall l, l ∈ F -> (length h <= l)%nat)
            /\ (forall l, (l < length h)%nat -> h' !! l = h !! l)
            /\ (length h <= length h')%nat.

Definition with_node (st : State) (n : NodeData) : State :=
  {| json := json st;
     selectedNode := Some n;
     nodes := nodes st;
     editing := editing st;
     draft := draft st;
     error := error st |}.

(** ** The merge on trees *)

(** The document with the subtree at a path replaced. *)
Fixpoint tree_put (t : jtree) (p : list seg) (x : jtree) : jtree :=
  match p with
  | [] => x
  | s :: rest => tree_set t (to_key s) (tree_put (tree_get t (to_key s)) rest x)
  end.

(** Each key of the edited object written onto the target, in turn. *)
Definition merge_tree (target : jtree) (edited : list (str * jtree)) : jtree :=
  fold_left (fun acc kv => tree_set acc (fst kv) (snd kv)) edited target.

(** The walk of [setValueAtPath] along the path replaces nothing: every
    segment but the last finds a value that passes its test. *)
Fixpoint walk_keeps (t : jtree) (p : list seg) : bool :=
  match p with
  | [] => true
  | s :: rest =>
      match rest with
      | [] => true
      | _ => kept s (tree_get t (to_key s)) && walk_keeps (tree_get t (to_key s)) rest
      end
  end.

(** ** What [JSON.parse] reads back from the text of a tree *)

Definition is_undefined (t : jtree) : bool :=
  match t with
  | JUndefined => true
  | _ => false
  end.

(** [JSON.stringify] prints a hole of an array as [null], leaves out a
    property that holds [undefined] and the named properties of an array;
    [JSON.parse] builds each object by writing the members in turn. *)
Fixpoint reparse (t : jtree) : jtree :=
  match t with
  | JArr es _ => JArr (map (fun e => if is_undefined e then JNull else reparse e) es) []
  | JObj ps =>
      JObj (fold_left
              (fun acc kv => match snd kv with
                             | Some v => props_set acc (fst kv) v
                             | None => acc
                             end)
              (map (fun kv => (fst kv, if is_undefined (snd kv) then None
                                       else Some (reparse (snd kv)))) ps)
              [])
  | _ => t
  end.

Definition reparse_elem (e : jtree) : jtree := if is_undefined e then JNull else reparse e.

(** The text of an element of an array. *)
Definition elem_text (gap indent : str) (e : jtree) : str :=
  default (lit "null") (serialize gap indent e).

#[global] Instance canonical_dec (x : num) : Decision (canonical x).
Proof. unfold canonical. apply _. Defined.

(** Every number of the tree is in lowest form. *)
Fixpoint tree_ok (t : jtree) : bool :=
  match t with
  | JNum n => bool_decide (canonical n)
  | JArr es nm => forallb tree_ok es && forallb (fun kv => tree_ok (snd kv)) nm
  | JObj ps => forallb (fun kv => tree_ok (snd kv)) ps
  | _ => true
  end.

(** The number of values of a tree, each counted with its place. *)
Fixpoint tsize (t : jtree) : nat :=
  match t with
  | JArr es _ => S (list_sum (map (fun e => S (tsize e)) es))
  | JObj ps => S (list_sum (map (fun kv => S (tsize (snd kv))) ps))
  | _ => 1
  end.

(** ** The shape of what [JSON.parse] builds *)

(** The order of the own keys of an object: array indices ascending, then
    the other names, no key twice. *)
Definition key_ltb (a b : str) : bool :=
  match array_index a, array_index b with
  | Some i, Some j => i <? j
  | Some _, None => true
  | None, Some _ => false
  | None, None => negb (text_eqb a b)
  end.

Fixpoint keys_sorted (ks : list str) : bool :=
  match ks with
  | [] => true
  | k :: r => forallb (key_ltb k) r && keys_sorted r
  end.

(** No [undefined], no named property on an array, keys in order. *)
Fixpoint parsed_shape (t : jtree) : bool :=
  match t with
  | JUndefined => false
  | JArr es nm => forallb parsed_shape es && match nm with [] => true | _ => false end
  | JObj ps => keys_sorted (map fst ps) && forallb (fun kv => parsed_shape (snd kv)) ps
  | _ => true
  end.

(** ** Numbers in the store *)

Definition val_ok (v : val) : bool :=
  match v with
  | VNum n => bool_decide (canonical n)
  | _ => true
  end.

Definition obj_ok (o : object) : bool :=
  match o with
  | OObj ps => forallb (fun kv => val_ok (snd kv)) ps
  | OArr es nm => forallb val_ok es && forallb (fun kv => val_ok (snd kv)) nm
  end.

Definition heap_ok (h : heap) : bool := forallb obj_ok h.

(** ** Paths that part ways *)

(** Two paths that share a prefix and then continue under different
    keys. *)
Definition diverges (p q : list seg) : Prop :=
  exists r s s' p' q', p = r ++ s :: p' /\ q = r ++ s' :: q' /\ to_key s <> to_key s'.

(** ** The other handlers of the component *)

(** [nodeData?.text ?? []]. *)
Definition node_rows (st : State) : list NodeRow :=
  match selectedNode st with
  | Some n => text n
  | None => []
  end.

(** [handleEdit]: the draft starts from the text of the node. *)
Definition handleEdit (st : State) : State :=
  {| json := json st;
     selectedNode := selectedNode st;
     nodes := nodes st;
     editing := true;
     draft := normalizeNodeData (node_rows st);
     error := None |}.

(** [handleCancel]. *)
Definition handleCancel (st : State) : State :=
  {| json := json st;
     selectedNode := selectedNode st;
     nodes := nodes st;
     editing := false;
     draft := normalizeNodeData (node_rows st);
     error := None |}.

(** [onChange] of the text area: [setDraft(e.currentTarget.value)]. *)
Definition setDraft (d : str) (st : State) : State :=
  {| json := json st;
     selectedNode := selectedNode st;
     nodes := nodes st;
     editing := editing st;
     draft := d;
     error := error st |}.

(** ** Keys that the locator shows unambiguously *)

Definition quote_free (s : seg) : Prop :=
  match s with
  | SegStr k => dq ∉ k
  | SegNum _ => True
  end.

(** ** The merge of any value *)

(** The index keys of [Object.keys]: one for each element that is not a
    hole. *)
Fixpoint index_keys (i : nat) (present : list bool) : list str :=
  match present with
  | [] => []
  | d :: r => (if d then [index_key i] else []) ++ index_keys (S i) r
  end.

(** [Object.keys] on trees; [None] where it throws. *)
Definition own_keys (e : jtree) : option (list str) :=
  match e with
  | JUndefined | JNull => None
  | JBool _ | JNum _ => Some []
  | JStr s => Some (map index_key (seq 0 (length s)))
  | JArr es nm => Some (index_keys 0 (map (fun v => negb (is_undefined v)) es) ++ map fst nm)
  | JObj ps => Some (map fst ps)
  end.

(** [keys.forEach(key => target[key] = parsed[key])] on trees. *)
Definition merge_keys_tree (target e : jtree) (keys : list str) : jtree :=
  fold_left (fun acc k => tree_set acc k (tree_get e k)) keys target.

(** ** When a save of a JSON draft fails *)

Definition is_null (t : jtree) : bool :=
  match t with
  | JNull => true
  | _ => false
  end.

Definition is_nil {A} (l : list A) : bool :=
  match l with
  | [] => true
  | _ => false
  end.

(** The document [t] and the draft [e] both parsed: the save throws when
    it has to write into a document that is not an object or an array, or
    to take the keys of [null]. *)
Definition save_throws (st : State) (t e : jtree) : bool :=
  match selectedNode st with
  | Some node =>
      if is_leaf node then negb (is_container t) && negb (is_nil (default [] (path node)))
      else
        match path node with
        | Some p =>
            if is_container (tree_lookup t p) then is_null e
            else negb (is_container t) && negb (is_nil p)
        | None => false
        end
  | None => false
  end.

(** ** The round trip through the printer and the parser *)

(** A tree, printed as an element with any indentation and followed by
    any text, is read back as what [reparse] tells, given fuel for its
    size. *)
Definition round_trips (t : jtree) : Prop :=
  forall gap indent rest f,
    forallb is_ws gap = true -> forallb is_ws indent = true ->
    tree_ok t = true -> ends_number rest = true -> (tsize t <= f)%nat ->
    parse_value f (elem_text gap indent t ++ rest) = Some (reparse_elem t, rest).

(** The members of a printed object: the properties that hold a value. *)
Definition defined_props (ps : list (str * jtree)) : list (str * jtree) :=
  List.filter (fun kv => negb (is_undefined (snd kv))) ps.

(** ** Keys that are plain properties

    Writing [__proto__] on an object that does not own it reaches the
    prototype, and writing [length] on an array resizes it.  The model
    has own data properties only, so the statements that write keys
    taken from the draft, from the rows or from any path leave these two
    names aside. *)
Definition plain_key (k : str) : bool :=
  negb (text_eqb k (lit "length")) && negb (text_eqb k (lit "__proto__")).

(** ** The bounds of the model

    The code runs on binary64 numbers, on objects that inherit from
    their prototypes, and on an engine with a call stack and a longest
    string.  The model has exact decimals, own data properties and no
    limit of size.  The two agree on the inputs described here, and the
    statements that would not hold of the code outside them carry these
    descriptions as premises. *)

(** A number that binary64 gives back as it was read: at most fifteen
    significant digits, in the range of the normal numbers. *)
Definition num_exact (x : num) : bool :=
  (Z.abs (mant x) <? 10 ^ 15)%Z && (-292 <=? expo x)%Z && (expo x <=? 292)%Z.

Fixpoint nums_exact (t : jtree) : bool :=
  match t with
  | JNum n => num_exact n
  | JArr es nm => forallb nums_exact es && forallb (fun kv => nums_exact (snd kv)) nm
  | JObj ps => forallb (fun kv => nums_exact (snd kv)) ps
  | _ => true
  end.

(** The nesting of a tree. *)
Fixpoint depth (t : jtree) : nat :=
  match t with
  | JArr es nm =>
      S (max (fold_right max 0%nat (map depth es))
             (fold_right max 0%nat (map (fun kv => depth (snd kv)) nm)))
  | JObj ps => S (fold_right max 0%nat (map (fun kv => depth (snd kv)) ps))
  | _ => 0%nat
  end.

(** The values of a tree and the characters of its strings and keys,
    counted together. *)
Fixpoint weight (t : jtree) : N :=
  match t with
  | JStr s => 1 + N.of_nat (length s)
  | JArr es nm =>
      1 + fold_right N.add 0 (map weight es)
        + fold_right N.add 0 (map (fun kv => N.of_nat (length (fst kv)) + weight (snd kv)) nm)
  | JObj ps =>
      1 + fold_right N.add 0 (map (fun kv => N.of_nat (length (fst kv)) + weight (snd kv)) ps)
  | _ => 1
  end.

(** A tree the code handles as the model does: numbers that binary64
    gives back, nested at most 64 deep, of weight 65536 at most, far
    inside what the stack and the strings of an engine hold. *)
Definition plain_tree (t : jtree) : bool :=
  nums_exact t && (depth t <=? 64)%nat && (weight t <=? 65536).

(** What a segment adds to the size of what is printed: the holes that
    a write at an index can leave before it. *)
Definition seg_weight (s : seg) : N :=
  match array_index (to_key s) with
  | Some i => 1 + i
  | None => 1
  end.

Definition plain_seg (s : seg) : bool :=
  match s with
  | SegStr k => plain_key k
  | SegNum _ => true
  end.

(** A path [setValueAtPath] handles as the model does: plain keys, at
    most 64 segments, indices that add up to 65536 at most. *)
Definition plain_path (p : list seg) : bool :=
  forallb plain_seg p && (length p <=? 64)%nat
  && (fold_right N.add 0 (map seg_weight p) <=? 65536).

(** The keys that, read on a function, give an object or throw.  The
    search of [handleSave] for the value at the path reads inherited
    properties too, and an inherited method is a function. *)
Definition function_key (k : str) : bool :=
  text_eqb k (lit "prototype") || text_eqb k (lit "caller") || text_eqb k (lit "arguments").

Definition data_seg (s : seg) : bool :=
  match s with
  | SegStr k => negb (function_key k)
  | SegNum _ => true
  end.

(** A path that the search of [handleSave] follows as the model does. *)
Definition data_path (p : list seg) : bool := plain_path p && forallb data_seg p.

(** A key of the draft that the merge writes as the model does: plain,
    and no index beyond 65536. *)
Definition merge_key (k : str) : bool :=
  plain_key k && match array_index k with Some i => i <? 65536 | None => true end.

(** ** Where the walk of [setValueAtPath] stands *)

(** The container the loop is in after the segments [q]: at each of
    them what it found and kept, or what it made. *)
Fixpoint walked (t : jtree) (q : list seg) : jtree :=
  match q with
  | [] => t
  | s :: q' =>
      let cur := tree_get t (to_key s) in
      walked (if kept s cur then cur else fresh_container s) q'
  end.

(** A key under which a container holds what [JSON.stringify] prints:
    any key of an object, an index of an array. *)
Definition prints_key (t : jtree) (k : str) : bool :=
  match t with
  | JObj _ => true
  | JArr _ _ => match array_index k with Some _ => true | None => false end
  | _ => false
  end.

(** Every key of the path falls on a container that prints it. *)
Fixpoint lands (t : jtree) (p : list seg) : bool :=
  match p with
  | [] => true
  | s :: rest =>
      prints_key t (to_key s)
      && match rest with
         | [] => true
         | _ =>
             let cur := tree_get t (to_key s) in
             lands (if kept s cur then cur else fresh_container s) rest
         end
  end.
(** * Properties *)

(** ** The run time on examples *)

Example lex_number_ex1 :
  lex_number (lit "-12.50e3,") = Some (Num (-125) 2, lit ",").
Proof. vm_compute. reflexivity. Qed.

Example Number_toString_ex1 :
  map Number_toString [Num 0 0; Num (-125) 2; Num 15 (-1); Num 1 21; Num 1 (-7); Num 12 (-8); Num 5 (-6)]
  = map lit ["0"; "-12500"; "1.5"; "1e+21"; "1e-7"; "1.2e-7"; "0.000005"]%string.
Proof. vm_compute. reflexivity. Qed.

Example parse_text_ex1 :
  parse_text (json_lit "{'b': [1, true, null, 'xA\n'], '1': {}, 'b': -2.5e1 } ")
  = Some (JObj [(lit "1", JObj []); (lit "b", JNum (Num (-25) 0))]).
Proof. vm_compute. reflexivity. Qed.

Example parse_text_ex2 :
  map parse_text [lit "{bad"; lit "hello"; lit "01"; lit "[1,]"; lit ""; lit "1 2"]
  = [None; None; None; None; None; None].
Proof. vm_compute. reflexivity. Qed.

Example serialize_ex1 :
  serialize (lit "  ") []
    (JObj [(lit "a", JArr [JNum (Num 1 0); JUndefined; JStr (lit "x")] [(lit "k", JNull)]);
           (lit "u", JUndefined); (lit "e", JObj []); (lit "f", JArr [] [])])
  = Some (json_lit "{
  'a': [
    1,
    null,
    'x'
  ],
  'e': {},
  'f': []
}").
Proof. vm_compute. reflexivity. Qed.

(** ** Decimal digits *)

Lemma of_digits_snoc ds d : of_digits (ds ++ [d]) = 10 * of_digits ds + d.
Proof. unfold of_digits. rewrite fold_left_app. reflexivity. Qed.

Lemma of_digits_app a b :
  of_digits (a ++ b) = of_digits a * 10 ^ N.of_nat (length b) + of_digits b.
Proof.
  induction b as [|d b IH] using rev_ind.
  - rewrite app_nil_r. simpl. unfold of_digits at 3. simpl. lia.
  - rewrite app_assoc, !of_digits_snoc, IH, length_app. simpl.
    replace (N.of_nat (length b + 1)) with (N.succ (N.of_nat (length b))) by lia.
    rewrite N.pow_succ_r'. lia.
Qed.

Lemma of_digits_cons d ds :
  of_digits (d :: ds) = d * 10 ^ N.of_nat (length ds) + of_digits ds.
Proof.
  change (d :: ds) with ([d] ++ ds). rewrite of_digits_app.
  unfold of_digits at 1. simpl. lia.
Qed.

Lemma of_digits_zeros j : of_digits (zeros j) = 0.
Proof.
  induction j as [|j IH]; [reflexivity|].
  unfold zeros in *. simpl repeat. rewrite of_digits_cons, IH. lia.
Qed.

Lemma of_digits_lt ds :
  Forall (fun d => d < 10) ds -> of_digits ds < 10 ^ N.of_nat (length ds).
Proof.
  induction ds as [|d ds IH] using rev_ind; intros H.
  - unfold of_digits. simpl. lia.
  - apply Forall_app in H as [H1 H2]. apply Forall_cons in H2 as [Hd _].
    rewrite of_digits_snoc, length_app. simpl.
    replace (N.of_nat (length ds + 1)) with (N.succ (N.of_nat (length ds))) by lia.
    rewrite N.pow_succ_r'. specialize (IH H1). lia.
Qed.

Lemma lowest_pos d d' ds : lowest (d :: d' :: ds) -> 10 <= of_digits (d :: d' :: ds).
Proof.
  intros [_ Hd]. rewrite of_digits_cons. simpl length.
  replace (N.of_nat (S (length ds))) with (N.succ (N.of_nat (length ds))) by lia.
  rewrite N.pow_succ_r'.
  assert (10 ^ N.of_nat (length ds) <> 0) by (apply N.pow_nonzero; lia).
  nia.
Qed.

Lemma lowest_init ds d : ds <> [] -> lowest (ds ++ [d]) -> lowest ds /\ of_digits ds <> 0.
Proof.
  intros Hne [Hall Hhd].
  apply Forall_app in Hall as [Hall _].
  destruct ds as [|a [|b ds]]; [congruence| |].
  - simpl in Hhd. split; [split; [assumption|exact I]|].
    unfold of_digits. simpl. lia.
  - simpl in Hhd. split; [split; assumption|].
    pose proof (lowest_pos a b ds (conj Hall Hhd)). lia.
Qed.

Lemma digits_aux_of_digits ds :
  lowest ds ->
  forall f acc, of_digits ds < 2 ^ N.of_nat f -> digits_aux f (of_digits ds) acc = ds ++ acc.
Proof.
  induction ds as [|d ds IH] using rev_ind; intros Hl f acc Hf.
  - destruct Hl as [_ []].
  - destruct (decide (ds = [])) as [->|Hne].
    + destruct Hl as [Hall _]. apply Forall_cons in Hall as [Hd _].
      change (of_digits ([] ++ [d])) with d in *. simpl app.
      destruct f; simpl; [reflexivity|].
      destruct (N.ltb_spec d 10); [reflexivity|lia].
    + destruct (lowest_init ds d Hne Hl) as [Hl' Hnz].
      assert (Hd : d < 10).
      { destruct Hl as [Hall _]. apply Forall_app in Hall as [_ Hall].
        apply Forall_cons in Hall as [Hd _]. exact Hd. }
      rewrite of_digits_snoc in *.
      destruct f as [|f].
      { simpl in Hf. lia. }
      simpl. destruct (N.ltb_spec (10 * of_digits ds + d) 10); [lia|].
      replace ((10 * of_digits ds + d) / 10) with (of_digits ds)
        by (apply N.div_unique with d; lia).
      replace ((10 * of_digits ds + d) mod 10) with d
        by (apply N.mod_unique with (of_digits ds); lia).
      rewrite IH, <- app_assoc; [reflexivity|assumption|].
      replace (N.of_nat (S f)) with (N.succ (N.of_nat f)) in Hf by lia.
      rewrite N.pow_succ_r' in Hf. lia.
Qed.

Lemma digits_of_digits ds : lowest ds -> digits (of_digits ds) = ds.
Proof.
  intros Hl. unfold digits. rewrite digits_aux_of_digits, app_nil_r; [reflexivity|assumption|].
  rewrite N2Nat.id. apply N.size_gt.
Qed.

Lemma digits_aux_spec f : forall n acc,
  n < 2 ^ N.of_nat f ->
  exists ds, digits_aux f n acc = ds ++ acc /\ lowest ds /\ of_digits ds = n.
Proof.
  induction f as [|f IH]; intros n acc Hf.
  - simpl in *. exists [n]. assert (n = 0) as -> by lia.
    split; [reflexivity|]. split; [|reflexivity].
    split; [repeat constructor|exact I].
  - simpl. destruct (N.ltb_spec n 10).
    + exists [n]. split; [reflexivity|]. split; [|unfold of_digits; simpl; lia].
      split; [repeat constructor; assumption|exact I].
    + replace (N.of_nat (S f)) with (N.succ (N.of_nat f)) in Hf by lia.
      rewrite N.pow_succ_r' in Hf.
      assert (Hq : n / 10 < 2 ^ N.of_nat f).
      { apply N.Div0.div_lt_upper_bound. lia. }
      destruct (IH (n / 10) (n mod 10 :: acc) Hq) as (ds & Heq & Hl & Hv).
      exists (ds ++ [n mod 10]). rewrite Heq, <- app_assoc. split; [reflexivity|].
      assert (Hm : n mod 10 < 10) by (apply N.mod_lt; lia).
      split.
      * destruct Hl as [Hall Hhd]. split.
        { apply Forall_app. split; [assumption|repeat constructor; assumption]. }
        destruct ds as [|a [|b ds]]; [destruct Hhd| |exact Hhd].
        simpl. intros ->. unfold of_digits in Hv. simpl in Hv.
        assert (n / 10 <> 0); [|lia].
        intros Hz. apply N.div_small_iff in Hz; lia.
      * rewrite of_digits_snoc, Hv. symmetry. apply N.div_mod. lia.
Qed.

Lemma digits_spec n : lowest (digits n) /\ of_digits (digits n) = n.
Proof.
  unfold digits.
  destruct (digits_aux_spec (N.to_nat (N.size n)) n []) as (ds & Heq & Hl & Hv).
  { rewrite N2Nat.id. apply N.size_gt. }
  rewrite Heq, app_nil_r. split; assumption.
Qed.

Lemma digits_lowest n : lowest (digits n).
Proof. apply digits_spec. Qed.

Lemma of_digits_digits n : of_digits (digits n) = n.
Proof. apply digits_spec. Qed.

Lemma digits_inj a b : digits a = digits b -> a = b.
Proof. intros H. rewrite <- (of_digits_digits a), H. apply of_digits_digits. Qed.

Lemma digits_lt n : Forall (fun d => d < 10) (digits n).
Proof. apply digits_lowest. Qed.

Lemma digits_nonempty n : digits n <> [].
Proof. destruct (digits_lowest n) as [_ H]. intros E. rewrite E in H. exact H. Qed.

(** ** The number token *)

Lemma digit_char_is_digit d : d < 10 -> is_digit (digit_char d) = true.
Proof.
  intros H. unfold is_digit, digit_char.
  apply andb_true_iff. split; apply N.leb_le; lia.
Qed.

Lemma span_digits_show ds rest :
  Forall (fun d => d < 10) ds -> no_digit_head rest ->
  span_digits (show_digits ds ++ rest) = (ds, rest).
Proof.
  intros Hall Hrest. induction Hall as [|d ds Hd _ IH]; simpl.
  - destruct rest as [|c r]; [reflexivity|]. simpl in *. rewrite Hrest. reflexivity.
  - rewrite digit_char_is_digit by assumption.
    change (map digit_char ds) with (show_digits ds). rewrite IH.
    f_equal. f_equal. unfold digit_char. lia.
Qed.

Lemma show_digits_app a b : show_digits (a ++ b) = show_digits a ++ show_digits b.
Proof. apply map_app. Qed.

Lemma ends_number_no_digit rest : ends_number rest = true -> no_digit_head rest.
Proof.
  destruct rest as [|c r]; simpl; [trivial|].
  intros H. apply negb_true_iff in H.
  apply orb_false_iff in H as [H _]. apply orb_false_iff in H as [H _].
  apply orb_false_iff in H as [H _]. exact H.
Qed.

Lemma lex_int_show ds rest :
  lowest ds -> no_digit_head rest -> lex_int (show_digits ds ++ rest) = Some (ds, rest).
Proof.
  intros [Hall Hhd] Hrest.
  destruct ds as [|d ds]; [destruct Hhd|].
  pose proof (span_digits_show (d :: ds) rest Hall Hrest) as Hspan.
  apply Forall_cons in Hall as [Hd Hall].
  simpl show_digits in *. simpl app in *. unfold lex_int.
  destruct (N.eqb_spec (digit_char d) 48) as [E|E].
  - assert (d = 0) as -> by (unfold digit_char in E; lia).
    destruct ds as [|d' ds]; [reflexivity|]. simpl in Hhd. congruence.
  - rewrite digit_char_is_digit by assumption. rewrite Hspan. reflexivity.
Qed.

Lemma lex_frac_none rest :
  ends_number rest = true -> lex_frac rest = Some ([], rest).
Proof.
  destruct rest as [|c r]; [reflexivity|]. simpl. intros H.
  apply negb_true_iff in H.
  apply orb_false_iff in H as [H _]. apply orb_false_iff in H as [H _].
  apply orb_false_iff in H as [_ H]. rewrite H. reflexivity.
Qed.

Lemma lex_frac_show fp rest :
  fp <> [] -> Forall (fun d => d < 10) fp -> no_digit_head rest ->
  lex_frac (46 :: show_digits fp ++ rest) = Some (fp, rest).
Proof.
  intros Hne Hall Hrest. unfold lex_frac. simpl.
  rewrite span_digits_show by assumption.
  destruct fp; [congruence|reflexivity].
Qed.

Lemma lex_exp_none rest :
  ends_number rest = true -> lex_exp rest = Some (0%Z, rest).
Proof.
  destruct rest as [|c r]; [reflexivity|]. simpl. intros H.
  apply negb_true_iff in H.
  apply orb_false_iff in H as [H H69]. apply orb_false_iff in H as [H H101].
  rewrite H101, H69. reflexivity.
Qed.

Lemma lex_exp_show e rest :
  no_digit_head rest ->
  lex_exp (101 :: (if (e <? 0)%Z then 45 else 43) :: show_digits (digits (Z.abs_N e)) ++ rest)
  = Some (e, rest).
Proof.
  intros Hrest. unfold lex_exp. simpl.
  assert (Hd : lex_exp_digits (e <? 0)%Z (show_digits (digits (Z.abs_N e)) ++ rest)
               = Some (e, rest)).
  { unfold lex_exp_digits. rewrite span_digits_show by (auto using digits_lt).
    pose proof (digits_nonempty (Z.abs_N e)).
    destruct (digits (Z.abs_N e)) eqn:E; [congruence|]. rewrite <- E, of_digits_digits.
    f_equal. f_equal. destruct (Z.ltb_spec e 0); lia. }
  destruct (Z.ltb_spec e 0); simpl; exact Hd.
Qed.

Lemma lex_number_text neg ip fp ex rest :
  lowest ip -> Forall (fun d => d < 10) fp -> ends_number rest = true ->
  lex_number (number_text neg ip fp ex ++ rest)
  = Some (mk_num neg (ip ++ fp) (default 0%Z ex - Z.of_nat (length fp)), rest).
Proof.
  intros Hip Hfp Hrest.
  pose proof (ends_number_no_digit rest Hrest) as Hnd.
  set (tail_exp := match ex with
                   | None => []
                   | Some e => 101 :: (if (e <? 0)%Z then 45 else 43)
                                 :: show_digits (digits (Z.abs_N e))
                   end ++ rest).
  assert (Hexp : lex_exp tail_exp = Some (default 0%Z ex, rest)).
  { unfold tail_exp. destruct ex as [e|]; simpl; [apply lex_exp_show|apply lex_exp_none]; auto. }
  assert (Hexp_nd : no_digit_head tail_exp).
  { unfold tail_exp. destruct ex; simpl; [reflexivity|assumption]. }
  set (tail_frac := match fp with [] => [] | _ => 46 :: show_digits fp end ++ tail_exp).
  assert (Hfrac : lex_frac tail_frac = Some (fp, tail_exp)).
  { unfold tail_frac. destruct fp as [|d fp'] eqn:E.
    - simpl. unfold tail_exp. destruct ex as [e|]; simpl; [reflexivity|].
      apply lex_frac_none; assumption.
    - rewrite <- E in *. simpl. apply lex_frac_show; [congruence|assumption..]. }
  assert (Hfrac_nd : no_digit_head tail_frac).
  { unfold tail_frac. destruct fp; simpl; [assumption|reflexivity]. }
  assert (Hint : lex_int (show_digits ip ++ tail_frac) = Some (ip, tail_frac))
    by (apply lex_int_show; assumption).
  assert (Htext : number_text neg ip fp ex ++ rest
                  = (if neg then [45] else []) ++ show_digits ip ++ tail_frac).
  { unfold number_text, tail_frac, tail_exp. rewrite <- !app_assoc. reflexivity. }
  rewrite Htext. unfold lex_number.
  destruct neg; simpl app.
  - simpl. rewrite Hint. simpl. rewrite Hfrac. simpl. rewrite Hexp. reflexivity.
  - destruct ip as [|d ip']; [destruct Hip as [_ []]|].
    simpl show_digits in *. simpl app in *. cbv beta iota.
    destruct (N.eqb_spec (digit_char d) 45) as [E|E].
    { unfold digit_char in E. lia. }
    cbv beta iota. rewrite Hint. simpl. rewrite Hfrac. simpl. rewrite Hexp. reflexivity.
Qed.

Lemma rev_zeros j : rev (zeros j) = zeros j.
Proof.
  unfold zeros. induction j as [|j IH]; [reflexivity|].
  simpl. rewrite IH. clear IH. induction j as [|j IH]; [reflexivity|].
  simpl. rewrite IH. reflexivity.
Qed.

Lemma strip_zeros_zeros j rds a :
  strip_zeros (zeros j ++ rds) a = strip_zeros rds (a + j)%nat.
Proof.
  revert a. induction j as [|j IH]; intros a; simpl.
  - f_equal. lia.
  - rewrite IH. f_equal. lia.
Qed.

Lemma digits_last m : exists init, digits m = init ++ [m mod 10].
Proof.
  destruct (digits_spec m) as [[Hall _] Hv].
  pose proof (digits_nonempty m) as Hne.
  destruct (digits m) as [|a l] using rev_ind; [congruence|]. clear IHl.
  exists l. f_equal. f_equal.
  apply Forall_app in Hall as [_ Hall]. apply Forall_cons in Hall as [Ha _].
  rewrite of_digits_snoc in Hv.
  apply N.mod_unique with (of_digits l); lia.
Qed.

Lemma digits_head m : m <> 0 -> exists d r, digits m = d :: r /\ d <> 0.
Proof.
  intros Hm. destruct (digits_spec m) as [[Hall Hhd] Hv].
  destruct (digits m) as [|d [|d' r]]; [destruct Hhd| |].
  - exists d, []. split; [reflexivity|]. unfold of_digits in Hv. simpl in Hv. lia.
  - exists d, (d' :: r). split; [reflexivity|exact Hhd].
Qed.

Lemma mk_num_digits neg i j m e :
  m mod 10 <> 0 ->
  mk_num neg (zeros i ++ digits m ++ zeros j) e
  = Num (if neg then (- Z.of_N m)%Z else Z.of_N m) (e + Z.of_nat j).
Proof.
  intros Hm. assert (Hm0 : m <> 0) by (intros ->; apply Hm; reflexivity).
  destruct (digits_last m) as [init Hd].
  pose proof (of_digits_digits m) as Hv.
  unfold mk_num.
  rewrite !rev_app_distr, !rev_zeros, Hd, rev_app_distr. simpl rev.
  rewrite <- app_assoc, strip_zeros_zeros. simpl app. simpl strip_zeros.
  destruct (N.eqb_spec (m mod 10) 0) as [E|_]; [congruence|].
  change (m mod 10 :: rev init ++ zeros i) with ([m mod 10] ++ rev init ++ zeros i).
  rewrite !rev_app_distr, rev_zeros, rev_involutive. simpl rev.
  rewrite <- app_assoc, <- Hd, of_digits_app, of_digits_zeros, Hv.
  rewrite N.mul_0_l, N.add_0_l.
  destruct (N.eqb_spec m 0) as [E|_]; [congruence|]. f_equal; lia.
Qed.

Lemma mk_num_digits_zeros neg j m e :
  m mod 10 <> 0 ->
  mk_num neg (digits m ++ zeros j) e
  = Num (if neg then (- Z.of_N m)%Z else Z.of_N m) (e + Z.of_nat j).
Proof. intros Hm. exact (mk_num_digits neg 0 j m e Hm). Qed.

Lemma mk_num_digits_only neg m e :
  m mod 10 <> 0 ->
  mk_num neg (digits m) e = Num (if neg then (- Z.of_N m)%Z else Z.of_N m) e.
Proof.
  intros Hm. pose proof (mk_num_digits neg 0 0 m e Hm) as E.
  simpl in E. rewrite app_nil_r, Z.add_0_r in E. exact E.
Qed.

Lemma abs_N_mod10 z : (z mod 10 <> 0)%Z -> Z.abs_N z mod 10 <> 0.
Proof.
  intros Hz E. apply Hz.
  apply Z.mod_divide; [lia|].
  apply Z.divide_abs_r. rewrite <- N2Z.inj_abs_N.
  apply N.Div0.mod_divides in E as [c Hc]. exists (Z.of_N c). lia.
Qed.

Lemma zeros_lt j : Forall (fun d => d < 10) (zeros j).
Proof. unfold zeros. induction j; simpl; constructor; [lia|assumption]. Qed.

Lemma lowest_app_zeros ds j : lowest ds -> of_digits ds <> 0 -> lowest (ds ++ zeros j).
Proof.
  intros [Hall Hhd] Hnz. split.
  - apply Forall_app. split; [assumption|apply zeros_lt].
  - destruct ds as [|d [|d' r]]; [destruct Hhd| |exact Hhd].
    destruct j; simpl; [exact I|]. unfold of_digits in Hnz. simpl in Hnz. lia.
Qed.

Lemma frac_text_nonempty (fp : list N) :
  fp <> [] -> match fp with [] => [] | _ => 46 :: show_digits fp end = 46 :: show_digits fp.
Proof. destruct fp; [congruence|reflexivity]. Qed.

Lemma Number_toString_parts x :
  canonical x ->
  exists neg ip fp ex,
    Number_toString x = number_text neg ip fp ex
    /\ lowest ip /\ Forall (fun d => d < 10) fp
    /\ mk_num neg (ip ++ fp) (default 0%Z ex - Z.of_nat (length fp)) = x.
Proof.
  intros [Hzero Hnz]. destruct x as [m e]. simpl in *.
  unfold Number_toString. simpl mant. simpl expo.
  destruct (Z.eqb_spec m 0) as [->|Hm].
  { rewrite Hzero by reflexivity. exists false, [0], [], None.
    repeat split; [repeat constructor; lia|constructor]. }
  specialize (Hnz Hm). apply abs_N_mod10 in Hnz.
  set (a := Z.abs_N m) in *.
  assert (Ha : a <> 0) by (intros E; rewrite E in Hnz; apply Hnz; reflexivity).
  assert (Hsign : (if (m <? 0)%Z then (- Z.of_N a)%Z else Z.of_N a) = m).
  { subst a. destruct (Z.ltb_spec m 0); lia. }
  destruct (digits_spec a) as [Hlow Hval].
  destruct (digits_head a Ha) as (d & r & Hds & Hd).
  set (ds := digits a) in *.
  set (k := Z.of_nat (length ds)).
  assert (Hsg : (if (m <? 0)%Z then lit "-" else []) = if (m <? 0)%Z then [45] else [])
    by (destruct (m <? 0)%Z; reflexivity).
  rewrite Hsg. clear Hsg.
  destruct ((k <=? k + e) && (k + e <=? 21))%Z eqn:C1.
  { apply andb_true_iff in C1 as [C1 _]. apply Z.leb_le in C1.
    exists (m <? 0)%Z, (ds ++ zeros (Z.to_nat (k + e - k))), [], None.
    split; [unfold number_text; rewrite show_digits_app, !app_nil_r; reflexivity|].
    split; [apply lowest_app_zeros; [assumption|lia]|]. split; [constructor|].
    rewrite app_nil_r. change ds with (digits a).
    rewrite mk_num_digits_zeros by assumption. rewrite Hsign. f_equal. simpl. lia. }
  destruct ((0 <? k + e) && (k + e <=? 21))%Z eqn:C2.
  { apply andb_true_iff in C2 as [C2 C2']. apply Z.ltb_lt in C2. apply Z.leb_le in C2'.
    apply andb_false_iff in C1. assert (Hlt : (k + e < k)%Z).
    { destruct C1 as [C1|C1]; [apply Z.leb_gt in C1; lia|apply Z.leb_gt in C1; lia]. }
    set (n := Z.to_nat (k + e)).
    assert (Hn : (0 < n < length ds)%nat) by (subst n k; lia).
    exists (m <? 0)%Z, (take n ds), (drop n ds), None.
    assert (Hdrop : drop n ds <> []).
    { intros E. apply (f_equal length) in E. rewrite length_drop in E. simpl in E. lia. }
    split.
    { unfold number_text. rewrite frac_text_nonempty by assumption.
      rewrite !app_nil_r. reflexivity. }
    split.
    { destruct Hlow as [Hall _]. split; [apply Forall_take; assumption|].
      rewrite Hds. destruct n as [|n]; [lia|]. simpl.
      destruct (take n r); [exact I|exact Hd]. }
    split; [apply Forall_drop, Hlow|].
    rewrite take_drop, length_drop. change ds with (digits a).
    rewrite mk_num_digits_only by assumption. rewrite Hsign. f_equal. fold ds.
    simpl default. subst n k. lia. }
  destruct ((-6 <? k + e) && (k + e <=? 0))%Z eqn:C3.
  { apply andb_true_iff in C3 as [C3 C3']. apply Z.ltb_lt in C3. apply Z.leb_le in C3'.
    set (z := Z.to_nat (- (k + e))).
    exists (m <? 0)%Z, [0], (zeros z ++ ds), None.
    assert (Hfp : zeros z ++ ds <> []).
    { rewrite Hds. destruct (zeros z); discriminate. }
    split.
    { unfold number_text. rewrite frac_text_nonempty by assumption.
      rewrite !app_nil_r, show_digits_app. reflexivity. }
    split; [split; [repeat constructor; lia|exact I]|].
    split.
    { apply Forall_app. split; [apply zeros_lt|apply Hlow]. }
    simpl default.
    replace ([0] ++ zeros z ++ ds) with (zeros (S z) ++ digits a ++ zeros 0)
      by (unfold zeros; simpl; rewrite app_nil_r; reflexivity).
    rewrite mk_num_digits by assumption. rewrite Hsign. f_equal.
    rewrite length_app. unfold zeros. rewrite repeat_length. subst z k. lia. }
  exists (m <? 0)%Z, [d], r, (Some (k + e - 1)%Z).
  split.
  { rewrite Hds. unfold number_text.
    assert (Hes : (if (k + e - 1 <? 0)%Z then lit "-" else lit "+")
                  = [if (k + e - 1 <? 0)%Z then 45 else 43])
      by (destruct (k + e - 1 <? 0)%Z; reflexivity).
    rewrite Hes. destruct r; reflexivity. }
  assert (Hall : Forall (fun d => d < 10) (d :: r)) by (rewrite <- Hds; apply Hlow).
  apply Forall_cons in Hall as [Hd10 Hr].
  split; [split; [repeat constructor; assumption|exact I]|].
  split; [assumption|].
  change ([d] ++ r) with (d :: r). rewrite <- Hds.
  change ds with (digits a). simpl default.
  rewrite mk_num_digits_only by assumption. rewrite Hsign. f_equal. fold ds.
  subst k. rewrite Hds. simpl length. lia.
Qed.

(** Reading back the text of a number gives the number. *)
Lemma lex_number_toString x rest :
  canonical x -> ends_number rest = true ->
  lex_number (Number_toString x ++ rest) = Some (x, rest).
Proof.
  intros Hx Hrest.
  destruct (Number_toString_parts x Hx) as (neg & ip & fp & ex & -> & Hip & Hfp & Hmk).
  rewrite lex_number_text by assumption. rewrite Hmk. reflexivity.
Qed.

(** ** Numbers built from digits are in lowest form *)

Lemma strip_zeros_spec rds : forall a rds' j,
  strip_zeros rds a = (rds', j) ->
  exists i, j = (a + i)%nat /\ rds = zeros i ++ rds'
            /\ match rds' with [] => True | d :: _ => d <> 0 end.
Proof.
  induction rds as [|d rds IH]; intros a rds' j H; simpl in H.
  - injection H as <- <-. exists 0%nat. repeat split. lia.
  - destruct (N.eqb_spec d 0) as [->|Hd].
    + apply IH in H as (i & -> & -> & Hhd). exists (S i).
      split; [lia|]. split; [reflexivity|assumption].
    + injection H as <- <-. exists 0%nat. split; [lia|]. split; [reflexivity|assumption].
Qed.

Lemma mk_num_spec neg ds e :
  Forall (fun d => d < 10) ds ->
  exists m j,
    of_digits ds = m * 10 ^ N.of_nat j
    /\ (m = 0 \/ m mod 10 <> 0)
    /\ mk_num neg ds e
       = if m =? 0 then Num 0 0
         else Num (if neg then (- Z.of_N m)%Z else Z.of_N m) (e + Z.of_nat j).
Proof.
  intros Hall. unfold mk_num.
  destruct (strip_zeros (rev ds) 0) as [rds j] eqn:E.
  apply strip_zeros_spec in E as (i & -> & Hrev & Hhd). simpl.
  assert (Hds : ds = rev rds ++ zeros i).
  { rewrite <- (rev_involutive ds), Hrev, rev_app_distr, rev_zeros. reflexivity. }
  exists (of_digits (rev rds)), i.
  split.
  { rewrite Hds at 1. rewrite of_digits_app, of_digits_zeros.
    unfold zeros. rewrite repeat_length. lia. }
  split; [|reflexivity].
  destruct rds as [|d rds]; [left; reflexivity|right].
  simpl rev. rewrite of_digits_snoc.
  assert (Hd : d < 10).
  { rewrite Hds in Hall. apply Forall_app in Hall as [Hall _]. simpl in Hall.
    apply Forall_app in Hall as [_ Hall]. apply Forall_cons in Hall as [Hd _]. exact Hd. }
  replace ((10 * of_digits (rev rds) + d) mod 10) with d; [assumption|].
  apply N.mod_unique with (of_digits (rev rds)); lia.
Qed.

Lemma mk_num_canonical neg ds e :
  Forall (fun d => d < 10) ds -> canonical (mk_num neg ds e).
Proof.
  intros Hall. destruct (mk_num_spec neg ds e Hall) as (m & j & _ & Hm & ->).
  destruct (N.eqb_spec m 0) as [->|Hm0].
  - split; simpl; [reflexivity|congruence].
  - destruct Hm as [Hm|Hm]; [congruence|].
    split; simpl; [destruct neg; lia|]. intros _.
    assert (Hz : (Z.of_N m mod 10 <> 0)%Z).
    { change 10%Z with (Z.of_N 10). rewrite <- N2Z.inj_mod. lia. }
    destruct neg; [|exact Hz].
    intros E. apply Hz. apply Z.mod_divide in E; [|lia].
    apply Z.mod_divide; [lia|]. apply Z.divide_opp_r in E.
    rewrite Z.opp_involutive in E. exact E.
Qed.

Lemma num_of_N_canonical n : canonical (num_of_N n).
Proof. apply mk_num_canonical, digits_lt. Qed.

Lemma num_of_N_inj a b : num_of_N a = num_of_N b -> a = b.
Proof.
  unfold num_of_N. intros H.
  destruct (mk_num_spec false (digits a) 0 (digits_lt a)) as (ma & ja & Ha & _ & Ea).
  destruct (mk_num_spec false (digits b) 0 (digits_lt b)) as (mb & jb & Hb & _ & Eb).
  rewrite of_digits_digits in Ha, Hb. rewrite Ea, Eb in H. subst a b.
  destruct (N.eqb_spec ma 0) as [->|Hma], (N.eqb_spec mb 0) as [->|Hmb].
  - lia.
  - injection H as H _. lia.
  - injection H as H _. lia.
  - injection H as H1 H2. assert (ma = mb) by lia. assert (ja = jb) by lia.
    subst. reflexivity.
Qed.

(** ** The text of an index is its decimal digits *)

Lemma of_digits_ge d r : d <> 0 -> 10 ^ N.of_nat (length r) <= of_digits (d :: r).
Proof. intros Hd. rewrite of_digits_cons. nia. Qed.

Lemma digits_length_bound n b : n <> 0 -> n < 10 ^ N.of_nat b -> (length (digits n) <= b)%nat.
Proof.
  intros Hn Hb. destruct (digits_head n Hn) as (d & r & E & Hd).
  pose proof (of_digits_digits n) as Hv. rewrite E in *. simpl length.
  pose proof (of_digits_ge d r Hd) as Hge. rewrite Hv in Hge.
  destruct (Nat.le_gt_cases (S (length r)) b) as [H|H]; [exact H|exfalso].
  assert (10 ^ N.of_nat b <= 10 ^ N.of_nat (length r)) by (apply N.pow_le_mono_r; lia).
  lia.
Qed.

Lemma num_of_N_text n :
  n < 10 ^ 21 -> Number_toString (num_of_N n) = show_digits (digits n).
Proof.
  intros Hn.
  destruct (N.eq_dec n 0) as [->|Hn0]; [reflexivity|].
  unfold num_of_N.
  destruct (mk_num_spec false (digits n) 0 (digits_lt n)) as (m & j & Hv & Hm & ->).
  rewrite of_digits_digits in Hv.
  destruct (N.eqb_spec m 0) as [->|Hm0]; [lia|].
  destruct Hm as [Hm|Hm]; [contradiction|].
  assert (Hds : digits n = digits m ++ zeros j).
  { rewrite <- (digits_of_digits (digits m ++ zeros j)).
    - f_equal. rewrite of_digits_app, of_digits_zeros, of_digits_digits.
      unfold zeros. rewrite repeat_length. lia.
    - apply lowest_app_zeros; [apply digits_lowest|]. rewrite of_digits_digits. assumption. }
  pose proof (digits_length_bound n 21 Hn0 Hn) as Hlen.
  rewrite Hds, length_app in Hlen. unfold zeros in Hlen. rewrite repeat_length in Hlen.
  unfold Number_toString. cbn [mant expo].
  replace (Z.abs_N (Z.of_N m)) with m by lia.
  destruct (Z.ltb_spec (Z.of_N m) 0); [lia|].
  destruct (Z.eqb_spec (Z.of_N m) 0); [lia|].
  set (k := Z.of_nat (length (digits m))).
  replace ((k <=? k + (0 + Z.of_nat j)) && (k + (0 + Z.of_nat j) <=? 21))%Z with true.
  - replace (Z.to_nat (k + (0 + Z.of_nat j) - k)) with j by lia.
    rewrite Hds, show_digits_app. reflexivity.
  - symmetry. apply andb_true_iff. split; apply Z.leb_le; subst k; lia.
Qed.

(** ** The string token *)

Lemma hex_val_hex_digit d : d < 16 -> hex_val (hex_digit d) = Some d.
Proof.
  intros H. destruct d as [|p]; [reflexivity|].
  do 4 (destruct p as [p|p|]; try reflexivity); exfalso; lia.
Qed.

Lemma hex_recombine c :
  c < 65536 ->
  ((c / 4096 mod 16 * 16 + c / 256 mod 16) * 16 + c / 16 mod 16) * 16 + c mod 16 = c.
Proof.
  intros H.
  assert (E1 : c / 16 / 16 = c / 256) by (rewrite N.Div0.div_div; reflexivity).
  assert (E2 : c / 256 / 16 = c / 4096) by (rewrite N.Div0.div_div; reflexivity).
  pose proof (N.div_mod c 16 ltac:(lia)) as H0.
  pose proof (N.div_mod (c / 16) 16 ltac:(lia)) as H1.
  pose proof (N.div_mod (c / 256) 16 ltac:(lia)) as H2.
  rewrite E1 in H1. rewrite E2 in H2.
  assert (H3 : c / 4096 < 16) by (apply N.Div0.div_lt_upper_bound; lia).
  rewrite (N.mod_small (c / 4096) 16) by assumption.
  lia.
Qed.

Lemma lex_string_literal c r :
  c <> dq -> c <> backslash -> 32 <= c ->
  lex_string (c :: r) = '(str, rest) ← lex_string r; Some (c :: str, rest).
Proof.
  intros H1 H2 H3. simpl.
  destruct (N.eqb_spec c dq); [congruence|].
  destruct (N.eqb_spec c backslash); [congruence|].
  destruct (N.ltb_spec c 32); [lia|]. reflexivity.
Qed.

Lemma lex_string_unicode c r :
  c < 65536 ->
  lex_string (unicode_escape c ++ r) = '(str, rest) ← lex_string r; Some (c :: str, rest).
Proof.
  intros H. unfold unicode_escape. simpl app.
  assert (Hm : forall x, x mod 16 < 16) by (intros; apply N.mod_lt; lia).
  cbn [lex_string]. change (backslash =? dq) with false.
  change (backslash =? backslash) with true. change (117 =? 117) with true.
  cbv beta iota. rewrite !hex_val_hex_digit by apply Hm.
  simpl. rewrite hex_recombine by assumption. reflexivity.
Qed.

Lemma lex_string_escape x u r :
  x <> 117 -> unescape x = Some u ->
  lex_string (backslash :: x :: r) = '(str, rest) ← lex_string r; Some (u :: str, rest).
Proof.
  intros Hx Hu. cbn [lex_string]. change (backslash =? dq) with false.
  change (backslash =? backslash) with true. cbv beta iota.
  destruct (N.eqb_spec x 117); [congruence|]. rewrite Hu. reflexivity.
Qed.

Lemma lex_string_quote_unit c r :
  is_high_surrogate c = false -> is_low_surrogate c = false ->
  lex_string (quote_unit c ++ r) = '(str, rest) ← lex_string r; Some (c :: str, rest).
Proof.
  intros Hh Hl. unfold quote_unit.
  destruct (N.eqb_spec c 8) as [->|?]; [apply lex_string_escape; [discriminate|reflexivity]|].
  destruct (N.eqb_spec c 9) as [->|?]; [apply lex_string_escape; [discriminate|reflexivity]|].
  destruct (N.eqb_spec c 10) as [->|?]; [apply lex_string_escape; [discriminate|reflexivity]|].
  destruct (N.eqb_spec c 12) as [->|?]; [apply lex_string_escape; [discriminate|reflexivity]|].
  destruct (N.eqb_spec c 13) as [->|?]; [apply lex_string_escape; [discriminate|reflexivity]|].
  destruct (N.eqb_spec c dq) as [->|?]; [apply lex_string_escape; [discriminate|reflexivity]|].
  destruct (N.eqb_spec c backslash) as [->|?];
    [apply lex_string_escape; [discriminate|reflexivity]|].
  destruct (N.ltb_spec c 32).
  - apply lex_string_unicode. lia.
  - apply lex_string_literal; assumption.
Qed.

Lemma surrogate_literal c r :
  is_high_surrogate c = true \/ is_low_surrogate c = true ->
  lex_string (c :: r) = '(str, rest) ← lex_string r; Some (c :: str, rest).
Proof.
  unfold is_high_surrogate, is_low_surrogate. intros H.
  assert (55296 <= c).
  { destruct H as [H|H]; apply andb_true_iff in H as [H _]; apply N.leb_le in H; lia. }
  apply lex_string_literal; unfold dq, backslash; lia.
Qed.

Lemma surrogate_escape c r :
  is_high_surrogate c = true \/ is_low_surrogate c = true ->
  lex_string (unicode_escape c ++ r) = '(str, rest) ← lex_string r; Some (c :: str, rest).
Proof.
  unfold is_high_surrogate, is_low_surrogate. intros H.
  apply lex_string_unicode.
  destruct H as [H|H]; apply andb_true_iff in H as [_ H]; apply N.leb_le in H; lia.
Qed.

Lemma lex_string_quote_units_len n : forall s rest,
  (length s <= n)%nat ->
  lex_string (quote_units s ++ dq :: rest) = Some (s, rest).
Proof.
  induction n as [|n IH]; intros s rest Hlen.
  - destruct s; [reflexivity|simpl in Hlen; lia].
  - destruct s as [|c r]; [reflexivity|]. simpl in Hlen.
    cbn [quote_units].
    destruct (is_high_surrogate c) eqn:Hh.
    + destruct r as [|d r'].
      * rewrite surrogate_escape by auto. simpl. reflexivity.
      * destruct (is_low_surrogate d) eqn:Hl.
        -- simpl app. rewrite surrogate_literal by auto.
           rewrite surrogate_literal by auto.
           rewrite IH by (simpl in Hlen; lia). reflexivity.
        -- rewrite <- app_assoc, surrogate_escape by auto.
           rewrite IH by lia. reflexivity.
    + destruct (is_low_surrogate c) eqn:Hl.
      * rewrite <- app_assoc, surrogate_escape by auto. rewrite IH by lia. reflexivity.
      * rewrite <- app_assoc, lex_string_quote_unit by assumption.
        rewrite IH by lia. reflexivity.
Qed.

(** Reading back a quoted string gives the string. *)
Lemma lex_string_quote s rest : lex_string (quote_units s ++ dq :: rest) = Some (s, rest).
Proof. apply (lex_string_quote_units_len (length s)). lia. Qed.

(** ** Reading back what [JSON.stringify] writes: scalars *)

Lemma serialize_scalar gap indent v :
  serialize gap indent (tree_of_scalar v) = Some (scalar_text v).
Proof. destruct v; reflexivity. Qed.

Lemma skip_ws_head c r : is_ws c = false -> skip_ws (c :: r) = c :: r.
Proof. intros H. simpl. rewrite H. reflexivity. Qed.

Lemma skip_ws_app ws s : forallb is_ws ws = true -> skip_ws (ws ++ s) = skip_ws s.
Proof.
  induction ws as [|c ws IH]; [reflexivity|]. simpl.
  intros H. apply andb_true_iff in H as [Hc H]. rewrite Hc. auto.
Qed.

Lemma parse_value_ws f ws s :
  forallb is_ws ws = true -> parse_value f (ws ++ s) = parse_value f s.
Proof.
  intros H. destruct f; [reflexivity|]. simpl. rewrite skip_ws_app by assumption.
  reflexivity.
Qed.

Lemma Number_toString_head x :
  canonical x ->
  exists c r, Number_toString x = c :: r /\ ((c =? 45) || is_digit c) = true
              /\ is_digit c || (c =? 45) = true.
Proof.
  intros Hx. destruct (Number_toString_parts x Hx) as (neg & ip & fp & ex & -> & Hip & _).
  unfold number_text. destruct neg.
  - eexists _, _. split; [reflexivity|]. split; reflexivity.
  - destruct Hip as [Hall Hhd]. destruct ip as [|d ip]; [destruct Hhd|].
    apply Forall_cons in Hall as [Hd _]. simpl.
    eexists _, _. split; [reflexivity|].
    rewrite digit_char_is_digit by assumption. split; [apply orb_true_r|reflexivity].
Qed.

Lemma digit_or_minus_head c :
  is_digit c || (c =? 45) = true ->
  is_ws c = false /\ (c =? 123) = false /\ (c =? 91) = false /\ (c =? dq) = false
  /\ (c =? 93) = false /\ (c =? 125) = false.
Proof.
  unfold is_digit, is_ws, dq. intros H.
  assert (45 <= c <= 57).
  { apply orb_true_iff in H as [H|H].
    - apply andb_true_iff in H as [H1 H2]. apply N.leb_le in H1, H2. lia.
    - apply N.eqb_eq in H. lia. }
  repeat split; repeat (apply orb_false_iff; split); apply N.eqb_neq; lia.
Qed.

Lemma parse_value_number f x rest :
  canonical x -> ends_number rest = true ->
  parse_value (S f) (Number_toString x ++ rest) = Some (JNum x, rest).
Proof.
  intros Hx Hrest.
  pose proof (lex_number_toString x rest Hx Hrest) as Hlex.
  destruct (Number_toString_head x Hx) as (c & r & E & Hc & Hc').
  destruct (digit_or_minus_head c Hc') as (Hws & H1 & H2 & H3 & _).
  rewrite E in *. simpl app in *. cbn [parse_value].
  rewrite skip_ws_head by assumption. rewrite H1, H2, H3, Hc, Hlex. reflexivity.
Qed.

Lemma parse_value_string f s rest :
  parse_value (S f) (quote s ++ rest) = Some (JStr s, rest).
Proof.
  unfold quote. simpl app. cbn [parse_value]. rewrite skip_ws_head by reflexivity.
  change (dq =? 123) with false. change (dq =? 91) with false.
  change (dq =? dq) with true. cbv beta iota.
  rewrite <- app_assoc. simpl app. rewrite lex_string_quote. reflexivity.
Qed.

Lemma parse_value_scalar f v rest :
  scalar_wf v -> ends_number rest = true ->
  parse_value (S f) (scalar_text v ++ rest) = Some (tree_of_scalar v, rest).
Proof.
  intros Hv Hrest. destruct v as [s|n|[]|]; simpl scalar_text.
  - apply parse_value_string.
  - apply parse_value_number; assumption.
  - reflexivity.
  - reflexivity.
  - reflexivity.
Qed.

Lemma scalar_text_head v :
  scalar_wf v -> exists c r, scalar_text v = c :: r /\ value_head c = true.
Proof.
  intros Hv. destruct v as [s|n|[]|]; simpl scalar_text;
    try (eexists _, _; split; reflexivity).
  destruct (Number_toString_head n Hv) as (c & r & -> & _ & Hc).
  destruct (digit_or_minus_head c Hc) as (Hws & _ & _ & _ & H93 & H125).
  exists c, r. split; [reflexivity|]. unfold value_head. rewrite Hws, H93, H125. reflexivity.
Qed.

Lemma scalar_text_length v : scalar_wf v -> (1 <= length (scalar_text v))%nat.
Proof.
  intros Hv. destruct (scalar_text_head v Hv) as (c & r & -> & _). simpl. lia.
Qed.

Lemma parse_text_scalar v :
  scalar_wf v -> parse_text (scalar_text v) = Some (tree_of_scalar v).
Proof.
  intros Hv. unfold parse_text.
  replace (2 * length (scalar_text v) + 2)%nat with (S (2 * length (scalar_text v) + 1)) by lia.
  rewrite <- (app_nil_r (scalar_text v)) at 2.
  rewrite parse_value_scalar by (assumption || reflexivity). reflexivity.
Qed.

(** ** Reading back flat arrays and flat objects *)

Lemma ends_number_ws ws c rest :
  forallb is_ws ws = true -> ends_number [c] = true -> is_ws c = false ->
  ends_number (ws ++ c :: rest) = true /\ skip_ws (ws ++ c :: rest) = c :: rest.
Proof.
  intros Hws Hc Hnw. split.
  - destruct ws as [|w ws]; [exact Hc|]. simpl in *.
    apply andb_true_iff in Hws as [Hw _]. unfold is_ws in Hw. unfold is_digit.
    apply negb_true_iff.
    repeat (apply orb_true_iff in Hw as [Hw|Hw]); apply N.eqb_eq in Hw; subst w; reflexivity.
  - rewrite skip_ws_app by assumption. apply skip_ws_head. assumption.
Qed.

Lemma parse_elements_eq f s acc :
  parse_elements (S f) s acc
  = '(v, r1) ← parse_value f s;
    match skip_ws r1 with
    | c :: r2 =>
        if c =? 44 then parse_elements f r2 (acc ++ [v])
        else if c =? 93 then Some (JArr (acc ++ [v]) [], r2)
        else None
    | [] => None
    end.
Proof. reflexivity. Qed.

Lemma parse_members_eq f s acc :
  parse_members (S f) s acc
  = r ← expect dq s;
    '(k, r1) ← lex_string r;
    r2 ← expect 58 r1;
    '(v, r3) ← parse_value f r2;
    match skip_ws r3 with
    | c :: r4 =>
        if c =? 44 then parse_members f r4 (props_set acc k v)
        else if c =? 125 then Some (JObj (props_set acc k v), r4)
        else None
    | [] => None
    end.
Proof. reflexivity. Qed.

Lemma parse_elements_ws f ws s acc :
  forallb is_ws ws = true -> parse_elements f (ws ++ s) acc = parse_elements f s acc.
Proof.
  intros H. destruct f; [reflexivity|]. rewrite !parse_elements_eq.
  rewrite parse_value_ws by assumption. reflexivity.
Qed.

Lemma parse_elements_flat ws ws' : forall vs acc f rest,
  forallb is_ws ws = true -> forallb is_ws ws' = true ->
  Forall scalar_wf vs -> vs <> [] -> (length vs < f)%nat ->
  parse_elements f (join (44 :: ws) (map (fun v => scalar_text v) vs) ++ ws' ++ 93 :: rest) acc
  = Some (JArr (acc ++ map tree_of_scalar vs) [], rest).
Proof.
  induction vs as [|v vs IH]; intros acc f rest Hws Hws' Hall Hne Hf; [congruence|].
  apply Forall_cons in Hall as [Hv Hall].
  destruct f as [|[|f]]; [simpl in Hf; lia..|].
  destruct (ends_number_ws ws' 93 rest Hws' eq_refl eq_refl) as [Hend Hskip].
  rewrite parse_elements_eq.
  destruct vs as [|v' vs].
  - simpl join. simpl map.
    rewrite parse_value_scalar by assumption. cbn [mbind option_bind].
    rewrite Hskip. reflexivity.
  - change (join (44 :: ws) (map (fun v => scalar_text v) (v :: v' :: vs)))
      with (scalar_text v ++ (44 :: ws) ++ join (44 :: ws) (map (fun v => scalar_text v) (v' :: vs))).
    rewrite <- !app_assoc.
    rewrite parse_value_scalar by (assumption || reflexivity).
    cbn [mbind option_bind app]. rewrite skip_ws_head by reflexivity.
    change (44 =? 44) with true. cbv beta iota.
    rewrite parse_elements_ws by assumption.
    rewrite IH; try assumption; [|discriminate|simpl in *; lia].
    rewrite <- app_assoc. reflexivity.
Qed.

Lemma expect_head ws c r : forallb is_ws ws = true -> is_ws c = false ->
  expect c (ws ++ c :: r) = Some r.
Proof.
  intros Hws Hc. unfold expect. rewrite skip_ws_app by assumption.
  rewrite skip_ws_head by assumption. rewrite N.eqb_refl. reflexivity.
Qed.

Lemma parse_member_step f ws wsc k v rest1 :
  forallb is_ws ws = true -> forallb is_ws wsc = true ->
  scalar_wf v -> ends_number rest1 = true ->
  (r ← expect dq (ws ++ member wsc (k, v) ++ rest1);
   '(k', r1) ← lex_string r;
   r2 ← expect 58 r1;
   parse_value (S f) r2)
  = Some (tree_of_scalar v, rest1) /\
  forall (K : str -> option (jtree * str) -> option (jtree * str)),
  (r ← expect dq (ws ++ member wsc (k, v) ++ rest1);
   '(k', r1) ← lex_string r;
   r2 ← expect 58 r1;
   K k' (parse_value (S f) r2))
  = K k (Some (tree_of_scalar v, rest1)).
Proof.
  intros Hws Hwsc Hv Hend.
  assert (E : ws ++ member wsc (k, v) ++ rest1
              = ws ++ dq :: quote_units k ++ dq :: ([] ++ 58 :: wsc ++ scalar_text v ++ rest1)).
  { unfold member, quote. cbn [fst snd app].
    repeat (rewrite <- app_assoc; cbn [app]). reflexivity. }
  rewrite E.
  rewrite expect_head by (assumption || reflexivity). cbn [mbind option_bind].
  rewrite lex_string_quote. cbn [mbind option_bind].
  rewrite expect_head by reflexivity. cbn [mbind option_bind].
  rewrite parse_value_ws by assumption.
  rewrite parse_value_scalar by assumption. split; [reflexivity|]. intros K. reflexivity.
Qed.

Lemma parse_members_ws f ws s acc :
  forallb is_ws ws = true -> parse_members f (ws ++ s) acc = parse_members f s acc.
Proof.
  intros H. destruct f; [reflexivity|]. rewrite !parse_members_eq.
  unfold expect. rewrite skip_ws_app by assumption. reflexivity.
Qed.

Lemma parse_members_flat ws wsc ws' : forall kvs acc f rest,
  forallb is_ws ws = true -> forallb is_ws wsc = true -> forallb is_ws ws' = true ->
  Forall (fun kv => scalar_wf (snd kv)) kvs -> kvs <> [] -> (length kvs < f)%nat ->
  parse_members f (join (44 :: ws) (map (member wsc) kvs) ++ ws' ++ 125 :: rest) acc
  = Some (JObj (fold_left set_scalar kvs acc), rest).
Proof.
  induction kvs as [|[k v] kvs IH]; intros acc f rest Hws Hwsc Hws' Hall Hne Hf; [congruence|].
  apply Forall_cons in Hall as [Hv Hall]. simpl in Hv.
  destruct f as [|[|f]]; [simpl in Hf; lia..|].
  destruct (ends_number_ws ws' 125 rest Hws' eq_refl eq_refl) as [Hend Hskip].
  rewrite parse_members_eq.
  destruct kvs as [|kv' kvs].
  - simpl join. simpl map.
    pose proof (parse_member_step f [] wsc k v (ws' ++ 125 :: rest)
                  eq_refl Hwsc Hv Hend) as [_ HK].
    simpl app in HK.
    rewrite (HK (fun k' o => '(v0, r3) ← o;
                   match skip_ws r3 with
                   | c :: r4 =>
                       if c =? 44 then parse_members (S f) r4 (props_set acc k' v0)
                       else if c =? 125 then Some (JObj (props_set acc k' v0), r4)
                       else None
                   | [] => None
                   end)).
    cbn [mbind option_bind]. rewrite Hskip. reflexivity.
  - change (join (44 :: ws) (map (member wsc) ((k, v) :: kv' :: kvs)))
      with (member wsc (k, v) ++ (44 :: ws) ++ join (44 :: ws) (map (member wsc) (kv' :: kvs))).
    rewrite <- !app_assoc.
    pose proof (parse_member_step f [] wsc k v
                  ((44 :: ws) ++ join (44 :: ws) (map (member wsc) (kv' :: kvs))
                     ++ ws' ++ 125 :: rest)
                  eq_refl Hwsc Hv eq_refl) as [_ HK].
    simpl app in HK. simpl app.
    rewrite (HK (fun k' o => '(v0, r3) ← o;
                   match skip_ws r3 with
                   | c :: r4 =>
                       if c =? 44 then parse_members (S f) r4 (props_set acc k' v0)
                       else if c =? 125 then Some (JObj (props_set acc k' v0), r4)
                       else None
                   | [] => None
                   end)).
    cbn [mbind option_bind]. rewrite skip_ws_head by reflexivity.
    change (44 =? 44) with true. cbv beta iota.
    rewrite parse_members_ws by assumption.
    rewrite IH; try assumption; [reflexivity|discriminate|simpl in *; lia].
Qed.

(** ** The texts of [JSON.stringify] for flat values *)

Lemma join_length sep parts :
  Forall (fun p : list N => (1 <= length p)%nat) parts ->
  (length parts <= length (join sep parts))%nat.
Proof.
  induction 1 as [|p ps Hp _ IH]; [simpl; lia|].
  destruct ps as [|p' ps]; [simpl; lia|].
  change (join sep (p :: p' :: ps)) with (p ++ sep ++ join sep (p' :: ps)).
  rewrite !length_app. simpl length in *. lia.
Qed.

Lemma expect_value_head c c' r : value_head c' = true -> c' <> c -> expect c (c' :: r) = None.
Proof.
  unfold value_head, expect. intros H Hne.
  apply andb_true_iff in H as [H _]. apply andb_true_iff in H as [H _].
  apply negb_true_iff in H. rewrite skip_ws_head by assumption.
  destruct (N.eqb_spec c' c); [congruence|reflexivity].
Qed.

Lemma value_head_neq c : value_head c = true -> c <> 93 /\ c <> 125.
Proof.
  unfold value_head. intros H.
  apply andb_true_iff in H as [H H2]. apply andb_true_iff in H as [_ H1].
  apply negb_true_iff, N.eqb_neq in H1, H2. split; assumption.
Qed.

Lemma stringify_flat_array vs :
  stringify_tree 0 (JArr (map tree_of_scalar vs) [])
  = match vs with
    | [] => lit "[]"
    | _ => 91 :: join [44] (map (fun v => scalar_text v) vs) ++ [93]
    end.
Proof.
  unfold stringify_tree. simpl serialize. rewrite map_map.
  rewrite (map_ext _ (fun v => scalar_text v))
    by (intros v; rewrite serialize_scalar; reflexivity).
  destruct vs; reflexivity.
Qed.

Lemma parse_text_flat_array vs :
  Forall scalar_wf vs ->
  parse_text (stringify_tree 0 (JArr (map tree_of_scalar vs) []))
  = Some (JArr (map tree_of_scalar vs) []).
Proof.
  intros Hall. rewrite stringify_flat_array.
  destruct vs as [|v vs]; [reflexivity|].
  set (body := join [44] (map (fun v => scalar_text v) (v :: vs))).
  unfold parse_text.
  assert (Hlen : (length (v :: vs) <= length body)%nat).
  { unfold body. rewrite <- (length_map (fun v => scalar_text v)). apply join_length.
    apply Forall_map. eapply Forall_impl; [exact Hall|]. intros x Hx.
    simpl. apply scalar_text_length, Hx. }
  assert (Hhead : exists c r, body = c :: r /\ value_head c = true).
  { unfold body. pose proof (Forall_inv Hall) as Hv.
    destruct (scalar_text_head v Hv) as (c & r & E & Hc).
    destruct vs; simpl; rewrite E; eexists _, _; (split; [reflexivity|assumption]). }
  destruct Hhead as (c & r & Eb & Hc).
  set (txt := 91 :: body ++ [93]).
  replace (2 * length txt + 2)%nat with (S (S (2 * length txt))) by lia.
  unfold txt at 2. cbn [parse_value]. rewrite skip_ws_head by reflexivity.
  change (91 =? 123) with false. change (91 =? 91) with true. cbv beta iota.
  assert (Hexp : expect 93 (body ++ [93]) = None).
  { rewrite Eb. simpl app.
    apply expect_value_head; [assumption|apply value_head_neq, Hc]. }
  rewrite Hexp.
  pose proof (parse_elements_flat [] [] (v :: vs) [] (S (2 * length txt)) []
                eq_refl eq_refl Hall ltac:(discriminate)) as E.
  fold body in E. simpl app in E. rewrite E; [reflexivity|].
  unfold txt. simpl length in *. rewrite length_app. lia.
Qed.

Lemma omap_members gap indent kvs :
  omap (fun kv : str * jtree => member_text gap (fst kv) <$> serialize gap indent (snd kv))
    (map entry_tree kvs)
  = map (fun kv => member_text gap (fst kv) (scalar_text (snd kv))) kvs.
Proof.
  induction kvs as [|[k v] kvs IH]; [reflexivity|].
  change (omap ?f (map entry_tree ((k, v) :: kvs)))
    with (match f (entry_tree (k, v)) with
          | Some y => y :: omap f (map entry_tree kvs)
          | None => omap f (map entry_tree kvs)
          end).
  unfold entry_tree at 1. cbn [fst snd].
  rewrite serialize_scalar. cbn [fmap option_fmap option_map]. rewrite IH. reflexivity.
Qed.

Lemma stringify_flat_object kvs :
  stringify_tree 2 (JObj (map entry_tree kvs))
  = match kvs with
    | [] => lit "{}"
    | _ => 123 :: [10; 32; 32] ++ join (44 :: [10; 32; 32]) (map (member [32]) kvs) ++ [10; 125]
    end.
Proof.
  unfold stringify_tree. cbn [serialize]. rewrite omap_members.
  destruct kvs as [|kv kvs]; [reflexivity|].
  cbn [default]. reflexivity.
Qed.

Lemma parse_text_flat_object kvs :
  Forall (fun kv => scalar_wf (snd kv)) kvs ->
  parse_text (stringify_tree 2 (JObj (map entry_tree kvs)))
  = Some (JObj (fold_left set_scalar kvs [])).
Proof.
  intros Hall. rewrite stringify_flat_object.
  destruct kvs as [|kv kvs]; [reflexivity|].
  set (body := join (44 :: [10; 32; 32]) (map (member [32]) (kv :: kvs))).
  unfold parse_text.
  assert (Hlen : (length (kv :: kvs) <= length body)%nat).
  { unfold body. rewrite <- (length_map (member [32])). apply join_length.
    apply Forall_map. apply Forall_forall. intros [k v] _.
    unfold member, quote. simpl. lia. }
  set (txt := 123 :: [10; 32; 32] ++ body ++ [10; 125]).
  replace (2 * length txt + 2)%nat with (S (S (2 * length txt))) by lia.
  unfold txt at 2. cbn [parse_value]. rewrite skip_ws_head by reflexivity.
  change (123 =? 123) with true. cbv beta iota.
  assert (Hexp : expect 125 ([10; 32; 32] ++ body ++ [10; 125]) = None).
  { unfold body. destruct kv as [k v]. destruct kvs; reflexivity. }
  rewrite Hexp. rewrite parse_members_ws by reflexivity.
  pose proof (parse_members_flat [10; 32; 32] [32] [10] (kv :: kvs) [] (S (2 * length txt)) []
                eq_refl eq_refl eq_refl Hall ltac:(discriminate)) as E.
  fold body in E. simpl app in E. simpl app. rewrite E; [reflexivity|].
  unfold txt. simpl length in *. rewrite length_app. lia.
Qed.

(** ** The fuel of the parser never runs out

    Every recursive call of the parser comes after at least one
    character has been read, or is the call for the first element of an
    array; twice the length of the text is fuel enough, and more fuel
    changes nothing: [parse_text s = None] is a syntax error. *)

Lemma skip_ws_length s : (length (skip_ws s) <= length s)%nat.
Proof.
  induction s as [|c s IH]; [reflexivity|]. simpl.
  destruct (is_ws c); simpl; lia.
Qed.

Lemma expect_length c s r : expect c s = Some r -> (length r < length s)%nat.
Proof.
  unfold expect. pose proof (skip_ws_length s) as H.
  destruct (skip_ws s) as [|x r']; [discriminate|].
  destruct (x =? c); [|discriminate]. intros [= <-]. simpl in H. lia.
Qed.

Lemma lex_string_length_aux n : forall s x r,
  (length s <= n)%nat -> lex_string s = Some (x, r) -> (length r < length s)%nat.
Proof.
  induction n as [|n IH]; intros s x r Hn H.
  - destruct s; [discriminate|simpl in Hn; lia].
  - destruct s as [|c s]; [discriminate|]. simpl in Hn. cbn [lex_string] in H.
    destruct (c =? dq); [injection H as <- <-; simpl; lia|].
    destruct (c =? backslash).
    + destruct s as [|e r1]; [discriminate|].
      destruct (e =? 117).
      * destruct r1 as [|h1 [|h2 [|h3 [|h4 r2]]]]; try discriminate.
        destruct (hex_val h1); [|discriminate]. destruct (hex_val h2); [|discriminate].
        destruct (hex_val h3); [|discriminate]. destruct (hex_val h4); [|discriminate].
        cbn [mbind option_bind] in H.
        destruct (lex_string r2) as [[str rest]|] eqn:E; [|discriminate].
        injection H as <- <-. apply IH in E; simpl in *; lia.
      * destruct (unescape e); [|discriminate]. cbn [mbind option_bind] in H.
        destruct (lex_string r1) as [[str rest]|] eqn:E; [|discriminate].
        injection H as <- <-. apply IH in E; simpl in *; lia.
    + destruct (c <? 32); [discriminate|].
      destruct (lex_string s) as [[str rest]|] eqn:E; [|discriminate].
      injection H as <- <-. apply IH in E; simpl in *; lia.
Qed.

Lemma lex_string_length s x r : lex_string s = Some (x, r) -> (length r < length s)%nat.
Proof. apply (lex_string_length_aux (length s)). lia. Qed.

Lemma span_digits_length s : forall ds r, span_digits s = (ds, r) -> (length r <= length s)%nat.
Proof.
  induction s as [|c s IH]; intros ds r H; simpl in H.
  - injection H as <- <-. reflexivity.
  - destruct (is_digit c); [|injection H as <- <-; reflexivity].
    destruct (span_digits s) as [ds' r'] eqn:E. injection H as <- <-.
    specialize (IH _ _ eq_refl). simpl. lia.
Qed.

Lemma lex_int_length s ip r : lex_int s = Some (ip, r) -> (length r < length s)%nat.
Proof.
  unfold lex_int. destruct s as [|c s]; [discriminate|].
  destruct (c =? 48); [intros [= <- <-]; simpl; lia|].
  destruct (is_digit c) eqn:Hc; [|discriminate]. intros [= H].
  simpl in H. rewrite Hc in H. destruct (span_digits s) as [ds r'] eqn:E.
  injection H as <- <-. apply span_digits_length in E. simpl. lia.
Qed.

Lemma lex_frac_length s fp r : lex_frac s = Some (fp, r) -> (length r <= length s)%nat.
Proof.
  unfold lex_frac. destruct s as [|c s]; [intros [= <- <-]; reflexivity|].
  destruct (c =? 46); [|intros [= <- <-]; reflexivity].
  destruct (span_digits s) as [ds r'] eqn:E. apply span_digits_length in E.
  destruct ds; [discriminate|]. intros [= <- <-]. simpl. lia.
Qed.

Lemma lex_exp_digits_length neg s e r :
  lex_exp_digits neg s = Some (e, r) -> (length r <= length s)%nat.
Proof.
  unfold lex_exp_digits. destruct (span_digits s) as [ds r'] eqn:E.
  apply span_digits_length in E. destruct ds; [discriminate|]. intros [= <- <-]. exact E.
Qed.

Lemma lex_exp_length s e r : lex_exp s = Some (e, r) -> (length r <= length s)%nat.
Proof.
  unfold lex_exp. destruct s as [|c s]; [intros [= <- <-]; reflexivity|].
  destruct ((c =? 101) || (c =? 69)); [|intros [= <- <-]; reflexivity].
  destruct s as [|c' s']; [discriminate|].
  destruct (c' =? 43); [|destruct (c' =? 45)]; intros H;
    apply lex_exp_digits_length in H; simpl in *; lia.
Qed.

Lemma lex_number_length s n r : lex_number s = Some (n, r) -> (length r < length s)%nat.
Proof.
  unfold lex_number.
  set (sg := match s with
             | c :: r => if c =? 45 then (true, r) else (false, s)
             | [] => (false, [])
             end).
  assert (Hsg : (length (snd sg) <= length s)%nat).
  { unfold sg. destruct s as [|c s']; [reflexivity|]. destruct (c =? 45); simpl; lia. }
  destruct sg as [neg s1]. simpl in Hsg.
  destruct (lex_int s1) as [[ip s2]|] eqn:E1; [|discriminate]. cbn [mbind option_bind].
  destruct (lex_frac s2) as [[fp s3]|] eqn:E2; [|discriminate]. cbn [mbind option_bind].
  destruct (lex_exp s3) as [[e s4]|] eqn:E3; [|discriminate]. cbn [mbind option_bind].
  intros [= _ <-].
  apply lex_int_length in E1. apply lex_frac_length in E2. apply lex_exp_length in E3. lia.
Qed.

Lemma strip_prefix_length p : forall s r, strip_prefix p s = Some r -> (length r <= length s)%nat.
Proof.
  induction p as [|a p IH]; intros s r H; simpl in H.
  - injection H as <-. reflexivity.
  - destruct s as [|b s]; [discriminate|]. destruct (a =? b); [|discriminate].
    apply IH in H. simpl. lia.
Qed.

Lemma parse_value_eq f s :
  parse_value (S f) s
  = match skip_ws s with
    | [] => None
    | c :: r =>
        if c =? 123 then
          match expect 125 r with
          | Some r' => Some (JObj [], r')
          | None => parse_members f r []
          end
        else if c =? 91 then
          match expect 93 r with
          | Some r' => Some (JArr [] [], r')
          | None => parse_elements f r []
          end
        else if c =? dq then
          '(str, r') ← lex_string r; Some (JStr str, r')
        else if (c =? 45) || is_digit c then
          '(n, r') ← lex_number (c :: r); Some (JNum n, r')
        else if c =? 116 then
          r' ← strip_prefix (lit "rue") r; Some (JBool true, r')
        else if c =? 102 then
          r' ← strip_prefix (lit "alse") r; Some (JBool false, r')
        else if c =? 110 then
          r' ← strip_prefix (lit "ull") r; Some (JNull, r')
        else None
    end.
Proof. reflexivity. Qed.

Lemma parse_consumes f :
  (forall s t r, parse_value f s = Some (t, r) -> (length r < length s)%nat)
  /\ (forall s acc t r, parse_members f s acc = Some (t, r) -> (length r < length s)%nat)
  /\ (forall s acc t r, parse_elements f s acc = Some (t, r) -> (length r < length s)%nat).
Proof.
  induction f as [|f (IHv & IHm & IHe)]; [repeat split; intros; discriminate|].
  split; [|split].
  - intros s t r. rewrite parse_value_eq. pose proof (skip_ws_length s) as Hs.
    destruct (skip_ws s) as [|c r0]; [discriminate|]. simpl in Hs.
    destruct (c =? 123).
    { destruct (expect 125 r0) as [r'|] eqn:E.
      - intros [= <- <-]. apply expect_length in E. lia.
      - intros H. apply IHm in H. lia. }
    destruct (c =? 91).
    { destruct (expect 93 r0) as [r'|] eqn:E.
      - intros [= <- <-]. apply expect_length in E. lia.
      - intros H. apply IHe in H. lia. }
    destruct (c =? dq).
    { destruct (lex_string r0) as [[str r']|] eqn:E; [|discriminate].
      intros [= <- <-]. apply lex_string_length in E. lia. }
    destruct ((c =? 45) || is_digit c).
    { destruct (lex_number (c :: r0)) as [[n r']|] eqn:E; [|discriminate].
      intros [= <- <-]. apply lex_number_length in E. simpl in E. lia. }
    destruct (c =? 116).
    { destruct (strip_prefix (lit "rue") r0) as [r'|] eqn:E; [|discriminate].
      intros [= <- <-]. apply strip_prefix_length in E. lia. }
    destruct (c =? 102).
    { destruct (strip_prefix (lit "alse") r0) as [r'|] eqn:E; [|discriminate].
      intros [= <- <-]. apply strip_prefix_length in E. lia. }
    destruct (c =? 110); [|discriminate].
    destruct (strip_prefix (lit "ull") r0) as [r'|] eqn:E; [|discriminate].
    intros [= <- <-]. apply strip_prefix_length in E. lia.
  - intros s acc t r. rewrite parse_members_eq.
    destruct (expect dq s) as [r0|] eqn:E0; [|discriminate]. cbn [mbind option_bind].
    destruct (lex_string r0) as [[k r1]|] eqn:E1; [|discriminate]. cbn [mbind option_bind].
    destruct (expect 58 r1) as [r2|] eqn:E2; [|discriminate]. cbn [mbind option_bind].
    destruct (parse_value f r2) as [[v r3]|] eqn:E3; [|discriminate]. cbn [mbind option_bind].
    apply expect_length in E0. apply lex_string_length in E1. apply expect_length in E2.
    apply IHv in E3. pose proof (skip_ws_length r3) as Hs.
    destruct (skip_ws r3) as [|c r4]; [discriminate|]. simpl in Hs.
    destruct (c =? 44); [intros H; apply IHm in H; lia|].
    destruct (c =? 125); [|discriminate]. intros [= <- <-]. lia.
  - intros s acc t r. rewrite parse_elements_eq.
    destruct (parse_value f s) as [[v r1]|] eqn:E1; [|discriminate]. cbn [mbind option_bind].
    apply IHv in E1. pose proof (skip_ws_length r1) as Hs.
    destruct (skip_ws r1) as [|c r2]; [discriminate|]. simpl in Hs.
    destruct (c =? 44); [intros H; apply IHe in H; lia|].
    destruct (c =? 93); [|discriminate]. intros [= <- <-]. lia.
Qed.

Lemma parse_stable f :
  (forall s, (2 * length s + 1 <= f)%nat -> parse_value f s = parse_value (S f) s)
  /\ (forall s acc, (2 * length s + 2 <= f)%nat ->
        parse_members f s acc = parse_members (S f) s acc)
  /\ (forall s acc, (2 * length s + 2 <= f)%nat ->
        parse_elements f s acc = parse_elements (S f) s acc).
Proof.
  induction f as [|f (IHv & IHm & IHe)]; [repeat split; intros; lia|].
  destruct (parse_consumes f) as (Cv & Cm & Ce).
  split; [|split].
  - intros s Hf. rewrite !parse_value_eq. pose proof (skip_ws_length s) as Hs.
    destruct (skip_ws s) as [|c r0]; [reflexivity|]. simpl in Hs.
    rewrite (IHm r0 []) by lia. rewrite (IHe r0 []) by lia. reflexivity.
  - intros s acc Hf. rewrite !parse_members_eq.
    destruct (expect dq s) as [r0|] eqn:E0; [|reflexivity]. cbn [mbind option_bind].
    destruct (lex_string r0) as [[k r1]|] eqn:E1; [|reflexivity]. cbn [mbind option_bind].
    destruct (expect 58 r1) as [r2|] eqn:E2; [|reflexivity]. cbn [mbind option_bind].
    apply expect_length in E0. apply lex_string_length in E1. apply expect_length in E2.
    rewrite <- (IHv r2) by lia.
    destruct (parse_value f r2) as [[v r3]|] eqn:E3; [|reflexivity]. cbn [mbind option_bind].
    apply Cv in E3. pose proof (skip_ws_length r3) as Hs.
    destruct (skip_ws r3) as [|c r4]; [reflexivity|]. simpl in Hs.
    rewrite (IHm r4) by lia. reflexivity.
  - intros s acc Hf. rewrite !parse_elements_eq.
    rewrite <- (IHv s) by lia.
    destruct (parse_value f s) as [[v r1]|] eqn:E1; [|reflexivity]. cbn [mbind option_bind].
    apply Cv in E1. pose proof (skip_ws_length r1) as Hs.
    destruct (skip_ws r1) as [|c r2]; [reflexivity|]. simpl in Hs.
    rewrite (IHe r2) by lia. reflexivity.
Qed.

Lemma parse_value_fuel s n :
  parse_value (n + (2 * length s + 2)) s = parse_value (2 * length s + 2) s.
Proof.
  induction n as [|n IH]; [reflexivity|].
  rewrite <- IH. symmetry. apply parse_stable. lia.
Qed.

(** ** Trees in the store: framing, building, walking *)

Lemma jtree_ind' (P : jtree -> Prop) :
  P JUndefined -> P JNull -> (forall b, P (JBool b)) -> (forall n, P (JNum n)) ->
  (forall s, P (JStr s)) ->
  (forall es nm, Forall P es -> Forall (fun kv => P (snd kv)) nm -> P (JArr es nm)) ->
  (forall ps, Forall (fun kv => P (snd kv)) ps -> P (JObj ps)) ->
  forall t, P t.
Proof.
  intros Hu Hn Hb Hnum Hs Harr Hobj. fix IH 1.
  intros [ | |b|n|s|es nm|ps];
    [exact Hu|exact Hn|apply Hb|apply Hnum|apply Hs| |].
  - apply Harr.
    + induction es as [|e es IHes]; constructor; [apply IH|exact IHes].
    + induction nm as [|[k e] nm IHnm]; constructor; [apply IH|exact IHnm].
  - apply Hobj. induction ps as [|[k e] ps IHps]; constructor; [apply IH|exact IHps].
Qed.

(** A store that agrees on the footprint represents the same tree. *)
Lemma repr_frame_all h h' :
  (forall v t F, repr h v t F -> (forall l, l ∈ F -> h' !! l = h !! l) -> repr h' v t F)
  /\ (forall o t F, repr_obj h o t F ->
        (forall l, l ∈ F -> h' !! l = h !! l) -> repr_obj h' o t F)
  /\ (forall vs ts F, repr_list h vs ts F ->
        (forall l, l ∈ F -> h' !! l = h !! l) -> repr_list h' vs ts F)
  /\ (forall ps tps F, repr_props h ps tps F ->
        (forall l, l ∈ F -> h' !! l = h !! l) -> repr_props h' ps tps F).
Proof.
  apply repr_mutind; try (intros; constructor; fail).
  - intros l o t F Hl _ IH Hnin Hagree. apply repr_ref with o; [|apply IH|assumption].
    + rewrite Hagree by set_solver. assumption.
    + intros. apply Hagree. set_solver.
  - intros ps tps F _ IH Hagree. constructor. auto.
  - intros es nm tes tnm F1 F2 _ IH1 _ IH2 Hd Hagree.
    constructor; [apply IH1|apply IH2|assumption]; intros; apply Hagree; set_solver.
  - intros v t vs ts F1 F2 _ IH1 _ IH2 Hd Hagree.
    constructor; [apply IH1|apply IH2|assumption]; intros; apply Hagree; set_solver.
  - intros k v t ps tps F1 F2 _ IH1 _ IH2 Hd Hagree.
    constructor; [apply IH1|apply IH2|assumption]; intros; apply Hagree; set_solver.
Qed.

Lemma repr_frame h h' v t F :
  repr h v t F -> (forall l, l ∈ F -> h' !! l = h !! l) -> repr h' v t F.
Proof. apply repr_frame_all. Qed.

Lemma repr_list_frame h h' vs ts F :
  repr_list h vs ts F -> (forall l, l ∈ F -> h' !! l = h !! l) -> repr_list h' vs ts F.
Proof. apply repr_frame_all. Qed.

Lemma repr_props_frame h h' ps tps F :
  repr_props h ps tps F -> (forall l, l ∈ F -> h' !! l = h !! l) -> repr_props h' ps tps F.
Proof. apply repr_frame_all. Qed.

Lemma repr_obj_frame h h' o t F :
  repr_obj h o t F -> (forall l, l ∈ F -> h' !! l = h !! l) -> repr_obj h' o t F.
Proof. apply repr_frame_all. Qed.

(** The footprint lies inside the store. *)
Lemma repr_bound_all h :
  (forall v t F, repr h v t F -> forall l, l ∈ F -> (l < length h)%nat)
  /\ (forall o t F, repr_obj h o t F -> forall l, l ∈ F -> (l < length h)%nat)
  /\ (forall vs ts F, repr_list h vs ts F -> forall l, l ∈ F -> (l < length h)%nat)
  /\ (forall ps tps F, repr_props h ps tps F -> forall l, l ∈ F -> (l < length h)%nat).
Proof.
  apply repr_mutind; try (intros; exfalso; set_solver).
  - intros l o t F Hl _ IH Hnin l' Hin.
    apply elem_of_union in Hin as [Hin|Hin]; [|auto].
    apply elem_of_singleton in Hin. subst. eapply lookup_lt_Some. eassumption.
  - intros ps tps F _ IH. exact IH.
  - intros es nm tes tnm F1 F2 _ IH1 _ IH2 Hd l Hin.
    apply elem_of_union in Hin as [Hin|Hin]; auto.
  - intros v t vs ts F1 F2 _ IH1 _ IH2 Hd l Hin.
    apply elem_of_union in Hin as [Hin|Hin]; auto.
  - intros k v t ps tps F1 F2 _ IH1 _ IH2 Hd l Hin.
    apply elem_of_union in Hin as [Hin|Hin]; auto.
Qed.

Lemma repr_bound h v t F l : repr h v t F -> l ∈ F -> (l < length h)%nat.
Proof. intros H. exact (proj1 (repr_bound_all h) v t F H l). Qed.

Lemma repr_list_bound h vs ts F l : repr_list h vs ts F -> l ∈ F -> (l < length h)%nat.
Proof. intros H. exact (proj1 (proj2 (proj2 (repr_bound_all h))) vs ts F H l). Qed.

Lemma repr_props_bound h ps tps F l : repr_props h ps tps F -> l ∈ F -> (l < length h)%nat.
Proof. intros H. exact (proj2 (proj2 (proj2 (repr_bound_all h))) ps tps F H l). Qed.

Lemma repr_obj_bound h o t F l : repr_obj h o t F -> l ∈ F -> (l < length h)%nat.
Proof. intros H. exact (proj1 (proj2 (repr_bound_all h)) o t F H l). Qed.

Lemma alloc_list_repr ts :
  Forall alloc_spec ts ->
  forall h vs h', alloc_list alloc ts h = (vs, h') ->
  exists F, repr_list h' vs ts F
            /\ (forall l, l ∈ F -> (length h <= l)%nat)
            /\ (forall l, (l < length h)%nat -> h' !! l = h !! l)
            /\ (length h <= length h')%nat.
Proof.
  induction 1 as [|t ts Ht _ IH]; intros h vs h' E; simpl in E.
  - injection E as <- <-. exists ∅. repeat split; [constructor|set_solver|lia].
  - destruct (alloc t h) as [v h1] eqn:E1.
    destruct (alloc_list alloc ts h1) as [vs' h2] eqn:E2.
    injection E as <- <-.
    destruct (Ht _ _ _ E1) as (F1 & R1 & B1 & A1 & L1).
    destruct (IH _ _ _ E2) as (F2 & R2 & B2 & A2 & L2).
    exists (F1 ∪ F2). split; [|split; [|split]].
    + constructor; [|assumption|].
      * eapply repr_frame; [exact R1|]. intros l Hl. apply A2. eapply repr_bound; eassumption.
      * intros l Hl1 Hl2. apply B2 in Hl2. eapply repr_bound in Hl1; [|exact R1]. lia.
    + intros l Hl. apply elem_of_union in Hl as [Hl|Hl]; [auto|]. apply B2 in Hl. lia.
    + intros l Hl. rewrite A2 by lia. auto.
    + lia.
Qed.

Lemma alloc_props_repr ps :
  Forall (fun kv => alloc_spec (snd kv)) ps ->
  forall h pv h', alloc_props alloc ps h = (pv, h') ->
  exists F, repr_props h' pv ps F
            /\ (forall l, l ∈ F -> (length h <= l)%nat)
            /\ (forall l, (l < length h)%nat -> h' !! l = h !! l)
            /\ (length h <= length h')%nat.
Proof.
  induction 1 as [|[k t] ps Ht _ IH]; intros h pv h' E; simpl in E.
  - injection E as <- <-. exists ∅. repeat split; [constructor|set_solver|lia].
  - destruct (alloc t h) as [v h1] eqn:E1.
    destruct (alloc_props alloc ps h1) as [pv' h2] eqn:E2.
    injection E as <- <-. simpl in Ht.
    destruct (Ht _ _ _ E1) as (F1 & R1 & B1 & A1 & L1).
    destruct (IH _ _ _ E2) as (F2 & R2 & B2 & A2 & L2).
    exists (F1 ∪ F2). split; [|split; [|split]].
    + constructor; [|assumption|].
      * eapply repr_frame; [exact R1|]. intros l Hl. apply A2. eapply repr_bound; eassumption.
      * intros l Hl1 Hl2. apply B2 in Hl2. eapply repr_bound in Hl1; [|exact R1]. lia.
    + intros l Hl. apply elem_of_union in Hl as [Hl|Hl]; [auto|]. apply B2 in Hl. lia.
    + intros l Hl. rewrite A2 by lia. auto.
    + lia.
Qed.

Lemma alloc_repr t : alloc_spec t.
Proof.
  induction t as [ | |b|n|s|es nm IHes IHnm|ps IHps] using jtree_ind';
    intros h v h' E; simpl in E;
    try (injection E as <- <-; exists ∅; repeat split; [constructor|set_solver|lia]).
  - destruct (alloc_list alloc es h) as [vs h1] eqn:E1.
    destruct (alloc_props alloc nm h1) as [nv h2] eqn:E2.
    injection E as <- <-.
    destruct (alloc_list_repr es IHes _ _ _ E1) as (F1 & R1 & B1 & A1 & L1).
    destruct (alloc_props_repr nm IHnm _ _ _ E2) as (F2 & R2 & B2 & A2 & L2).
    exists ({[length h2]} ∪ (F1 ∪ F2)). split; [|split; [|split]].
    + apply repr_ref with (OArr vs nv).
      * apply list_lookup_middle. reflexivity.
      * constructor.
        -- eapply repr_list_frame; [exact R1|]. intros l Hl.
           eapply repr_list_bound in Hl; [|exact R1].
           rewrite lookup_app_l by lia. apply A2. assumption.
        -- eapply repr_props_frame; [exact R2|]. intros l Hl.
           eapply repr_props_bound in Hl; [|exact R2]. apply lookup_app_l. assumption.
        -- intros l Hl1 Hl2. apply B2 in Hl2. eapply repr_list_bound in Hl1; [|exact R1]. lia.
      * intros Hl. apply elem_of_union in Hl as [Hl|Hl].
        -- eapply repr_list_bound in Hl; [|exact R1]. lia.
        -- eapply repr_props_bound in Hl; [|exact R2]. lia.
    + intros l Hl. apply elem_of_union in Hl as [Hl|Hl].
      * apply elem_of_singleton in Hl. lia.
      * apply elem_of_union in Hl as [Hl|Hl]; [auto|]. apply B2 in Hl. lia.
    + intros l Hl. rewrite lookup_app_l by lia. rewrite A2 by lia. auto.
    + rewrite length_app. simpl. lia.
  - destruct (alloc_props alloc ps h) as [pv h1] eqn:E1.
    injection E as <- <-.
    destruct (alloc_props_repr ps IHps _ _ _ E1) as (F1 & R1 & B1 & A1 & L1).
    exists ({[length h1]} ∪ F1). split; [|split; [|split]].
    + apply repr_ref with (OObj pv).
      * apply list_lookup_middle. reflexivity.
      * constructor. eapply repr_props_frame; [exact R1|]. intros l Hl.
        eapply repr_props_bound in Hl; [|exact R1]. apply lookup_app_l. assumption.
      * intros Hl. eapply repr_props_bound in Hl; [|exact R1]. lia.
    + intros l Hl. apply elem_of_union in Hl as [Hl|Hl]; [|auto].
      apply elem_of_singleton in Hl. lia.
    + intros l Hl. rewrite lookup_app_l by lia. auto.
    + rewrite length_app. simpl. lia.
Qed.

(** ** [JSON.stringify] reads a represented tree *)

Lemma mapM_res_cons {A B} (f : A -> res B) x l :
  mapM f (x :: l) = y ← f x; k ← mapM f l; Ok (y :: k).
Proof. reflexivity. Qed.

Lemma snapshot_repr_all h :
  (forall v t F, repr h v t F ->
     forall stack f, (forall l, l ∈ F -> l ∉ stack) -> (size F < f)%nat ->
     snapshot f stack h v = Ok (erase t))
  /\ (forall o t F, repr_obj h o t F ->
        forall stack f, (forall l, l ∈ F -> l ∉ stack) -> (size F < f)%nat ->
        match o with
        | OObj ps =>
            ts ← mapM (fun kv => t ← snapshot f stack h (snd kv); Ok (fst kv, t)) ps;
            Ok (JObj ts)
        | OArr es _ => ts ← mapM (snapshot f stack h) es; Ok (JArr ts [])
        end = Ok (erase t))
  /\ (forall vs ts F, repr_list h vs ts F ->
        forall stack f, (forall l, l ∈ F -> l ∉ stack) -> (size F < f)%nat ->
        mapM (snapshot f stack h) vs = Ok (map erase ts))
  /\ (forall ps tps F, repr_props h ps tps F ->
        forall stack f, (forall l, l ∈ F -> l ∉ stack) -> (size F < f)%nat ->
        mapM (fun kv => t ← snapshot f stack h (snd kv); Ok (fst kv, t)) ps
        = Ok (map (fun kv => (fst kv, erase (snd kv))) tps)).
Proof.
  apply repr_mutind.
  - intros stack [|f] _ Hf; [rewrite size_empty in Hf; lia|reflexivity].
  - intros stack [|f] _ Hf; [rewrite size_empty in Hf; lia|reflexivity].
  - intros b stack [|f] _ Hf; [rewrite size_empty in Hf; lia|reflexivity].
  - intros n stack [|f] _ Hf; [rewrite size_empty in Hf; lia|reflexivity].
  - intros s stack [|f] _ Hf; [rewrite size_empty in Hf; lia|reflexivity].
  - intros l o t F Hl _ IH Hnin stack f Hstack Hf.
    rewrite size_union, size_singleton in Hf by set_solver.
    destruct f as [|f]; [lia|]. cbn [snapshot].
    rewrite bool_decide_eq_false_2 by (apply Hstack; set_solver).
    unfold deref. rewrite Hl. cbn [default].
    specialize (IH (l :: stack) f).
    destruct o; apply IH; try lia; intros l' Hl' Hin;
      (apply elem_of_cons in Hin as [->|Hin]; [contradiction|]);
      (eapply Hstack; [|exact Hin]; set_solver).
  - intros ps tps F _ IH stack f Hstack Hf. rewrite IH by assumption. reflexivity.
  - intros es nm tes tnm F1 F2 _ IH1 _ _ Hd stack f Hstack Hf.
    rewrite IH1; [reflexivity|intros; apply Hstack; set_solver|].
    pose proof (subseteq_size F1 (F1 ∪ F2) ltac:(set_solver)). lia.
  - intros stack f _ _. reflexivity.
  - intros v t vs ts F1 F2 _ IH1 _ IH2 Hd stack f Hstack Hf.
    rewrite mapM_res_cons. rewrite IH1, IH2; [reflexivity|..].
    + intros; apply Hstack; set_solver.
    + pose proof (subseteq_size F2 (F1 ∪ F2) ltac:(set_solver)). lia.
    + intros; apply Hstack; set_solver.
    + pose proof (subseteq_size F1 (F1 ∪ F2) ltac:(set_solver)). lia.
  - intros stack f _ _. reflexivity.
  - intros k v t ps tps F1 F2 _ IH1 _ IH2 Hd stack f Hstack Hf.
    rewrite mapM_res_cons. cbn [fst snd]. rewrite IH1, IH2; [reflexivity|..].
    + intros; apply Hstack; set_solver.
    + pose proof (subseteq_size F2 (F1 ∪ F2) ltac:(set_solver)). lia.
    + intros; apply Hstack; set_solver.
    + pose proof (subseteq_size F1 (F1 ∪ F2) ltac:(set_solver)). lia.
Qed.

Lemma footprint_size h v t F : repr h v t F -> (size F <= length h)%nat.
Proof.
  intros H.
  assert (Hsub : F ⊆ set_seq 0 (length h)).
  { intros l Hl. apply elem_of_set_seq. split; [lia|]. simpl. eapply repr_bound; eassumption. }
  apply subseteq_size in Hsub. rewrite size_set_seq in Hsub. exact Hsub.
Qed.

Lemma snapshot_repr h v t F :
  repr h v t F -> snapshot (S (length h)) [] h v = Ok (erase t).
Proof.
  intros H. eapply (proj1 (snapshot_repr_all h)); [exact H| |].
  - intros l _ Hin. apply elem_of_nil in Hin. exact Hin.
  - pose proof (footprint_size h v t F H). lia.
Qed.

Lemma omap_map_Forall {A B C} (f : B -> option C) (g : A -> option C) (m : A -> B) l :
  Forall (fun x => f (m x) = g x) l -> omap f (map m l) = omap g l.
Proof.
  induction 1 as [|x l Hx _ IH]; [reflexivity|].
  change (omap f (map m (x :: l)))
    with (match f (m x) with Some y => y :: omap f (map m l) | None => omap f (map m l) end).
  change (omap g (x :: l))
    with (match g x with Some y => y :: omap g l | None => omap g l end).
  rewrite Hx, IH. reflexivity.
Qed.

(** The named properties of arrays do not show in the text. *)
Lemma serialize_erase gap t : forall indent, serialize gap indent (erase t) = serialize gap indent t.
Proof.
  induction t as [ | |b|n|s|es nm IHes _|ps IHps] using jtree_ind'; intros indent;
    try reflexivity.
  - cbn [erase serialize]. f_equal. f_equal. rewrite map_map.
    apply map_ext_Forall. eapply Forall_impl; [exact IHes|].
    intros e He. simpl. rewrite He. reflexivity.
  - cbn [erase serialize]. f_equal. f_equal.
    apply omap_map_Forall. eapply Forall_impl; [exact IHps|].
    intros [k e] He. simpl in *. rewrite He. reflexivity.
Qed.

Lemma stringify_tree_erase space t : stringify_tree space (erase t) = stringify_tree space t.
Proof. unfold stringify_tree. rewrite serialize_erase. reflexivity. Qed.

Lemma JSON_stringify_repr space h v t F :
  repr h v t F -> JSON_stringify space h v = Ok (stringify_tree space t).
Proof.
  intros H. unfold JSON_stringify. rewrite (snapshot_repr h v t F H).
  cbn [mbind res_bind]. rewrite stringify_tree_erase. reflexivity.
Qed.

(** ** The fuel of [snapshot] never runs out

    The stack holds distinct objects of the store, so the walk is never
    deeper than the store is large: a [TypeError] of [JSON.stringify] is
    always the circular structure. *)

Lemma NoDup_bounded_length (l : list nat) n :
  NoDup l -> (forall x, x ∈ l -> (x < n)%nat) -> (length l <= n)%nat.
Proof.
  intros Hnd Hb.
  assert (Hsub : (list_to_set l : gset nat) ⊆ set_seq 0 n).
  { intros x Hx. apply elem_of_list_to_set in Hx. apply elem_of_set_seq.
    split; [lia|]. simpl. auto. }
  apply subseteq_size in Hsub.
  rewrite size_list_to_set, size_set_seq in Hsub by assumption. exact Hsub.
Qed.

Lemma mapM_res_ext {A B} (f g : A -> res B) l :
  (forall x, f x = g x) -> mapM f l = mapM g l.
Proof.
  intros H. induction l as [|x l IH]; [reflexivity|].
  rewrite !mapM_res_cons, H, IH. reflexivity.
Qed.

Lemma snapshot_more_fuel h : forall f stack v,
  NoDup stack -> (forall l, l ∈ stack -> (l < length h)%nat) ->
  (length h < f + length stack)%nat ->
  snapshot f stack h v = snapshot (S f) stack h v.
Proof.
  induction f as [|f IH]; intros stack v Hnd Hb Hf.
  - pose proof (NoDup_bounded_length stack (length h) Hnd Hb). simpl in Hf. lia.
  - destruct v as [ | |b|n|s|l]; try reflexivity.
    change (snapshot (S f) stack h (VRef l))
      with (if bool_decide (l ∈ stack) then Throw TypeError
            else match deref h l with
                 | OObj ps =>
                     ts ← mapM (fun kv => t ← snapshot f (l :: stack) h (snd kv);
                                          Ok (fst kv, t)) ps;
                     Ok (JObj ts)
                 | OArr es _ => ts ← mapM (snapshot f (l :: stack) h) es; Ok (JArr ts [])
                 end).
    change (snapshot (S (S f)) stack h (VRef l))
      with (if bool_decide (l ∈ stack) then Throw TypeError
            else match deref h l with
                 | OObj ps =>
                     ts ← mapM (fun kv => t ← snapshot (S f) (l :: stack) h (snd kv);
                                          Ok (fst kv, t)) ps;
                     Ok (JObj ts)
                 | OArr es _ => ts ← mapM (snapshot (S f) (l :: stack) h) es; Ok (JArr ts [])
                 end).
    destruct (bool_decide (l ∈ stack)) eqn:Hin; [reflexivity|].
    apply bool_decide_eq_false in Hin.
    destruct (h !! l) as [o|] eqn:Hl.
    + assert (Hlt : (l < length h)%nat) by (eapply lookup_lt_Some; exact Hl).
      assert (Hstep : forall v, snapshot f (l :: stack) h v = snapshot (S f) (l :: stack) h v).
      { intros v. apply IH.
        - constructor; assumption.
        - intros x Hx. apply elem_of_cons in Hx as [->|Hx]; auto.
        - simpl. lia. }
      destruct (deref h l).
      * rewrite (mapM_res_ext _ (fun kv => t ← snapshot (S f) (l :: stack) h (snd kv);
                                           Ok (fst kv, t)));
          [reflexivity|]. intros kv. rewrite Hstep. reflexivity.
      * rewrite (mapM_res_ext _ (snapshot (S f) (l :: stack) h)) by exact Hstep.
        reflexivity.
    + unfold deref. rewrite Hl. reflexivity.
Qed.

Lemma snapshot_fuel h v n :
  snapshot (n + S (length h)) [] h v = snapshot (S (length h)) [] h v.
Proof.
  induction n as [|n IH]; [reflexivity|].
  rewrite <- IH. symmetry. apply snapshot_more_fuel.
  - constructor.
  - intros l Hl. apply elem_of_nil in Hl. contradiction.
  - simpl. lia.
Qed.

(** ** Reading and writing one property of a represented object *)

Lemma repr_props_eq h ps tps F F' : repr_props h ps tps F -> F = F' -> repr_props h ps tps F'.
Proof. intros H <-. exact H. Qed.

Lemma repr_list_eq h vs ts F F' : repr_list h vs ts F -> F = F' -> repr_list h vs ts F'.
Proof. intros H <-. exact H. Qed.

Lemma repr_obj_eq h o t F F' : repr_obj h o t F -> F = F' -> repr_obj h o t F'.
Proof. intros H <-. exact H. Qed.

Lemma repr_eq h v t F F' : repr h v t F -> F = F' -> repr h v t F'.
Proof. intros H <-. exact H. Qed.

(** A property that is there: its value, and what replacing it gives. *)
Lemma props_focus_present h ps tps F k v0 :
  repr_props h ps tps F -> props_lookup ps k = Some v0 ->
  exists t0 Fold Frest,
    props_lookup tps k = Some t0 /\ F = Fold ∪ Frest /\ Fold ## Frest
    /\ repr h v0 t0 Fold
    /\ forall h2 v tv Fv,
         (forall l, l ∈ Frest -> h2 !! l = h !! l) -> repr h2 v tv Fv -> Fv ## Frest ->
         repr_props h2 (props_replace ps k v) (props_replace tps k tv) (Fv ∪ Frest).
Proof.
  induction 1 as [|k' v' t' ps tps F1 F2 Hv Hps IH Hd]; intros Hlook; [discriminate|].
  simpl in Hlook. simpl props_lookup. simpl props_replace.
  destruct (text_eqb k' k) eqn:Ek.
  - injection Hlook as <-. exists t', F1, F2. repeat split; try assumption.
    intros h2 v tv Fv Hfr Hrv Hdv. constructor; [assumption| |assumption].
    eapply repr_props_frame; eassumption.
  - destruct (IH Hlook) as (t0 & Fold & Frest & Ht & -> & Hd' & Hr0 & Hk).
    exists t0, Fold, (F1 ∪ Frest). split; [assumption|]. split; [set_solver|].
    split; [set_solver|]. split; [assumption|].
    intros h2 v tv Fv Hfr Hrv Hdv.
    eapply repr_props_eq.
    + constructor.
      * eapply repr_frame; [exact Hv|]. intros l Hl. apply Hfr. set_solver.
      * apply (Hk h2 v tv Fv); [intros; apply Hfr; set_solver|assumption|set_solver].
      * set_solver.
    + set_solver.
Qed.

(** A property that is not there: what adding it gives, at either place. *)
Lemma props_focus_absent h ps tps F k :
  repr_props h ps tps F -> props_lookup ps k = None ->
  props_lookup tps k = None
  /\ forall h2 v tv Fv,
       (forall l, l ∈ F -> h2 !! l = h !! l) -> repr h2 v tv Fv -> Fv ## F ->
       repr_props h2 (ps ++ [(k, v)]) (tps ++ [(k, tv)]) (Fv ∪ F)
       /\ forall i, repr_props h2 (props_insert_index ps i k v)
                      (props_insert_index tps i k tv) (Fv ∪ F).
Proof.
  induction 1 as [|k' v' t' ps tps F1 F2 Hv Hps IH Hd]; intros Hlook.
  - split; [reflexivity|]. intros h2 v tv Fv _ Hrv _. simpl.
    split; [|intros _]; constructor; (assumption || constructor || set_solver).
  - simpl in Hlook. simpl props_lookup.
    destruct (text_eqb k' k) eqn:Ek; [discriminate|].
    destruct (IH Hlook) as [Ht Hk]. split; [assumption|].
    intros h2 v tv Fv Hfr Hrv Hdv.
    assert (Hv2 : repr h2 v' t' F1).
    { eapply repr_frame; [exact Hv|]. intros l Hl. apply Hfr. set_solver. }
    assert (Hps2 : repr_props h2 ps tps F2).
    { eapply repr_props_frame; [exact Hps|]. intros l Hl. apply Hfr. set_solver. }
    destruct (Hk h2 v tv Fv) as [Happ Hins];
      [intros; apply Hfr; set_solver|assumption|set_solver|].
    split.
    + simpl. eapply repr_props_eq; [constructor; [exact Hv2|exact Happ|set_solver]|set_solver].
    + intros i. simpl.
      destruct (array_index k') as [j|].
      * destruct (j <? i).
        -- eapply repr_props_eq; [constructor; [exact Hv2|apply Hins|set_solver]|set_solver].
        -- constructor; [assumption| |set_solver]. constructor; assumption.
      * constructor; [assumption| |set_solver]. constructor; assumption.
Qed.

Lemma props_focus h ps tps F k :
  repr_props h ps tps F ->
  exists Fold Frest,
    F = Fold ∪ Frest /\ Fold ## Frest
    /\ repr h (default VUndef (props_lookup ps k)) (default JUndefined (props_lookup tps k)) Fold
    /\ forall h2 v tv Fv,
         (forall l, l ∈ Frest -> h2 !! l = h !! l) -> repr h2 v tv Fv -> Fv ## Frest ->
         repr_props h2 (props_set ps k v) (props_set tps k tv) (Fv ∪ Frest).
Proof.
  intros H. unfold props_set. destruct (props_lookup ps k) as [v0|] eqn:E.
  - destruct (props_focus_present h ps tps F k v0 H E)
      as (t0 & Fold & Frest & -> & -> & Hd & Hr & Hk).
    exists Fold, Frest. repeat split; assumption.
  - destruct (props_focus_absent h ps tps F k H E) as [-> Hk].
    exists ∅, F. split; [set_solver|]. split; [set_solver|]. split; [constructor|].
    intros h2 v tv Fv Hfr Hrv Hdv. destruct (Hk h2 v tv Fv Hfr Hrv Hdv) as [Happ Hins].
    destruct (array_index k); [apply Hins|exact Happ].
Qed.

Lemma array_set_cons {A} (hole : A) x l i v :
  array_set hole (x :: l) (S i) v = x :: array_set hole l i v.
Proof.
  unfold array_set. simpl length.
  change (S i <? S (length l))%nat with (i <? length l)%nat.
  destruct (i <? length l)%nat; reflexivity.
Qed.

Lemma array_set_zero {A} (hole : A) x l v : array_set hole (x :: l) 0 v = v :: l.
Proof. reflexivity. Qed.

Lemma array_set_nil {A} (hole : A) i v : array_set hole [] i v = repeat hole i ++ [v].
Proof. unfold array_set. simpl. rewrite Nat.sub_0_r. reflexivity. Qed.

Lemma repr_list_holes h n v tv Fv :
  repr h v tv Fv -> repr_list h (repeat VUndef n ++ [v]) (repeat JUndefined n ++ [tv]) Fv.
Proof.
  intros H. induction n as [|n IH]; simpl.
  - eapply repr_list_eq; [constructor; [exact H|constructor|set_solver]|set_solver].
  - eapply repr_list_eq; [constructor; [constructor|exact IH|set_solver]|set_solver].
Qed.

Lemma list_focus h es tes F :
  repr_list h es tes F ->
  forall i, exists Fold Frest,
    F = Fold ∪ Frest /\ Fold ## Frest
    /\ repr h (default VUndef (es !! i)) (default JUndefined (tes !! i)) Fold
    /\ forall h2 v tv Fv,
         (forall l, l ∈ Frest -> h2 !! l = h !! l) -> repr h2 v tv Fv -> Fv ## Frest ->
         repr_list h2 (array_set VUndef es i v) (array_set JUndefined tes i tv) (Fv ∪ Frest).
Proof.
  induction 1 as [|v' t' vs ts F1 F2 Hv Hvs IH Hd]; intros i.
  - exists ∅, ∅. split; [set_solver|]. split; [set_solver|]. split; [constructor|].
    intros h2 v tv Fv _ Hrv _. rewrite !array_set_nil.
    eapply repr_list_eq; [apply repr_list_holes; exact Hrv|set_solver].
  - destruct i as [|i].
    + exists F1, F2. repeat split; try assumption.
      intros h2 v tv Fv Hfr Hrv Hdv. rewrite !array_set_zero.
      constructor; [assumption| |assumption]. eapply repr_list_frame; eassumption.
    + destruct (IH i) as (Fold & Frest & -> & Hd' & Hr0 & Hk).
      exists Fold, (F1 ∪ Frest). split; [set_solver|]. split; [set_solver|].
      split; [exact Hr0|].
      intros h2 v tv Fv Hfr Hrv Hdv. rewrite !array_set_cons.
      eapply repr_list_eq.
      * constructor.
        -- eapply repr_frame; [exact Hv|]. intros l Hl. apply Hfr. set_solver.
        -- apply (Hk h2 v tv Fv); [intros; apply Hfr; set_solver|assumption|set_solver].
        -- set_solver.
      * set_solver.
Qed.

Lemma obj_focus h o t F k :
  repr_obj h o t F ->
  exists Fold Frest,
    F = Fold ∪ Frest /\ Fold ## Frest
    /\ repr h (get_own o k) (tree_get t k) Fold
    /\ forall h2 v tv Fv,
         (forall l, l ∈ Frest -> h2 !! l = h !! l) -> repr h2 v tv Fv -> Fv ## Frest ->
         repr_obj h2 (set_own o k v) (tree_set t k tv) (Fv ∪ Frest).
Proof.
  intros [ps tps F' Hps|es nm tes tnm F1 F2 Hes Hnm Hd].
  - destruct (props_focus h ps tps F' k Hps) as (Fold & Frest & -> & Hd & Hr & Hk).
    exists Fold, Frest. repeat split; try assumption.
    intros h2 v tv Fv Hfr Hrv Hdv. constructor. apply Hk; assumption.
  - simpl. destruct (array_index k) as [i|].
    + destruct (list_focus h es tes F1 Hes (N.to_nat i)) as (Fold & Frest & -> & Hd' & Hr & Hk).
      exists Fold, (Frest ∪ F2). split; [set_solver|]. split; [set_solver|].
      split; [exact Hr|].
      intros h2 v tv Fv Hfr Hrv Hdv.
      eapply repr_obj_eq.
      * constructor.
        -- apply (Hk h2 v tv Fv); [intros; apply Hfr; set_solver|assumption|set_solver].
        -- eapply repr_props_frame; [exact Hnm|]. intros l Hl. apply Hfr. set_solver.
        -- set_solver.
      * set_solver.
    + destruct (props_focus h nm tnm F2 k Hnm) as (Fold & Frest & -> & Hd' & Hr & Hk).
      exists Fold, (F1 ∪ Frest). split; [set_solver|]. split; [set_solver|].
      split; [exact Hr|].
      intros h2 v tv Fv Hfr Hrv Hdv.
      eapply repr_obj_eq.
      * constructor.
        -- eapply repr_list_frame; [exact Hes|]. intros l Hl. apply Hfr. set_solver.
        -- apply (Hk h2 v tv Fv); [intros; apply Hfr; set_solver|assumption|set_solver].
        -- set_solver.
      * set_solver.
Qed.

Lemma ref_focus h l t F k :
  repr h (VRef l) t F ->
  exists o Fold Frest,
    h !! l = Some o /\ F = {[l]} ∪ (Fold ∪ Frest) /\ l ∉ Fold /\ l ∉ Frest /\ Fold ## Frest
    /\ repr h (get_own o k) (tree_get t k) Fold
    /\ is_container t = true
    /\ forall h2 v tv Fv,
         h2 !! l = Some (set_own o k v) ->
         (forall l', l' ∈ Frest -> h2 !! l' = h !! l') ->
         repr h2 v tv Fv -> Fv ## Frest -> l ∉ Fv ->
         repr h2 (VRef l) (tree_set t k tv) ({[l]} ∪ (Fv ∪ Frest)).
Proof.
  intros H. inversion H as [| | | | |l' o t' F0 Hl Ho Hnin]; subst.
  destruct (obj_focus h o t F0 k Ho) as (Fold & Frest & -> & Hd & Hr & Hk).
  exists o, Fold, Frest. split; [assumption|]. split; [reflexivity|].
  split; [set_solver|]. split; [set_solver|]. split; [assumption|]. split; [assumption|].
  split; [destruct Ho; reflexivity|].
  intros h2 v tv Fv Hl2 Hfr Hrv Hdv Hlv.
  apply repr_ref with (set_own o k v); [assumption|apply Hk; assumption|set_solver].
Qed.

(** ** Reading after writing, and writing back what was read *)

Lemma text_eqb_refl k : text_eqb k k = true.
Proof. apply bool_decide_eq_true_2. reflexivity. Qed.

Lemma props_lookup_replace {A} (ps : list (str * A)) k v v0 :
  props_lookup ps k = Some v0 -> props_lookup (props_replace ps k v) k = Some v.
Proof.
  induction ps as [|[k' v'] ps IH]; simpl; [discriminate|].
  destruct (text_eqb k' k) eqn:E; simpl; rewrite E; auto.
Qed.

Lemma props_lookup_app_new {A} (ps : list (str * A)) k v :
  props_lookup ps k = None -> props_lookup (ps ++ [(k, v)]) k = Some v.
Proof.
  induction ps as [|[k' v'] ps IH]; simpl.
  - intros _. rewrite text_eqb_refl. reflexivity.
  - destruct (text_eqb k' k); [discriminate|auto].
Qed.

Lemma props_lookup_insert_index {A} (ps : list (str * A)) i k v :
  props_lookup ps k = None -> props_lookup (props_insert_index ps i k v) k = Some v.
Proof.
  induction ps as [|[k' v'] ps IH]; simpl.
  - intros _. rewrite text_eqb_refl. reflexivity.
  - destruct (text_eqb k' k) eqn:E; [discriminate|]. intros Hn.
    destruct (array_index k') as [j|]; [destruct (j <? i)|]; simpl;
      rewrite ?E, ?text_eqb_refl; auto.
Qed.

Lemma props_lookup_set {A} (ps : list (str * A)) k v :
  props_lookup (props_set ps k v) k = Some v.
Proof.
  unfold props_set. destruct (props_lookup ps k) eqn:E.
  - eapply props_lookup_replace; eassumption.
  - destruct (array_index k);
      [apply props_lookup_insert_index|apply props_lookup_app_new]; assumption.
Qed.

Lemma array_set_lookup {A} (hole : A) l i v : array_set hole l i v !! i = Some v.
Proof.
  unfold array_set. destruct (Nat.ltb_spec i (length l)).
  - apply list_lookup_insert_eq. assumption.
  - rewrite lookup_app_r by lia. rewrite lookup_app_r by (rewrite repeat_length; lia).
    rewrite repeat_length. replace (i - length l - (i - length l))%nat with 0%nat by lia.
    reflexivity.
Qed.

Lemma get_own_set_own o k v : get_own (set_own o k v) k = v.
Proof.
  destruct o as [ps|es nm]; simpl.
  - rewrite props_lookup_set. reflexivity.
  - destruct (array_index k) as [i|] eqn:E; simpl; rewrite E.
    + rewrite array_set_lookup. reflexivity.
    + rewrite props_lookup_set. reflexivity.
Qed.

Lemma props_replace_same {A} (ps : list (str * A)) k v :
  props_lookup ps k = Some v -> props_replace ps k v = ps.
Proof.
  induction ps as [|[k' v'] ps IH]; simpl; [reflexivity|].
  destruct (text_eqb k' k).
  - intros [= ->]. reflexivity.
  - intros H. rewrite IH by assumption. reflexivity.
Qed.

Lemma set_own_get_own o k l : get_own o k = VRef l -> set_own o k (VRef l) = o.
Proof.
  destruct o as [ps|es nm]; simpl.
  - unfold props_set. destruct (props_lookup ps k) as [v|] eqn:E; simpl; [|discriminate].
    intros ->. rewrite props_replace_same by assumption. reflexivity.
  - destruct (array_index k) as [i|].
    + destruct (es !! N.to_nat i) as [v|] eqn:E; simpl; [|discriminate].
      intros ->. unfold array_set.
      rewrite (proj2 (Nat.ltb_lt _ _)) by (eapply lookup_lt_Some; eassumption).
      rewrite list_insert_id by assumption. reflexivity.
    + unfold props_set. destruct (props_lookup nm k) as [v|] eqn:E; simpl; [|discriminate].
      intros ->. rewrite props_replace_same by assumption. reflexivity.
Qed.

Lemma repr_tests h v t F :
  repr h v t F ->
  Array_isArray h v = is_array t /\ is_object v = is_container t.
Proof.
  intros H. inversion H as [| | | | |l o t' F0 Hl Ho Hnin]; subst; try (split; reflexivity).
  simpl. unfold deref. rewrite Hl. simpl. destruct Ho; split; reflexivity.
Qed.

Lemma repr_kept h s v t F :
  repr h v t F ->
  match s with SegNum _ => Array_isArray h v | SegStr _ => is_object v end = kept s t.
Proof. intros H. destruct (repr_tests h v t F H). destruct s; assumption. Qed.

Lemma repr_container_ref h v t F :
  repr h v t F -> is_container t = true -> exists l, v = VRef l.
Proof.
  intros H Hc. inversion H; subst; try discriminate. eexists. reflexivity.
Qed.

Lemma tree_set_path_cons t s rest last v :
  tree_set_path t (s :: rest ++ [last]) v
  = tree_set t (to_key s)
      (tree_set_path (if kept s (tree_get t (to_key s)) then tree_get t (to_key s)
                      else fresh_container s) (rest ++ [last]) v).
Proof.
  cbn [tree_set_path]. destruct (rest ++ [last]) eqn:E; [|reflexivity].
  destruct rest; discriminate.
Qed.

Lemma kept_container s t : kept s t = true -> is_container t = true.
Proof. destruct s, t; simpl; congruence. Qed.

(** ** [setValueAtPath] on a represented document *)

Lemma descend_cons h target s rest :
  descend h target (s :: rest)
  = cur ← get h target (to_key s);
    h' ← (if match s with SegNum _ => Array_isArray h cur | SegStr _ => is_object cur end
          then Ok h
          else let '(c, h1) := new_object h (match s with
                                             | SegNum _ => OArr [] []
                                             | SegStr _ => OObj []
                                             end) in
               set h1 target (to_key s) c);
    target' ← get h' target (to_key s);
    descend h' target' rest.
Proof. reflexivity. Qed.

Lemma repr_fresh h s :
  repr (h ++ [match s with SegNum _ => OArr [] [] | SegStr _ => OObj [] end])
    (VRef (length h)) (fresh_container s) ({[length h]} ∪ ∅).
Proof.
  destruct s as [k|n].
  - eapply repr_eq.
    + eapply repr_ref;
        [apply list_lookup_middle; reflexivity|constructor; constructor|set_solver].
    + set_solver.
  - eapply repr_eq.
    + eapply repr_ref;
        [apply list_lookup_middle; reflexivity
        |constructor; [constructor|constructor|set_solver]|set_solver].
    + set_solver.
Qed.

Lemma descend_set_repr segs : forall h l t F value tv Fv last,
  repr h (VRef l) t F -> repr h value tv Fv -> F ## Fv ->
  exists target h1 h2 F',
    descend h (VRef l) segs = Ok (target, h1)
    /\ set h1 target (to_key last) value = Ok h2
    /\ repr h2 (VRef l) (tree_set_path t (segs ++ [last]) tv) F'
    /\ (forall l', l' ∈ F' -> l' ∈ F \/ l' ∈ Fv \/ (length h <= l')%nat)
    /\ (forall l', (l' < length h)%nat -> l' ∉ F -> h2 !! l' = h !! l')
    /\ (length h <= length h2)%nat.
Proof.
  induction segs as [|s rest IH]; intros h l t F value tv Fv last Ht Hv Hd.
  - destruct (ref_focus h l t F (to_key last) Ht)
      as (o & Fold & Frest & Hl & -> & Hl1 & Hl2 & Hd' & Hcur & Hc & Hk).
    assert (Hlt : (l < length h)%nat) by (eapply lookup_lt_Some; exact Hl).
    exists (VRef l), h, (<[l := set_own (deref h l) (to_key last) value]> h),
      ({[l]} ∪ (Fv ∪ Frest)).
    split; [reflexivity|]. split; [reflexivity|]. split; [|split; [|split]].
    + simpl app. cbn [tree_set_path]. apply (Hk _ value).
      * unfold deref. rewrite Hl. simpl. apply list_lookup_insert_eq. assumption.
      * intros l' Hl'. apply list_lookup_insert_ne. set_solver.
      * eapply repr_frame; [exact Hv|]. intros l' Hl'.
        apply list_lookup_insert_ne. set_solver.
      * set_solver.
      * set_solver.
    + intros l' Hl'. set_solver.
    + intros l' _ Hl'. apply list_lookup_insert_ne. set_solver.
    + rewrite length_insert. lia.
  - destruct (ref_focus h l t F (to_key s) Ht)
      as (o & Fold & Frest & Hl & -> & Hl1 & Hl2 & Hd' & Hcur & Hc & Hk).
    assert (Hlt : (l < length h)%nat) by (eapply lookup_lt_Some; exact Hl).
    assert (HboundF : forall l', l' ∈ {[l]} ∪ (Fold ∪ Frest) -> (l' < length h)%nat).
    { intros l' Hl'. eapply repr_bound; [exact Ht|exact Hl']. }
    assert (HboundV : forall l', l' ∈ Fv -> (l' < length h)%nat).
    { intros l' Hl'. eapply repr_bound; [exact Hv|exact Hl']. }
    rewrite descend_cons. simpl app. rewrite tree_set_path_cons.
    assert (Hderef0 : deref h l = o) by (unfold deref; rewrite Hl; reflexivity).
    cbn [get mbind res_bind]. rewrite Hderef0.
    rewrite (repr_kept h s _ _ _ Hcur).
    set (tcur := tree_get t (to_key s)) in *.
    destruct (kept s tcur) eqn:Ekept.
    + (* what is found is kept *)
      destruct (repr_container_ref _ _ _ _ Hcur (kept_container _ _ Ekept)) as [lc Elc].
      cbn [mbind res_bind get]. rewrite Hderef0. rewrite Elc in *.
      destruct (IH h lc tcur Fold value tv Fv last Hcur Hv ltac:(set_solver))
        as (target & h1 & h2 & Fc & Hdesc & Hset & Hrc & HFc & Hfr & Hlen).
      exists target, h1, h2, ({[l]} ∪ (Fc ∪ Frest)).
      split; [exact Hdesc|]. split; [exact Hset|]. split; [|split; [|split]].
      * apply (Hk _ (VRef lc)).
        -- rewrite Hfr by assumption. rewrite Hl. f_equal. symmetry.
           apply set_own_get_own. assumption.
        -- intros l' Hl'. apply Hfr; [apply HboundF; set_solver|set_solver].
        -- exact Hrc.
        -- intros l' Hl' Hl''. destruct (HFc l' Hl') as [H1|[H1|H1]].
           ++ set_solver.
           ++ set_solver.
           ++ specialize (HboundF l' ltac:(set_solver)). lia.
        -- intros Hl'. destruct (HFc l Hl') as [H1|[H1|H1]]; [set_solver|set_solver|lia].
      * intros l' Hl'. apply elem_of_union in Hl' as [Hl'|Hl']; [set_solver|].
        apply elem_of_union in Hl' as [Hl'|Hl']; [|set_solver].
        destruct (HFc l' Hl') as [H1|[H1|H1]]; [left; set_solver|auto|auto].
      * intros l' Hlt' Hnin. apply Hfr; [assumption|set_solver].
      * assumption.
    + (* a fresh container takes the place *)
      set (fo := match s with SegNum _ => OArr [] [] | SegStr _ => OObj [] end).
      cbn [new_object set mbind res_bind].
      assert (Hderef : deref (h ++ [fo]) l = o).
      { unfold deref. rewrite lookup_app_l by assumption. rewrite Hl. reflexivity. }
      rewrite Hderef.
      set (h' := <[l := set_own o (to_key s) (VRef (length h))]> (h ++ [fo])).
      assert (Hlen' : length h' = S (length h)).
      { unfold h'. rewrite length_insert, length_app. simpl. lia. }
      assert (Hl' : h' !! l = Some (set_own o (to_key s) (VRef (length h)))).
      { unfold h'. apply list_lookup_insert_eq. rewrite length_app. simpl. lia. }
      assert (Hother : forall l', l' <> l -> (l' < length h)%nat -> h' !! l' = h !! l').
      { intros l' Hne Hlt'. unfold h'. rewrite list_lookup_insert_ne by congruence.
        apply lookup_app_l. assumption. }
      assert (Hderef' : deref h' l = set_own o (to_key s) (VRef (length h)))
        by (unfold deref; rewrite Hl'; reflexivity).
      fold h'. rewrite Hderef', get_own_set_own.
      assert (Hfresh : repr h' (VRef (length h)) (fresh_container s) ({[length h]} ∪ ∅)).
      { eapply repr_frame; [apply repr_fresh|]. intros l' Hin.
        unfold h'. apply list_lookup_insert_ne.
        apply elem_of_union in Hin as [Hin|Hin]; [|set_solver].
        apply elem_of_singleton in Hin. lia. }
      assert (Hv' : repr h' value tv Fv).
      { eapply repr_frame; [exact Hv|]. intros l' Hin.
        apply Hother; [set_solver|apply HboundV; assumption]. }
      destruct (IH h' (length h) (fresh_container s) ({[length h]} ∪ ∅) value tv Fv last
                  Hfresh Hv')
        as (target & h1 & h2 & Fc & Hdesc & Hset & Hrc & HFc & Hfr & Hlen).
      { intros l' Hin Hin'. apply HboundV in Hin'.
        apply elem_of_union in Hin as [Hin|Hin]; [|set_solver].
        apply elem_of_singleton in Hin. lia. }
      exists target, h1, h2, ({[l]} ∪ (Fc ∪ Frest)).
      split; [exact Hdesc|]. split; [exact Hset|]. split; [|split; [|split]].
      * apply (Hk _ (VRef (length h))).
        -- rewrite Hfr; [exact Hl'|lia|].
           intros Hin. apply elem_of_union in Hin as [Hin|Hin]; [|set_solver].
           apply elem_of_singleton in Hin. lia.
        -- intros l' Hin. specialize (HboundF l' ltac:(set_solver)).
           rewrite Hfr; [apply Hother; [set_solver|assumption]|lia|].
           intros Hin'. apply elem_of_union in Hin' as [Hin'|Hin']; [|set_solver].
           apply elem_of_singleton in Hin'. lia.
        -- exact Hrc.
        -- intros l' Hin Hin'. specialize (HboundF l' ltac:(set_solver)).
           destruct (HFc l' Hin) as [H1|[H1|H1]].
           ++ apply elem_of_union in H1 as [H1|H1]; [|set_solver].
              apply elem_of_singleton in H1. lia.
           ++ set_solver.
           ++ lia.
        -- intros Hin. destruct (HFc l Hin) as [H1|[H1|H1]].
           ++ apply elem_of_union in H1 as [H1|H1]; [|set_solver].
              apply elem_of_singleton in H1. lia.
           ++ set_solver.
           ++ lia.
      * intros l' Hin. apply elem_of_union in Hin as [Hin|Hin]; [set_solver|].
        apply elem_of_union in Hin as [Hin|Hin]; [|set_solver].
        destruct (HFc l' Hin) as [H1|[H1|H1]].
        -- apply elem_of_union in H1 as [H1|H1]; [|set_solver].
           apply elem_of_singleton in H1. right. right. lia.
        -- auto.
        -- right. right. lia.
      * intros l' Hlt' Hnin. rewrite Hfr; [apply Hother; [set_solver|assumption]|lia|].
        intros Hin. apply elem_of_union in Hin as [Hin|Hin]; [|set_solver].
        apply elem_of_singleton in Hin. lia.
      * lia.
Qed.

(** ** [setValueAtPath] computes [tree_set_path] *)

Lemma last_cons {A} (x : A) l : forall d, List.last (x :: l) d = List.last l x.
Proof.
  revert x. induction l as [|y l IH]; intros x d; [reflexivity|].
  change (List.last (x :: y :: l) d) with (List.last (y :: l) d).
  change (List.last (y :: l) x) with (List.last (y :: l) x).
  rewrite !IH. reflexivity.
Qed.

Lemma path_split (s0 : seg) p : s0 :: p = removelast (s0 :: p) ++ [List.last p s0].
Proof.
  rewrite <- (last_cons s0 p s0). apply app_removelast_last. discriminate.
Qed.

Lemma setValueAtPath_repr h l t F value tv Fv s0 p :
  repr h (VRef l) t F -> repr h value tv Fv -> F ## Fv ->
  exists h2 F',
    setValueAtPath (VRef l) (Some (s0 :: p)) value h = Ok (VRef l, h2)
    /\ repr h2 (VRef l) (tree_set_path t (s0 :: p) tv) F'.
Proof.
  intros Ht Hv Hd.
  destruct (descend_set_repr (removelast (s0 :: p)) h l t F value tv Fv (List.last p s0)
              Ht Hv Hd) as (target & h1 & h2 & F' & Hdesc & Hset & Hr & _).
  exists h2, F'. split.
  - unfold setValueAtPath. rewrite Hdesc. cbn [mbind res_bind]. rewrite Hset. reflexivity.
  - rewrite <- path_split in Hr. exact Hr.
Qed.

(** The two trees of [run_set], side by side in the store. *)
Lemma alloc_two t v :
  forall value h0 obj h1,
  alloc v [] = (value, h0) -> alloc t h0 = (obj, h1) ->
  exists F Fv, repr h1 obj t F /\ repr h1 value v Fv /\ F ## Fv.
Proof.
  intros value h0 obj h1 E0 E1.
  destruct (alloc_repr v _ _ _ E0) as (Fv & Rv & Bv & Av & Lv).
  destruct (alloc_repr t _ _ _ E1) as (F & Rt & Bt & At & Lt).
  exists F, Fv. split; [assumption|]. split.
  - eapply repr_frame; [exact Rv|]. intros l Hl. apply At. eapply repr_bound; eassumption.
  - intros l Hl Hl'. apply Bt in Hl. eapply repr_bound in Hl'; [|exact Rv]. lia.
Qed.

(** On a document that is an object or an array, [setValueAtPath] never
    throws, and what [JSON.stringify] then sees is [tree_set_path]. *)
Lemma run_set_tree t p v :
  is_container t = true \/ p = [] ->
  run_set t p v = Ok (erase (tree_set_path t p v)).
Proof.
  intros Hc. unfold run_set.
  destruct (alloc v []) as [value h0] eqn:E0.
  destruct (alloc t h0) as [obj h1] eqn:E1.
  destruct (alloc_two t v _ _ _ _ E0 E1) as (F & Fv & Rt & Rv & Hd).
  destruct p as [|s0 p].
  - cbn [setValueAtPath mbind res_bind tree_set_path].
    eapply snapshot_repr. exact Rv.
  - destruct Hc as [Hc|Hc]; [|discriminate].
    destruct (repr_container_ref _ _ _ _ Rt Hc) as [l ->].
    destruct (setValueAtPath_repr h1 l t F value v Fv s0 p Rt Rv Hd) as (h2 & F' & -> & Hr).
    cbn [mbind res_bind]. eapply snapshot_repr. exact Hr.
Qed.

(** ** Erasure and the writes *)

Lemma props_lookup_map {A B} (f : A -> B) (ps : list (str * A)) k :
  props_lookup (map (fun kv => (fst kv, f (snd kv))) ps) k = f <$> props_lookup ps k.
Proof.
  induction ps as [|[k' v] ps IH]; [reflexivity|]. simpl.
  destruct (text_eqb k' k); [reflexivity|exact IH].
Qed.

Lemma props_replace_map {A B} (f : A -> B) (ps : list (str * A)) k v :
  map (fun kv => (fst kv, f (snd kv))) (props_replace ps k v)
  = props_replace (map (fun kv => (fst kv, f (snd kv))) ps) k (f v).
Proof.
  induction ps as [|[k' v'] ps IH]; [reflexivity|]. simpl.
  destruct (text_eqb k' k); simpl; [reflexivity|]. rewrite IH. reflexivity.
Qed.

Lemma props_insert_index_map {A B} (f : A -> B) (ps : list (str * A)) i k v :
  map (fun kv => (fst kv, f (snd kv))) (props_insert_index ps i k v)
  = props_insert_index (map (fun kv => (fst kv, f (snd kv))) ps) i k (f v).
Proof.
  induction ps as [|[k' v'] ps IH]; [reflexivity|]. simpl.
  destruct (array_index k') as [j|]; [destruct (j <? i)|]; simpl; [|reflexivity..].
  rewrite IH. reflexivity.
Qed.

Lemma props_set_map {A B} (f : A -> B) (ps : list (str * A)) k v :
  map (fun kv => (fst kv, f (snd kv))) (props_set ps k v)
  = props_set (map (fun kv => (fst kv, f (snd kv))) ps) k (f v).
Proof.
  unfold props_set. rewrite props_lookup_map.
  destruct (props_lookup ps k); simpl; [apply props_replace_map|].
  destruct (array_index k); [apply props_insert_index_map|].
  rewrite map_app. reflexivity.
Qed.

Lemma array_set_map {A B} (f : A -> B) hole l i v :
  map f (array_set hole l i v) = array_set (f hole) (map f l) i (f v).
Proof.
  unfold array_set. rewrite length_map. destruct (i <? length l)%nat.
  - apply list_fmap_insert.
  - rewrite !map_app, map_repeat. reflexivity.
Qed.

Lemma erase_idem t : erase (erase t) = erase t.
Proof.
  induction t as [ | |b|n|s|es nm IHes _|ps IHps] using jtree_ind'; try reflexivity.
  - cbn [erase]. f_equal. rewrite map_map. apply map_ext_Forall. exact IHes.
  - cbn [erase]. f_equal. rewrite map_map. apply map_ext_Forall.
    eapply Forall_impl; [exact IHps|]. intros [k e] He. simpl in *. rewrite He. reflexivity.
Qed.

Lemma erase_tree_set t k x : erase (tree_set t k (erase x)) = erase (tree_set t k x).
Proof.
  destruct t as [ | |b|n|s|es nm|ps]; try reflexivity.
  - simpl. destruct (array_index k); [|reflexivity].
    cbn [erase]. rewrite !(array_set_map erase), erase_idem. reflexivity.
  - cbn [tree_set erase]. rewrite !(props_set_map erase), erase_idem. reflexivity.
Qed.

(** ** The normalizer *)

Lemma ToString_scalar_text v : is_string v = false -> ToString v = scalar_text v.
Proof. destruct v; [discriminate|reflexivity..]. Qed.

(** C6, amended.  For a single unkeyed row whose value is a number, a
    boolean or [null], the text of [normalizeNodeData] parses back to that
    value.  (A string value is shown bare, without its quotes.) *)
Theorem normalize_leaf_round_trip (row : NodeRow) :
  truthy (key row) = false ->
  is_string (value row) = false ->
  scalar_wf (value row) ->
  parse_text (normalizeNodeData [row]) = Some (tree_of_scalar (value row)).
Proof.
  intros Hkey Hstr Hwf. unfold normalizeNodeData. simpl length.
  rewrite Hkey. simpl. rewrite ToString_scalar_text by assumption.
  apply parse_text_scalar. assumption.
Qed.

Lemma normalize_leaf_round_trip_witness :
  parse_text (normalizeNodeData [{| key := None; value := SNum (Num (-15) (-1)); type := TyNumber |}])
  = Some (JNum (Num (-15) (-1))).
Proof.
  apply (normalize_leaf_round_trip
           {| key := None; value := SNum (Num (-15) (-1)); type := TyNumber |}).
  - reflexivity.
  - reflexivity.
  - split; simpl; [lia|]. intros _. vm_compute. discriminate.
Defined.

(** C6 fails for strings: the text of the string leaf ["hello"] is the
    five letters, which is not JSON; the text of ["12"] is the number 12. *)
Lemma string_leaf_does_not_round_trip :
  let row := {| key := None; value := SStr (lit "hello"); type := TyString |} in
  let row' := {| key := None; value := SStr (lit "12"); type := TyString |} in
  normalizeNodeData [row] = lit "hello"
  /\ parse_text (normalizeNodeData [row]) = None
  /\ parse_text (normalizeNodeData [row]) <> Some (tree_of_scalar (value row))
  /\ parse_text (normalizeNodeData [row']) = Some (JNum (Num 12 0))
  /\ parse_text (normalizeNodeData [row']) <> Some (tree_of_scalar (value row')).
Proof. vm_compute. repeat split; discriminate. Qed.

Lemma props_lookup_None {A} (ps : list (str * A)) k :
  k ∉ map fst ps -> props_lookup ps k = None.
Proof.
  induction ps as [|[k' v] ps IH]; [reflexivity|]. simpl. intros Hk.
  apply not_elem_of_cons in Hk as [Hne Hk].
  unfold text_eqb. rewrite bool_decide_eq_false_2 by congruence. auto.
Qed.

Lemma fold_set_scalar_fresh kvs : forall acc,
  NoDup (map fst kvs) ->
  Forall (fun kv => array_index (fst kv) = None) kvs ->
  (forall k, k ∈ map fst kvs -> k ∉ map fst acc) ->
  fold_left set_scalar kvs acc = acc ++ map entry_tree kvs.
Proof.
  induction kvs as [|[k v] kvs IH]; intros acc Hnd Hidx Hacc; simpl.
  - rewrite app_nil_r. reflexivity.
  - apply NoDup_cons in Hnd as [Hk Hnd]. apply Forall_cons in Hidx as [Hik Hidx].
    simpl in Hik, Hk.
    assert (Hset : set_scalar acc (k, v) = acc ++ [entry_tree (k, v)]).
    { unfold set_scalar, props_set. simpl fst. simpl snd.
      rewrite props_lookup_None by (apply Hacc; simpl; left). rewrite Hik. reflexivity. }
    rewrite Hset, IH; [rewrite <- app_assoc; reflexivity|assumption..|].
    intros k' Hk'. rewrite map_app. simpl. intros Hin.
    apply elem_of_app in Hin as [Hin|Hin].
    + eapply Hacc; [simpl; right; exact Hk'|exact Hin].
    + apply list_elem_of_singleton in Hin. subst k'. contradiction.
Qed.

Lemma fold_add_row rows : forall acc,
  fold_left add_row rows acc = fold_left set_scalar (entries rows) acc.
Proof.
  induction rows as [|r rows IH]; intros acc; [reflexivity|].
  simpl fold_left. rewrite IH. unfold entries. simpl omap.
  unfold add_row, row_entry.
  destruct (is_container_type (type r)); simpl; [reflexivity|].
  destruct (key r) as [k|]; simpl; [|reflexivity].
  destruct k; simpl; reflexivity.
Qed.

Lemma normalize_object rows :
  entries rows <> [] ->
  normalizeNodeData rows = stringify_tree 2 (JObj (fold_left add_row rows [])).
Proof.
  intros He. unfold normalizeNodeData.
  destruct rows as [|r rows]; [contradiction|].
  destruct rows as [|r' rows]; [|reflexivity].
  simpl length. simpl andb.
  destruct (truthy (key r)) eqn:Hk; [reflexivity|].
  exfalso. apply He. unfold entries, row_entry. simpl. rewrite Hk.
  rewrite andb_false_r. reflexivity.
Qed.

(** C7 fails on the order of the keys and on repeated keys: a key that
    is an array index moves in front of the other keys whatever its row,
    and of two rows with one key only the value of the later one is kept,
    at the place of the earlier. *)
Lemma normalize_reorders_index_keys :
  let rows := [field_row "b" 1; field_row "1" 2] in
  let twice := [field_row "a" 1; field_row "c" 3; field_row "a" 2] in
  parse_text (normalizeNodeData rows)
  = Some (JObj [(lit "1", JNum (Num 2 0)); (lit "b", JNum (Num 1 0))])
  /\ parse_text (normalizeNodeData rows) <> Some (JObj (map entry_tree (entries rows)))
  /\ parse_text (normalizeNodeData twice)
     = Some (JObj [(lit "a", JNum (Num 2 0)); (lit "c", JNum (Num 3 0))])
  /\ parse_text (normalizeNodeData twice) <> Some (JObj (map entry_tree (entries twice))).
Proof. vm_compute. repeat split; discriminate. Qed.

(** ** The path formatter *)

Lemma join_brackets (parts : list str) :
  parts <> [] ->
  lit "[" ++ join (lit "][") parts ++ lit "]"
  = concat (map (fun p => lit "[" ++ p ++ lit "]") parts).
Proof.
  induction parts as [|p ps IH]; [congruence|]. intros _.
  destruct ps as [|p' ps].
  - simpl. rewrite app_nil_r. reflexivity.
  - change (join (lit "][") (p :: p' :: ps)) with (p ++ lit "][" ++ join (lit "][") (p' :: ps)).
    rewrite map_cons, concat_cons. rewrite <- IH by discriminate.
    change (lit "][") with (lit "]" ++ lit "[").
    rewrite <- !app_assoc. reflexivity.
Qed.

Lemma locator_segments_concat p :
  locator_segments p = concat (map (fun s => lit "[" ++ segment_text s ++ lit "]") p).
Proof.
  induction p as [|s p IH]; [reflexivity|].
  cbn [locator_segments map concat]. rewrite IH, <- !app_assoc.
  destruct s; reflexivity.
Qed.

(** C9.  [jsonPathToString] writes [$] followed, for each segment in
    turn, by the segment between square brackets: a string segment
    between double quotes, an integer segment as the bare number.  The
    empty path and the absent path give [$] alone. *)
Theorem jsonPathToString_locator (p : list seg) :
  jsonPathToString (Some p) = locator p
  /\ jsonPathToString None = lit "$"
  /\ jsonPathToString (Some []) = lit "$"
  /\ jsonPathToString (Some [SegStr (lit "a"); SegNum 0; SegStr (lit "b")])
     = json_lit "$['a'][0]['b']".
Proof.
  split; [|repeat split; reflexivity].
  unfold locator. rewrite locator_segments_concat.
  destruct p as [|s p]; [reflexivity|].
  unfold jsonPathToString.
  change (lit "$[") with (lit "$" ++ lit "["). rewrite <- app_assoc.
  rewrite join_brackets by discriminate. rewrite map_map. reflexivity.
Qed.

(** ** The re-locator *)

Lemma tree_of_seg_scalar s : tree_of_seg s = tree_of_scalar (scalar_of_seg s).
Proof. destruct s; reflexivity. Qed.

Lemma tree_of_seg_inj s s' : tree_of_seg s = tree_of_seg s' -> s = s'.
Proof.
  destruct s, s'; simpl; intros H; try discriminate.
  - injection H as ->. reflexivity.
  - injection H as H. apply num_of_N_inj in H. subst. reflexivity.
Qed.

Lemma scalar_of_seg_wf s : scalar_wf (scalar_of_seg s).
Proof. destruct s; simpl; [exact I|apply num_of_N_canonical]. Qed.

Lemma parse_text_path_text (p : option (list seg)) :
  parse_text (path_text p) = Some (JArr (map tree_of_seg (default [] p)) []).
Proof.
  unfold path_text.
  rewrite (map_ext tree_of_seg (fun s => tree_of_scalar (scalar_of_seg s)))
    by apply tree_of_seg_scalar.
  rewrite <- (map_map scalar_of_seg tree_of_scalar).
  apply parse_text_flat_array.
  apply Forall_map, Forall_forall. intros s _. apply scalar_of_seg_wf.
Qed.

Lemma path_text_inj (p q : option (list seg)) :
  path_text p = path_text q -> default [] p = default [] q.
Proof.
  intros H. pose proof (parse_text_path_text p) as Hp.
  rewrite H, parse_text_path_text in Hp. injection Hp as Hp.
  revert Hp. generalize (default [] p) (default [] q). clear.
  induction l as [|s l IH]; intros [|s' l'] H; simpl in H; try discriminate; [reflexivity|].
  injection H as Hs Hl. apply tree_of_seg_inj in Hs. subst. f_equal. auto.
Qed.

Lemma find_pointwise {A} (f g : A -> bool) l :
  (forall x, f x = g x) -> List.find f l = List.find g l.
Proof.
  intros H. induction l as [|x l IH]; [reflexivity|]. simpl. rewrite H, IH. reflexivity.
Qed.

Lemma relocate_by_structure (ns : list NodeData) (target : option (list seg)) :
  relocate ns target = find_by_path ns target.
Proof.
  unfold relocate, find_by_path. apply find_pointwise. intros n.
  unfold text_eqb. apply bool_decide_ext. split.
  - apply path_text_inj.
  - intros H. unfold path_text. rewrite H. reflexivity.
Qed.

(** C8.  The re-locator, which compares the [JSON.stringify] texts of the
    paths, returns the first node of the collection whose path equals the
    target segment by segment, and nothing when no node has that path. *)
Theorem relocate_finds_by_path (ns : list NodeData) (target : option (list seg)) :
  relocate ns target = find_by_path ns target
  /\ (relocate ns target = None <->
      Forall (fun n => default [] (path n) <> default [] target) ns).
Proof.
  split; [apply relocate_by_structure|].
  rewrite relocate_by_structure. unfold find_by_path.
  induction ns as [|n ns IH]; simpl.
  - split; [constructor|reflexivity].
  - destruct (bool_decide_reflect (default [] (path n) = default [] target)) as [E|E].
    + split; [discriminate|]. intros H. apply Forall_cons in H as [H _]. contradiction.
    + rewrite IH. split.
      * intros H. constructor; assumption.
      * intros H. apply Forall_cons in H as [_ H]. exact H.
Qed.
(** ** Saving an edit that does not parse *)

Lemma JSON_parse_throws s h e : JSON_parse s h = Throw e -> e = SyntaxError /\ parse_text s = None.
Proof.
  unfold JSON_parse. destruct (parse_text s); [discriminate|].
  intros [= <-]. split; reflexivity.
Qed.

(** C1. When the edited text is not JSON, [handleSave] records the one
    error of the parser and changes nothing else: the stored document,
    the selection, the node collection and the editing flag are those of
    the state it started from. *)
Theorem handleSave_invalid_draft (setGraph : str -> list NodeData) (st : State) :
  parse_text (draft st) = None ->
  handleSave setGraph st = with_error st SyntaxError
  /\ json (handleSave setGraph st) = json st.
Proof.
  intros Hbad.
  assert (Hdoc : save_document st = Throw SyntaxError).
  { unfold save_document, JSON_parse. rewrite Hbad. reflexivity. }
  unfold handleSave. rewrite Hdoc. split; reflexivity.
Qed.

Lemma handleSave_invalid_draft_witness :
  json (handleSave (fun _ => [])
          (example_state "{'a':1}" "{bad" [leaf_row] (Some [SegStr (lit "a")])))
  = json_lit "{'a':1}".
Proof.
  apply (handleSave_invalid_draft (fun _ => [])
           (example_state "{'a':1}" "{bad" [leaf_row] (Some [SegStr (lit "a")]))).
  vm_compute. reflexivity.
Defined.

(** A save that goes through stores the new document, rebuilds the
    nodes, keeps the node of the same path selected when there is one,
    and leaves the editing mode without an error. *)
Lemma handleSave_reselects (setGraph : str -> list NodeData) (st : State) (doc : str) :
  save_document st = Ok doc ->
  handleSave setGraph st
  = {| json := doc;
       selectedNode :=
         match find_by_path (setGraph doc) (selectedNode st ≫= path) with
         | Some n => Some n
         | None => selectedNode st
         end;
       nodes := setGraph doc;
       editing := false;
       draft := draft st;
       error := None |}.
Proof.
  intros Hdoc. unfold handleSave. rewrite Hdoc.
  rewrite relocate_by_structure. reflexivity.
Qed.

(** Whatever is thrown on the way, the state keeps its document. *)
Lemma handleSave_throw (setGraph : str -> list NodeData) (st : State) (e : exn) :
  save_document st = Throw e -> handleSave setGraph st = with_error st e.
Proof. intros Hdoc. unfold handleSave. rewrite Hdoc. reflexivity. Qed.

(** ** The save operation on concrete documents *)

(** The examples of the specification. *)
Example leaf_replace_example :
  json (saved "{'a':{'b':1}}" "2" [leaf_row] [SegStr (lit "a"); SegStr (lit "b")])
  = json_lit "{
  'a': {
    'b': 2
  }
}".
Proof. vm_compute. reflexivity. Qed.

Example container_merge_example :
  json (saved "{'a':{'b':1,'c':2}}" "{'b':5}" [field_row "b" 1; field_row "c" 2]
          [SegStr (lit "a")])
  = json_lit "{
  'a': {
    'b': 5,
    'c': 2
  }
}".
Proof. vm_compute. reflexivity. Qed.

Example auto_vivification_example :
  json (saved "{}" "1" [leaf_row] [SegStr (lit "x"); SegStr (lit "y")])
  = json_lit "{
  'x': {
    'y': 1
  }
}".
Proof. vm_compute. reflexivity. Qed.

(** C2, at the input where the code departs from it.  The object
    [{b:1,c:2}] sits at path [[0,"a"]] of [[{"a":{"b":1,"c":2}}]].  The
    keys are merged into it, but putting it back walks the path again:
    at the numeric segment the element [{"a":...}] is not an array, so
    the loop overwrites it with [[]], and the merged object ends up under
    the name ["a"] of that array, where [JSON.stringify] does not look. *)
Theorem merge_below_index_loses_object :
  json (saved "[{'a':{'b':1,'c':2}}]" "{'b':5}" [field_row "b" 1; field_row "c" 2]
          [SegNum 0; SegStr (lit "a")])
  = json_lit "[
  []
]"
  /\ error (saved "[{'a':{'b':1,'c':2}}]" "{'b':5}" [field_row "b" 1; field_row "c" 2]
              [SegNum 0; SegStr (lit "a")]) = None.
Proof. vm_compute. split; reflexivity. Qed.

(** C10, at the input where the code departs from it.  The stored text
    does not parse, so [originalObj] is the very object [parsed]; writing
    [parsed] at path [["a"]] of itself closes a cycle, [JSON.stringify]
    throws, and the outer [catch] reports it: the unparseable document
    stays in the store. *)
Theorem unparseable_document_not_replaced :
  let st := example_state "{bad" "{'b':1}" [field_row "b" 1; field_row "c" 2]
              (Some [SegStr (lit "a")]) in
  parse_text (json st) = None
  /\ parse_text (draft st) = Some (JObj [(lit "b", JNum (Num 1 0))])
  /\ handleSave (fun _ => []) st = with_error st TypeError.
Proof. vm_compute. repeat split; reflexivity. Qed.


(** C4 fails where the value at the path is an array: the keys of the
    edited object are written onto the array as named properties, and the
    document is what it was; the leaf edit of the same position replaces
    the array.  And where the edit does fall back, the value is not
    always set at the position: on a document that is a number the write
    throws, and a string key that meets an array on the way is written as
    a named property, which is not printed. *)
Lemma array_target_is_merged_not_replaced :
  json (saved "{'a':[1,2]}" "{'b':5}" [field_row "b" 1; field_row "c" 2] [SegStr (lit "a")])
  = json_lit "{
  'a': [
    1,
    2
  ]
}"
  /\ json (saved "{'a':[1,2]}" "{'b':5}" [leaf_row] [SegStr (lit "a")])
     = json_lit "{
  'a': {
    'b': 5
  }
}"
  /\ json (saved "{'a':[1,2]}" "{'b':5}" [field_row "b" 1; field_row "c" 2] [SegStr (lit "a")])
     <> json (saved "{'a':[1,2]}" "{'b':5}" [leaf_row] [SegStr (lit "a")])
  /\ error (saved "5" "{'b':5}" [field_row "b" 1; field_row "c" 2] [SegStr (lit "a")])
     = Some TypeError
  /\ json (saved "{'a':[1]}" "{'b':5}" [field_row "b" 1; field_row "c" 2]
             [SegStr (lit "a"); SegStr (lit "b")])
     = json_lit "{
  'a': [
    1
  ]
}".
Proof.
  vm_compute. split; [reflexivity|]. split; [reflexivity|]. split; [discriminate|].
  split; reflexivity.
Qed.

(** C5 fails at a string segment that meets an array: the array is kept,
    no empty object is created, and the value lands on a named property
    of the array, outside the document. *)
Lemma string_segment_keeps_array :
  json (saved "{'a':[1]}" "2" [leaf_row] [SegStr (lit "a"); SegStr (lit "b")])
  = json_lit "{
  'a': [
    1
  ]
}"
  /\ json (saved "{'a':[1]}" "2" [leaf_row] [SegStr (lit "a"); SegStr (lit "b")])
     <> json_lit "{
  'a': {
    'b': 2
  }
}".
Proof. vm_compute. split; [reflexivity|discriminate]. Qed.

(** ** The save operation and [setValueAtPath] *)


Lemma setValueAtPath_default obj p value h :
  setValueAtPath obj p value h = setValueAtPath obj (Some (default [] p)) value h.
Proof. destruct p as [[|s p]|]; reflexivity. Qed.

Lemma JSON_parse_ok s t h : parse_text s = Some t -> JSON_parse s h = Ok (alloc t h).
Proof. intros H. unfold JSON_parse. rewrite H. reflexivity. Qed.

Lemma stringify_fmap (r : res (val * heap)) :
  ('(newObj, h2) ← r; JSON_stringify 2 h2 newObj)
  = stringify_tree 2 <$> ('(newObj, h2) ← r; snapshot (S (length h2)) [] h2 newObj).
Proof.
  destruct r as [[newObj h2]|e]; [|reflexivity]. cbn [mbind res_bind].
  unfold JSON_stringify. destruct (snapshot _ _ _ _); reflexivity.
Qed.

(** A leaf edit is [setValueAtPath] with the parsed text. *)
Lemma save_document_leaf st node t e :
  selectedNode st = Some node -> is_leaf node = true ->
  parse_text (json st) = Some t -> parse_text (draft st) = Some e ->
  save_document st = stringify_tree 2 <$> run_set t (default [] (path node)) e.
Proof.
  intros Hn Hleaf Ht He. unfold save_document, JSON_parse, run_set.
  rewrite He, Ht, Hn, Hleaf. cbn [mbind res_bind].
  destruct (alloc e []) as [value h0]. destruct (alloc t h0) as [obj h1].
  rewrite (setValueAtPath_default obj (path node)). apply stringify_fmap.
Qed.




(** ** The value found at the path *)

Lemma lookup_path_repr p : forall h v t F,
  repr h v t F -> exists F', repr h (lookup_path h v p) (tree_lookup t p) F'.
Proof.
  induction p as [|s rest IH]; intros h v t F H; [exists F; exact H|].
  cbn [lookup_path tree_lookup].
  assert (Hget : exists Fc, repr h (opt_get h v (to_key s)) (tree_get t (to_key s)) Fc).
  { inversion H as [| | | |str|l o t' F0 Hl Ho Hnin]; subst;
      try (exists ∅; constructor).
    - exists ∅. unfold opt_get. simpl.
      destruct (array_index (to_key s)) as [i|]; [|constructor].
      destruct (str !! N.to_nat i); constructor.
    - destruct (obj_focus h o t F0 (to_key s) Ho) as (Fold & Frest & _ & _ & Hr & _).
      exists Fold. unfold opt_get. simpl. unfold deref. rewrite Hl. exact Hr. }
  destruct Hget as [Fc Hc].
  remember (opt_get h v (to_key s)) as c eqn:Ec.
  remember (tree_get t (to_key s)) as tc eqn:Etc.
  clear Ec Etc H.
  destruct Hc as [| | | | |l o t' F0 Hl Ho Hnin].
  - exists ∅. constructor.
  - eapply IH. constructor.
  - eapply IH. constructor.
  - eapply IH. constructor.
  - eapply IH. constructor.
  - assert (Hr : repr h (VRef l) t' ({[l]} ∪ F0)) by (econstructor; eassumption).
    destruct (IH h (VRef l) t' _ Hr) as [F' H']. exists F'.
    destruct Ho; exact H'.
Qed.

Lemma lookup_path_object h v t F p :
  repr h v t F -> is_object (lookup_path h v p) = is_container (tree_lookup t p).
Proof.
  intros H. destruct (lookup_path_repr p h v t F H) as [F' H'].
  eapply repr_tests. exact H'.
Qed.

(** ** Auto-vivification *)

(** A leaf edit of a document that is an object or an array never fails,
    and the new document is [tree_set_path]. *)
Lemma save_document_leaf_tree st node t e :
  selectedNode st = Some node -> is_leaf node = true ->
  parse_text (json st) = Some t -> parse_text (draft st) = Some e ->
  is_container t = true ->
  save_document st = Ok (stringify_tree 2 (tree_set_path t (default [] (path node)) e)).
Proof.
  intros Hn Hleaf Ht He Hc.
  rewrite (save_document_leaf st node t e) by assumption.
  rewrite run_set_tree by (left; assumption).
  cbn [fmap res_fmap]. rewrite stringify_tree_erase. reflexivity.
Qed.

(** ** The merge of a container node *)

Lemma lookup_path_prim h p : forall v,
  is_object v = false -> is_object (lookup_path h v p) = false.
Proof.
  induction p as [|s rest IH]; intros v Hv; [exact Hv|].
  cbn [lookup_path].
  assert (Hc : is_object (opt_get h v (to_key s)) = false).
  { destruct v as [ | |b|n|str|l]; try reflexivity; [|discriminate].
    unfold opt_get. simpl. destruct (array_index (to_key s)) as [i|]; [|reflexivity].
    destruct (str !! N.to_nat i); reflexivity. }
  destruct (opt_get h v (to_key s)) eqn:E; try reflexivity; try (apply IH; reflexivity).
  discriminate.
Qed.

Lemma lookup_path_app h a : forall v b,
  lookup_path h v (a ++ b) = lookup_path h (lookup_path h v a) b.
Proof.
  induction a as [|s a IH]; intros v b; [reflexivity|].
  cbn [app lookup_path].
  destruct (opt_get h v (to_key s)) eqn:E; try apply IH.
  destruct b as [|s' b]; reflexivity.
Qed.

Lemma tree_put_kind t p x :
  p <> [] -> is_container t = true ->
  is_array (tree_put t p x) = is_array t /\ is_container (tree_put t p x) = true.
Proof.
  intros Hp Hc. destruct p as [|s rest]; [congruence|]. cbn [tree_put].
  destruct t; try discriminate; simpl; [destruct (array_index (to_key s))|]; split; reflexivity.
Qed.

Lemma tree_get_set t k x : is_container t = true -> tree_get (tree_set t k x) k = x.
Proof.
  intros Hc. destruct t as [ | |b|n|s|es nm|ps]; try discriminate; simpl.
  - destruct (array_index k) as [i|] eqn:E; simpl; rewrite E.
    + rewrite array_set_lookup. reflexivity.
    + rewrite props_lookup_set. reflexivity.
  - rewrite props_lookup_set. reflexivity.
Qed.

(** The walk on the document with the merged subtree in place is the walk
    on the document. *)
Lemma walk_keeps_put p : forall t x,
  is_container x = true -> is_container (tree_lookup t p) = true ->
  walk_keeps t p = true -> walk_keeps (tree_put t p x) p = true.
Proof.
  induction p as [|s rest IH]; intros t x Hx Hl Hw; [reflexivity|].
  cbn [walk_keeps tree_put] in *.
  destruct rest as [|s' rest]; [reflexivity|].
  apply andb_true_iff in Hw as [Hk Hw].
  assert (Ht : is_container t = true).
  { apply kept_container in Hk. destruct t; try reflexivity; simpl in Hk;
      try discriminate.
    destruct (array_index _); [|discriminate]. destruct (_ !! _); discriminate. }
  rewrite tree_get_set by assumption.
  cbn [tree_lookup] in Hl.
  pose proof (kept_container _ _ Hk) as Hc.
  assert (Hl' : is_container (tree_lookup (tree_get t (to_key s)) (s' :: rest)) = true).
  { destruct (tree_get t (to_key s)); try discriminate; exact Hl. }
  destruct (tree_put_kind (tree_get t (to_key s)) (s' :: rest) x ltac:(discriminate) Hc)
    as [Ha Hcc].
  apply andb_true_iff. split.
  - destruct s; simpl in *; [exact Hcc|rewrite Ha; exact Hk].
  - apply IH; assumption.
Qed.

(** Navigation to a container: the value found represents the subtree at
    the path, and whatever subtree it is made to represent is put back at
    that path of the document. *)
Lemma path_focus p : forall h v t F lt,
  repr h v t F -> lookup_path h v p = VRef lt ->
  exists Ft Frest,
    repr h (VRef lt) (tree_lookup t p) Ft /\ Ft ## Frest
    /\ (forall l, l ∈ Ft ∪ Frest -> l ∈ F)
    /\ forall h2 tt Ft',
         (forall l, l ∈ Frest -> h2 !! l = h !! l) ->
         repr h2 (VRef lt) tt Ft' -> Ft' ## Frest ->
         exists F', repr h2 v (tree_put t p tt) F'
                    /\ (forall l, l ∈ F' -> l ∈ Ft' ∪ Frest)
                    /\ lookup_path h2 v p = VRef lt.
Proof.
  induction p as [|s rest IH]; intros h v t F lt Hr Hlook.
  - simpl in Hlook. subst v. exists F, ∅. split; [exact Hr|].
    split; [set_solver|]. split; [set_solver|].
    intros h2 tt Ft' _ Hr2 _. exists Ft'. split; [exact Hr2|]. split; [set_solver|reflexivity].
  - destruct v as [ | |b|n|str|l];
      try (pose proof (lookup_path_prim h (s :: rest) _ (eq_refl : is_object VUndef = false)) as X;
           rewrite Hlook in X; discriminate);
      try (pose proof (lookup_path_prim h (s :: rest) _ (eq_refl : is_object VNull = false)) as X;
           rewrite Hlook in X; discriminate);
      try (pose proof (lookup_path_prim h (s :: rest) _ (eq_refl : is_object (VBool b) = false)) as X;
           rewrite Hlook in X; discriminate);
      try (pose proof (lookup_path_prim h (s :: rest) _ (eq_refl : is_object (VNum n) = false)) as X;
           rewrite Hlook in X; discriminate);
      try (pose proof (lookup_path_prim h (s :: rest) _ (eq_refl : is_object (VStr str) = false)) as X;
           rewrite Hlook in X; discriminate).
    destruct (ref_focus h l t F (to_key s) Hr)
      as (o & Fold & Frest0 & Hl & -> & Hnin1 & Hnin2 & Hd & Hc & Hct & Hk).
    assert (Hopt : opt_get h (VRef l) (to_key s) = get_own o (to_key s))
      by (unfold opt_get, get, deref; rewrite Hl; reflexivity).
    cbn [lookup_path] in Hlook. rewrite Hopt in Hlook. clear Hopt.
    remember (get_own o (to_key s)) as c eqn:Ec.
    assert (Hlook' : lookup_path h c rest = VRef lt).
    { destruct c; try exact Hlook. discriminate. }
    assert (Hcref : exists lc, c = VRef lc).
    { destruct c as [ | |b|n|str|lc]; try (eexists; reflexivity);
        pose proof (lookup_path_prim h rest _ (eq_refl : is_object VNull = false)) as X0;
        pose proof (lookup_path_prim h rest VUndef eq_refl) as X1;
        try pose proof (lookup_path_prim h rest (VBool b) eq_refl) as X2;
        try pose proof (lookup_path_prim h rest (VNum n) eq_refl) as X3;
        try pose proof (lookup_path_prim h rest (VStr str) eq_refl) as X4;
        rewrite Hlook' in *; discriminate. }
    destruct Hcref as [lc Hlc].
    destruct (IH h c _ Fold lt Hc Hlook') as (Ft & Frest1 & Hrt & Hd1 & Hsub & Hk1).
    assert (Hcc : is_container (tree_get t (to_key s)) = true).
    { destruct (repr_tests _ _ _ _ Hc) as [_ X]. rewrite <- X, Hlc. reflexivity. }
    exists Ft, ({[l]} ∪ (Frest0 ∪ Frest1)).
    split.
    { cbn [tree_lookup]. destruct (tree_get t (to_key s)); try discriminate; exact Hrt. }
    split; [set_solver|]. split; [set_solver|].
    intros h2 tt Ft' Hfr Hr2 Hd2.
    destruct (Hk1 h2 tt Ft') as (F1 & Hr1 & Hsub1 & Hlook1);
      [intros; apply Hfr; set_solver|exact Hr2|set_solver|].
    assert (Hl2 : h2 !! l = Some o) by (rewrite Hfr by set_solver; exact Hl).
    eexists. split; [|split].
    + cbn [tree_put]. apply (Hk h2 c _ F1).
      * rewrite Hl2. f_equal. symmetry.
        rewrite Hlc. apply set_own_get_own. rewrite <- Ec. exact Hlc.
      * intros; apply Hfr; set_solver.
      * exact Hr1.
      * set_solver.
      * set_solver.
    + set_solver.
    + assert (Hopt : opt_get h2 (VRef l) (to_key s) = c)
        by (unfold opt_get, get, deref; rewrite Hl2, Ec; reflexivity).
      cbn [lookup_path]. rewrite Hopt, Hlc. rewrite <- Hlc. exact Hlook1.
Qed.

(** ** The keys of a parsed object are distinct *)

Lemma props_lookup_nodup {A} (ps : list (str * A)) k v :
  NoDup (map fst ps) -> (k, v) ∈ ps -> props_lookup ps k = Some v.
Proof.
  induction ps as [|[k' v'] ps IH]; intros Hnd Hin; [inversion Hin|].
  simpl in Hnd. apply NoDup_cons in Hnd as [Hk' Hnd].
  apply elem_of_cons in Hin as [Heq|Hin]; simpl.
  - injection Heq as -> ->. rewrite text_eqb_refl. reflexivity.
  - unfold text_eqb. case_bool_decide as Hk; [|apply IH; assumption].
    subst k'. exfalso. apply Hk'. apply list_elem_of_fmap. exists (k, v). split; [reflexivity|assumption].
Qed.

Lemma props_lookup_None_inv {A} (ps : list (str * A)) k :
  props_lookup ps k = None -> k ∉ map fst ps.
Proof.
  induction ps as [|[k' v'] ps IH]; simpl; intros H; [apply not_elem_of_nil|].
  unfold text_eqb in H. case_bool_decide as Hk; [discriminate|].
  apply not_elem_of_cons. split; [congruence|apply IH; assumption].
Qed.

Lemma props_replace_keys {A} (ps : list (str * A)) k v :
  map fst (props_replace ps k v) = map fst ps.
Proof.
  induction ps as [|[k' v'] ps IH]; simpl; [reflexivity|].
  destruct (text_eqb k' k); simpl; [reflexivity|]. rewrite IH. reflexivity.
Qed.

Lemma props_insert_index_keys {A} (ps : list (str * A)) i k v :
  map fst (props_insert_index ps i k v) ≡ₚ k :: map fst ps.
Proof.
  induction ps as [|[k' v'] ps IH]; simpl; [reflexivity|].
  destruct (array_index k') as [j|]; [|reflexivity].
  destruct (j <? i); [|reflexivity]. simpl. rewrite IH. apply Permutation_swap.
Qed.

Lemma props_set_nodup {A} (ps : list (str * A)) k v :
  NoDup (map fst ps) -> NoDup (map fst (props_set ps k v)).
Proof.
  intros Hnd. unfold props_set. destruct (props_lookup ps k) eqn:E.
  - rewrite props_replace_keys. exact Hnd.
  - apply props_lookup_None_inv in E. destruct (array_index k) as [i|].
    + rewrite props_insert_index_keys. apply NoDup_cons. split; assumption.
    + rewrite map_app. simpl. apply NoDup_app. split; [exact Hnd|]. split.
      * intros x Hx Hx'. apply list_elem_of_singleton in Hx'. subst x. contradiction.
      * apply NoDup_singleton.
Qed.

Lemma parse_members_nodup f : forall s acc ps r,
  NoDup (map fst acc) -> parse_members f s acc = Some (JObj ps, r) -> NoDup (map fst ps).
Proof.
  induction f as [|f IH]; intros s acc ps r Hnd H; [discriminate|].
  rewrite parse_members_eq in H.
  destruct (expect dq s) as [r0|]; [|discriminate]. cbn [mbind option_bind] in H.
  destruct (lex_string r0) as [[k r1]|]; [|discriminate]. cbn [mbind option_bind] in H.
  destruct (expect 58 r1) as [r2|]; [|discriminate]. cbn [mbind option_bind] in H.
  destruct (parse_value f r2) as [[v r3]|]; [|discriminate]. cbn [mbind option_bind] in H.
  destruct (skip_ws r3) as [|c r4]; [discriminate|].
  destruct (c =? 44).
  - eapply IH; [|exact H]. apply props_set_nodup. exact Hnd.
  - destruct (c =? 125); [|discriminate]. injection H as <- _.
    apply props_set_nodup. exact Hnd.
Qed.

Lemma parse_elements_array f : forall s acc ps r,
  parse_elements f s acc <> Some (JObj ps, r).
Proof.
  induction f as [|f IH]; intros s acc ps r H; [discriminate|].
  rewrite parse_elements_eq in H.
  destruct (parse_value f s) as [[v r1]|]; [|discriminate]. cbn [mbind option_bind] in H.
  destruct (skip_ws r1) as [|c r2]; [discriminate|].
  destruct (c =? 44); [exact (IH _ _ _ _ H)|].
  destruct (c =? 93); discriminate.
Qed.

Lemma parse_text_nodup s ps : parse_text s = Some (JObj ps) -> NoDup (map fst ps).
Proof.
  unfold parse_text. generalize (2 * length s + 2)%nat. intros f H.
  destruct (parse_value f s) as [[t r]|] eqn:E; [|discriminate]. cbn [mbind option_bind] in H.
  destruct (skip_ws r); [|discriminate]. injection H as ->.
  destruct f as [|f]; [discriminate|]. rewrite parse_value_eq in E.
  destruct (skip_ws s) as [|c r0]; [discriminate|].
  destruct (c =? 123).
  { destruct (expect 125 r0).
    - injection E as <- _. constructor.
    - eapply parse_members_nodup; [|exact E]. constructor. }
  destruct (c =? 91).
  { destruct (expect 93 r0); [discriminate|]. exfalso. exact (parse_elements_array _ _ _ _ _ E). }
  destruct (c =? dq).
  { destruct (lex_string r0) as [[? ?]|]; discriminate. }
  destruct ((c =? 45) || is_digit c).
  { destruct (lex_number (c :: r0)) as [[? ?]|]; discriminate. }
  destruct (c =? 116).
  { destruct (strip_prefix _ r0); discriminate. }
  destruct (c =? 102).
  { destruct (strip_prefix _ r0); discriminate. }
  destruct (c =? 110); [|discriminate].
  destruct (strip_prefix _ r0); discriminate.
Qed.

(** ** The loop over the keys *)

Lemma repr_props_keys h ps tps F : repr_props h ps tps F -> map fst ps = map fst tps.
Proof. induction 1 as [|k v t ps tps F1 F2 _ _ IH _]; simpl; [reflexivity|]. rewrite IH. reflexivity. Qed.

Lemma tree_set_container t k x : is_container t = true -> is_container (tree_set t k x) = true.
Proof.
  destruct t; try discriminate; intros _; simpl; [destruct (array_index k)|]; reflexivity.
Qed.

Lemma merge_tree_container eps : forall t,
  is_container t = true -> is_container (merge_tree t eps) = true.
Proof.
  induction eps as [|[k x] eps IH]; intros t Ht; [exact Ht|].
  apply IH. apply tree_set_container. exact Ht.
Qed.

(** [forEach] over the keys of the parsed object writes its values onto
    the target one after the other; no other object of the store
    changes. *)
Lemma merge_keys_repr lp pps : forall todo_v todo_t Ftodo h lt tt Ft,
  h !! lp = Some (OObj pps) ->
  lp <> lt ->
  (forall k v, (k, v) ∈ todo_v -> props_lookup pps k = Some v) ->
  repr_props h todo_v todo_t Ftodo ->
  repr h (VRef lt) tt Ft -> Ft ## Ftodo ->
  exists h2 Ft2,
    merge_keys h (VRef lt) (VRef lp) (map fst todo_v) = Ok h2
    /\ repr h2 (VRef lt) (merge_tree tt todo_t) Ft2
    /\ (forall l, l ∈ Ft2 -> l ∈ Ft ∪ Ftodo)
    /\ (forall l, l <> lt -> h2 !! l = h !! l).
Proof.
  induction todo_v as [|[k v] todo_v IH]; intros todo_t Ftodo h lt tt Ft Hlp Hne Hfind Hps Hr Hd.
  - inversion Hps; subst. exists h, Ft. split; [reflexivity|]. split; [exact Hr|].
    split; [set_solver|]. reflexivity.
  - inversion Hps as [|k0 v0 t ps tps F1 F2 Hv Hrest Hd12]; subst.
    destruct (ref_focus h lt tt Ft k Hr)
      as (o & Fold & Frest & Hl & HFt & Hnin1 & Hnin2 & Hdd & _ & _ & Hk).
    assert (Hlt : lt ∈ Ft) by (rewrite HFt; set_solver).
    assert (Hlen : (lt < length h)%nat) by (eapply lookup_lt_Some; exact Hl).
    set (h' := <[lt := set_own o k v]> h).
    assert (Hfr : forall l, l <> lt -> h' !! l = h !! l).
    { intros l Hl'. unfold h'. apply list_lookup_insert_ne. congruence. }
    assert (Hr' : repr h' (VRef lt) (tree_set tt k t) ({[lt]} ∪ (F1 ∪ Frest))).
    { apply (Hk h' v t F1).
      - unfold h'. apply list_lookup_insert_eq. exact Hlen.
      - intros l' Hl'. apply Hfr. set_solver.
      - eapply repr_frame; [exact Hv|]. intros l' Hl'. apply Hfr. set_solver.
      - set_solver.
      - set_solver. }
    destruct (IH tps F2 h' lt (tree_set tt k t) ({[lt]} ∪ (F1 ∪ Frest))) as (h2 & Ft2 & Hm & Hr2 & Hsub & Hfr2);
      [rewrite Hfr by congruence; exact Hlp
      |exact Hne
      |intros k' v' Hin; apply Hfind; apply elem_of_cons; right; exact Hin
      |eapply repr_props_frame; [exact Hrest|]; intros l' Hl'; apply Hfr; set_solver
      |exact Hr'
      |set_solver
      |].
    exists h2, Ft2. split.
    { assert (Hget : get h (VRef lp) k = Ok v).
      { unfold get, deref. rewrite Hlp. simpl.
        rewrite (Hfind k v) by (apply elem_of_cons; left; reflexivity). reflexivity. }
      assert (Hset : set h (VRef lt) k v = Ok h').
      { unfold set, deref. rewrite Hl. reflexivity. }
      change (map fst ((k, v) :: todo_v)) with (k :: map fst todo_v).
      cbn [merge_keys]. rewrite Hget. cbn [mbind res_bind]. rewrite Hset. exact Hm. }
    split; [exact Hr2|]. split; [set_solver|].
    intros l Hl'. rewrite Hfr2 by assumption. apply Hfr. assumption.
Qed.

(** ** Setting back what is already there *)

Lemma insert_deref (h : heap) l : <[l := deref h l]> h = h.
Proof.
  unfold deref. destruct (h !! l) as [o|] eqn:E; simpl.
  - apply list_insert_id. exact E.
  - apply list_insert_ge. apply lookup_ge_None. exact E.
Qed.

(** Where every test of the walk passes, the walk changes nothing and
    ends where the navigation does. *)
Lemma descend_kept p : forall h v t F,
  repr h v t F -> is_container t = true -> walk_keeps t p = true -> p <> [] ->
  descend h v (removelast p) = Ok (lookup_path h v (removelast p), h).
Proof.
  induction p as [|s rest IH]; intros h v t F Hr Hc Hw Hp; [congruence|].
  destruct rest as [|s' rest]; [reflexivity|].
  change (removelast (s :: s' :: rest)) with (s :: removelast (s' :: rest)).
  cbn [walk_keeps] in Hw. apply andb_true_iff in Hw as [Hk Hw].
  destruct (repr_container_ref _ _ _ _ Hr Hc) as [l ->].
  destruct (ref_focus h l t F (to_key s) Hr) as (o & Fold & Frest & Hl & _ & _ & _ & _ & Hcur & _).
  assert (Hget : get h (VRef l) (to_key s) = Ok (get_own o (to_key s)))
    by (unfold get, deref; rewrite Hl; reflexivity).
  pose proof (repr_kept h s _ _ _ Hcur) as Htest. rewrite Hk in Htest.
  pose proof (kept_container _ _ Hk) as Hcc.
  destruct (repr_container_ref _ _ _ _ Hcur Hcc) as [lc Hlc].
  rewrite descend_cons, Hget. cbn [mbind res_bind]. rewrite Htest. cbn [mbind res_bind].
  rewrite Hget. cbn [mbind res_bind].
  rewrite (IH h _ _ _ Hcur Hcc Hw ltac:(discriminate)).
  cbn [lookup_path]. unfold opt_get. rewrite Hget, Hlc. reflexivity.
Qed.

(** [setValueAtPath] with the object the path already leads to. *)
Lemma setValueAtPath_same h obj t F p lt :
  repr h obj t F -> walk_keeps t p = true -> lookup_path h obj p = VRef lt ->
  setValueAtPath obj (Some p) (VRef lt) h = Ok (obj, h).
Proof.
  intros Hr Hw Hlook. destruct p as [|s0 p].
  - simpl in Hlook. subst obj. reflexivity.
  - assert (Hobj : is_object obj = true).
    { destruct (is_object obj) eqn:E; [reflexivity|].
      pose proof (lookup_path_prim h (s0 :: p) obj E) as X. rewrite Hlook in X. discriminate. }
    assert (Hc : is_container t = true).
    { destruct (repr_tests _ _ _ _ Hr) as [_ X]. congruence. }
    unfold setValueAtPath.
    rewrite (descend_kept (s0 :: p) h obj t F Hr Hc Hw ltac:(discriminate)).
    cbn [mbind res_bind].
    rewrite (path_split s0 p), lookup_path_app in Hlook.
    set (parent := lookup_path h obj (removelast (s0 :: p))) in *.
    cbn [lookup_path] in Hlook.
    assert (Hopt : opt_get h parent (to_key (List.last p s0)) = VRef lt).
    { destruct (opt_get h parent (to_key (List.last p s0))); congruence. }
    destruct parent as [ | |b|n|str|lp] eqn:Ep; try discriminate.
    + unfold opt_get in Hopt. simpl in Hopt.
      destruct (array_index _); [|discriminate]. destruct (_ !! _); discriminate.
    + unfold opt_get, get in Hopt. unfold set.
      rewrite (set_own_get_own _ _ _ Hopt), insert_deref. reflexivity.
Qed.

(** ** The container edit *)

(** A container edit with the text of an object, on a path that leads to
    an object or an array and whose walk passes every test: the new
    document is the stored one with the keys of the edited object written
    onto the value at the path. *)
Theorem save_document_merge (st : State) (node : NodeData) (p : list seg)
    (t : jtree) (eps : list (str * jtree)) :
  selectedNode st = Some node -> is_leaf node = false -> path node = Some p ->
  parse_text (json st) = Some t -> parse_text (draft st) = Some (JObj eps) ->
  is_container (tree_lookup t p) = true -> walk_keeps t p = true ->
  save_document st
  = Ok (stringify_tree 2 (tree_put t p (merge_tree (tree_lookup t p) eps))).
Proof.
  intros Hn Hleaf Hp Ht He Hc Hw.
  pose proof (parse_text_nodup _ _ He) as Hnd.
  unfold save_document.
  rewrite (JSON_parse_ok _ _ _ He). cbn [mbind res_bind].
  destruct (alloc (JObj eps) []) as [parsed h0] eqn:E0.
  rewrite (JSON_parse_ok _ _ _ Ht).
  destruct (alloc t h0) as [obj h1] eqn:E1.
  rewrite Hn, Hleaf, Hp.
  destruct (alloc_two t (JObj eps) parsed h0 obj h1 E0 E1) as (F & Fe & Hr & Hre & Hd).
  rewrite (lookup_path_object h1 obj t F p Hr), Hc.
  destruct (lookup_path h1 obj p) as [ | |b|n|str|lt] eqn:Hlook;
    try (pose proof (lookup_path_object h1 obj t F p Hr) as X; rewrite Hlook, Hc in X;
         discriminate).
  inversion Hre as [| | | | |lp o te Fe0 Hlp Ho Hlpn]; subst.
  inversion Ho as [pps tps Fe1 Hps|]; subst.
  destruct (path_focus p h1 obj t F lt Hr Hlook) as (Ft & Frest & Hrt & Hdt & Hsub & Hk).
  assert (Hlt : lt ∈ Ft) by (inversion Hrt; subst; set_solver).
  assert (Hne : lp <> lt) by set_solver.
  destruct (merge_keys_repr lp pps pps eps Fe0 h1 lt (tree_lookup t p) Ft Hlp Hne)
    as (h2 & Ft2 & Hm & Hr2 & Hsub2 & Hfr2);
    [intros k v Hin; apply props_lookup_nodup;
       [rewrite (repr_props_keys _ _ _ _ Hps); exact Hnd|exact Hin]
    |exact Hps|exact Hrt|set_solver|].
  destruct (Hk h2 (merge_tree (tree_lookup t p) eps) Ft2) as (F' & Hr' & _ & Hlook2);
    [intros l Hl; apply Hfr2; set_solver|exact Hr2|set_solver|].
  assert (Hkeys : Object_keys h1 (VRef lp) = Ok (map fst pps))
    by (unfold Object_keys, deref; rewrite Hlp; reflexivity).
  rewrite Hkeys. cbn [mbind res_bind].
  rewrite Hm. cbn [mbind res_bind].
  rewrite (setValueAtPath_same h2 obj _ F' p lt Hr'
             (walk_keeps_put p t _ (merge_tree_container eps _ Hc) Hc Hw) Hlook2).
  cbn [mbind res_bind]. apply (JSON_stringify_repr 2 h2 obj _ F' Hr').
Qed.

Lemma props_lookup_set_ne {A} (ps : list (str * A)) k k' v :
  k' <> k -> props_lookup (props_set ps k' v) k = props_lookup ps k.
Proof.
  intros Hne. assert (Hb : text_eqb k' k = false) by (apply bool_decide_eq_false_2; exact Hne).
  unfold props_set. destruct (props_lookup ps k') eqn:E.
  - clear E. induction ps as [|[k0 v0] ps IH]; simpl; [reflexivity|].
    destruct (text_eqb k0 k') eqn:E0; simpl.
    + apply bool_decide_eq_true_1 in E0. subst k0. rewrite Hb. reflexivity.
    + rewrite IH. reflexivity.
  - clear E. destruct (array_index k') as [i|].
    + induction ps as [|[k0 v0] ps IH]; simpl; [rewrite Hb; reflexivity|].
      destruct (array_index k0) as [j|]; [destruct (j <? i)|]; simpl;
        rewrite ?Hb, ?IH; reflexivity.
    + induction ps as [|[k0 v0] ps IH]; simpl; [rewrite Hb; reflexivity|].
      rewrite IH. reflexivity.
Qed.

(** What the merge leaves under each key of an object: the edited value
    where the edited object has the key, the value it had otherwise. *)
Lemma merge_tree_get eps : forall ps k,
  NoDup (map fst eps) ->
  tree_get (merge_tree (JObj ps) eps) k
  = match props_lookup eps k with
    | Some v => v
    | None => tree_get (JObj ps) k
    end.
Proof.
  induction eps as [|[k' x] eps IH]; intros ps k Hnd; [reflexivity|].
  simpl in Hnd. apply NoDup_cons in Hnd as [Hk' Hnd].
  change (merge_tree (JObj ps) ((k', x) :: eps))
    with (merge_tree (JObj (props_set ps k' x)) eps).
  rewrite IH by exact Hnd. cbn [props_lookup]. unfold text_eqb at 1. case_bool_decide as Hk.
  - subst k'. rewrite (props_lookup_None eps k Hk'). simpl.
    rewrite props_lookup_set. reflexivity.
  - destruct (props_lookup eps k); [reflexivity|]. simpl.
    rewrite props_lookup_set_ne by exact Hk. reflexivity.
Qed.

(** The merge theorem at the example of the specification: the document
    [{a:{b:1,c:2}}], the node at [a], the text of [{b:5}]. *)
Lemma save_document_merge_example :
  let st := example_state "{'a':{'b':1,'c':2}}" "{'b':5}" [field_row "b" 1; field_row "c" 2]
              (Some [SegStr (lit "a")]) in
  save_document st = Ok (json_lit "{
  'a': {
    'b': 5,
    'c': 2
  }
}").
Proof.
  intros st.
  rewrite (save_document_merge st {| id := lit "n"; text := [field_row "b" 1; field_row "c" 2];
                                      path := Some [SegStr (lit "a")] |}
             [SegStr (lit "a")]
             (JObj [(lit "a", JObj [(lit "b", JNum (Num 1 0)); (lit "c", JNum (Num 2 0))])])
             [(lit "b", JNum (Num 5 0))]);
    vm_compute; reflexivity.
Defined.

(** ** [JSON.parse] after [JSON.stringify], for every tree *)

Lemma elem_text_scalar gap indent v : elem_text gap indent (tree_of_scalar v) = scalar_text v.
Proof. unfold elem_text. rewrite serialize_scalar. reflexivity. Qed.

Lemma wrap_ws (o c : N) gap stepback indent partial :
  forallb is_ws gap = true -> forallb is_ws stepback = true -> forallb is_ws indent = true ->
  partial <> [] ->
  exists ws ws', forallb is_ws ws = true /\ forallb is_ws ws' = true
    /\ wrap [o] [c] gap stepback indent partial
       = o :: ws ++ join (44 :: ws) partial ++ ws' ++ [c].
Proof.
  intros Hg Hs Hi Hp. unfold wrap. destruct partial as [|p ps]; [congruence|].
  destruct gap as [|g gap].
  - exists [], []. repeat split. 
  - exists (nl ++ indent), (nl ++ stepback).
    split; [rewrite forallb_app; rewrite Hi; reflexivity|].
    split; [rewrite forallb_app; rewrite Hs; reflexivity|].
    change (lit ",") with [44]. cbn [app]. repeat rewrite <- app_assoc. reflexivity.
Qed.

Lemma elem_text_head gap indent t :
  tree_ok t = true -> exists c r, elem_text gap indent t = c :: r /\ value_head c = true.
Proof.
  intros Hok. destruct t as [ | |b|n|s|es nm|ps].
  - do 2 eexists. split; reflexivity.
  - do 2 eexists. split; reflexivity.
  - destruct b; do 2 eexists; split; reflexivity.
  - apply bool_decide_eq_true_1 in Hok.
    change (elem_text gap indent (JNum n)) with (scalar_text (SNum n)).
    apply scalar_text_head. exact Hok.
  - do 2 eexists. split; reflexivity.
  - unfold elem_text. cbn [serialize]. unfold wrap.
    match goal with |- context [match ?l with [] => _ | _ => _ end] => destruct l end;
      [|destruct gap]; do 2 eexists; split; reflexivity.
  - unfold elem_text. cbn [serialize]. unfold wrap.
    match goal with |- context [match ?l with [] => _ | _ => _ end] => destruct l end;
      [|destruct gap]; do 2 eexists; split; reflexivity.
Qed.

Lemma parse_elements_nested ws ws' gap indent : forall es acc f rest,
  forallb is_ws ws = true -> forallb is_ws ws' = true ->
  forallb is_ws gap = true -> forallb is_ws indent = true ->
  Forall round_trips es -> forallb tree_ok es = true -> es <> [] ->
  (list_sum (map (fun e => S (tsize e)) es) <= f)%nat ->
  parse_elements f (join (44 :: ws) (map (elem_text gap indent) es) ++ ws' ++ 93 :: rest) acc
  = Some (JArr (acc ++ map reparse_elem es) [], rest).
Proof.
  induction es as [|e es IH]; intros acc f rest Hws Hws' Hg Hi Hall Hok Hne Hf; [congruence|].
  apply Forall_cons in Hall as [He Hall].
  cbn [forallb] in Hok. apply andb_true_iff in Hok as [Hoke Hok].
  cbn [map list_sum fold_right] in Hf. unfold list_sum in Hf. cbn [fold_right] in Hf. fold (list_sum (map (fun e => S (tsize e)) es)) in Hf.
  destruct f as [|f]; [lia|].
  destruct (ends_number_ws ws' 93 rest Hws' eq_refl eq_refl) as [Hend Hskip].
  rewrite parse_elements_eq.
  destruct es as [|e' es].
  - cbn [map join].
    rewrite (He gap indent _ f) by (assumption || lia).
    cbn [mbind option_bind]. rewrite Hskip. reflexivity.
  - change (join (44 :: ws) (map (elem_text gap indent) (e :: e' :: es)))
      with (elem_text gap indent e ++ (44 :: ws)
              ++ join (44 :: ws) (map (elem_text gap indent) (e' :: es))).
    rewrite <- !app_assoc.
    rewrite (He gap indent _ f) by (assumption || reflexivity || lia).
    cbn [mbind option_bind app]. rewrite skip_ws_head by reflexivity.
    change (44 =? 44) with true. cbv beta iota.
    rewrite parse_elements_ws by assumption.
    rewrite IH; try assumption; [|discriminate|lia].
    rewrite <- app_assoc. reflexivity.
Qed.

Lemma parse_members_nested ws wsc ws' gap indent : forall kvs acc f rest,
  forallb is_ws ws = true -> forallb is_ws wsc = true -> forallb is_ws ws' = true ->
  forallb is_ws gap = true -> forallb is_ws indent = true ->
  Forall (fun kv => round_trips (snd kv)) kvs ->
  forallb (fun kv => tree_ok (snd kv)) kvs = true -> kvs <> [] ->
  (list_sum (map (fun kv => S (tsize (snd kv))) kvs) <= f)%nat ->
  parse_members f
    (join (44 :: ws)
       (map (fun kv => quote (fst kv) ++ 58 :: wsc ++ elem_text gap indent (snd kv)) kvs)
     ++ ws' ++ 125 :: rest) acc
  = Some (JObj (fold_left (fun acc kv => props_set acc (fst kv) (reparse_elem (snd kv))) kvs acc),
          rest).
Proof.
  induction kvs as [|[k v] kvs IH];
    intros acc f rest Hws Hwsc Hws' Hg Hi Hall Hok Hne Hf; [congruence|].
  apply Forall_cons in Hall as [Hv Hall]. cbn [snd] in Hv.
  cbn [forallb snd] in Hok. apply andb_true_iff in Hok as [Hokv Hok].
  cbn [map snd] in Hf. unfold list_sum in Hf. cbn [fold_right] in Hf. fold (list_sum (map (fun kv : str * jtree => S (tsize (snd kv))) kvs)) in Hf.
  destruct f as [|f]; [lia|].
  destruct (ends_number_ws ws' 125 rest Hws' eq_refl eq_refl) as [Hend Hskip].
  rewrite parse_members_eq.
  assert (Hstep : forall rest1
    (K : str -> option (jtree * str) -> option (jtree * str)),
    ends_number rest1 = true ->
    (r ← expect dq ((quote k ++ 58 :: wsc ++ elem_text gap indent v) ++ rest1);
     '(k', r1) ← lex_string r;
     r2 ← expect 58 r1;
     K k' (parse_value f r2))
    = K k (Some (reparse_elem v, rest1))).
  { intros rest1 K Hr1.
    assert (E : (quote k ++ 58 :: wsc ++ elem_text gap indent v) ++ rest1
                = [] ++ dq :: quote_units k ++ dq
                    :: ([] ++ 58 :: wsc ++ elem_text gap indent v ++ rest1)).
    { unfold quote. cbn [app]. repeat (rewrite <- app_assoc; cbn [app]). reflexivity. }
    rewrite E.
    rewrite expect_head by reflexivity. cbn [mbind option_bind].
    rewrite lex_string_quote. cbn [mbind option_bind].
    rewrite expect_head by reflexivity. cbn [mbind option_bind].
    rewrite parse_value_ws by assumption.
    rewrite (Hv gap indent _ f) by (assumption || lia). reflexivity. }
  destruct kvs as [|kv' kvs].
  - cbn [map join fst snd].
    rewrite (Hstep _ (fun k' o => '(v0, r3) ← o;
                   match skip_ws r3 with
                   | c :: r4 =>
                       if c =? 44 then parse_members f r4 (props_set acc k' v0)
                       else if c =? 125 then Some (JObj (props_set acc k' v0), r4)
                       else None
                   | [] => None
                   end)) by exact Hend.
    cbn [mbind option_bind]. rewrite Hskip. reflexivity.
  - set (item := fun kv : str * jtree =>
                   quote (fst kv) ++ 58 :: wsc ++ elem_text gap indent (snd kv)).
    change (join (44 :: ws) (map item ((k, v) :: kv' :: kvs)))
      with ((quote k ++ 58 :: wsc ++ elem_text gap indent v) ++ (44 :: ws)
              ++ join (44 :: ws) (map item (kv' :: kvs))).
    rewrite <- (app_assoc (quote k ++ 58 :: wsc ++ elem_text gap indent v)).
    rewrite (Hstep _ (fun k' o => '(v0, r3) ← o;
                   match skip_ws r3 with
                   | c :: r4 =>
                       if c =? 44 then parse_members f r4 (props_set acc k' v0)
                       else if c =? 125 then Some (JObj (props_set acc k' v0), r4)
                       else None
                   | [] => None
                   end)) by reflexivity.
    cbn [mbind option_bind app]. rewrite skip_ws_head by reflexivity.
    change (44 =? 44) with true. cbv beta iota.
    rewrite <- app_assoc.
    rewrite parse_members_ws by assumption.
    unfold item. rewrite IH; try assumption; [reflexivity|discriminate|lia].
Qed.

Lemma expect_ws_value_head c ws c' r :
  forallb is_ws ws = true -> value_head c' = true -> c' <> c ->
  expect c (ws ++ c' :: r) = None.
Proof.
  intros Hws Hc Hne. unfold expect. rewrite skip_ws_app by assumption.
  exact (expect_value_head c c' r Hc Hne).
Qed.

Lemma join_head (sep p : str) ps c r : p = c :: r -> exists r', join sep (p :: ps) = c :: r'.
Proof. intros ->. destruct ps; eexists; reflexivity. Qed.

Lemma filter_Forall {A} (P : A -> Prop) (f : A -> bool) l :
  Forall P l -> Forall P (List.filter f l).
Proof.
  induction 1 as [|x l Hx _ IH]; simpl; [constructor|].
  destruct (f x); [constructor; assumption|assumption].
Qed.

Lemma filter_forallb {A} (g f : A -> bool) l :
  forallb g l = true -> forallb g (List.filter f l) = true.
Proof.
  induction l as [|x l IH]; simpl; [reflexivity|]. intros H.
  apply andb_true_iff in H as [Hx H]. destruct (f x); simpl; [rewrite Hx|]; auto.
Qed.

Lemma filter_list_sum {A} (g : A -> nat) (f : A -> bool) l :
  (list_sum (map g (List.filter f l)) <= list_sum (map g l))%nat.
Proof.
  induction l as [|x l IH]; simpl; [lia|]. destruct (f x); simpl; lia.
Qed.

Lemma omap_defined gap indent ps :
  omap (fun kv : str * jtree => member_text gap (fst kv) <$> serialize gap indent (snd kv)) ps
  = map (fun kv => quote (fst kv) ++ 58 :: match gap with [] => [] | _ => [32] end
                     ++ elem_text gap indent (snd kv))
      (defined_props ps).
Proof.
  induction ps as [|[k v] ps IH]; [reflexivity|].
  change (omap ?f ((k, v) :: ps)) with (match f (k, v) with Some y => y :: omap f ps | None => omap f ps end).
  rewrite IH. unfold defined_props. cbn [List.filter fst snd].
  destruct v; try reflexivity.
Qed.

Lemma fold_defined ps : forall acc,
  fold_left (fun acc (kv : str * option jtree) =>
               match snd kv with Some v => props_set acc (fst kv) v | None => acc end)
    (map (fun kv : str * jtree =>
            (fst kv, if is_undefined (snd kv) then None else Some (reparse (snd kv)))) ps)
    acc
  = fold_left (fun acc kv => props_set acc (fst kv) (reparse_elem (snd kv)))
      (defined_props ps) acc.
Proof.
  induction ps as [|[k v] ps IH]; intros acc; [reflexivity|].
  unfold defined_props. cbn [map fold_left List.filter fst snd].
  destruct (is_undefined v) eqn:E; cbn [negb fold_left fst snd].
  - apply IH.
  - unfold reparse_elem at 2. rewrite E. apply IH.
Qed.

Lemma round_trips_all t : round_trips t.
Proof.
  induction t as [ | |b|n|s|es nm IHes _|ps IHps] using jtree_ind';
    intros gap indent rest f Hg Hi Hok Hend Hf.
  - destruct f as [|f]; [simpl in Hf; lia|].
    exact (parse_value_scalar f SNull rest I Hend).
  - destruct f as [|f]; [simpl in Hf; lia|].
    exact (parse_value_scalar f SNull rest I Hend).
  - destruct f as [|f]; [simpl in Hf; lia|].
    exact (parse_value_scalar f (SBool b) rest I Hend).
  - destruct f as [|f]; [simpl in Hf; lia|].
    apply bool_decide_eq_true_1 in Hok.
    exact (parse_value_scalar f (SNum n) rest Hok Hend).
  - destruct f as [|f]; [simpl in Hf; lia|].
    exact (parse_value_scalar f (SStr s) rest I Hend).
  - change (reparse_elem (JArr es nm)) with (JArr (map reparse_elem es) []).
    change (elem_text gap indent (JArr es nm))
      with (wrap [91] [93] gap indent (indent ++ gap)
              (map (elem_text gap (indent ++ gap)) es)).
    cbn [tree_ok] in Hok. apply andb_true_iff in Hok as [Hok _].
    cbn [tsize] in Hf. destruct f as [|f]; [lia|]. apply le_S_n in Hf.
    destruct es as [|e es].
    { rewrite parse_value_eq. reflexivity. }
    assert (Hi' : forallb is_ws (indent ++ gap) = true)
      by (rewrite forallb_app, Hi, Hg; reflexivity).
    destruct (wrap_ws 91 93 gap indent (indent ++ gap)
                (map (elem_text gap (indent ++ gap)) (e :: es)) Hg Hi Hi' ltac:(discriminate))
      as (ws & ws' & Hws & Hws' & ->).
    cbn [forallb] in Hok. pose proof Hok as Hok'.
    apply andb_true_iff in Hok' as [Hoke _].
    destruct (elem_text_head gap (indent ++ gap) e Hoke) as (c & r & Ec & Hc).
    destruct (join_head (44 :: ws) _ (map (elem_text gap (indent ++ gap)) es) c r Ec)
      as [r' Ej].
    destruct (value_head_neq c Hc) as [Hc93 _].
    rewrite parse_value_eq. cbn [app]. rewrite skip_ws_head by reflexivity.
    change (91 =? 123) with false. change (91 =? 91) with true. cbv beta iota.
    assert (Hexp : expect 93 ((ws ++ join (44 :: ws) (map (elem_text gap (indent ++ gap)) (e :: es))
                                ++ ws' ++ [93]) ++ rest) = None).
    { cbn [map]. rewrite Ej. rewrite <- app_assoc. cbn [app].
      apply expect_ws_value_head; assumption. }
    rewrite Hexp. rewrite <- !app_assoc.
    rewrite parse_elements_ws by assumption.
    cbn [app].
    rewrite (parse_elements_nested ws ws' gap (indent ++ gap) (e :: es) [] f rest);
      try assumption; [reflexivity|discriminate].
  - change (elem_text gap indent (JObj ps))
      with (wrap [123] [125] gap indent (indent ++ gap)
              (omap (fun kv : str * jtree =>
                       member_text gap (fst kv) <$> serialize gap (indent ++ gap) (snd kv)) ps)).
    rewrite omap_defined.
    change (reparse_elem (JObj ps)) with (reparse (JObj ps)). cbn [reparse].
    rewrite fold_defined.
    cbn [tree_ok] in Hok. cbn [tsize] in Hf. destruct f as [|f]; [lia|]. apply le_S_n in Hf.
    pose proof (filter_Forall _ (fun kv => negb (is_undefined (snd kv))) ps IHps) as IHd.
    pose proof (filter_forallb _ (fun kv => negb (is_undefined (snd kv))) ps Hok) as Hokd.
    pose proof (filter_list_sum (fun kv : str * jtree => S (tsize (snd kv)))
                  (fun kv => negb (is_undefined (snd kv))) ps) as Hsum.
    fold (defined_props ps) in IHd, Hokd, Hsum.
    destruct (defined_props ps) as [|[k v] dps].
    { rewrite parse_value_eq. reflexivity. }
    assert (Hi' : forallb is_ws (indent ++ gap) = true)
      by (rewrite forallb_app, Hi, Hg; reflexivity).
    set (wsc := match gap with [] => [] | _ => [32] end).
    assert (Hwsc : forallb is_ws wsc = true) by (unfold wsc; destruct gap; reflexivity).
    set (item := fun kv : str * jtree =>
                   quote (fst kv) ++ 58 :: wsc ++ elem_text gap (indent ++ gap) (snd kv)).
    destruct (wrap_ws 123 125 gap indent (indent ++ gap) (map item ((k, v) :: dps))
                Hg Hi Hi' ltac:(discriminate))
      as (ws & ws' & Hws & Hws' & ->).
    destruct (join_head (44 :: ws) (item (k, v)) (map item dps) dq
                (quote_units k ++ [dq] ++ 58 :: wsc ++ elem_text gap (indent ++ gap) v))
      as [r' Ej].
    { unfold item, quote. cbn [fst snd app]. rewrite <- app_assoc. reflexivity. }
    rewrite parse_value_eq. cbn [app]. rewrite skip_ws_head by reflexivity.
    change (123 =? 123) with true. cbv beta iota.
    assert (Hexp : expect 125 ((ws ++ join (44 :: ws) (map item ((k, v) :: dps))
                                 ++ ws' ++ [125]) ++ rest) = None).
    { cbn [map]. rewrite Ej. rewrite <- app_assoc. cbn [app].
      apply expect_ws_value_head; [assumption|reflexivity|discriminate]. }
    rewrite Hexp. rewrite <- !app_assoc.
    rewrite parse_members_ws by assumption.
    cbn [app].
    apply (parse_members_nested ws wsc ws' gap (indent ++ gap) ((k, v) :: dps) [] f rest);
      try assumption; [discriminate|lia].
Qed.

(** [JSON.parse(JSON.stringify(t, null, space))] for a tree that is not
    [undefined]: the text is valid JSON, and reads back as [reparse t]. *)
Theorem parse_stringify (space : nat) (t : jtree) :
  tree_ok t = true -> is_undefined t = false ->
  parse_text (stringify_tree space t) = Some (reparse t).
Proof.
  intros Hok Hdef.
  assert (E : stringify_tree space t = elem_text (repeat 32 space) [] t)
    by (destruct t; [discriminate|reflexivity..]).
  assert (Hgap : forallb is_ws (repeat 32 space) = true).
  { clear. induction space as [|n IHn]; [reflexivity|exact IHn]. }
  pose proof (round_trips_all t (repeat 32 space) [] []
                (tsize t + (2 * length (stringify_tree space t) + 2))%nat
                Hgap eq_refl Hok eq_refl ltac:(lia)) as H.
  rewrite app_nil_r, <- E in H. rewrite parse_value_fuel in H.
  unfold parse_text. rewrite H. cbn [mbind option_bind skip_ws].
  unfold reparse_elem. rewrite Hdef. reflexivity.
Qed.

(** ** What the parser builds *)

Lemma forallb_elem_of {A} (g : A -> bool) l :
  forallb g l = true <-> forall x, x ∈ l -> g x = true.
Proof.
  induction l as [|y l IH]; simpl.
  - split; [intros _ x Hx; inversion Hx|reflexivity].
  - rewrite andb_true_iff, IH. split.
    + intros [Hy Hl] x Hx. apply elem_of_cons in Hx as [->|Hx]; auto.
    + intros H. split; [apply H; left|intros x Hx; apply H; right; exact Hx].
Qed.

Lemma span_digits_lt s : forall ds r, span_digits s = (ds, r) -> Forall (fun d => d < 10) ds.
Proof.
  induction s as [|c s IH]; intros ds r H; simpl in H.
  - injection H as <- _. constructor.
  - destruct (is_digit c) eqn:Ec.
    + destruct (span_digits s) as [ds' r'] eqn:E. injection H as <- _.
      constructor; [|eapply IH; reflexivity].
      unfold is_digit in Ec. apply andb_true_iff in Ec as [H1 H2].
      apply N.leb_le in H1, H2. lia.
    + injection H as <- _. constructor.
Qed.

Lemma lex_number_canonical s n r : lex_number s = Some (n, r) -> canonical n.
Proof.
  unfold lex_number. intros H.
  destruct (match s with
            | [] => (false, [])
            | c :: r0 => if c =? 45 then (true, r0) else (false, s)
            end) as [neg s1].
  destruct (lex_int s1) as [[ip s2]|] eqn:Ei; [|discriminate]. cbn [mbind option_bind] in H.
  destruct (lex_frac s2) as [[fp s3]|] eqn:Ef; [|discriminate]. cbn [mbind option_bind] in H.
  destruct (lex_exp s3) as [[e s4]|]; [|discriminate]. cbn [mbind option_bind] in H.
  injection H as <- _. apply mk_num_canonical. apply Forall_app. split.
  - unfold lex_int in Ei. destruct s1 as [|c r1]; [discriminate|].
    destruct (c =? 48).
    + injection Ei as <- _. constructor; [lia|constructor].
    + remember (span_digits (c :: r1)) as sp eqn:Esp.
      destruct (is_digit c); [|discriminate]. injection Ei as ->.
      symmetry in Esp. eapply span_digits_lt. exact Esp.
  - unfold lex_frac in Ef. destruct s2 as [|c r2]; [injection Ef as <- _; constructor|].
    destruct (c =? 46).
    + destruct (span_digits r2) as [ds r'] eqn:E. pose proof (span_digits_lt _ _ _ E) as Hd.
      destruct ds; [discriminate|]. injection Ef as <- _. exact Hd.
    + injection Ef as <- _. constructor.
Qed.

(** The index of a key determines the key. *)
Lemma array_index_text k i : array_index k = Some i -> k = show_digits (digits i).
Proof.
  unfold array_index. destruct k as [|c r]; [discriminate|].
  destruct (forallb is_digit (c :: r) && (negb (c =? 48) || bool_decide (r = []))) eqn:E;
    [|discriminate].
  destruct (_ <? _); [|discriminate]. intros [= <-].
  apply andb_true_iff in E as [Hd Hz].
  set (ds := map (fun c => c - 48) (c :: r)).
  assert (Hk : c :: r = show_digits ds).
  { unfold ds, show_digits. rewrite map_map. clear Hz.
    induction (c :: r) as [|x l IH]; [reflexivity|].
    cbn [forallb] in Hd. apply andb_true_iff in Hd as [Hx Hl].
    cbn [map]. rewrite <- IH by exact Hl. f_equal.
    unfold is_digit in Hx. apply andb_true_iff in Hx as [H1 H2].
    apply N.leb_le in H1, H2. unfold digit_char. lia. }
  rewrite Hk. f_equal. symmetry. apply digits_of_digits.
  split.
  - unfold ds. apply Forall_map. pose proof (proj1 (forallb_elem_of _ _) Hd) as Hd'.
    apply Forall_forall. intros x Hx. specialize (Hd' x Hx).
    unfold is_digit in Hd'. apply andb_true_iff in Hd' as [H1 H2].
    apply N.leb_le in H1, H2. simpl. lia.
  - unfold ds. cbn [map]. destruct r as [|c' r']; [exact I|]. cbn [map].
    apply orb_true_iff in Hz as [Hz|Hz].
    + apply negb_true_iff, N.eqb_neq in Hz.
      cbn [forallb] in Hd. apply andb_true_iff in Hd as [Hx _].
      unfold is_digit in Hx. apply andb_true_iff in Hx as [H1 H2].
      apply N.leb_le in H1, H2. lia.
    + apply bool_decide_eq_true_1 in Hz. discriminate.
Qed.

Lemma array_index_inj k k' i : array_index k = Some i -> array_index k' = Some i -> k = k'.
Proof. intros H H'. rewrite (array_index_text _ _ H), (array_index_text _ _ H'). reflexivity. Qed.

Lemma key_ltb_irrefl k : key_ltb k k = false.
Proof.
  unfold key_ltb. destruct (array_index k); [apply N.ltb_irrefl|].
  rewrite text_eqb_refl. reflexivity.
Qed.

Lemma key_ltb_neq a b : key_ltb a b = true -> a <> b.
Proof. intros H ->. rewrite key_ltb_irrefl in H. discriminate. Qed.

Lemma keys_sorted_snoc ks k :
  keys_sorted (ks ++ [k]) = keys_sorted ks && forallb (fun k' => key_ltb k' k) ks.
Proof.
  induction ks as [|a ks IH]; [reflexivity|].
  cbn [app keys_sorted forallb]. rewrite forallb_app, IH. cbn [forallb].
  destruct (forallb (key_ltb a) ks), (key_ltb a k), (keys_sorted ks); reflexivity.
Qed.

Lemma keys_sorted_app a b :
  keys_sorted (a ++ b) = true ->
  keys_sorted a = true /\ keys_sorted b = true
  /\ forall x y, x ∈ a -> y ∈ b -> key_ltb x y = true.
Proof.
  induction a as [|k a IH]; cbn [app keys_sorted].
  - intros H. split; [reflexivity|]. split; [exact H|]. intros x y Hx. inversion Hx.
  - intros H. apply andb_true_iff in H as [Hk H]. rewrite forallb_app in Hk.
    apply andb_true_iff in Hk as [Hka Hkb]. destruct (IH H) as (Ha & Hb & Hab).
    split; [rewrite Hka, Ha; reflexivity|]. split; [exact Hb|].
    intros x y Hx Hy. apply elem_of_cons in Hx as [->|Hx]; [|auto].
    exact (proj1 (forallb_elem_of _ _) Hkb y Hy).
Qed.

(** A new index key after smaller indices, a new name after everything:
    the write appends. *)
Lemma props_insert_index_end {A} (ps : list (str * A)) i k v :
  (forall k', k' ∈ map fst ps -> exists j, array_index k' = Some j /\ j < i) ->
  props_insert_index ps i k v = ps ++ [(k, v)].
Proof.
  induction ps as [|[k' v'] ps IH]; intros H; [reflexivity|].
  cbn [props_insert_index app].
  destruct (H k') as (j & -> & Hj); [left|].
  rewrite (proj2 (N.ltb_lt _ _) Hj). f_equal. apply IH.
  intros k'' Hk''. apply H. right. exact Hk''.
Qed.

Lemma props_set_end {A} (ps : list (str * A)) k v :
  (forall k', k' ∈ map fst ps -> key_ltb k' k = true) ->
  props_set ps k v = ps ++ [(k, v)].
Proof.
  intros H. unfold props_set.
  rewrite props_lookup_None.
  2:{ intros Hin. apply (key_ltb_neq _ _ (H k Hin)). reflexivity. }
  destruct (array_index k) as [i|] eqn:Ek; [|reflexivity].
  apply props_insert_index_end. intros k' Hk'. specialize (H k' Hk').
  unfold key_ltb in H. rewrite Ek in H.
  destruct (array_index k') as [j|]; [|discriminate].
  exists j. split; [reflexivity|]. apply N.ltb_lt. exact H.
Qed.

Lemma fold_props_set_sorted {A} (g : jtree -> A) ps : forall acc : list (str * A),
  keys_sorted (map fst acc ++ map fst ps) = true ->
  fold_left (fun a (kv : str * jtree) => props_set a (fst kv) (g (snd kv))) ps acc
  = acc ++ map (fun kv => (fst kv, g (snd kv))) ps.
Proof.
  induction ps as [|[k v] ps IH]; intros acc H; [rewrite app_nil_r; reflexivity|].
  cbn [fold_left map fst snd].
  assert (Hend : props_set acc k (g v) = acc ++ [(k, g v)]).
  { apply props_set_end. intros k' Hk'.
    destruct (keys_sorted_app _ _ H) as (_ & _ & Hab). apply Hab; [exact Hk'|left]. }
  rewrite Hend, IH.
  - rewrite <- app_assoc. reflexivity.
  - rewrite map_app. cbn [map fst]. rewrite <- app_assoc. exact H.
Qed.

Lemma props_insert_index_sorted {A} (ps : list (str * A)) i k v :
  array_index k = Some i -> k ∉ map fst ps ->
  keys_sorted (map fst ps) = true ->
  keys_sorted (map fst (props_insert_index ps i k v)) = true.
Proof.
  intros Hk. induction ps as [|[k' v'] ps IH]; intros Hnin Hs; [reflexivity|].
  cbn [map fst] in Hnin, Hs. apply not_elem_of_cons in Hnin as [Hne Hnin].
  cbn [keys_sorted] in Hs. apply andb_true_iff in Hs as [Hk' Hs].
  pose proof (proj1 (forallb_elem_of _ _) Hk') as Hall.
  cbn [props_insert_index].
  assert (Hhead : forall j, array_index k' = Some j -> (j <? i) = false ->
            keys_sorted (map fst ((k, v) :: (k', v') :: ps)) = true).
  { intros j Ej Hji. cbn [map fst keys_sorted forallb]. rewrite Hk', Hs.
    assert (Hlt : i < j).
    { apply N.ltb_ge in Hji. destruct (N.eq_dec i j) as [->|]; [|lia].
      exfalso. apply Hne. exact (array_index_inj _ _ _ Hk Ej). }
    assert (Hkk' : key_ltb k k' = true).
    { unfold key_ltb. rewrite Hk, Ej. apply N.ltb_lt. exact Hlt. }
    rewrite Hkk'. cbn [andb]. rewrite andb_true_r.
    apply forallb_elem_of. intros x Hx. specialize (Hall x Hx).
    unfold key_ltb in *. rewrite Hk. rewrite Ej in Hall.
    destruct (array_index x) as [jx|]; [|reflexivity].
    apply N.ltb_lt in Hall. apply N.ltb_lt. lia. }
  destruct (array_index k') as [j|] eqn:Ej.
  - destruct (j <? i) eqn:Hji; [|exact (Hhead j eq_refl Hji)].
    cbn [map fst keys_sorted]. rewrite IH by assumption. rewrite andb_true_r.
    apply forallb_elem_of. intros x Hx.
    rewrite props_insert_index_keys in Hx. apply elem_of_cons in Hx as [->|Hx].
    + unfold key_ltb. rewrite Ej, Hk. exact Hji.
    + exact (Hall x Hx).
  - cbn [map fst keys_sorted forallb]. rewrite Hk', Hs.
    assert (Hkk' : key_ltb k k' = true) by (unfold key_ltb; rewrite Hk, Ej; reflexivity).
    rewrite Hkk'. cbn [andb]. rewrite andb_true_r.
    apply forallb_elem_of. intros x Hx. specialize (Hall x Hx).
    unfold key_ltb in *. rewrite Hk. rewrite Ej in Hall.
    destruct (array_index x); [discriminate|reflexivity].
Qed.

Lemma props_set_sorted {A} (ps : list (str * A)) k v :
  keys_sorted (map fst ps) = true -> keys_sorted (map fst (props_set ps k v)) = true.
Proof.
  intros Hs. unfold props_set. destruct (props_lookup ps k) eqn:E.
  - rewrite props_replace_keys. exact Hs.
  - apply props_lookup_None_inv in E. destruct (array_index k) as [i|] eqn:Ek.
    + apply props_insert_index_sorted; assumption.
    + rewrite map_app. cbn [map fst]. rewrite keys_sorted_snoc, Hs. cbn [andb].
      apply forallb_elem_of. intros x Hx. unfold key_ltb. rewrite Ek.
      destruct (array_index x); [reflexivity|].
      apply negb_true_iff. apply bool_decide_eq_false_2. intros ->. contradiction.
Qed.

Lemma props_set_forallb {A} (g : A -> bool) (ps : list (str * A)) k v :
  forallb (fun kv => g (snd kv)) ps = true -> g v = true ->
  forallb (fun kv => g (snd kv)) (props_set ps k v) = true.
Proof.
  intros Hps Hv. unfold props_set. destruct (props_lookup ps k).
  - induction ps as [|[k' v'] ps IH]; [reflexivity|].
    cbn [forallb snd] in Hps. apply andb_true_iff in Hps as [H1 H2].
    cbn [props_replace]. destruct (text_eqb k' k); cbn [forallb snd].
    + rewrite Hv, H2. reflexivity.
    + rewrite H1, IH by assumption. reflexivity.
  - destruct (array_index k) as [i|].
    + induction ps as [|[k' v'] ps IH]; [cbn; rewrite Hv; reflexivity|].
      cbn [forallb snd] in Hps. pose proof Hps as Hps'.
      apply andb_true_iff in Hps' as [H1 H2].
      cbn [props_insert_index].
      destruct (array_index k') as [j|]; [destruct (j <? i)|]; cbn [forallb snd];
        rewrite ?Hv, ?H1, ?H2, ?IH by assumption; reflexivity.
    + rewrite forallb_app, Hps. cbn. rewrite Hv. reflexivity.
Qed.

(** The parser builds trees of canonical numbers in the shape above. *)
Lemma parse_shape f :
  (forall s t r, parse_value f s = Some (t, r) -> tree_ok t = true /\ parsed_shape t = true)
  /\ (forall s acc t r, parse_members f s acc = Some (t, r) ->
        forallb (fun kv => tree_ok (snd kv)) acc = true ->
        forallb (fun kv => parsed_shape (snd kv)) acc = true ->
        keys_sorted (map fst acc) = true ->
        tree_ok t = true /\ parsed_shape t = true)
  /\ (forall s acc t r, parse_elements f s acc = Some (t, r) ->
        forallb tree_ok acc = true -> forallb parsed_shape acc = true ->
        tree_ok t = true /\ parsed_shape t = true).
Proof.
  induction f as [|f (IHv & IHm & IHe)]; [repeat split; discriminate|].
  split; [|split].
  - intros s t r H. rewrite parse_value_eq in H.
    destruct (skip_ws s) as [|c r0]; [discriminate|].
    destruct (c =? 123).
    { destruct (expect 125 r0).
      - injection H as <- _. split; reflexivity.
      - eapply IHm; [exact H|reflexivity..]. }
    destruct (c =? 91).
    { destruct (expect 93 r0).
      - injection H as <- _. split; reflexivity.
      - eapply IHe; [exact H|reflexivity..]. }
    destruct (c =? dq).
    { destruct (lex_string r0) as [[x r1]|]; [|discriminate].
      injection H as <- _. split; reflexivity. }
    destruct ((c =? 45) || is_digit c).
    { destruct (lex_number (c :: r0)) as [[n r1]|] eqn:E; [|discriminate].
      injection H as <- _. split; [|reflexivity].
      apply bool_decide_eq_true_2. eapply lex_number_canonical. exact E. }
    destruct (c =? 116).
    { destruct (strip_prefix _ r0); [|discriminate]. injection H as <- _. split; reflexivity. }
    destruct (c =? 102).
    { destruct (strip_prefix _ r0); [|discriminate]. injection H as <- _. split; reflexivity. }
    destruct (c =? 110); [|discriminate].
    destruct (strip_prefix _ r0); [|discriminate]. injection H as <- _. split; reflexivity.
  - intros s acc t r H Hok Hsh Hs. rewrite parse_members_eq in H.
    destruct (expect dq s) as [r0|]; [|discriminate]. cbn [mbind option_bind] in H.
    destruct (lex_string r0) as [[k r1]|]; [|discriminate]. cbn [mbind option_bind] in H.
    destruct (expect 58 r1) as [r2|]; [|discriminate]. cbn [mbind option_bind] in H.
    destruct (parse_value f r2) as [[v r3]|] eqn:Ev; [|discriminate].
    cbn [mbind option_bind] in H.
    destruct (IHv _ _ _ Ev) as [Hvok Hvsh].
    pose proof (props_set_forallb tree_ok acc k v Hok Hvok) as Hok'.
    pose proof (props_set_forallb parsed_shape acc k v Hsh Hvsh) as Hsh'.
    pose proof (props_set_sorted acc k v Hs) as Hs'.
    destruct (skip_ws r3) as [|c r4]; [discriminate|].
    destruct (c =? 44); [eapply IHm; eassumption|].
    destruct (c =? 125); [|discriminate]. injection H as <- _.
    split; [exact Hok'|]. cbn [parsed_shape]. rewrite Hs', Hsh'. reflexivity.
  - intros s acc t r H Hok Hsh. rewrite parse_elements_eq in H.
    destruct (parse_value f s) as [[v r1]|] eqn:Ev; [|discriminate].
    cbn [mbind option_bind] in H.
    destruct (IHv _ _ _ Ev) as [Hvok Hvsh].
    assert (Hok' : forallb tree_ok (acc ++ [v]) = true)
      by (rewrite forallb_app, Hok; cbn; rewrite Hvok; reflexivity).
    assert (Hsh' : forallb parsed_shape (acc ++ [v]) = true)
      by (rewrite forallb_app, Hsh; cbn; rewrite Hvsh; reflexivity).
    destruct (skip_ws r1) as [|c r2]; [discriminate|].
    destruct (c =? 44); [eapply IHe; eassumption|].
    destruct (c =? 93); [|discriminate]. injection H as <- _.
    split; [cbn [tree_ok]; rewrite Hok'; reflexivity|].
    cbn [parsed_shape]. rewrite Hsh'. reflexivity.
Qed.

Lemma parse_text_shape s t :
  parse_text s = Some t -> tree_ok t = true /\ parsed_shape t = true.
Proof.
  unfold parse_text. intros H.
  destruct (parse_value _ s) as [[t' r]|] eqn:E; [|discriminate].
  cbn [mbind option_bind] in H. destruct (skip_ws r); [|discriminate].
  injection H as <-. exact (proj1 (parse_shape _) _ _ _ E).
Qed.

Lemma parsed_shape_defined t : parsed_shape t = true -> is_undefined t = false.
Proof. destruct t; [discriminate|reflexivity..]. Qed.

(** A tree of that shape is read back from its text as it is. *)
Lemma reparse_shape t : parsed_shape t = true -> reparse t = t.
Proof.
  induction t as [ | |b|n|s|es nm IHes _|ps IHps] using jtree_ind'; intros H;
    try reflexivity.
  - cbn [parsed_shape] in H. apply andb_true_iff in H as [Hes Hnm].
    destruct nm; [|discriminate]. cbn [reparse]. f_equal.
    induction es as [|e es IH]; [reflexivity|].
    cbn [forallb] in Hes. apply andb_true_iff in Hes as [He Hes].
    apply Forall_cons in IHes as [IHe IHes].
    cbn [map]. rewrite (parsed_shape_defined e He), (IHe He), (IH IHes Hes). reflexivity.
  - cbn [parsed_shape] in H. apply andb_true_iff in H as [Hs Hps].
    cbn [reparse]. rewrite fold_defined. f_equal.
    assert (Hd : defined_props ps = ps).
    { unfold defined_props. clear Hs IHps. induction ps as [|[k v] ps IH]; [reflexivity|].
      cbn [forallb snd] in Hps. apply andb_true_iff in Hps as [Hv Hps].
      cbn [List.filter snd]. rewrite (parsed_shape_defined v Hv). cbn [negb].
      rewrite (IH Hps). reflexivity. }
    rewrite Hd, (fold_props_set_sorted reparse_elem ps []) by exact Hs.
    cbn [app]. clear Hs Hd. induction ps as [|[k v] ps IH]; [reflexivity|].
    cbn [forallb snd] in Hps. apply andb_true_iff in Hps as [Hv Hps].
    apply Forall_cons in IHps as [IHv IHps]. cbn [snd] in IHv.
    cbn [map fst snd]. unfold reparse_elem at 1.
    rewrite (parsed_shape_defined v Hv), (IHv Hv), (IH IHps Hps). reflexivity.
Qed.

(** [JSON.parse(JSON.stringify(JSON.parse(s), null, space))] is
    [JSON.parse(s)]. *)
Theorem parse_stringify_parse (space : nat) (s : str) (t : jtree) :
  parse_text s = Some t -> parse_text (stringify_tree space t) = Some t.
Proof.
  intros H. destruct (parse_text_shape s t H) as [Hok Hsh].
  rewrite (parse_stringify space t Hok (parsed_shape_defined t Hsh)).
  rewrite (reparse_shape t Hsh). reflexivity.
Qed.

(** ** A successful save stores a JSON text *)

Lemma props_lookup_elem {A} (ps : list (str * A)) k v :
  props_lookup ps k = Some v -> exists k', (k', v) ∈ ps.
Proof.
  induction ps as [|[k' v'] ps IH]; [discriminate|]. cbn [props_lookup].
  destruct (text_eqb k' k).
  - intros [= ->]. exists k'. left.
  - intros H. destruct (IH H) as [k'' Hk]. exists k''. right. exact Hk.
Qed.

Lemma get_own_ok o k : obj_ok o = true -> val_ok (get_own o k) = true.
Proof.
  assert (Hp : forall ps : list (str * val),
             forallb (fun kv => val_ok (snd kv)) ps = true ->
             val_ok (default VUndef (props_lookup ps k)) = true).
  { intros ps Hps. destruct (props_lookup ps k) as [v|] eqn:E; [|reflexivity].
    destruct (props_lookup_elem _ _ _ E) as [k' Hin].
    exact (proj1 (forallb_elem_of _ _) Hps _ Hin). }
  destruct o as [ps|es nm]; cbn [obj_ok get_own]; [apply Hp|].
  intros H. apply andb_true_iff in H as [Hes Hnm].
  destruct (array_index k) as [i|]; [|apply Hp; exact Hnm].
  destruct (es !! N.to_nat i) as [v|] eqn:E; [|reflexivity].
  exact (proj1 (forallb_elem_of _ _) Hes _ (list_elem_of_lookup_2 _ _ _ E)).
Qed.

Lemma array_set_forallb {A} (g : A -> bool) hole es i v :
  forallb g es = true -> g hole = true -> g v = true ->
  forallb g (array_set hole es i v) = true.
Proof.
  intros Hes Hh Hv. apply forallb_elem_of. intros x Hx.
  pose proof (proj1 (forallb_elem_of _ _) Hes) as Hall.
  unfold array_set in Hx. destruct (i <? length es)%nat.
  - apply list_elem_of_lookup in Hx as [j Hj].
    destruct (decide (i = j)) as [->|Hne].
    + apply list_lookup_insert_Some in Hj as [(_ & -> & _)|[? _]]; [exact Hv|congruence].
    + rewrite list_lookup_insert_ne in Hj by exact Hne.
      apply Hall. eapply list_elem_of_lookup_2. exact Hj.
  - apply elem_of_app in Hx as [Hx|Hx]; [auto|].
    apply elem_of_app in Hx as [Hx|Hx].
    + apply list_elem_of_In, repeat_spec in Hx. subst x. exact Hh.
    + apply list_elem_of_singleton in Hx. subst x. exact Hv.
Qed.

Lemma set_own_ok o k v : obj_ok o = true -> val_ok v = true -> obj_ok (set_own o k v) = true.
Proof.
  destruct o as [ps|es nm]; cbn [obj_ok set_own]; intros Ho Hv.
  - apply props_set_forallb; assumption.
  - apply andb_true_iff in Ho as [Hes Hnm]. destruct (array_index k) as [i|]; cbn [obj_ok].
    + rewrite array_set_forallb, Hnm by (assumption || reflexivity). reflexivity.
    + rewrite Hes, props_set_forallb by assumption. reflexivity.
Qed.

Lemma deref_ok h l : heap_ok h = true -> obj_ok (deref h l) = true.
Proof.
  intros H. unfold deref. destruct (h !! l) as [o|] eqn:E; [|reflexivity].
  exact (proj1 (forallb_elem_of _ _) H _ (list_elem_of_lookup_2 _ _ _ E)).
Qed.

Lemma heap_ok_insert h l o : heap_ok h = true -> obj_ok o = true -> heap_ok (<[l := o]> h) = true.
Proof.
  intros H Ho. apply forallb_elem_of. intros x Hx.
  apply list_elem_of_lookup in Hx as [j Hj].
  destruct (decide (l = j)) as [->|Hne].
  - apply list_lookup_insert_Some in Hj as [(_ & -> & _)|[? _]]; [exact Ho|congruence].
  - rewrite list_lookup_insert_ne in Hj by exact Hne.
    exact (proj1 (forallb_elem_of _ _) H _ (list_elem_of_lookup_2 _ _ _ Hj)).
Qed.

Lemma heap_ok_snoc h o : heap_ok h = true -> obj_ok o = true -> heap_ok (h ++ [o]) = true.
Proof. intros H Ho. unfold heap_ok. rewrite forallb_app. fold (heap_ok h). rewrite H. cbn. rewrite Ho. reflexivity. Qed.

Lemma get_ok h target k v : heap_ok h = true -> get h target k = Ok v -> val_ok v = true.
Proof.
  intros H. destruct target as [ | |b|n|s|l]; cbn [get]; try discriminate.
  - intros [= <-]. reflexivity.
  - intros [= <-]. reflexivity.
  - intros [= <-]. destruct (array_index k); [destruct (_ !! _)|]; reflexivity.
  - intros [= <-]. apply get_own_ok, deref_ok, H.
Qed.

Lemma set_ok h target k v h' :
  heap_ok h = true -> val_ok v = true -> set h target k v = Ok h' -> heap_ok h' = true.
Proof.
  intros H Hv. destruct target; cbn [set]; try discriminate. intros [= <-].
  apply heap_ok_insert; [exact H|]. apply set_own_ok; [apply deref_ok; exact H|exact Hv].
Qed.

Lemma descend_ok segs : forall h target t' h',
  heap_ok h = true -> descend h target segs = Ok (t', h') -> heap_ok h' = true.
Proof.
  induction segs as [|s rest IH]; intros h target t' h' H Hd.
  - injection Hd as _ <-. exact H.
  - rewrite descend_cons in Hd.
    destruct (get h target (to_key s)) as [cur|]; [|discriminate]. cbn [mbind res_bind] in Hd.
    destruct (match s with SegNum _ => Array_isArray h cur | SegStr _ => is_object cur end).
    + cbn [mbind res_bind] in Hd.
      destruct (get h target (to_key s)) as [tg|]; [|discriminate]. cbn [mbind res_bind] in Hd.
      eapply IH; eassumption.
    + unfold new_object in Hd.
      destruct (set _ target (to_key s) _) as [h1|] eqn:Es; [|discriminate].
      cbn [mbind res_bind] in Hd.
      destruct (get h1 target (to_key s)) as [tg|]; [|discriminate]. cbn [mbind res_bind] in Hd.
      eapply IH; [|exact Hd].
      refine (set_ok _ _ _ (VRef (length h)) _ _ eq_refl Es).
      apply heap_ok_snoc; [exact H|destruct s; reflexivity].
Qed.

Lemma setValueAtPath_ok obj p value h newObj h' :
  heap_ok h = true -> val_ok value = true ->
  setValueAtPath obj p value h = Ok (newObj, h') ->
  heap_ok h' = true /\ (newObj = value \/ newObj = obj).
Proof.
  intros H Hv. unfold setValueAtPath. destruct p as [[|s0 p]|].
  - intros [= <- <-]. auto.
  - destruct (descend h obj (removelast (s0 :: p))) as [[target h1]|] eqn:Ed; [|discriminate].
    cbn [mbind res_bind].
    destruct (set h1 target _ value) as [h2|] eqn:Es; [|discriminate].
    cbn [mbind res_bind]. intros [= <- <-]. split; [|auto].
    eapply set_ok; [|exact Hv|exact Es]. eapply descend_ok; eassumption.
  - intros [= <- <-]. auto.
Qed.

Lemma merge_keys_ok keys : forall h target parsed h',
  heap_ok h = true -> merge_keys h target parsed keys = Ok h' -> heap_ok h' = true.
Proof.
  induction keys as [|k keys IH]; intros h target parsed h' H Hm.
  - injection Hm as <-. exact H.
  - cbn [merge_keys] in Hm.
    destruct (get h parsed k) as [v|] eqn:Eg; [|discriminate]. cbn [mbind res_bind] in Hm.
    destruct (set h target k v) as [h1|] eqn:Es; [|discriminate]. cbn [mbind res_bind] in Hm.
    eapply IH; [|exact Hm]. eapply set_ok; [exact H| |exact Es]. eapply get_ok; eassumption.
Qed.

Lemma alloc_ok t : forall h v h',
  tree_ok t = true -> heap_ok h = true -> alloc t h = (v, h') ->
  heap_ok h' = true /\ val_ok v = true.
Proof.
  induction t as [ | |b|n|s|es nm IHes IHnm|ps IHps] using jtree_ind';
    intros h v h' Hok H Ha; cbn [alloc] in Ha;
    try (injection Ha as <- <-; split; [exact H|try reflexivity; exact Hok]).
  - cbn [tree_ok] in Hok. apply andb_true_iff in Hok as [Hes Hnm].
    assert (Hl : forall ts h vs h1, Forall (fun t => forall h v h',
                      tree_ok t = true -> heap_ok h = true -> alloc t h = (v, h') ->
                      heap_ok h' = true /\ val_ok v = true) ts ->
                   forallb tree_ok ts = true -> heap_ok h = true ->
                   alloc_list alloc ts h = (vs, h1) ->
                   heap_ok h1 = true /\ forallb val_ok vs = true).
    { clear. induction ts as [|t ts IH]; intros h vs h1 Hall Hok H Ha; cbn [alloc_list] in Ha.
      - injection Ha as <- <-. auto.
      - apply Forall_cons in Hall as [Ht Hall].
        cbn [forallb] in Hok. apply andb_true_iff in Hok as [Hokt Hok].
        destruct (alloc t h) as [v h0] eqn:E0.
        destruct (alloc_list alloc ts h0) as [vs' h2] eqn:E1. injection Ha as <- <-.
        destruct (Ht _ _ _ Hokt H E0) as [H0 Hv].
        destruct (IH _ _ _ Hall Hok H0 E1) as [H2 Hvs].
        split; [exact H2|]. cbn [forallb]. rewrite Hv, Hvs. reflexivity. }
    assert (Hp : forall ps h pv h1, Forall (fun kv : str * jtree => forall h v h',
                      tree_ok (snd kv) = true -> heap_ok h = true -> alloc (snd kv) h = (v, h') ->
                      heap_ok h' = true /\ val_ok v = true) ps ->
                   forallb (fun kv => tree_ok (snd kv)) ps = true -> heap_ok h = true ->
                   alloc_props alloc ps h = (pv, h1) ->
                   heap_ok h1 = true /\ forallb (fun kv => val_ok (snd kv)) pv = true).
    { clear. induction ps as [|[k t] ps IH]; intros h pv h1 Hall Hok H Ha;
        cbn [alloc_props] in Ha.
      - injection Ha as <- <-. auto.
      - apply Forall_cons in Hall as [Ht Hall]. cbn [snd] in Ht.
        cbn [forallb snd] in Hok. apply andb_true_iff in Hok as [Hokt Hok].
        destruct (alloc t h) as [v h0] eqn:E0.
        destruct (alloc_props alloc ps h0) as [vs' h2] eqn:E1. injection Ha as <- <-.
        destruct (Ht _ _ _ Hokt H E0) as [H0 Hv].
        destruct (IH _ _ _ Hall Hok H0 E1) as [H2 Hvs].
        split; [exact H2|]. cbn [forallb snd]. rewrite Hv, Hvs. reflexivity. }
    destruct (alloc_list alloc es h) as [vs h1] eqn:E1.
    destruct (alloc_props alloc nm h1) as [nv h2] eqn:E2.
    unfold new_object in Ha. injection Ha as <- <-.
    destruct (Hl _ _ _ _ IHes Hes H E1) as [H1 Hvs].
    destruct (Hp _ _ _ _ IHnm Hnm H1 E2) as [H2 Hnv].
    split; [|reflexivity]. apply heap_ok_snoc; [exact H2|].
    cbn [obj_ok]. rewrite Hvs, Hnv. reflexivity.
  - cbn [tree_ok] in Hok.
    assert (Hp : forall ps h pv h1, Forall (fun kv : str * jtree => forall h v h',
                      tree_ok (snd kv) = true -> heap_ok h = true -> alloc (snd kv) h = (v, h') ->
                      heap_ok h' = true /\ val_ok v = true) ps ->
                   forallb (fun kv => tree_ok (snd kv)) ps = true -> heap_ok h = true ->
                   alloc_props alloc ps h = (pv, h1) ->
                   heap_ok h1 = true /\ forallb (fun kv => val_ok (snd kv)) pv = true).
    { clear. induction ps as [|[k t] ps IH]; intros h pv h1 Hall Hok H Ha;
        cbn [alloc_props] in Ha.
      - injection Ha as <- <-. auto.
      - apply Forall_cons in Hall as [Ht Hall]. cbn [snd] in Ht.
        cbn [forallb snd] in Hok. apply andb_true_iff in Hok as [Hokt Hok].
        destruct (alloc t h) as [v h0] eqn:E0.
        destruct (alloc_props alloc ps h0) as [vs' h2] eqn:E1. injection Ha as <- <-.
        destruct (Ht _ _ _ Hokt H E0) as [H0 Hv].
        destruct (IH _ _ _ Hall Hok H0 E1) as [H2 Hvs].
        split; [exact H2|]. cbn [forallb snd]. rewrite Hv, Hvs. reflexivity. }
    destruct (alloc_props alloc ps h) as [pv h1] eqn:E1.
    unfold new_object in Ha. injection Ha as <- <-.
    destruct (Hp _ _ _ _ IHps Hok H E1) as [H1 Hpv].
    split; [|reflexivity]. apply heap_ok_snoc; [exact H1|exact Hpv].
Qed.

Lemma alloc_defined t h : is_undefined t = false -> (alloc t h).1 <> VUndef.
Proof.
  destruct t; try discriminate; intros _; cbn [alloc]; try discriminate.
  - destruct (alloc_list alloc elems h) as [vs h1].
    destruct (alloc_props alloc named h1) as [nv h2]. discriminate.
  - destruct (alloc_props alloc props h) as [pv h1]. discriminate.
Qed.

Lemma mapM_res_ok {A B} (f : A -> res B) (P : B -> bool) l : forall ys,
  (forall x y, x ∈ l -> f x = Ok y -> P y = true) ->
  mapM f l = Ok ys -> forallb P ys = true.
Proof.
  induction l as [|x l IH]; intros ys Hf H.
  - injection H as <-. reflexivity.
  - rewrite mapM_res_cons in H.
    destruct (f x) as [y|] eqn:Ex; [|discriminate]. cbn [mbind res_bind] in H.
    destruct (mapM f l) as [k|] eqn:El; [|discriminate]. cbn [mbind res_bind] in H.
    injection H as <-. cbn [forallb].
    rewrite (Hf x y ltac:(left) Ex), (IH k); [reflexivity| |reflexivity].
    intros x' y' Hx'. apply Hf. right. exact Hx'.
Qed.

Lemma snapshot_ok h : heap_ok h = true -> forall f stack v t,
  val_ok v = true -> snapshot f stack h v = Ok t -> tree_ok t = true.
Proof.
  intros H. induction f as [|f IH]; intros stack v t Hv Hs.
  - destruct v; cbn [snapshot] in Hs; try (injection Hs as <-; try reflexivity; exact Hv).
    discriminate.
  - destruct v as [ | |b|n|s|l]; cbn [snapshot] in Hs;
      try (injection Hs as <-; try reflexivity; exact Hv).
    destruct (bool_decide (l ∈ stack)); [discriminate|].
    pose proof (deref_ok h l H) as Ho.
    destruct (deref h l) as [ps|es nm]; cbn [obj_ok] in Ho.
    + destruct (mapM _ ps) as [ts|] eqn:Em; [|discriminate]. cbn [mbind res_bind] in Hs.
      injection Hs as <-. cbn [tree_ok].
      eapply (mapM_res_ok _ (fun kv : str * jtree => tree_ok (snd kv))); [|exact Em].
      intros [k v] [k' t'] Hin Hx. cbn [fst snd] in Hx.
      destruct (snapshot f (l :: stack) h v) as [t0|] eqn:E0; [|discriminate].
      cbn [mbind res_bind] in Hx. injection Hx as _ <-. cbn [snd].
      eapply IH; [|exact E0]. exact (proj1 (forallb_elem_of _ _) Ho _ Hin).
    + apply andb_true_iff in Ho as [Hes _].
      destruct (mapM _ es) as [ts|] eqn:Em; [|discriminate]. cbn [mbind res_bind] in Hs.
      injection Hs as <-. cbn [tree_ok]. rewrite andb_true_r.
      eapply (mapM_res_ok _ tree_ok); [|exact Em].
      intros v t' Hin Hx. eapply IH; [|exact Hx].
      exact (proj1 (forallb_elem_of _ _) Hes _ Hin).
Qed.

Lemma snapshot_defined h f stack v t :
  v <> VUndef -> snapshot f stack h v = Ok t -> is_undefined t = false.
Proof.
  intros Hv Hs. destruct f as [|f]; destruct v as [ | |b|n|s|l]; try congruence;
    cbn [snapshot] in Hs; try discriminate; try (injection Hs as <-; reflexivity).
  destruct (bool_decide (l ∈ stack)); [discriminate|].
  destruct (deref h l).
  - destruct (mapM _ props); [|discriminate]. injection Hs as <-. reflexivity.
  - destruct (mapM _ elems); [|discriminate]. injection Hs as <-. reflexivity.
Qed.

Lemma JSON_stringify_valid space h v doc :
  heap_ok h = true -> val_ok v = true -> v <> VUndef ->
  JSON_stringify space h v = Ok doc -> exists t, parse_text doc = Some t.
Proof.
  intros H Hv Hd. unfold JSON_stringify.
  destruct (snapshot _ [] h v) as [t|] eqn:Es; [|discriminate]. cbn [mbind res_bind].
  intros [= <-]. exists (reparse t). apply parse_stringify.
  - eapply snapshot_ok; eassumption.
  - eapply snapshot_defined; eassumption.
Qed.

Lemma JSON_parse_alloc_ok s h v h' :
  heap_ok h = true -> JSON_parse s h = Ok (v, h') ->
  heap_ok h' = true /\ val_ok v = true /\ v <> VUndef.
Proof.
  intros H. unfold JSON_parse. destruct (parse_text s) as [t|] eqn:E; [|discriminate].
  intros [= Ha]. destruct (parse_text_shape _ _ E) as [Hok Hsh].
  destruct (alloc_ok t h v h' Hok H Ha) as [H' Hv].
  split; [exact H'|]. split; [exact Hv|].
  pose proof (alloc_defined t h (parsed_shape_defined t Hsh)) as Hd.
  rewrite Ha in Hd. exact Hd.
Qed.

Lemma stringify_after_set obj p value h doc :
  heap_ok h = true -> val_ok obj = true -> obj <> VUndef ->
  val_ok value = true -> value <> VUndef ->
  ('(newObj, h2) ← setValueAtPath obj p value h; JSON_stringify 2 h2 newObj) = Ok doc ->
  exists t, parse_text doc = Some t.
Proof.
  intros H Ho Hod Hv Hvd Hs.
  destruct (setValueAtPath obj p value h) as [[newObj h2]|] eqn:E; [|discriminate].
  cbn [mbind res_bind] in Hs.
  destruct (setValueAtPath_ok _ _ _ _ _ _ H Hv E) as [H2 [->| ->]].
  - exact (JSON_stringify_valid 2 h2 value doc H2 Hv Hvd Hs).
  - exact (JSON_stringify_valid 2 h2 obj doc H2 Ho Hod Hs).
Qed.

Lemma save_document_valid (st : State) (doc : str) :
  save_document st = Ok doc -> exists t, parse_text doc = Some t.
Proof.
  unfold save_document. intros H.
  destruct (JSON_parse (draft st) []) as [[parsed h0]|] eqn:Ep; [|discriminate].
  cbn [mbind res_bind] in H.
  destruct (JSON_parse_alloc_ok (draft st) [] parsed h0 eq_refl Ep) as (H0 & Hp & Hpd).
  assert (Horig : exists originalObj h1,
             match JSON_parse (json st) h0 with Ok r => r | Throw _ => (parsed, h0) end
             = (originalObj, h1)
             /\ heap_ok h1 = true /\ val_ok originalObj = true /\ originalObj <> VUndef
             /\ val_ok parsed = true /\ parsed <> VUndef).
  { destruct (JSON_parse (json st) h0) as [[o h1]|] eqn:Eo.
    - destruct (JSON_parse_alloc_ok _ _ _ _ H0 Eo) as (H1 & Ho & Hod).
      exists o, h1. auto 10.
    - exists parsed, h0. auto 10. }
  destruct Horig as (originalObj & h1 & Eo & H1 & Ho & Hod & Horig').
  rewrite Eo in H.
  destruct Horig' as (Hp' & Hpd').
  destruct (selectedNode st) as [nodeData|];
    [|exact (JSON_stringify_valid 2 h1 parsed doc H1 Hp' Hpd' H)].
  destruct (is_leaf nodeData);
    [exact (stringify_after_set originalObj _ parsed h1 doc H1 Ho Hod Hp' Hpd' H)|].
  destruct (path nodeData) as [p|];
    [|exact (JSON_stringify_valid 2 h1 parsed doc H1 Hp' Hpd' H)].
  destruct (lookup_path h1 originalObj p) as [ | |b|n|s|lt] eqn:El; cbn [is_object] in H;
    try exact (stringify_after_set originalObj _ parsed h1 doc H1 Ho Hod Hp' Hpd' H).
  destruct (Object_keys h1 parsed) as [keys|]; [|discriminate]. cbn [mbind res_bind] in H.
  destruct (merge_keys h1 (VRef lt) parsed keys) as [h2|] eqn:Em; [|discriminate].
  cbn [mbind res_bind] in H.
  eapply (stringify_after_set originalObj (Some p) (VRef lt) h2);
    [eapply merge_keys_ok; eassumption|exact Ho|exact Hod|reflexivity|discriminate|exact H].
Qed.

(** X1. Whatever a save that reports no error stores is a JSON text:
    [JSON.parse] accepts it. *)
Theorem saved_text_is_json (setGraph : str -> list NodeData) (st : State) :
  error (handleSave setGraph st) = None ->
  exists t, parse_text (json (handleSave setGraph st)) = Some t.
Proof.
  unfold handleSave. destruct (save_document st) as [doc|e] eqn:E; [|discriminate].
  intros _. exact (save_document_valid st doc E).
Qed.

Lemma saved_text_is_json_witness :
  exists t, parse_text (json (handleSave (fun _ => [])
                                (example_state "[1,{'a':null}]" "{'b':[]}" [leaf_row]
                                   (Some [SegNum 3; SegStr (lit "x")])))) = Some t.
Proof. apply saved_text_is_json. vm_compute. reflexivity. Defined.

(** ** Reading and writing trees by key and by path *)

Lemma tree_set_same t k : is_undefined (tree_get t k) = false -> tree_set t k (tree_get t k) = t.
Proof.
  destruct t as [ | |b|n|s|es nm|ps]; try reflexivity; cbn [tree_get tree_set].
  - destruct (array_index k) as [i|].
    + destruct (es !! N.to_nat i) as [v|] eqn:E; [|discriminate]. intros _. cbn [default].
      unfold array_set. rewrite (proj2 (Nat.ltb_lt _ _)) by (eapply lookup_lt_Some; exact E).
      rewrite list_insert_id by exact E. reflexivity.
    + destruct (props_lookup nm k) as [v|] eqn:E; [|discriminate]. intros _. cbn [default].
      unfold props_set. rewrite E, props_replace_same by exact E. reflexivity.
  - destruct (props_lookup ps k) as [v|] eqn:E; [|discriminate]. intros _. cbn [default].
    unfold props_set. rewrite E, props_replace_same by exact E. reflexivity.
Qed.

Lemma tree_set_defined t k v : is_undefined (tree_set t k v) = is_undefined t.
Proof. destruct t; try reflexivity. cbn [tree_set]. destruct (array_index k); reflexivity. Qed.

Lemma tree_lookup_cons_defined t s rest :
  is_undefined (tree_lookup t (s :: rest)) = false ->
  is_undefined (tree_get t (to_key s)) = false
  /\ tree_lookup t (s :: rest) = tree_lookup (tree_get t (to_key s)) rest.
Proof.
  cbn [tree_lookup]. destruct (tree_get t (to_key s)); [discriminate|auto..].
Qed.

(** Putting back what is there changes nothing. *)
Lemma tree_put_same p : forall t,
  is_undefined (tree_lookup t p) = false -> tree_put t p (tree_lookup t p) = t.
Proof.
  induction p as [|s rest IH]; intros t H; [reflexivity|].
  destruct (tree_lookup_cons_defined t s rest H) as [Hc E].
  cbn [tree_put]. rewrite E, IH by (rewrite <- E; exact H).
  apply tree_set_same. exact Hc.
Qed.

(** Where the walk keeps what it finds, [setValueAtPath] is the plain
    replacement of the subtree at the path. *)
Lemma tree_set_path_keeps p : forall t v,
  walk_keeps t p = true -> tree_set_path t p v = tree_put t p v.
Proof.
  induction p as [|s rest IH]; intros t v H; [reflexivity|].
  destruct rest as [|s' rest]; [reflexivity|].
  cbn [walk_keeps] in H. apply andb_true_iff in H as [Hk Hw].
  change (tree_set_path t (s :: s' :: rest) v)
    with (tree_set t (to_key s)
            (tree_set_path (if kept s (tree_get t (to_key s)) then tree_get t (to_key s)
                            else fresh_container s) (s' :: rest) v)).
  rewrite Hk, IH by exact Hw. reflexivity.
Qed.

Lemma tree_put_container t p x :
  p <> [] -> is_container t = true -> is_container (tree_put t p x) = true.
Proof. intros Hp Hc. exact (proj2 (tree_put_kind t p x Hp Hc)). Qed.

Lemma is_container_defined t : is_container t = true -> is_undefined t = false.
Proof. destruct t; try discriminate; reflexivity. Qed.

(** What was put at a path is found there. *)
Lemma tree_lookup_put p : forall t x,
  is_container t = true \/ p = [] -> walk_keeps t p = true ->
  tree_lookup (tree_put t p x) p = x.
Proof.
  induction p as [|s rest IH]; intros t x Hc Hw; [reflexivity|].
  destruct Hc as [Hc|]; [|discriminate].
  cbn [tree_put tree_lookup]. rewrite tree_get_set by exact Hc.
  destruct rest as [|s' rest].
  - cbn [tree_put tree_lookup]. destruct x; reflexivity.
  - cbn [walk_keeps] in Hw. apply andb_true_iff in Hw as [Hk Hw].
    pose proof (kept_container _ _ Hk) as Hcc.
    rewrite <- (IH (tree_get t (to_key s)) x (or_introl Hcc) Hw) at 2.
    pose proof (tree_put_container (tree_get t (to_key s)) (s' :: rest) x
                  ltac:(discriminate) Hcc) as Hd.
    destruct (tree_put (tree_get t (to_key s)) (s' :: rest) x); try discriminate; reflexivity.
Qed.

Lemma array_set_lookup_ne {A} (hole : A) es i j v :
  i <> j -> default hole (array_set hole es i v !! j) = default hole (es !! j).
Proof.
  intros Hne. unfold array_set. destruct (Nat.ltb_spec i (length es)) as [Hi|Hi].
  - rewrite list_lookup_insert_ne by exact Hne. reflexivity.
  - destruct (Nat.lt_ge_cases j (length es)) as [Hj|Hj].
    + rewrite lookup_app_l by exact Hj. reflexivity.
    + rewrite lookup_app_r by exact Hj.
      rewrite (lookup_ge_None_2 es j) by exact Hj. cbn [default].
      destruct (Nat.lt_ge_cases (j - length es) (i - length es)) as [Hlt|Hge].
      * rewrite lookup_app_l by (rewrite repeat_length; exact Hlt).
        destruct (repeat hole (i - length es)%nat !! (j - length es)%nat) as [x|] eqn:E;
          [|reflexivity].
        apply list_elem_of_lookup_2, list_elem_of_In, repeat_spec in E. subst x. reflexivity.
      * rewrite lookup_app_r by (rewrite repeat_length; exact Hge).
        rewrite repeat_length.
        destruct (j - length es - (i - length es))%nat as [|n] eqn:En; [lia|]. reflexivity.
Qed.

(** A write under one key leaves every other key as it was. *)
Lemma tree_get_set_ne t k k' v : k' <> k -> tree_get (tree_set t k' v) k = tree_get t k.
Proof.
  intros Hne. destruct t as [ | |b|n|s|es nm|ps]; try reflexivity; cbn [tree_set].
  - destruct (array_index k') as [i'|] eqn:E'; cbn [tree_get].
    + destruct (array_index k) as [i|] eqn:E; [|reflexivity].
      apply array_set_lookup_ne. intros Hi. apply Hne.
      assert (i' = i) by lia. subst i'. exact (array_index_inj _ _ _ E' E).
    + destruct (array_index k); [reflexivity|].
      rewrite props_lookup_set_ne by exact Hne. reflexivity.
  - cbn [tree_get]. rewrite props_lookup_set_ne by exact Hne. reflexivity.
Qed.

(** A replacement at one path is not seen from a path that parts ways
    with it. *)
Lemma tree_lookup_put_frame p q t x :
  diverges p q -> tree_lookup (tree_put t p x) q = tree_lookup t q.
Proof.
  intros (r & s & s' & p' & q' & -> & -> & Hne). revert t.
  induction r as [|s0 r IH]; intros t.
  - cbn [app tree_put tree_lookup]. rewrite tree_get_set_ne by exact Hne. reflexivity.
  - cbn [app tree_put tree_lookup].
    destruct (is_container t) eqn:Hc.
    + rewrite tree_get_set by exact Hc.
      set (c := tree_get t (to_key s0)).
      specialize (IH c).
      assert (Hd : is_undefined (tree_put c (r ++ s :: p') x) = is_undefined c).
      { destruct (r ++ s :: p') as [|a l] eqn:E; [destruct r; discriminate|].
        cbn [tree_put]. apply tree_set_defined. }
      destruct c eqn:Ec; cbn [is_undefined] in Hd.
      * destruct (tree_put JUndefined (r ++ s :: p') x); [reflexivity|discriminate..].
      * destruct (tree_put JNull (r ++ s :: p') x); [discriminate|exact IH..].
      * destruct (tree_put (JBool b) (r ++ s :: p') x); [discriminate|exact IH..].
      * destruct (tree_put (JNum n) (r ++ s :: p') x); [discriminate|exact IH..].
      * destruct (tree_put (JStr s1) (r ++ s :: p') x); [discriminate|exact IH..].
      * destruct (tree_put (JArr elems named) (r ++ s :: p') x); [discriminate|exact IH..].
      * destruct (tree_put (JObj props) (r ++ s :: p') x); [discriminate|exact IH..].
    + assert (E : forall y, tree_set t (to_key s0) y = t)
        by (intros y; destruct t; try reflexivity; discriminate).
      rewrite E. reflexivity.
Qed.

(** ** Numbers stay canonical, shapes stay shapes *)

Lemma tree_get_ok t k : tree_ok t = true -> tree_ok (tree_get t k) = true.
Proof.
  assert (Hp : forall ps : list (str * jtree),
             forallb (fun kv => tree_ok (snd kv)) ps = true ->
             tree_ok (default JUndefined (props_lookup ps k)) = true).
  { intros ps Hps. destruct (props_lookup ps k) as [v|] eqn:E; [|reflexivity].
    destruct (props_lookup_elem _ _ _ E) as [k' Hin].
    exact (proj1 (forallb_elem_of _ _) Hps _ Hin). }
  intros H. destruct t as [ | |b|n|s|es nm|ps]; try reflexivity; cbn [tree_ok tree_get] in *.
  - destruct (array_index k); [destruct (_ !! _)|]; reflexivity.
  - apply andb_true_iff in H as [Hes Hnm].
    destruct (array_index k) as [i|]; [|apply Hp; exact Hnm].
    destruct (es !! N.to_nat i) as [v|] eqn:E; [|reflexivity].
    exact (proj1 (forallb_elem_of _ _) Hes _ (list_elem_of_lookup_2 _ _ _ E)).
  - apply Hp. exact H.
Qed.

Lemma tree_set_ok t k v : tree_ok t = true -> tree_ok v = true -> tree_ok (tree_set t k v) = true.
Proof.
  destruct t as [ | |b|n|s|es nm|ps]; try (intros; assumption); cbn [tree_ok tree_set];
    intros Ht Hv.
  - apply andb_true_iff in Ht as [Hes Hnm]. destruct (array_index k) as [i|]; cbn [tree_ok].
    + rewrite array_set_forallb, Hnm by (assumption || reflexivity). reflexivity.
    + rewrite Hes, props_set_forallb by assumption. reflexivity.
  - apply props_set_forallb; assumption.
Qed.

Lemma tree_put_ok p : forall t x,
  tree_ok t = true -> tree_ok x = true -> tree_ok (tree_put t p x) = true.
Proof.
  induction p as [|s rest IH]; intros t x Ht Hx; [exact Hx|].
  cbn [tree_put]. apply tree_set_ok; [exact Ht|]. apply IH; [|exact Hx].
  apply tree_get_ok. exact Ht.
Qed.

Lemma tree_set_path_ok p : forall t x,
  tree_ok t = true -> tree_ok x = true -> tree_ok (tree_set_path t p x) = true.
Proof.
  induction p as [|s rest IH]; intros t x Ht Hx; [exact Hx|].
  destruct rest as [|s' rest]; [apply tree_set_ok; assumption|].
  change (tree_set_path t (s :: s' :: rest) x)
    with (tree_set t (to_key s)
            (tree_set_path (if kept s (tree_get t (to_key s)) then tree_get t (to_key s)
                            else fresh_container s) (s' :: rest) x)).
  apply tree_set_ok; [exact Ht|]. apply IH; [|exact Hx].
  destruct (kept s (tree_get t (to_key s))); [apply tree_get_ok; exact Ht|destruct s; reflexivity].
Qed.

Lemma props_replace_forallb {A} (g : A -> bool) (ps : list (str * A)) k v :
  forallb (fun kv => g (snd kv)) ps = true -> g v = true ->
  forallb (fun kv => g (snd kv)) (props_replace ps k v) = true.
Proof.
  intros Hps Hv. induction ps as [|[k' v'] ps IH]; [reflexivity|].
  cbn [forallb snd] in Hps. apply andb_true_iff in Hps as [H1 H2].
  cbn [props_replace]. destruct (text_eqb k' k); cbn [forallb snd].
  - rewrite Hv, H2. reflexivity.
  - rewrite H1, IH by assumption. reflexivity.
Qed.

(** Replacing a value that is there keeps the shape. *)
Lemma tree_set_shape t k v :
  parsed_shape t = true -> parsed_shape v = true ->
  is_undefined (tree_get t k) = false ->
  parsed_shape (tree_set t k v) = true.
Proof.
  destruct t as [ | |b|n|s|es nm|ps]; try (intros; assumption);
    cbn [parsed_shape tree_set tree_get]; intros Ht Hv Hd.
  - apply andb_true_iff in Ht as [Hes Hnm]. destruct nm; [|discriminate].
    destruct (array_index k) as [i|]; [|discriminate].
    destruct (es !! N.to_nat i) as [c|] eqn:E; [|discriminate].
    cbn [parsed_shape]. rewrite andb_true_r.
    unfold array_set. rewrite (proj2 (Nat.ltb_lt _ _)) by (eapply lookup_lt_Some; exact E).
    apply forallb_elem_of. intros x Hx.
    apply list_elem_of_lookup in Hx as [j Hj].
    destruct (decide (N.to_nat i = j)) as [<-|Hne].
    + apply list_lookup_insert_Some in Hj as [(_ & -> & _)|[? _]]; [exact Hv|congruence].
    + rewrite list_lookup_insert_ne in Hj by exact Hne.
      exact (proj1 (forallb_elem_of _ _) Hes _ (list_elem_of_lookup_2 _ _ _ Hj)).
  - apply andb_true_iff in Ht as [Hs Hps].
    rewrite props_set_sorted by exact Hs. cbn [andb].
    apply props_set_forallb; assumption.
Qed.

Lemma tree_get_shape t k :
  parsed_shape t = true -> is_undefined (tree_get t k) = false ->
  parsed_shape (tree_get t k) = true.
Proof.
  assert (Hp : forall ps : list (str * jtree),
             forallb (fun kv => parsed_shape (snd kv)) ps = true ->
             is_undefined (default JUndefined (props_lookup ps k)) = false ->
             parsed_shape (default JUndefined (props_lookup ps k)) = true).
  { intros ps Hps. destruct (props_lookup ps k) as [v|] eqn:E; [|discriminate].
    destruct (props_lookup_elem _ _ _ E) as [k' Hin]. intros _.
    exact (proj1 (forallb_elem_of _ _) Hps _ Hin). }
  intros H Hd. destruct t as [ | |b|n|s|es nm|ps]; try discriminate;
    cbn [parsed_shape tree_get] in *.
  - destruct (array_index k); [destruct (_ !! _)|]; try discriminate; reflexivity.
  - apply andb_true_iff in H as [Hes Hnm]. destruct nm; [|discriminate].
    destruct (array_index k) as [i|]; [|discriminate].
    destruct (es !! N.to_nat i) as [v|] eqn:E; [|discriminate].
    exact (proj1 (forallb_elem_of _ _) Hes _ (list_elem_of_lookup_2 _ _ _ E)).
  - apply andb_true_iff in H as [_ Hps]. apply Hp; assumption.
Qed.

Lemma tree_put_shape p : forall t x,
  parsed_shape t = true -> parsed_shape x = true ->
  is_undefined (tree_lookup t p) = false ->
  parsed_shape (tree_put t p x) = true.
Proof.
  induction p as [|s rest IH]; intros t x Ht Hx Hd; [exact Hx|].
  destruct (tree_lookup_cons_defined t s rest Hd) as [Hc E].
  cbn [tree_put]. apply tree_set_shape; [exact Ht| |exact Hc].
  apply IH; [apply tree_get_shape; assumption|exact Hx|rewrite <- E; exact Hd].
Qed.

(** ** What a save stores, read back *)

Lemma handleSave_ok (setGraph : str -> list NodeData) (st : State) (doc : str) :
  save_document st = Ok doc ->
  json (handleSave setGraph st) = doc /\ error (handleSave setGraph st) = None
  /\ editing (handleSave setGraph st) = false.
Proof. intros H. unfold handleSave. rewrite H. auto. Qed.

Lemma tree_lookup_prim p : forall t,
  is_container t = false -> is_container (tree_lookup t p) = false.
Proof.
  induction p as [|s rest IH]; intros t Ht; [exact Ht|].
  cbn [tree_lookup].
  assert (Hc : is_container (tree_get t (to_key s)) = false).
  { destruct t; try reflexivity; [|discriminate..]. cbn [tree_get].
    destruct (array_index (to_key s)); [destruct (_ !! _)|]; reflexivity. }
  destruct (tree_get t (to_key s)) eqn:E; try reflexivity; try (apply IH; reflexivity);
    discriminate.
Qed.

(** A leaf edit on a path whose walk keeps what it finds, of a value that
    is in the document: what is stored, and what it reads back as. *)
Lemma save_document_leaf_put (st : State) (node : NodeData) (p : list seg) (t e : jtree) :
  selectedNode st = Some node -> is_leaf node = true -> default [] (path node) = p ->
  parse_text (json st) = Some t -> parse_text (draft st) = Some e ->
  is_container t = true -> walk_keeps t p = true ->
  is_undefined (tree_lookup t p) = false ->
  save_document st = Ok (stringify_tree 2 (tree_put t p e))
  /\ parse_text (stringify_tree 2 (tree_put t p e)) = Some (tree_put t p e).
Proof.
  intros Hn Hleaf Hp Ht He Hc Hw Hd.
  pose proof (save_document_leaf_tree st node t e Hn Hleaf Ht He Hc) as Hs.
  rewrite Hp, (tree_set_path_keeps p t e Hw) in Hs. split; [exact Hs|].
  destruct (parse_text_shape _ _ Ht) as [Htok Htsh].
  destruct (parse_text_shape _ _ He) as [Heok Hesh].
  pose proof (tree_put_shape p t e Htsh Hesh Hd) as Hsh.
  rewrite parse_stringify, (reparse_shape _ Hsh);
    [reflexivity|apply tree_put_ok; assumption|apply parsed_shape_defined; exact Hsh].
Qed.

(** X2. A leaf edit of a value that is in the document, the document
    being an object or an array, on a path whose walk keeps what it
    finds, document and draft within the bounds of the model, replaces
    that value and nothing else: the stored text reads back as the old
    document with the edited value at the path. *)
Theorem leaf_save_replaces (setGraph : str -> list NodeData) (st : State) (node : NodeData)
    (p : list seg) (t e : jtree) :
  selectedNode st = Some node -> is_leaf node = true -> default [] (path node) = p ->
  parse_text (json st) = Some t -> parse_text (draft st) = Some e ->
  is_container t = true -> walk_keeps t p = true ->
  is_undefined (tree_lookup t p) = false ->
  plain_tree t = true -> plain_tree e = true ->
  parse_text (json (handleSave setGraph st)) = Some (tree_put t p e)
  /\ tree_lookup (tree_put t p e) p = e
  /\ (forall q, diverges p q -> tree_lookup (tree_put t p e) q = tree_lookup t q)
  /\ error (handleSave setGraph st) = None.
Proof.
  intros Hn Hleaf Hp Ht He Hc Hw Hd _ _.
  destruct (save_document_leaf_put st node p t e Hn Hleaf Hp Ht He Hc Hw Hd) as [Hs Hparse].
  destruct (handleSave_ok setGraph st _ Hs) as (-> & -> & _).
  split; [exact Hparse|]. split; [|split].
  - apply tree_lookup_put; [left; exact Hc|exact Hw].
  - intros q Hq. apply tree_lookup_put_frame. exact Hq.
  - reflexivity.
Qed.

Lemma leaf_save_replaces_witness :
  parse_text (json (handleSave (fun _ => [])
                      (example_state "{'a':{'b':1},'c':[true]}" "2" [leaf_row]
                         (Some [SegStr (lit "a"); SegStr (lit "b")]))))
  = Some (tree_put (JObj [(lit "a", JObj [(lit "b", JNum (Num 1 0))]);
                          (lit "c", JArr [JBool true] [])])
            [SegStr (lit "a"); SegStr (lit "b")] (JNum (Num 2 0))).
Proof.
  refine (proj1 (leaf_save_replaces (fun _ => [])
                   (example_state "{'a':{'b':1},'c':[true]}" "2" [leaf_row]
                      (Some [SegStr (lit "a"); SegStr (lit "b")]))
                   {| id := lit "n"; text := [leaf_row];
                      path := Some [SegStr (lit "a"); SegStr (lit "b")] |}
                   [SegStr (lit "a"); SegStr (lit "b")]
                   (JObj [(lit "a", JObj [(lit "b", JNum (Num 1 0))]);
                          (lit "c", JArr [JBool true] [])])
                   (JNum (Num 2 0)) _ _ _ _ _ _ _ _ _ _));
    vm_compute; reflexivity.
Defined.

Lemma merge_tree_obj ps eps :
  merge_tree (JObj ps) eps
  = JObj (fold_left (fun acc kv => props_set acc (fst kv) (snd kv)) eps ps).
Proof.
  revert ps. induction eps as [|[k x] eps IH]; intros ps; [reflexivity|].
  change (merge_tree (JObj ps) ((k, x) :: eps)) with (merge_tree (JObj (props_set ps k x)) eps).
  rewrite IH. reflexivity.
Qed.

Lemma merge_tree_obj_shape eps : forall ps,
  parsed_shape (JObj ps) = true -> parsed_shape (JObj eps) = true ->
  parsed_shape (merge_tree (JObj ps) eps) = true.
Proof.
  induction eps as [|[k x] eps IH]; intros ps Hps Heps; [exact Hps|].
  change (merge_tree (JObj ps) ((k, x) :: eps)) with (merge_tree (JObj (props_set ps k x)) eps).
  cbn [parsed_shape map fst keys_sorted forallb snd] in Heps.
  apply andb_true_iff in Heps as [Hs Hv]. apply andb_true_iff in Hs as [_ Hs].
  apply andb_true_iff in Hv as [Hx Hv].
  cbn [parsed_shape] in Hps. apply andb_true_iff in Hps as [Hps1 Hps2].
  apply IH.
  - cbn [parsed_shape]. rewrite props_set_sorted, props_set_forallb by assumption. reflexivity.
  - cbn [parsed_shape]. rewrite Hs, Hv. reflexivity.
Qed.

Lemma merge_tree_ok eps : forall t,
  tree_ok t = true -> forallb (fun kv => tree_ok (snd kv)) eps = true ->
  tree_ok (merge_tree t eps) = true.
Proof.
  induction eps as [|[k x] eps IH]; intros t Ht Heps; [exact Ht|].
  cbn [forallb snd] in Heps. apply andb_true_iff in Heps as [Hx Heps].
  change (merge_tree t ((k, x) :: eps)) with (merge_tree (tree_set t k x) eps).
  apply IH; [apply tree_set_ok; assumption|exact Heps].
Qed.

Lemma tree_lookup_ok p : forall t, tree_ok t = true -> tree_ok (tree_lookup t p) = true.
Proof.
  induction p as [|s rest IH]; intros t Ht; [exact Ht|]. cbn [tree_lookup].
  pose proof (tree_get_ok t (to_key s) Ht) as Hc.
  destruct (tree_get t (to_key s)) eqn:E; try reflexivity; apply IH; exact Hc.
Qed.

Lemma tree_lookup_shape p : forall t,
  parsed_shape t = true -> is_undefined (tree_lookup t p) = false ->
  parsed_shape (tree_lookup t p) = true.
Proof.
  induction p as [|s rest IH]; intros t Ht Hd; [exact Ht|].
  destruct (tree_lookup_cons_defined t s rest Hd) as [Hc E].
  rewrite E. apply IH; [apply tree_get_shape; assumption|rewrite <- E; exact Hd].
Qed.

(** A container edit on an object that is in the document: what is
    stored, and what it reads back as. *)
Lemma save_document_merge_put (st : State) (node : NodeData) (p : list seg) (t : jtree)
    (ps eps : list (str * jtree)) :
  selectedNode st = Some node -> is_leaf node = false -> path node = Some p ->
  parse_text (json st) = Some t -> parse_text (draft st) = Some (JObj eps) ->
  tree_lookup t p = JObj ps -> walk_keeps t p = true ->
  save_document st = Ok (stringify_tree 2 (tree_put t p (merge_tree (JObj ps) eps)))
  /\ parse_text (stringify_tree 2 (tree_put t p (merge_tree (JObj ps) eps)))
     = Some (tree_put t p (merge_tree (JObj ps) eps))
  /\ (is_container t = true \/ p = []).
Proof.
  intros Hn Hleaf Hp Ht He Hl Hw.
  assert (Hc : is_container (tree_lookup t p) = true) by (rewrite Hl; reflexivity).
  pose proof (save_document_merge st node p t eps Hn Hleaf Hp Ht He Hc Hw) as Hs.
  rewrite Hl in Hs. split; [exact Hs|].
  destruct (parse_text_shape _ _ Ht) as [Htok Htsh].
  destruct (parse_text_shape _ _ He) as [Heok Hesh].
  assert (Hd : is_undefined (tree_lookup t p) = false) by (rewrite Hl; reflexivity).
  pose proof (tree_lookup_shape p t Htsh Hd) as Hlsh. rewrite Hl in Hlsh.
  pose proof (tree_lookup_ok p t Htok) as Hlok. rewrite Hl in Hlok.
  pose proof (merge_tree_obj_shape eps ps Hlsh Hesh) as Hmsh.
  pose proof (merge_tree_ok eps (JObj ps) Hlok Heok) as Hmok.
  pose proof (tree_put_shape p t _ Htsh Hmsh Hd) as Hsh.
  split.
  - rewrite parse_stringify, (reparse_shape _ Hsh);
      [reflexivity|apply tree_put_ok; assumption|apply parsed_shape_defined; exact Hsh].
  - destruct (is_container t) eqn:E; [left; reflexivity|].
    pose proof (tree_lookup_prim p t E) as X. rewrite Hl in X. discriminate.
Qed.

(** X3. A container edit with the text of an object whose keys are plain,
    on an object that is in the document and a path whose walk keeps what
    it finds, document and draft within the bounds of the model: the
    stored text reads back as the old document where the object at the
    path has the edited keys written onto it; every key of it that the
    text does not name keeps its value, and nothing off the path
    changes. *)
Theorem container_save_merges (setGraph : str -> list NodeData) (st : State) (node : NodeData)
    (p : list seg) (t : jtree) (ps eps : list (str * jtree)) :
  selectedNode st = Some node -> is_leaf node = false -> path node = Some p ->
  parse_text (json st) = Some t -> parse_text (draft st) = Some (JObj eps) ->
  forallb plain_key (map fst eps) = true ->
  tree_lookup t p = JObj ps -> walk_keeps t p = true ->
  plain_tree t = true -> plain_tree (JObj eps) = true ->
  parse_text (json (handleSave setGraph st)) = Some (tree_put t p (merge_tree (JObj ps) eps))
  /\ tree_lookup (tree_put t p (merge_tree (JObj ps) eps)) p = merge_tree (JObj ps) eps
  /\ (forall k, tree_get (merge_tree (JObj ps) eps) k
                = match props_lookup eps k with
                  | Some v => v
                  | None => tree_get (JObj ps) k
                  end)
  /\ (forall q, diverges p q ->
        tree_lookup (tree_put t p (merge_tree (JObj ps) eps)) q = tree_lookup t q)
  /\ error (handleSave setGraph st) = None.
Proof.
  intros Hn Hleaf Hp Ht He _ Hl Hw _ _.
  destruct (save_document_merge_put st node p t ps eps Hn Hleaf Hp Ht He Hl Hw)
    as (Hs & Hparse & Hroot).
  destruct (handleSave_ok setGraph st _ Hs) as (-> & -> & _).
  split; [exact Hparse|]. split; [|split; [|split]].
  - apply tree_lookup_put; assumption.
  - intros k. apply merge_tree_get. exact (parse_text_nodup _ _ He).
  - intros q Hq. apply tree_lookup_put_frame. exact Hq.
  - reflexivity.
Qed.

Lemma container_save_merges_witness :
  parse_text (json (handleSave (fun _ => [])
                      (example_state "{'a':{'b':1,'c':2}}" "{'b':5,'d':true}"
                         [field_row "b" 1; field_row "c" 2] (Some [SegStr (lit "a")]))))
  = Some (tree_put (JObj [(lit "a", JObj [(lit "b", JNum (Num 1 0)); (lit "c", JNum (Num 2 0))])])
            [SegStr (lit "a")]
            (merge_tree (JObj [(lit "b", JNum (Num 1 0)); (lit "c", JNum (Num 2 0))])
               [(lit "b", JNum (Num 5 0)); (lit "d", JBool true)])).
Proof.
  refine (proj1 (container_save_merges (fun _ => [])
                   (example_state "{'a':{'b':1,'c':2}}" "{'b':5,'d':true}"
                      [field_row "b" 1; field_row "c" 2] (Some [SegStr (lit "a")]))
                   {| id := lit "n"; text := [field_row "b" 1; field_row "c" 2];
                      path := Some [SegStr (lit "a")] |}
                   [SegStr (lit "a")]
                   (JObj [(lit "a", JObj [(lit "b", JNum (Num 1 0)); (lit "c", JNum (Num 2 0))])])
                   [(lit "b", JNum (Num 1 0)); (lit "c", JNum (Num 2 0))]
                   [(lit "b", JNum (Num 5 0)); (lit "d", JBool true)] _ _ _ _ _ _ _ _ _ _));
    vm_compute; reflexivity.
Defined.

(** ** [setValueAtPath] with the object that the path leads to *)

Lemma lookup_path_cons_ref h l o s rest lt :
  h !! l = Some o -> lookup_path h (VRef l) (s :: rest) = VRef lt ->
  exists lc, get_own o (to_key s) = VRef lc /\ lookup_path h (VRef lc) rest = VRef lt.
Proof.
  intros Hl Hlook.
  assert (Hopt : opt_get h (VRef l) (to_key s) = get_own o (to_key s))
    by (unfold opt_get, get, deref; rewrite Hl; reflexivity).
  cbn [lookup_path] in Hlook. rewrite Hopt in Hlook.
  remember (get_own o (to_key s)) as c eqn:Ec.
  assert (Hlook' : lookup_path h c rest = VRef lt).
  { destruct c; try exact Hlook. discriminate. }
  destruct (is_object c) eqn:Eo.
  - destruct c; try discriminate. eexists. split; [reflexivity|exact Hlook'].
  - pose proof (lookup_path_prim h rest c Eo) as X. rewrite Hlook' in X. discriminate.
Qed.

Lemma tree_lookup_cons_container t s rest :
  is_container (tree_get t (to_key s)) = true ->
  tree_lookup t (s :: rest) = tree_lookup (tree_get t (to_key s)) rest.
Proof. cbn [tree_lookup]. destruct (tree_get t (to_key s)); try discriminate; reflexivity. Qed.

(** The object found at the end of the path is set back at the path:
    where the walk keeps what it finds nothing moves, and where it puts a
    fresh container the object is carried over into it. *)
Lemma descend_set_inside segs : forall h l t F lt last,
  repr h (VRef l) t F -> lookup_path h (VRef l) (segs ++ [last]) = VRef lt ->
  exists target h1 h2 F',
    descend h (VRef l) segs = Ok (target, h1)
    /\ set h1 target (to_key last) (VRef lt) = Ok h2
    /\ repr h2 (VRef l)
         (tree_set_path t (segs ++ [last]) (tree_lookup t (segs ++ [last]))) F'
    /\ (forall l', l' ∈ F' -> l' ∈ F \/ (length h <= l')%nat)
    /\ (forall l', (l' < length h)%nat -> l' ∉ F -> h2 !! l' = h !! l')
    /\ (length h <= length h2)%nat.
Proof.
  induction segs as [|s rest IH]; intros h l t F lt last Ht Hlook.
  - destruct (ref_focus h l t F (to_key last) Ht)
      as (o & Fold & Frest & Hl & -> & Hl1 & Hl2 & Hd' & Hcur & Hc & Hk).
    destruct (lookup_path_cons_ref h l o last [] lt Hl Hlook) as (lc & Eg & Elc).
    cbn [lookup_path] in Elc. injection Elc as ->.
    assert (Hderef0 : deref h l = o) by (unfold deref; rewrite Hl; reflexivity).
    assert (Hcc : is_container (tree_get t (to_key last)) = true).
    { destruct (repr_tests _ _ _ _ Hcur) as [_ X]. rewrite <- X, Eg. reflexivity. }
    exists (VRef l), h, h, ({[l]} ∪ (Fold ∪ Frest)).
    split; [reflexivity|]. split; [|split; [|split; [|split]]].
    + cbn [set]. rewrite Hderef0, (set_own_get_own _ _ _ Eg), list_insert_id by exact Hl.
      reflexivity.
    + cbn [app tree_set_path]. rewrite (tree_lookup_cons_container t last [] Hcc).
      cbn [tree_lookup]. rewrite tree_set_same by (apply is_container_defined; exact Hcc).
      exact Ht.
    + intros l' Hl'. left. exact Hl'.
    + reflexivity.
    + lia.
  - destruct (ref_focus h l t F (to_key s) Ht)
      as (o & Fold & Frest & Hl & -> & Hl1 & Hl2 & Hd' & Hcur & Hc & Hk).
    assert (Hlt : (l < length h)%nat) by (eapply lookup_lt_Some; exact Hl).
    assert (HboundF : forall l', l' ∈ {[l]} ∪ (Fold ∪ Frest) -> (l' < length h)%nat).
    { intros l' Hl'. eapply repr_bound; [exact Ht|exact Hl']. }
    cbn [app] in Hlook.
    destruct (lookup_path_cons_ref h l o s (rest ++ [last]) lt Hl Hlook) as (lc & Eg & Elc).
    rewrite Eg in Hcur.
    set (tcur := tree_get t (to_key s)) in *.
    assert (Hcc : is_container tcur = true).
    { destruct (repr_tests _ _ _ _ Hcur) as [_ X]. rewrite <- X. reflexivity. }
    rewrite descend_cons. simpl app. rewrite tree_set_path_cons.
    rewrite (tree_lookup_cons_container t s (rest ++ [last]) Hcc). fold tcur.
    assert (Hderef0 : deref h l = o) by (unfold deref; rewrite Hl; reflexivity).
    cbn [get mbind res_bind]. rewrite Hderef0, Eg.
    rewrite (repr_kept h s _ _ _ Hcur).
    destruct (kept s tcur) eqn:Ekept.
    + (* what is found is kept *)
      cbn [mbind res_bind get]. rewrite Hderef0, Eg.
      destruct (IH h lc tcur Fold lt last Hcur Elc)
        as (target & h1 & h2 & Fc & Hdesc & Hset & Hrc & HFc & Hfr & Hlen).
      exists target, h1, h2, ({[l]} ∪ (Fc ∪ Frest)).
      split; [exact Hdesc|]. split; [exact Hset|]. split; [|split; [|split]].
      * apply (Hk _ (VRef lc)).
        -- rewrite Hfr by assumption. rewrite Hl. f_equal. symmetry.
           apply set_own_get_own. assumption.
        -- intros l' Hl'. apply Hfr; [apply HboundF; set_solver|set_solver].
        -- exact Hrc.
        -- intros l' Hl' Hl''. destruct (HFc l' Hl') as [H1|H1].
           ++ set_solver.
           ++ specialize (HboundF l' ltac:(set_solver)). lia.
        -- intros Hl'. destruct (HFc l Hl') as [H1|H1]; [set_solver|lia].
      * intros l' Hl'. apply elem_of_union in Hl' as [Hl'|Hl']; [set_solver|].
        apply elem_of_union in Hl' as [Hl'|Hl']; [|set_solver].
        destruct (HFc l' Hl') as [H1|H1]; [left; set_solver|auto].
      * intros l' Hlt' Hnin. apply Hfr; [assumption|set_solver].
      * assumption.
    + (* a fresh container takes the place, and the object moves into it *)
      destruct (path_focus (rest ++ [last]) h (VRef lc) tcur Fold lt Hcur Elc)
        as (Ft & Frest1 & Hrt & _ & Hsub & _).
      assert (HboundT : forall l', l' ∈ Ft -> (l' < length h)%nat).
      { intros l' Hl'. apply HboundF. specialize (Hsub l'). set_solver. }
      set (fo := match s with SegNum _ => OArr [] [] | SegStr _ => OObj [] end).
      cbn [new_object set mbind res_bind].
      assert (Hderef : deref (h ++ [fo]) l = o).
      { unfold deref. rewrite lookup_app_l by assumption. rewrite Hl. reflexivity. }
      rewrite Hderef.
      set (h' := <[l := set_own o (to_key s) (VRef (length h))]> (h ++ [fo])).
      assert (Hlen' : length h' = S (length h)).
      { unfold h'. rewrite length_insert, length_app. simpl. lia. }
      assert (Hl' : h' !! l = Some (set_own o (to_key s) (VRef (length h)))).
      { unfold h'. apply list_lookup_insert_eq. rewrite length_app. simpl. lia. }
      assert (Hother : forall l', l' <> l -> (l' < length h)%nat -> h' !! l' = h !! l').
      { intros l' Hne Hlt'. unfold h'. rewrite list_lookup_insert_ne by congruence.
        apply lookup_app_l. assumption. }
      assert (Hderef' : deref h' l = set_own o (to_key s) (VRef (length h)))
        by (unfold deref; rewrite Hl'; reflexivity).
      fold h'. rewrite Hderef', get_own_set_own.
      assert (Hfresh : repr h' (VRef (length h)) (fresh_container s) ({[length h]} ∪ ∅)).
      { eapply repr_frame; [apply repr_fresh|]. intros l' Hin.
        unfold h'. apply list_lookup_insert_ne.
        apply elem_of_union in Hin as [Hin|Hin]; [|set_solver].
        apply elem_of_singleton in Hin. lia. }
      assert (Hv' : repr h' (VRef lt) (tree_lookup tcur (rest ++ [last])) Ft).
      { eapply repr_frame; [exact Hrt|]. intros l' Hin.
        apply Hother; [|apply HboundT; assumption].
        intros ->. specialize (Hsub l). set_solver. }
      destruct (descend_set_repr rest h' (length h) (fresh_container s) ({[length h]} ∪ ∅)
                  (VRef lt) (tree_lookup tcur (rest ++ [last])) Ft last Hfresh Hv')
        as (target & h1 & h2 & Fc & Hdesc & Hset & Hrc & HFc & Hfr & Hlen).
      { intros l' Hin Hin'. apply HboundT in Hin'.
        apply elem_of_union in Hin as [Hin|Hin]; [|set_solver].
        apply elem_of_singleton in Hin. lia. }
      exists target, h1, h2, ({[l]} ∪ (Fc ∪ Frest)).
      split; [exact Hdesc|]. split; [exact Hset|]. split; [|split; [|split]].
      * apply (Hk _ (VRef (length h))).
        -- rewrite Hfr; [exact Hl'|lia|].
           intros Hin. apply elem_of_union in Hin as [Hin|Hin]; [|set_solver].
           apply elem_of_singleton in Hin. lia.
        -- intros l' Hin. specialize (HboundF l' ltac:(set_solver)).
           rewrite Hfr; [apply Hother; [set_solver|assumption]|lia|].
           intros Hin'. apply elem_of_union in Hin' as [Hin'|Hin']; [|set_solver].
           apply elem_of_singleton in Hin'. lia.
        -- exact Hrc.
        -- intros l' Hin Hin'. specialize (HboundF l' ltac:(set_solver)).
           destruct (HFc l' Hin) as [H1|[H1|H1]].
           ++ apply elem_of_union in H1 as [H1|H1]; [|set_solver].
              apply elem_of_singleton in H1. lia.
           ++ specialize (Hsub l'). set_solver.
           ++ lia.
        -- intros Hin. destruct (HFc l Hin) as [H1|[H1|H1]].
           ++ apply elem_of_union in H1 as [H1|H1]; [|set_solver].
              apply elem_of_singleton in H1. lia.
           ++ specialize (Hsub l). set_solver.
           ++ lia.
      * intros l' Hin. apply elem_of_union in Hin as [Hin|Hin]; [set_solver|].
        apply elem_of_union in Hin as [Hin|Hin]; [|set_solver].
        destruct (HFc l' Hin) as [H1|[H1|H1]].
        -- apply elem_of_union in H1 as [H1|H1]; [|set_solver].
           apply elem_of_singleton in H1. right. lia.
        -- left. specialize (Hsub l'). set_solver.
        -- right. lia.
      * intros l' Hlt' Hnin. rewrite Hfr; [apply Hother; [set_solver|assumption]|lia|].
        intros Hin. apply elem_of_union in Hin as [Hin|Hin]; [|set_solver].
        apply elem_of_singleton in Hin. lia.
      * lia.
Qed.

Lemma setValueAtPath_inside h obj t F p lt :
  repr h obj t F -> lookup_path h obj p = VRef lt ->
  exists newObj h2 F',
    setValueAtPath obj (Some p) (VRef lt) h = Ok (newObj, h2)
    /\ repr h2 newObj (tree_set_path t p (tree_lookup t p)) F'.
Proof.
  intros Hr Hlook. destruct p as [|s0 p].
  - cbn [lookup_path] in Hlook. subst obj. exists (VRef lt), h, F.
    split; [reflexivity|exact Hr].
  - assert (Hobj : is_object obj = true).
    { destruct (is_object obj) eqn:E; [reflexivity|].
      pose proof (lookup_path_prim h (s0 :: p) obj E) as X. rewrite Hlook in X. discriminate. }
    destruct obj as [ | | | | |l]; try discriminate.
    rewrite (path_split s0 p) in Hlook.
    destruct (descend_set_inside (removelast (s0 :: p)) h l t F lt (List.last p s0) Hr Hlook)
      as (target & h1 & h2 & F' & Hdesc & Hset & Hrep & _).
    exists (VRef l), h2, F'. split.
    + unfold setValueAtPath. rewrite Hdesc. cbn [mbind res_bind]. rewrite Hset. reflexivity.
    + rewrite <- path_split in Hrep. exact Hrep.
Qed.

(** ** Writing twice under one key *)

Lemma props_replace_replace {A} (ps : list (str * A)) k a b :
  props_replace (props_replace ps k a) k b = props_replace ps k b.
Proof.
  induction ps as [|[k' v'] ps IH]; [reflexivity|]. cbn [props_replace].
  destruct (text_eqb k' k) eqn:E; cbn [props_replace]; rewrite E; [reflexivity|].
  rewrite IH. reflexivity.
Qed.

Lemma props_set_set {A} (ps : list (str * A)) k a b :
  props_set (props_set ps k a) k b = props_set ps k b.
Proof.
  unfold props_set at 1. rewrite props_lookup_set.
  unfold props_set. destruct (props_lookup ps k) eqn:E.
  - apply props_replace_replace.
  - destruct (array_index k) as [i|].
    + induction ps as [|[k' v'] ps IH].
      * cbn [props_insert_index props_replace]. rewrite text_eqb_refl. reflexivity.
      * cbn [props_lookup] in E. destruct (text_eqb k' k) eqn:Ek; [discriminate|].
        cbn [props_insert_index].
        destruct (array_index k') as [j|]; [destruct (j <? i)|]; cbn [props_replace];
          rewrite ?Ek, ?text_eqb_refl, ?IH by exact E; reflexivity.
    + induction ps as [|[k' v'] ps IH].
      * cbn [app props_replace]. rewrite text_eqb_refl. reflexivity.
      * cbn [props_lookup] in E. destruct (text_eqb k' k) eqn:Ek; [discriminate|].
        cbn [app props_replace]. rewrite Ek, IH by exact E. reflexivity.
Qed.

Lemma array_set_set {A} (hole : A) es i a b :
  array_set hole (array_set hole es i a) i b = array_set hole es i b.
Proof.
  unfold array_set at 2 3. destruct (Nat.ltb_spec i (length es)) as [Hi|Hi].
  - unfold array_set. rewrite length_insert, (proj2 (Nat.ltb_lt _ _) Hi).
    apply list_insert_insert_eq.
  - unfold array_set.
    assert (Hlen : length (es ++ repeat hole (i - length es) ++ [a]) = S i).
    { rewrite !length_app, repeat_length. simpl. lia. }
    rewrite Hlen, (proj2 (Nat.ltb_lt _ _) (Nat.lt_succ_diag_r i)).
    rewrite insert_app_r_alt by lia.
    rewrite insert_app_r_alt by (rewrite repeat_length; lia).
    rewrite repeat_length.
    replace (i - length es - (i - length es))%nat with 0%nat by lia. reflexivity.
Qed.

Lemma tree_set_set t k a b : tree_set (tree_set t k a) k b = tree_set t k b.
Proof.
  destruct t as [ | |x|n|s|es nm|ps]; try reflexivity; cbn [tree_set].
  - destruct (array_index k) as [i|] eqn:E; cbn [tree_set]; rewrite E.
    + rewrite array_set_set. reflexivity.
    + rewrite props_set_set. reflexivity.
  - rewrite props_set_set. reflexivity.
Qed.

Lemma tree_set_kind t k v :
  is_array (tree_set t k v) = is_array t /\ is_container (tree_set t k v) = is_container t.
Proof.
  destruct t; try (split; reflexivity). cbn [tree_set].
  destruct (array_index k); split; reflexivity.
Qed.

(** [setValueAtPath] does not see what the path led to before. *)
Lemma tree_set_path_put p : forall t x y,
  tree_set_path (tree_put t p x) p y = tree_set_path t p y.
Proof.
  induction p as [|s rest IH]; intros t x y; [reflexivity|].
  destruct rest as [|s' rest].
  - cbn [tree_put tree_set_path]. apply tree_set_set.
  - change (tree_put t (s :: s' :: rest) x)
      with (tree_set t (to_key s) (tree_put (tree_get t (to_key s)) (s' :: rest) x)).
    set (c := tree_get t (to_key s)).
    set (c' := tree_put c (s' :: rest) x).
    change (tree_set_path (tree_set t (to_key s) c') (s :: s' :: rest) y)
      with (tree_set (tree_set t (to_key s) c') (to_key s)
              (tree_set_path
                 (if kept s (tree_get (tree_set t (to_key s) c') (to_key s))
                  then tree_get (tree_set t (to_key s) c') (to_key s)
                  else fresh_container s) (s' :: rest) y)).
    change (tree_set_path t (s :: s' :: rest) y)
      with (tree_set t (to_key s)
              (tree_set_path (if kept s c then c else fresh_container s) (s' :: rest) y)).
    rewrite tree_set_set.
    destruct (is_container t) eqn:Hc.
    + rewrite tree_get_set by exact Hc.
      assert (Hk : kept s c' = kept s c).
      { unfold c'. cbn [tree_put].
        destruct (tree_set_kind c (to_key s')
                    (tree_put (tree_get c (to_key s')) rest x)) as [Ha Hb].
        destruct s; cbn [kept]; assumption. }
      rewrite Hk. destruct (kept s c); [|reflexivity].
      unfold c'. rewrite IH. reflexivity.
    + assert (E : forall z, tree_set t (to_key s) z = t)
        by (intros z; destruct t; try reflexivity; discriminate).
      rewrite !E. reflexivity.
Qed.

Lemma tree_lookup_put_container p : forall t x,
  is_container (tree_lookup t p) = true -> tree_lookup (tree_put t p x) p = x.
Proof.
  induction p as [|s rest IH]; intros t x Hc; [reflexivity|].
  assert (Ht : is_container t = true).
  { destruct (is_container t) eqn:E; [reflexivity|].
    rewrite (tree_lookup_prim (s :: rest) t E) in Hc. discriminate. }
  assert (Hcc : is_container (tree_get t (to_key s)) = true).
  { destruct (is_container (tree_get t (to_key s))) eqn:E; [reflexivity|].
    cbn [tree_lookup] in Hc.
    pose proof (tree_lookup_prim rest _ E) as X.
    destruct (tree_get t (to_key s)); try discriminate; rewrite X in Hc; discriminate. }
  rewrite (tree_lookup_cons_container t s rest Hcc) in Hc.
  cbn [tree_put tree_lookup]. rewrite tree_get_set by exact Ht.
  destruct rest as [|s' rest].
  - cbn [tree_put]. destruct x; reflexivity.
  - rewrite <- (IH _ x Hc) at 2.
    pose proof (tree_put_container (tree_get t (to_key s)) (s' :: rest) x
                  ltac:(discriminate) Hcc) as Hd.
    destruct (tree_put (tree_get t (to_key s)) (s' :: rest) x); try discriminate; reflexivity.
Qed.

(** ** The container edit, on every path *)

(** A container edit with the text of an object, where the path leads to
    an object or an array: the keys are written onto it, and
    [setValueAtPath] then sets it at its own path. *)
Theorem save_document_merge_any (st : State) (node : NodeData) (p : list seg)
    (t : jtree) (eps : list (str * jtree)) :
  selectedNode st = Some node -> is_leaf node = false -> path node = Some p ->
  parse_text (json st) = Some t -> parse_text (draft st) = Some (JObj eps) ->
  is_container (tree_lookup t p) = true ->
  save_document st
  = Ok (stringify_tree 2 (tree_set_path t p (merge_tree (tree_lookup t p) eps))).
Proof.
  intros Hn Hleaf Hp Ht He Hc.
  pose proof (parse_text_nodup _ _ He) as Hnd.
  unfold save_document.
  rewrite (JSON_parse_ok _ _ _ He). cbn [mbind res_bind].
  destruct (alloc (JObj eps) []) as [parsed h0] eqn:E0.
  rewrite (JSON_parse_ok _ _ _ Ht).
  destruct (alloc t h0) as [obj h1] eqn:E1.
  rewrite Hn, Hleaf, Hp.
  destruct (alloc_two t (JObj eps) parsed h0 obj h1 E0 E1) as (F & Fe & Hr & Hre & Hd).
  rewrite (lookup_path_object h1 obj t F p Hr), Hc.
  destruct (lookup_path h1 obj p) as [ | |b|n|str|lt] eqn:Hlook;
    try (pose proof (lookup_path_object h1 obj t F p Hr) as X; rewrite Hlook, Hc in X;
         discriminate).
  inversion Hre as [| | | | |lp o te Fe0 Hlp Ho Hlpn]; subst.
  inversion Ho as [pps tps Fe1 Hps|]; subst.
  destruct (path_focus p h1 obj t F lt Hr Hlook) as (Ft & Frest & Hrt & Hdt & Hsub & Hk).
  assert (Hlt : lt ∈ Ft) by (inversion Hrt; subst; set_solver).
  assert (Hne : lp <> lt) by set_solver.
  destruct (merge_keys_repr lp pps pps eps Fe0 h1 lt (tree_lookup t p) Ft Hlp Hne)
    as (h2 & Ft2 & Hm & Hr2 & Hsub2 & Hfr2);
    [intros k v Hin; apply props_lookup_nodup;
       [rewrite (repr_props_keys _ _ _ _ Hps); exact Hnd|exact Hin]
    |exact Hps|exact Hrt|set_solver|].
  destruct (Hk h2 (merge_tree (tree_lookup t p) eps) Ft2) as (F' & Hr' & _ & Hlook2);
    [intros l Hl; apply Hfr2; set_solver|exact Hr2|set_solver|].
  assert (Hkeys : Object_keys h1 (VRef lp) = Ok (map fst pps))
    by (unfold Object_keys, deref; rewrite Hlp; reflexivity).
  rewrite Hkeys. cbn [mbind res_bind].
  rewrite Hm. cbn [mbind res_bind].
  destruct (setValueAtPath_inside h2 obj _ F' p lt Hr' Hlook2) as (newObj & h3 & F3 & Hset & Hr3).
  rewrite Hset. cbn [mbind res_bind].
  rewrite (JSON_stringify_repr 2 h3 newObj _ F3 Hr3).
  rewrite tree_set_path_put, tree_lookup_put_container by exact Hc. reflexivity.
Qed.

(** ** [normalizeNodeData] on every row list *)

Lemma props_lookup_snoc {A} (ps : list (str * A)) k0 x k :
  props_lookup (ps ++ [(k0, x)]) k
  = match props_lookup ps k with
    | Some v => Some v
    | None => if text_eqb k0 k then Some x else None
    end.
Proof.
  induction ps as [|[k' v'] ps IH]; [reflexivity|].
  cbn [app props_lookup]. destruct (text_eqb k' k); [reflexivity|exact IH].
Qed.

Lemma props_lookup_set_any {A} (ps : list (str * A)) k0 x k :
  props_lookup (props_set ps k0 x) k = if text_eqb k0 k then Some x else props_lookup ps k.
Proof.
  unfold text_eqb. case_bool_decide as E.
  - subst k0. apply props_lookup_set.
  - apply props_lookup_set_ne. exact E.
Qed.

(** Each key of the object holds the value of the last row that has it. *)
Lemma props_lookup_fold_set kvs : forall acc k,
  props_lookup (fold_left set_scalar kvs acc) k
  = match props_lookup (rev (map entry_tree kvs)) k with
    | Some v => Some v
    | None => props_lookup acc k
    end.
Proof.
  induction kvs as [|[k0 v0] kvs IH]; intros acc k; [reflexivity|].
  cbn [fold_left map rev]. change (entry_tree (k0, v0)) with (k0, tree_of_scalar v0).
  rewrite IH, props_lookup_snoc.
  destruct (props_lookup (rev (map entry_tree kvs)) k); [reflexivity|].
  unfold set_scalar. cbn [fst snd]. rewrite props_lookup_set_any.
  destruct (text_eqb k0 k); reflexivity.
Qed.

Lemma fold_set_scalar_shape kvs : forall acc,
  Forall (fun kv => scalar_wf (snd kv)) kvs ->
  tree_ok (JObj acc) = true -> parsed_shape (JObj acc) = true ->
  tree_ok (JObj (fold_left set_scalar kvs acc)) = true
  /\ parsed_shape (JObj (fold_left set_scalar kvs acc)) = true.
Proof.
  induction kvs as [|[k v] kvs IH]; intros acc Hwf Hok Hsh; [auto|].
  apply Forall_cons in Hwf as [Hv Hwf]. cbn [snd] in Hv.
  cbn [fold_left]. apply IH; [exact Hwf| |].
  - cbn [tree_ok] in *. apply props_set_forallb; [exact Hok|].
    destruct v; try reflexivity. apply bool_decide_eq_true_2. exact Hv.
  - cbn [parsed_shape] in *. apply andb_true_iff in Hsh as [Hs Hps].
    unfold set_scalar. cbn [fst snd].
    rewrite props_set_sorted by exact Hs.
    rewrite props_set_forallb; [reflexivity|exact Hps|destruct v; reflexivity].
Qed.

Lemma normalize_object_any rows :
  match rows with [r] => truthy (key r) = true | _ => True end ->
  normalizeNodeData rows = stringify_tree 2 (JObj (fold_left add_row rows [])).
Proof.
  intros H. unfold normalizeNodeData. destruct rows as [|r [|r' rows]]; try reflexivity.
  cbn [length Nat.eqb andb]. rewrite H. reflexivity.
Qed.

Lemma normalize_object_parses rows :
  match rows with [r] => truthy (key r) = true | _ => True end ->
  Forall (fun kv => scalar_wf (snd kv)) (entries rows) ->
  parse_text (normalizeNodeData rows) = Some (JObj (fold_left add_row rows [])).
Proof.
  intros H Hwf. rewrite (normalize_object_any rows H), fold_add_row.
  destruct (fold_set_scalar_shape (entries rows) [] Hwf eq_refl eq_refl) as [Hok Hsh].
  rewrite parse_stringify, (reparse_shape _ Hsh); [reflexivity|exact Hok|reflexivity].
Qed.

(** X4. For every row list other than a single row without a key, and
    with plain keys, the text of [normalizeNodeData] is the JSON text of
    one object: its keys are in the order of JavaScript (array indices
    ascending, then the names), each key once, and each holds the value
    of the last row that has this key, is keyed and is not of type
    ["array"] or ["object"]. *)
Theorem normalize_object_last_row_wins (rows : list NodeRow) :
  match rows with [r] => truthy (key r) = true | _ => True end ->
  Forall (fun kv => scalar_wf (snd kv)) (entries rows) ->
  forallb plain_key (map fst (entries rows)) = true ->
  exists obj,
    parse_text (normalizeNodeData rows) = Some (JObj obj)
    /\ keys_sorted (map fst obj) = true
    /\ forall k, props_lookup obj k = props_lookup (rev (map entry_tree (entries rows))) k.
Proof.
  intros H Hwf _. exists (fold_left add_row rows []).
  split; [exact (normalize_object_parses rows H Hwf)|].
  rewrite fold_add_row.
  destruct (fold_set_scalar_shape (entries rows) [] Hwf eq_refl eq_refl) as [_ Hsh].
  cbn [parsed_shape] in Hsh. apply andb_true_iff in Hsh as [Hs _].
  split; [exact Hs|].
  intros k. rewrite props_lookup_fold_set.
  destruct (props_lookup (rev (map entry_tree (entries rows))) k); reflexivity.
Qed.

Lemma normalize_object_last_row_wins_witness :
  exists obj,
    parse_text (normalizeNodeData [field_row "b" 1; field_row "7" 2; field_row "b" 3])
    = Some (JObj obj)
    /\ keys_sorted (map fst obj) = true
    /\ forall k, props_lookup obj k
                 = props_lookup (rev (map entry_tree
                                        (entries [field_row "b" 1; field_row "7" 2;
                                                  field_row "b" 3]))) k.
Proof.
  apply (normalize_object_last_row_wins [field_row "b" 1; field_row "7" 2; field_row "b" 3]).
  - exact I.
  - vm_compute. repeat constructor; discriminate.
  - vm_compute. reflexivity.
Defined.

(** ** Edit, then save without typing *)

Lemma handleEdit_leaf_draft st node row :
  selectedNode st = Some node -> text node = [row] -> truthy (key row) = false ->
  draft (handleEdit st) = ToString (value row) /\ is_leaf node = true.
Proof.
  intros Hn Ht Hk. unfold handleEdit, node_rows, is_leaf. cbn [draft]. rewrite Hn, Ht.
  unfold normalizeNodeData. cbn [length Nat.eqb andb]. rewrite Hk. auto.
Qed.

Lemma tree_of_scalar_defined v : is_undefined (tree_of_scalar v) = false.
Proof. destruct v; reflexivity. Qed.

(** X5. Edit followed by Save, with nothing typed, on a leaf that shows
    the number, the boolean or the [null] found at its path, the document
    being an object or an array within the bounds of the model and the
    path one whose walk keeps what it finds: the stored text reads back
    as the document it was. *)
Theorem edit_save_leaf_unchanged (setGraph : str -> list NodeData) (st : State)
    (node : NodeData) (row : NodeRow) (p : list seg) (t : jtree) :
  selectedNode st = Some node -> text node = [row] -> truthy (key row) = false ->
  is_string (value row) = false -> scalar_wf (value row) ->
  default [] (path node) = p ->
  parse_text (json st) = Some t -> is_container t = true -> walk_keeps t p = true ->
  tree_lookup t p = tree_of_scalar (value row) ->
  plain_tree t = true ->
  parse_text (json (handleSave setGraph (handleEdit st))) = Some t
  /\ error (handleSave setGraph (handleEdit st)) = None.
Proof.
  intros Hn Htext Hk Hstr Hwf Hp Ht Hc Hw Hl _.
  destruct (handleEdit_leaf_draft st node row Hn Htext Hk) as [Hdraft Hleaf].
  assert (He : parse_text (draft (handleEdit st)) = Some (tree_of_scalar (value row))).
  { rewrite Hdraft, ToString_scalar_text by exact Hstr. apply parse_text_scalar. exact Hwf. }
  assert (Hd : is_undefined (tree_lookup t p) = false)
    by (rewrite Hl; apply tree_of_scalar_defined).
  destruct (save_document_leaf_put (handleEdit st) node p t _ Hn Hleaf Hp Ht He Hc Hw Hd)
    as [Hs Hparse].
  rewrite <- Hl, tree_put_same in Hs, Hparse by exact Hd.
  destruct (handleSave_ok setGraph _ _ Hs) as (-> & -> & _).
  split; [exact Hparse|reflexivity].
Qed.

Lemma edit_save_leaf_unchanged_witness :
  parse_text (json (handleSave (fun _ => [])
                      (handleEdit (example_state "{'a':[true,1]}" "" [leaf_row]
                                     (Some [SegStr (lit "a"); SegNum 1])))))
  = Some (JObj [(lit "a", JArr [JBool true; JNum (Num 1 0)] [])]).
Proof.
  refine (proj1 (edit_save_leaf_unchanged (fun _ => [])
                   (example_state "{'a':[true,1]}" "" [leaf_row]
                      (Some [SegStr (lit "a"); SegNum 1]))
                   {| id := lit "n"; text := [leaf_row];
                      path := Some [SegStr (lit "a"); SegNum 1] |}
                   leaf_row [SegStr (lit "a"); SegNum 1]
                   (JObj [(lit "a", JArr [JBool true; JNum (Num 1 0)] [])])
                   _ _ _ _ _ _ _ _ _ _ _));
    try (vm_compute; reflexivity).
  vm_compute. split; intros; congruence.
Defined.

(** The characters of a string token are fewer than the token. *)
Lemma lex_string_out_length n : forall s x r,
  (length s <= n)%nat -> lex_string s = Some (x, r) -> (length x + length r < length s)%nat.
Proof.
  induction n as [|n IH]; intros s x r Hn H.
  - destruct s; [discriminate|simpl in Hn; lia].
  - destruct s as [|c s]; [discriminate|]. simpl in Hn. cbn [lex_string] in H.
    destruct (c =? dq); [injection H as <- <-; simpl; lia|].
    destruct (c =? backslash).
    + destruct s as [|e r1]; [discriminate|].
      destruct (e =? 117).
      * destruct r1 as [|h1 [|h2 [|h3 [|h4 r2]]]]; try discriminate.
        destruct (hex_val h1); [|discriminate]. destruct (hex_val h2); [|discriminate].
        destruct (hex_val h3); [|discriminate]. destruct (hex_val h4); [|discriminate].
        cbn [mbind option_bind] in H.
        destruct (lex_string r2) as [[str rest]|] eqn:E; [|discriminate].
        injection H as <- <-. apply IH in E; simpl in *; lia.
      * destruct (unescape e); [|discriminate]. cbn [mbind option_bind] in H.
        destruct (lex_string r1) as [[str rest]|] eqn:E; [|discriminate].
        injection H as <- <-. apply IH in E; simpl in *; lia.
    + destruct (c <? 32); [discriminate|].
      destruct (lex_string s) as [[str rest]|] eqn:E; [|discriminate].
      injection H as <- <-. apply IH in E; simpl in *; lia.
Qed.

Lemma parse_members_object f : forall s acc t r,
  parse_members f s acc = Some (t, r) -> is_container t = true.
Proof.
  induction f as [|f IH]; intros s acc t r H; [discriminate|].
  rewrite parse_members_eq in H.
  destruct (expect dq s) as [r0|]; [|discriminate]. cbn [mbind option_bind] in H.
  destruct (lex_string r0) as [[k r1]|]; [|discriminate]. cbn [mbind option_bind] in H.
  destruct (expect 58 r1) as [r2|]; [|discriminate]. cbn [mbind option_bind] in H.
  destruct (parse_value f r2) as [[v r3]|]; [|discriminate]. cbn [mbind option_bind] in H.
  destruct (skip_ws r3) as [|c r4]; [discriminate|].
  destruct (c =? 44); [exact (IH _ _ _ _ H)|].
  destruct (c =? 125); [|discriminate]. injection H as <- _. reflexivity.
Qed.

Lemma parse_elements_container f : forall s acc t r,
  parse_elements f s acc = Some (t, r) -> is_container t = true.
Proof.
  induction f as [|f IH]; intros s acc t r H; [discriminate|].
  rewrite parse_elements_eq in H.
  destruct (parse_value f s) as [[v r1]|]; [|discriminate]. cbn [mbind option_bind] in H.
  destruct (skip_ws r1) as [|c r2]; [discriminate|].
  destruct (c =? 44); [exact (IH _ _ _ _ H)|].
  destruct (c =? 93); [|discriminate]. injection H as <- _. reflexivity.
Qed.

(** A text never parses to the string of its own characters. *)
Lemma parse_text_string_shorter s x : parse_text s = Some (JStr x) -> (length x < length s)%nat.
Proof.
  unfold parse_text. generalize (2 * length s + 2)%nat. intros f H.
  destruct (parse_value f s) as [[t r]|] eqn:E; [|discriminate]. cbn [mbind option_bind] in H.
  destruct (skip_ws r); [|discriminate]. injection H as ->.
  destruct f as [|f]; [discriminate|]. rewrite parse_value_eq in E.
  pose proof (skip_ws_length s) as Hlen.
  destruct (skip_ws s) as [|c r0]; [discriminate|].
  destruct (c =? 123).
  { destruct (expect 125 r0); [discriminate|].
    apply parse_members_object in E. discriminate. }
  destruct (c =? 91).
  { destruct (expect 93 r0); [discriminate|].
    apply parse_elements_container in E. discriminate. }
  destruct (c =? dq).
  { destruct (lex_string r0) as [[y r1]|] eqn:El; [|discriminate].
    injection E as -> _. apply (lex_string_out_length (length r0)) in El; [|lia].
    simpl in Hlen. lia. }
  destruct ((c =? 45) || is_digit c).
  { destruct (lex_number (c :: r0)) as [[? ?]|]; discriminate. }
  destruct (c =? 116).
  { destruct (strip_prefix _ r0); discriminate. }
  destruct (c =? 102).
  { destruct (strip_prefix _ r0); discriminate. }
  destruct (c =? 110); [|discriminate].
  destruct (strip_prefix _ r0); discriminate.
Qed.

(** X6. Edit followed by Save, with nothing typed, on a leaf that shows
    the string found at its path, the document being an object or an
    array within the bounds of the model and the path one whose walk
    keeps what it finds: the draft is the bare characters of the string.
    When they are not a JSON text the save is refused with the parser's
    error and the state is otherwise that after Edit; when they are, and
    what they parse to is within the bounds, the value stored at the path
    is what they parse to, which is never the string. *)
Theorem edit_save_string_leaf (setGraph : str -> list NodeData) (st : State)
    (node : NodeData) (row : NodeRow) (s : str) (p : list seg) (t : jtree) :
  selectedNode st = Some node -> text node = [row] -> truthy (key row) = false ->
  value row = SStr s -> default [] (path node) = p ->
  parse_text (json st) = Some t -> is_container t = true -> walk_keeps t p = true ->
  tree_lookup t p = JStr s ->
  plain_tree t = true ->
  match parse_text s with
  | None => handleSave setGraph (handleEdit st) = with_error (handleEdit st) SyntaxError
  | Some e =>
      plain_tree e = true ->
      parse_text (json (handleSave setGraph (handleEdit st))) = Some (tree_put t p e)
      /\ tree_lookup (tree_put t p e) p = e /\ e <> JStr s
  end.
Proof.
  intros Hn Htext Hk Hv Hp Ht Hc Hw Hl _.
  destruct (handleEdit_leaf_draft st node row Hn Htext Hk) as [Hdraft Hleaf].
  rewrite Hv in Hdraft. cbn [ToString] in Hdraft.
  destruct (parse_text s) as [e|] eqn:He.
  - assert (He' : parse_text (draft (handleEdit st)) = Some e) by (rewrite Hdraft; exact He).
    assert (Hd : is_undefined (tree_lookup t p) = false) by (rewrite Hl; reflexivity).
    destruct (save_document_leaf_put (handleEdit st) node p t e Hn Hleaf Hp Ht He' Hc Hw Hd)
      as [Hs Hparse].
    destruct (handleSave_ok setGraph _ _ Hs) as (-> & _ & _). intros _.
    split; [exact Hparse|]. split; [apply tree_lookup_put; [left; exact Hc|exact Hw]|].
    intros ->. apply parse_text_string_shorter in He. lia.
  - apply handleSave_throw. unfold save_document, JSON_parse. rewrite Hdraft, He. reflexivity.
Qed.

Lemma edit_save_string_leaf_witness :
  handleSave (fun _ => [])
    (handleEdit (example_state "{'name':'Ann'}" ""
                   [{| key := None; value := SStr (lit "Ann"); type := TyString |}]
                   (Some [SegStr (lit "name")])))
  = with_error
      (handleEdit (example_state "{'name':'Ann'}" ""
                     [{| key := None; value := SStr (lit "Ann"); type := TyString |}]
                     (Some [SegStr (lit "name")])))
      SyntaxError.
Proof.
  refine (edit_save_string_leaf (fun _ => [])
            (example_state "{'name':'Ann'}" ""
               [{| key := None; value := SStr (lit "Ann"); type := TyString |}]
               (Some [SegStr (lit "name")]))
            {| id := lit "n";
               text := [{| key := None; value := SStr (lit "Ann"); type := TyString |}];
               path := Some [SegStr (lit "name")] |}
            {| key := None; value := SStr (lit "Ann"); type := TyString |}
            (lit "Ann") [SegStr (lit "name")]
            (JObj [(lit "name", JStr (lit "Ann"))])
            _ _ _ _ _ _ _ _ _ _);
    vm_compute; reflexivity.
Defined.

Lemma props_set_elem {A} (ps : list (str * A)) k0 x0 k x :
  (k, x) ∈ props_set ps k0 x0 -> (k, x) ∈ ps \/ (k = k0 /\ x = x0).
Proof.
  unfold props_set. destruct (props_lookup ps k0).
  - induction ps as [|[k' v'] ps IH]; [intros H; inversion H|].
    cbn [props_replace]. destruct (text_eqb k' k0) eqn:E; intros H.
    + apply bool_decide_eq_true_1 in E. subst k'.
      apply elem_of_cons in H as [[= -> ->]|H]; [right; auto|left; right; exact H].
    + apply elem_of_cons in H as [->|H]; [left; left|].
      destruct (IH H) as [H'|H']; [left; right; exact H'|right; exact H'].
  - destruct (array_index k0) as [i|].
    + induction ps as [|[k' v'] ps IH]; cbn [props_insert_index]; intros H.
      * apply list_elem_of_singleton in H. injection H as -> ->. right; auto.
      * assert (Hcons : (k, x) ∈ (k0, x0) :: (k', v') :: ps ->
                        (k, x) ∈ (k', v') :: ps \/ (k = k0 /\ x = x0)).
        { intros H'. apply elem_of_cons in H' as [[= -> ->]|H']; [right; auto|left; exact H']. }
        destruct (array_index k') as [j|]; [destruct (j <? i)|]; try exact (Hcons H).
        apply elem_of_cons in H as [->|H]; [left; left|].
        destruct (IH H) as [H'|H']; [left; right; exact H'|right; exact H'].
    + intros H. apply elem_of_app in H as [H|H]; [left; exact H|].
      apply list_elem_of_singleton in H. injection H as -> ->. right; auto.
Qed.

Lemma fold_set_scalar_elem kvs : forall acc k x,
  (k, x) ∈ fold_left set_scalar kvs acc ->
  (k, x) ∈ acc \/ exists v, (k, v) ∈ kvs /\ x = tree_of_scalar v.
Proof.
  induction kvs as [|[k0 v0] kvs IH]; intros acc k x H; [left; exact H|].
  cbn [fold_left] in H. destruct (IH _ _ _ H) as [H'|(v & Hin & ->)].
  - unfold set_scalar in H'. cbn [fst snd] in H'.
    destruct (props_set_elem _ _ _ _ _ H') as [H''|[-> ->]]; [left; exact H''|].
    right. exists v0. split; [left|reflexivity].
  - right. exists v. split; [right; exact Hin|reflexivity].
Qed.

(** Writing onto a tree the values it has changes nothing. *)
Lemma merge_tree_same eps : forall t,
  (forall k x, (k, x) ∈ eps -> tree_get t k = x /\ is_undefined x = false) ->
  merge_tree t eps = t.
Proof.
  induction eps as [|[k x] eps IH]; intros t H; [reflexivity|].
  change (merge_tree t ((k, x) :: eps)) with (merge_tree (tree_set t k x) eps).
  destruct (H k x ltac:(left)) as [Hg Hd].
  assert (E : tree_set t k x = t) by (rewrite <- Hg; apply tree_set_same; rewrite Hg; exact Hd).
  rewrite E. apply IH. intros k' x' Hin. apply H. right. exact Hin.
Qed.

Lemma not_leaf_rows node :
  is_leaf node = false -> match text node with [r] => truthy (key r) = true | _ => True end.
Proof.
  unfold is_leaf. destruct (text node) as [|r [|r' rows]]; try (intros; exact I).
  intros H. apply negb_false_iff in H. exact H.
Qed.

(** X7. Edit followed by Save, with nothing typed, on a container node
    whose rows agree with the object found at its path, the document
    being within the bounds of the model and the path one whose walk
    keeps what it finds: the stored text reads back as the document it
    was. *)
Theorem edit_save_container_unchanged (setGraph : str -> list NodeData) (st : State)
    (node : NodeData) (p : list seg) (t : jtree) (ps : list (str * jtree)) :
  selectedNode st = Some node -> is_leaf node = false -> path node = Some p ->
  parse_text (json st) = Some t -> tree_lookup t p = JObj ps -> walk_keeps t p = true ->
  Forall (fun kv => scalar_wf (snd kv)) (entries (text node)) ->
  Forall (fun kv => tree_get (JObj ps) (fst kv) = tree_of_scalar (snd kv))
    (entries (text node)) ->
  plain_tree t = true ->
  parse_text (json (handleSave setGraph (handleEdit st))) = Some t
  /\ error (handleSave setGraph (handleEdit st)) = None.
Proof.
  intros Hn Hleaf Hp Ht Hl Hw Hwf Hagree _.
  assert (He : parse_text (draft (handleEdit st))
               = Some (JObj (fold_left add_row (text node) []))).
  { unfold handleEdit, node_rows. cbn [draft]. rewrite Hn.
    apply normalize_object_parses; [apply not_leaf_rows; exact Hleaf|exact Hwf]. }
  destruct (save_document_merge_put (handleEdit st) node p t ps _ Hn Hleaf Hp Ht He Hl Hw)
    as (Hs & Hparse & _).
  assert (Hm : merge_tree (JObj ps) (fold_left add_row (text node) []) = JObj ps).
  { apply merge_tree_same. intros k x Hin. rewrite fold_add_row in Hin.
    destruct (fold_set_scalar_elem _ _ _ _ Hin) as [Hnil|(v & Hv & ->)]; [inversion Hnil|].
    split; [|apply tree_of_scalar_defined].
    exact (proj1 (Forall_forall _ _) Hagree (k, v) Hv). }
  rewrite Hm, <- Hl, tree_put_same in Hs, Hparse by (rewrite Hl; reflexivity).
  destruct (handleSave_ok setGraph _ _ Hs) as (-> & -> & _).
  split; [exact Hparse|reflexivity].
Qed.

Lemma edit_save_container_unchanged_witness :
  parse_text (json (handleSave (fun _ => [])
                      (handleEdit (example_state "{'a':{'b':1,'c':2,'d':{}}}" ""
                                     [field_row "b" 1; field_row "c" 2;
                                      {| key := Some (lit "d"); value := SNull;
                                         type := TyObject |}]
                                     (Some [SegStr (lit "a")])))))
  = Some (JObj [(lit "a", JObj [(lit "b", JNum (Num 1 0)); (lit "c", JNum (Num 2 0));
                                (lit "d", JObj [])])]).
Proof.
  refine (proj1 (edit_save_container_unchanged (fun _ => [])
                   (example_state "{'a':{'b':1,'c':2,'d':{}}}" ""
                      [field_row "b" 1; field_row "c" 2;
                       {| key := Some (lit "d"); value := SNull; type := TyObject |}]
                      (Some [SegStr (lit "a")]))
                   {| id := lit "n";
                      text := [field_row "b" 1; field_row "c" 2;
                               {| key := Some (lit "d"); value := SNull; type := TyObject |}];
                      path := Some [SegStr (lit "a")] |}
                   [SegStr (lit "a")]
                   (JObj [(lit "a", JObj [(lit "b", JNum (Num 1 0)); (lit "c", JNum (Num 2 0));
                                          (lit "d", JObj [])])])
                   [(lit "b", JNum (Num 1 0)); (lit "c", JNum (Num 2 0)); (lit "d", JObj [])]
                   _ _ _ _ _ _ _ _ _));
    try (vm_compute; reflexivity).
  - vm_compute. repeat constructor; discriminate.
  - vm_compute. repeat constructor.
Defined.

(** ** Cancel *)

(** Cancel drops what was typed. *)
Lemma cancel_discards_draft (d : str) (st : State) :
  handleCancel (setDraft d (handleEdit st)) = handleCancel st.
Proof. reflexivity. Qed.

(** After a save that failed, Cancel leaves the state a Cancel without
    the save would have left: the document was not touched. *)
Lemma cancel_after_failed_save (setGraph : str -> list NodeData) (st : State) :
  error (handleSave setGraph st) <> None ->
  handleCancel (handleSave setGraph st) = handleCancel st.
Proof.
  unfold handleSave. destruct (save_document st) as [doc|e]; [intros H; destruct (H eq_refl)|].
  intros _. reflexivity.
Qed.

(** ** The locator names one path *)

Lemma jsonPathToString_concat p :
  jsonPathToString (Some p)
  = 36 :: concat (map (fun s => 91 :: segment_text s ++ [93]) p).
Proof.
  destruct p as [|s p]; [reflexivity|]. unfold jsonPathToString.
  change (lit "$[") with (36 :: lit "[").
  cbn [app]. f_equal.
  rewrite (join_brackets (map segment_text (s :: p))) by discriminate.
  rewrite map_map. reflexivity.
Qed.

Lemma split_at_quote k : forall k' a b,
  dq ∉ k -> dq ∉ k' -> k ++ dq :: a = k' ++ dq :: b -> k = k' /\ a = b.
Proof.
  induction k as [|c k IH]; intros [|c' k'] a b Hk Hk' H; cbn [app] in H.
  - injection H as ->. auto.
  - injection H as <- _. exfalso. apply Hk'. left.
  - injection H as -> _. exfalso. apply Hk. left.
  - injection H as -> H. apply not_elem_of_cons in Hk as [_ Hk].
    apply not_elem_of_cons in Hk' as [_ Hk'].
    destruct (IH k' a b Hk Hk' H) as [-> ->]. auto.
Qed.

Lemma bracket_decode s s' x y :
  quote_free s -> quote_free s' ->
  segment_text s ++ 93 :: x = segment_text s' ++ 93 :: y -> s = s' /\ x = y.
Proof.
  intros Hs Hs' H. destruct s as [k|n], s' as [k'|n']; cbn [segment_text quote_free] in *.
  - cbn [app] in H. injection H as H. rewrite <- !app_assoc in H. cbn [app] in H.
    destruct (split_at_quote k k' _ _ Hs Hs' H) as [-> [= ->]]. auto.
  - exfalso. destruct (Number_toString_head (num_of_N n') (num_of_N_canonical n'))
      as (c & r & E & _ & Hc).
    rewrite E in H. cbn [app] in H. injection H as <- _. discriminate.
  - exfalso. destruct (Number_toString_head (num_of_N n) (num_of_N_canonical n))
      as (c & r & E & _ & Hc).
    rewrite E in H. cbn [app] in H. injection H as -> _. discriminate.
  - pose proof (lex_number_toString (num_of_N n) (93 :: x) (num_of_N_canonical n) eq_refl) as L.
    rewrite H in L.
    rewrite (lex_number_toString (num_of_N n') (93 :: y) (num_of_N_canonical n') eq_refl) in L.
    injection L as Hn ->. apply num_of_N_inj in Hn. subst. auto.
Qed.

(** X8. Two paths whose string keys hold no double quote have the same
    locator only when they are the same path. *)
Theorem jsonPathToString_injective (p q : list seg) :
  Forall quote_free p -> Forall quote_free q ->
  jsonPathToString (Some p) = jsonPathToString (Some q) -> p = q.
Proof.
  intros Hp Hq. rewrite !jsonPathToString_concat. intros [= H]. revert q Hq H.
  induction Hp as [|s p Hs Hp IH]; intros q Hq H.
  - destruct q as [|s' q]; [reflexivity|discriminate].
  - destruct Hq as [|s' q Hs' Hq]; [discriminate|].
    cbn [map concat app] in H. injection H as H. rewrite <- !app_assoc in H. cbn [app] in H.
    destruct (bracket_decode s s' _ _ Hs Hs' H) as [-> H'].
    rewrite (IH q Hq H'). reflexivity.
Qed.

Lemma jsonPathToString_injective_witness :
  [SegStr (lit "a"); SegNum 10; SegStr (lit "b c")]
  = [SegStr (lit "a"); SegNum 10; SegStr (lit "b c")].
Proof.
  apply jsonPathToString_injective.
  - repeat constructor; apply (bool_decide_unpack _); vm_compute; reflexivity.
  - repeat constructor; apply (bool_decide_unpack _); vm_compute; reflexivity.
  - reflexivity.
Defined.

(** The keys are written between quotes as they are, so a key with a
    quote in it is outside this: the path of one key [a"]["b] and the
    path of the two keys [a], [b] have one locator. *)
Lemma jsonPathToString_quoted_key :
  jsonPathToString (Some [SegStr (json_lit "a']['b")])
  = jsonPathToString (Some [SegStr (lit "a"); SegStr (lit "b")]).
Proof. vm_compute. reflexivity. Qed.

(** ** The selection after a save *)

Lemma jsonPathToString_default p : jsonPathToString p = jsonPathToString (Some (default [] p)).
Proof. destruct p; reflexivity. Qed.

(** X9. [handleSave] never moves the selection to another path: whether
    the save goes through or not, and whichever node the re-selection
    finds, the path of the selected node (an absent path read as the
    empty one, as the comparison does), and with it the locator the
    modal shows, are what they were. *)
Theorem handleSave_keeps_path (setGraph : str -> list NodeData) (st : State) :
  default [] (selectedNode (handleSave setGraph st) ≫= path)
  = default [] (selectedNode st ≫= path)
  /\ jsonPathToString (selectedNode (handleSave setGraph st) ≫= path)
     = jsonPathToString (selectedNode st ≫= path).
Proof.
  assert (H : default [] (selectedNode (handleSave setGraph st) ≫= path)
              = default [] (selectedNode st ≫= path)).
  { unfold handleSave. destruct (save_document st) as [doc|e]; [|reflexivity].
    cbn [selectedNode]. unfold relocate.
    destruct (find _ (setGraph doc)) as [n|] eqn:E; [|reflexivity].
    apply find_some in E as [_ E]. apply bool_decide_eq_true_1 in E.
    apply path_text_inj in E. exact E. }
  split; [exact H|].
  rewrite (jsonPathToString_default (selectedNode (handleSave setGraph st) ≫= path)), H.
  symmetry. apply jsonPathToString_default.
Qed.

(** ** The merge of any value onto the target *)

(** A value is the root of one tree, on one set of locations. *)
Lemma repr_functional h :
  (forall v t F, repr h v t F -> forall t' F', repr h v t' F' -> t = t' /\ F = F')
  /\ (forall o t F, repr_obj h o t F -> forall t' F', repr_obj h o t' F' -> t = t' /\ F = F')
  /\ (forall vs ts F, repr_list h vs ts F ->
        forall ts' F', repr_list h vs ts' F' -> ts = ts' /\ F = F')
  /\ (forall ps tps F, repr_props h ps tps F ->
        forall tps' F', repr_props h ps tps' F' -> tps = tps' /\ F = F').
Proof.
  apply repr_mutind.
  - intros t' F' H. inversion H. auto.
  - intros t' F' H. inversion H. auto.
  - intros b t' F' H. inversion H. auto.
  - intros n t' F' H. inversion H. auto.
  - intros s t' F' H. inversion H. auto.
  - intros l o t F Hl _ IH Hnin t' F' H.
    inversion H as [| | | | |l' o' t'' F'' Hl' Ho' Hnin']; subst.
    rewrite Hl in Hl'. injection Hl' as <-.
    destruct (IH _ _ Ho') as [-> ->]. auto.
  - intros ps tps F _ IH t' F' H. inversion H; subst.
    destruct (IH _ _ ltac:(eassumption)) as [-> ->]. auto.
  - intros es nm tes tnm F1 F2 _ IH1 _ IH2 Hd t' F' H. inversion H; subst.
    destruct (IH1 _ _ ltac:(eassumption)) as [-> ->].
    destruct (IH2 _ _ ltac:(eassumption)) as [-> ->]. auto.
  - intros ts' F' H. inversion H. auto.
  - intros v t vs ts F1 F2 _ IH1 _ IH2 Hd ts' F' H. inversion H; subst.
    destruct (IH1 _ _ ltac:(eassumption)) as [-> ->].
    destruct (IH2 _ _ ltac:(eassumption)) as [-> ->]. auto.
  - intros tps' F' H. inversion H. auto.
  - intros k v t ps tps F1 F2 _ IH1 _ IH2 Hd tps' F' H. inversion H; subst.
    destruct (IH1 _ _ ltac:(eassumption)) as [-> ->].
    destruct (IH2 _ _ ltac:(eassumption)) as [-> ->]. auto.
Qed.

Lemma get_own_set_own_ne o k k' v : k' <> k -> get_own (set_own o k' v) k = get_own o k.
Proof.
  intros Hne. destruct o as [ps|es nm]; cbn [set_own].
  - cbn [get_own]. rewrite props_lookup_set_ne by exact Hne. reflexivity.
  - destruct (array_index k') as [i'|] eqn:E'; cbn [get_own].
    + destruct (array_index k) as [i|] eqn:E; [|reflexivity].
      apply array_set_lookup_ne. intros Hi. apply Hne.
      assert (i' = i) by lia. subst i'. exact (array_index_inj _ _ _ E' E).
    + destruct (array_index k); [reflexivity|].
      rewrite props_lookup_set_ne by exact Hne. reflexivity.
Qed.

(** What an object holds under two different keys shares nothing. *)
Lemma children_disjoint h o e Fe k k' t1 F1 t2 F2 :
  repr_obj h o e Fe -> k <> k' ->
  repr h (get_own o k) t1 F1 -> repr h (get_own o k') t2 F2 -> F1 ## F2.
Proof.
  intros Ho Hne H1 H2.
  destruct (obj_focus h o e Fe k Ho) as (Fold & Frest & -> & Hd & Hr & Hk).
  destruct (proj1 (repr_functional h) _ _ _ H1 _ _ Hr) as [_ ->].
  pose proof (Hk h VUndef JUndefined ∅ ltac:(reflexivity) (repr_undef h) ltac:(set_solver))
    as Ho'.
  destruct (obj_focus h _ _ _ k' Ho') as (Fold' & Frest' & HF & _ & Hr' & _).
  rewrite get_own_set_own_ne in Hr' by exact Hne.
  destruct (proj1 (repr_functional h) _ _ _ H2 _ _ Hr') as [_ ->].
  set_solver.
Qed.

(** The keys of an object of the store, written onto the target one
    after the other. *)
Lemma merge_keys_ref lp o e Feo keys : forall h lt tt Ft,
  h !! lp = Some o -> repr_obj h o e Feo -> lp <> lt -> lt ∉ Feo ->
  NoDup keys ->
  repr h (VRef lt) tt Ft ->
  (forall k tc Fc, k ∈ keys -> repr h (get_own o k) tc Fc -> Fc ## Ft) ->
  exists h2 Ft2,
    merge_keys h (VRef lt) (VRef lp) keys = Ok h2
    /\ repr h2 (VRef lt) (merge_keys_tree tt e keys) Ft2
    /\ (forall l, l ∈ Ft2 -> l ∈ Ft \/ l ∈ Feo)
    /\ (forall l, l <> lt -> h2 !! l = h !! l).
Proof.
  induction keys as [|k keys IH]; intros h lt tt Ft Hlp Ho Hne Hlt Hnd Hr Hdis.
  - exists h, Ft. split; [reflexivity|]. split; [exact Hr|]. split; [auto|reflexivity].
  - apply NoDup_cons in Hnd as [Hk Hnd].
    destruct (obj_focus h o e Feo k Ho) as (Fold & Frest & HFe & Hdd & Hc & _).
    pose proof (Hdis k _ _ ltac:(left) Hc) as HdisK.
    destruct (ref_focus h lt tt Ft k Hr)
      as (ot & Foldt & Frestt & Hl & HFt & Hnin1 & Hnin2 & Hddt & _ & _ & Hkt).
    assert (Hlen : (lt < length h)%nat) by (eapply lookup_lt_Some; exact Hl).
    set (c := get_own o k) in *.
    set (h' := <[lt := set_own ot k c]> h).
    assert (Hfr : forall l, l <> lt -> h' !! l = h !! l).
    { intros l Hl'. unfold h'. apply list_lookup_insert_ne. congruence. }
    assert (HltFold : lt ∉ Fold) by (rewrite HFe in Hlt; set_solver).
    assert (Hr' : repr h' (VRef lt) (tree_set tt k (tree_get e k)) ({[lt]} ∪ (Fold ∪ Frestt))).
    { apply (Hkt h' c _ Fold).
      - unfold h'. apply list_lookup_insert_eq. exact Hlen.
      - intros l' Hl'. apply Hfr. set_solver.
      - eapply repr_frame; [exact Hc|]. intros l' Hl'. apply Hfr. set_solver.
      - rewrite HFt in HdisK. set_solver.
      - exact HltFold. }
    assert (Ho' : repr_obj h' o e Feo).
    { eapply repr_obj_frame; [exact Ho|]. intros l' Hl'. apply Hfr. set_solver. }
    destruct (IH h' lt (tree_set tt k (tree_get e k)) ({[lt]} ∪ (Fold ∪ Frestt)))
      as (h2 & Ft2 & Hm & Hr2 & Hsub & Hfr2);
      [rewrite Hfr by congruence; exact Hlp|exact Ho'|exact Hne|exact Hlt|exact Hnd|exact Hr'| |].
    { intros k' tc Fc Hk' Hc'.
      destruct (obj_focus h' o e Feo k' Ho') as (Fold' & Frest' & HFe' & _ & Hc'' & _).
      destruct (proj1 (repr_functional h') _ _ _ Hc' _ _ Hc'') as [-> ->].
      assert (Hsub' : forall l, l ∈ Fold' -> l ∈ Feo) by (rewrite HFe'; set_solver).
      assert (Hc0 : repr h (get_own o k') (tree_get e k') Fold').
      { eapply repr_frame; [exact Hc''|]. intros l' Hl'. symmetry. apply Hfr.
        intros ->. apply Hlt. apply Hsub'. exact Hl'. }
      pose proof (Hdis k' _ _ ltac:(right; exact Hk') Hc0) as HdisK'.
      assert (Hkk : k <> k') by (intros ->; contradiction).
      pose proof (children_disjoint h o e Feo k k' _ _ _ _ Ho Hkk Hc Hc0) as Hcd.
      rewrite HFt in HdisK'.
      intros l Hl1 Hl2. apply elem_of_union in Hl2 as [Hl2|Hl2].
      - apply elem_of_singleton in Hl2. subst l. apply Hlt. apply Hsub'. exact Hl1.
      - apply elem_of_union in Hl2 as [Hl2|Hl2]; [exact (Hcd l Hl2 Hl1)|].
        apply (HdisK' l Hl1). set_solver. }
    exists h2, Ft2. split.
    { assert (Hget : get h (VRef lp) k = Ok c).
      { unfold get, deref. rewrite Hlp. reflexivity. }
      assert (Hset : set h (VRef lt) k c = Ok h').
      { unfold set, deref. rewrite Hl. reflexivity. }
      cbn [merge_keys]. rewrite Hget. cbn [mbind res_bind]. rewrite Hset. exact Hm. }
    split; [exact Hr2|]. split.
    + intros l Hl'. destruct (Hsub l Hl') as [H1|H1]; [|right; exact H1].
      rewrite HFt, HFe. set_solver.
    + intros l Hl'. rewrite Hfr2 by assumption. apply Hfr. assumption.
Qed.

(** The keys of a boolean, a number or a string: what is read is a
    scalar. *)
Lemma get_scalar h v e k :
  repr h v e ∅ -> is_object v = false -> is_undefined e = false -> e <> JNull ->
  exists c, get h v k = Ok c /\ repr h c (tree_get e k) ∅.
Proof.
  intros Hr Hv Hd Hn. inversion Hr; subst; try discriminate; try congruence.
  - exists VUndef. split; [reflexivity|constructor].
  - exists VUndef. split; [reflexivity|constructor].
  - cbn [get tree_get]. destruct (array_index k) as [i|].
    + destruct (s !! N.to_nat i); eexists; (split; [reflexivity|constructor]).
    + eexists; (split; [reflexivity|constructor]).
Qed.

Lemma merge_keys_scalar parsed e keys : forall h lt tt Ft,
  repr h parsed e ∅ -> is_object parsed = false -> is_undefined e = false -> e <> JNull ->
  repr h (VRef lt) tt Ft ->
  exists h2 Ft2,
    merge_keys h (VRef lt) parsed keys = Ok h2
    /\ repr h2 (VRef lt) (merge_keys_tree tt e keys) Ft2
    /\ (forall l, l ∈ Ft2 -> l ∈ Ft)
    /\ (forall l, l <> lt -> h2 !! l = h !! l).
Proof.
  induction keys as [|k keys IH]; intros h lt tt Ft Hp Hv Hd Hn Hr.
  - exists h, Ft. split; [reflexivity|]. split; [exact Hr|]. split; [auto|reflexivity].
  - destruct (get_scalar h parsed e k Hp Hv Hd Hn) as (c & Hget & Hc).
    destruct (ref_focus h lt tt Ft k Hr)
      as (ot & Foldt & Frestt & Hl & HFt & Hnin1 & Hnin2 & Hddt & _ & _ & Hkt).
    assert (Hlen : (lt < length h)%nat) by (eapply lookup_lt_Some; exact Hl).
    set (h' := <[lt := set_own ot k c]> h).
    assert (Hfr : forall l, l <> lt -> h' !! l = h !! l).
    { intros l Hl'. unfold h'. apply list_lookup_insert_ne. congruence. }
    assert (Hr' : repr h' (VRef lt) (tree_set tt k (tree_get e k)) ({[lt]} ∪ (∅ ∪ Frestt))).
    { apply (Hkt h' c _ ∅).
      - unfold h'. apply list_lookup_insert_eq. exact Hlen.
      - intros l' Hl'. apply Hfr. set_solver.
      - eapply repr_frame; [exact Hc|]. intros l' Hl'. set_solver.
      - set_solver.
      - set_solver. }
    destruct (IH h' lt _ _ ltac:(eapply repr_frame; [exact Hp|set_solver]) Hv Hd Hn Hr')
      as (h2 & Ft2 & Hm & Hr2 & Hsub & Hfr2).
    exists h2, Ft2. split.
    { assert (Hset : set h (VRef lt) k c = Ok h').
      { unfold set, deref. rewrite Hl. reflexivity. }
      assert (Hget' : get h' parsed k = get h parsed k)
        by (destruct parsed; try reflexivity; discriminate).
      cbn [merge_keys]. rewrite Hget. cbn [mbind res_bind]. rewrite Hset. exact Hm. }
    split; [exact Hr2|]. split.
    + intros l Hl'. specialize (Hsub l Hl'). rewrite HFt. set_solver.
    + intros l Hl'. rewrite Hfr2 by assumption. apply Hfr. assumption.
Qed.

(** ** [Object.keys] *)

Lemma index_key_inj i j : index_key i = index_key j -> i = j.
Proof.
  unfold index_key. intros H.
  pose proof (lex_number_toString (num_of_N (N.of_nat i)) [] (num_of_N_canonical _) eq_refl) as L.
  rewrite H in L.
  rewrite (lex_number_toString (num_of_N (N.of_nat j)) [] (num_of_N_canonical _) eq_refl) in L.
  injection L as L. apply num_of_N_inj in L. lia.
Qed.

Lemma index_keys_elem ds : forall n k,
  k ∈ index_keys n ds -> exists j, (n <= j)%nat /\ k = index_key j.
Proof.
  induction ds as [|d ds IH]; intros n k H; [inversion H|].
  cbn [index_keys] in H. apply elem_of_app in H as [H|H].
  - destruct d; [|inversion H]. apply list_elem_of_singleton in H. exists n. auto.
  - destruct (IH _ _ H) as (j & Hj & ->). exists j. split; [lia|reflexivity].
Qed.

Lemma index_keys_nodup ds : forall n, NoDup (index_keys n ds).
Proof.
  induction ds as [|d ds IH]; intros n; [constructor|].
  cbn [index_keys]. apply NoDup_app. split; [destruct d; [apply NoDup_singleton|constructor]|].
  split; [|apply IH].
  intros k Hk Hk'. destruct d; [|inversion Hk]. apply list_elem_of_singleton in Hk. subst k.
  destruct (index_keys_elem _ _ _ Hk') as (j & Hj & E). apply index_key_inj in E. lia.
Qed.

Lemma keys_sorted_nodup ks : keys_sorted ks = true -> NoDup ks.
Proof.
  induction ks as [|k ks IH]; [constructor|]. cbn [keys_sorted]. intros H.
  apply andb_true_iff in H as [Hk Hs]. constructor; [|apply IH; exact Hs].
  intros Hin. pose proof (proj1 (forallb_elem_of _ _) Hk k Hin) as X.
  rewrite key_ltb_irrefl in X. discriminate.
Qed.

Lemma own_keys_nodup e ks : parsed_shape e = true -> own_keys e = Some ks -> NoDup ks.
Proof.
  destruct e as [ | |b|n|s|es nm|ps]; cbn [own_keys parsed_shape]; try discriminate;
    intros Hs [= <-]; try constructor.
  - apply NoDup_fmap_2; [intros i j; apply index_key_inj|apply NoDup_seq].
  - apply andb_true_iff in Hs as [_ Hnm]. destruct nm; [|discriminate].
    cbn [map]. rewrite app_nil_r. apply index_keys_nodup.
  - apply andb_true_iff in Hs as [Hs _]. apply keys_sorted_nodup. exact Hs.
Qed.

Lemma omap_imap_index_keys es : forall (f : nat -> val -> nat * val) n,
  (forall i v, f i v = ((n + i)%nat, v)) ->
  omap (fun iv : nat * val => match snd iv with
                              | VUndef => None
                              | _ => Some (index_key (fst iv))
                              end) (imap f es)
  = index_keys n (map (fun v => negb (match v with VUndef => true | _ => false end)) es).
Proof.
  induction es as [|v es IH]; intros f n Hf; [reflexivity|].
  cbn [imap map index_keys].
  change (omap ?g (?x :: ?l)) with (match g x with Some y => y :: omap g l | None => omap g l end).
  rewrite Hf. cbn [fst snd]. rewrite Nat.add_0_r.
  rewrite (IH (f ∘ S) (S n)) by (intros i w; unfold compose; rewrite Hf; f_equal; lia).
  destruct v; reflexivity.
Qed.

Lemma repr_undefined h v t F : repr h v t F ->
  match v with VUndef => true | _ => false end = is_undefined t.
Proof.
  intros H. inversion H as [| | | | |l o t' F0 Hl Ho Hnin]; subst; try reflexivity.
  destruct Ho; reflexivity.
Qed.

Lemma repr_list_present h es tes F :
  repr_list h es tes F ->
  map (fun v => negb (match v with VUndef => true | _ => false end)) es
  = map (fun t => negb (is_undefined t)) tes.
Proof.
  induction 1 as [|v t vs ts F1 F2 Hv _ IH _]; [reflexivity|].
  cbn [map]. rewrite IH, (repr_undefined _ _ _ _ Hv). reflexivity.
Qed.

Lemma Object_keys_repr h v e F :
  repr h v e F ->
  Object_keys h v = match own_keys e with Some ks => Ok ks | None => Throw TypeError end.
Proof.
  intros H. inversion H as [| | | | |l o t F0 Hl Ho Hnin]; subst; try reflexivity.
  assert (Hderef : deref h l = o) by (unfold deref; rewrite Hl; reflexivity).
  cbn [Object_keys]. rewrite Hderef.
  destruct Ho as [ps tps F' Hps|es nm tes tnm F1 F2 Hes Hnm Hd]; cbn [own_keys].
  - rewrite (repr_props_keys _ _ _ _ Hps). reflexivity.
  - rewrite (omap_imap_index_keys es (fun i v => (i, v)) 0) by reflexivity.
    rewrite (repr_list_present _ _ _ _ Hes), (repr_props_keys _ _ _ _ Hnm). reflexivity.
Qed.

(** The keys of an object, in turn, are its members in turn. *)
Lemma merge_keys_tree_obj eps : forall todo t,
  (forall k v, (k, v) ∈ todo -> props_lookup eps k = Some v) ->
  merge_keys_tree t (JObj eps) (map fst todo) = merge_tree t todo.
Proof.
  induction todo as [|[k v] todo IH]; intros t H; [reflexivity|].
  unfold merge_keys_tree, merge_tree. cbn [map fst fold_left snd tree_get].
  rewrite (H k v ltac:(left)). cbn [default].
  apply IH. intros k' v' Hin. apply H. right. exact Hin.
Qed.

(** ** The container edit with any draft *)

Lemma merge_keys_any h parsed e Fe ks lt tt Ft :
  repr h parsed e Fe -> parsed_shape e = true -> own_keys e = Some ks ->
  repr h (VRef lt) tt Ft -> Ft ## Fe ->
  exists h2 Ft2,
    merge_keys h (VRef lt) parsed ks = Ok h2
    /\ repr h2 (VRef lt) (merge_keys_tree tt e ks) Ft2
    /\ (forall l, l ∈ Ft2 -> l ∈ Ft \/ l ∈ Fe)
    /\ (forall l, l <> lt -> h2 !! l = h !! l).
Proof.
  intros Hp Hsh Hks Hr Hd.
  pose proof (own_keys_nodup e ks Hsh Hks) as Hnd.
  assert (Hlt : lt ∈ Ft) by (inversion Hr; subst; set_solver).
  assert (Hdef : is_undefined e = false) by (apply parsed_shape_defined; exact Hsh).
  assert (Hnn : e <> JNull) by (intros ->; discriminate).
  inversion Hp as [| |b|n|s|lp o t F0 Hlp Ho Hnin]; subst; try discriminate.
  - destruct (merge_keys_scalar (VBool b) (JBool b) ks h lt tt Ft Hp eq_refl Hdef Hnn Hr)
      as (h2 & Ft2 & Hm & Hr2 & Hsub & Hfr). exists h2, Ft2. auto 10.
  - destruct (merge_keys_scalar (VNum n) (JNum n) ks h lt tt Ft Hp eq_refl Hdef Hnn Hr)
      as (h2 & Ft2 & Hm & Hr2 & Hsub & Hfr). exists h2, Ft2. auto 10.
  - destruct (merge_keys_scalar (VStr s) (JStr s) ks h lt tt Ft Hp eq_refl Hdef Hnn Hr)
      as (h2 & Ft2 & Hm & Hr2 & Hsub & Hfr). exists h2, Ft2. auto 10.
  - destruct (merge_keys_ref lp o e F0 ks h lt tt Ft Hlp Ho) as (h2 & Ft2 & Hm & Hr2 & Hsub & Hfr);
      [set_solver|set_solver|exact Hnd|exact Hr| |].
    + intros k tc Fc _ Hc.
      destruct (obj_focus h o e F0 k Ho) as (Fold & Frest & HF & _ & Hc' & _).
      destruct (proj1 (repr_functional h) _ _ _ Hc _ _ Hc') as [_ ->].
      rewrite HF in Hd. set_solver.
    + exists h2, Ft2. split; [exact Hm|]. split; [exact Hr2|]. split; [|exact Hfr].
      intros l Hl. destruct (Hsub l Hl); [left; assumption|right; set_solver].
Qed.

(** A container edit, where the path leads to an object or an array:
    the keys of the draft are written onto it, whatever the draft is, and
    [setValueAtPath] then sets it at its own path; [null] has no keys to
    take. *)
Lemma save_document_merge_generic (st : State) (node : NodeData) (p : list seg) (t e : jtree) :
  selectedNode st = Some node -> is_leaf node = false -> path node = Some p ->
  parse_text (json st) = Some t -> parse_text (draft st) = Some e ->
  is_container (tree_lookup t p) = true ->
  save_document st
  = match own_keys e with
    | Some ks =>
        Ok (stringify_tree 2 (tree_set_path t p (merge_keys_tree (tree_lookup t p) e ks)))
    | None => Throw TypeError
    end.
Proof.
  intros Hn Hleaf Hp Ht He Hc.
  destruct (parse_text_shape _ _ He) as [_ Hesh].
  unfold save_document.
  rewrite (JSON_parse_ok _ _ _ He). cbn [mbind res_bind].
  destruct (alloc e []) as [parsed h0] eqn:E0.
  rewrite (JSON_parse_ok _ _ _ Ht).
  destruct (alloc t h0) as [obj h1] eqn:E1.
  rewrite Hn, Hleaf, Hp.
  destruct (alloc_two t e parsed h0 obj h1 E0 E1) as (F & Fe & Hr & Hre & Hd).
  rewrite (lookup_path_object h1 obj t F p Hr), Hc.
  destruct (lookup_path h1 obj p) as [ | |b|n|str|lt] eqn:Hlook;
    try (pose proof (lookup_path_object h1 obj t F p Hr) as X; rewrite Hlook, Hc in X;
         discriminate).
  rewrite (Object_keys_repr h1 parsed e Fe Hre).
  destruct (own_keys e) as [ks|] eqn:Hks; [|reflexivity]. cbn [mbind res_bind].
  destruct (path_focus p h1 obj t F lt Hr Hlook) as (Ft & Frest & Hrt & Hdt & Hsub & Hk).
  destruct (merge_keys_any h1 parsed e Fe ks lt (tree_lookup t p) Ft Hre Hesh Hks Hrt)
    as (h2 & Ft2 & Hm & Hr2 & Hsub2 & Hfr2); [set_solver|].
  assert (Hlt : lt ∈ Ft) by (inversion Hrt; subst; set_solver).
  destruct (Hk h2 (merge_keys_tree (tree_lookup t p) e ks) Ft2) as (F' & Hr' & _ & Hlook2);
    [intros l Hl; apply Hfr2; set_solver|exact Hr2| |].
  { intros l Hl1 Hl2. destruct (Hsub2 l Hl1) as [H1|H1]; [set_solver|].
    specialize (Hsub l). set_solver. }
  rewrite Hm. cbn [mbind res_bind].
  destruct (setValueAtPath_inside h2 obj _ F' p lt Hr' Hlook2) as (newObj & h3 & F3 & Hset & Hr3).
  rewrite Hset. cbn [mbind res_bind].
  rewrite (JSON_stringify_repr 2 h3 newObj _ F3 Hr3).
  rewrite tree_set_path_put, tree_lookup_put_container by exact Hc. reflexivity.
Qed.

(** ** When a save fails *)

Lemma descend_prim h v s rest : is_object v = false -> descend h v (s :: rest) = Throw TypeError.
Proof.
  intros Hv. rewrite descend_cons.
  destruct v as [ | |b|n|str|l]; try discriminate; try reflexivity; cbn [get mbind res_bind].
  - destruct s; reflexivity.
  - destruct s; reflexivity.
  - destruct (array_index (to_key s)) as [i|]; [destruct (str !! N.to_nat i)|];
      destruct s; reflexivity.
Qed.

Lemma setValueAtPath_prim h v s0 p value :
  is_object v = false -> setValueAtPath v (Some (s0 :: p)) value h = Throw TypeError.
Proof.
  intros Hv. unfold setValueAtPath.
  destruct p as [|s1 p].
  - cbn [removelast descend mbind res_bind]. destruct v; try discriminate; reflexivity.
  - change (removelast (s0 :: s1 :: p)) with (s0 :: removelast (s1 :: p)).
    rewrite descend_prim by exact Hv. reflexivity.
Qed.

Lemma alloc_prim t h : is_container t = false -> is_object (alloc t h).1 = false.
Proof. destruct t; try discriminate; reflexivity. Qed.

(** On a document that is not an object or an array, a path that is not
    empty cannot be written. *)
Lemma run_set_prim t p v :
  is_container t = false -> p <> [] -> run_set t p v = Throw TypeError.
Proof.
  intros Ht Hp. unfold run_set.
  destruct (alloc v []) as [value h0]. pose proof (alloc_prim t h0 Ht) as Ho.
  destruct (alloc t h0) as [obj h1]. cbn [fst] in Ho.
  destruct p as [|s0 p]; [congruence|].
  rewrite setValueAtPath_prim by exact Ho. reflexivity.
Qed.

Lemma run_set_cases t p v :
  run_set t p v
  = if negb (is_container t) && negb (is_nil p) then Throw TypeError
    else Ok (erase (tree_set_path t p v)).
Proof.
  destruct (is_container t) eqn:Ht; cbn [negb andb].
  - apply run_set_tree. left. exact Ht.
  - destruct p as [|s p]; cbn [is_nil negb].
    + apply run_set_tree. right. reflexivity.
    + apply run_set_prim; [exact Ht|discriminate].
Qed.

Lemma save_document_fallback st node p t e :
  selectedNode st = Some node -> is_leaf node = false -> path node = Some p ->
  parse_text (json st) = Some t -> parse_text (draft st) = Some e ->
  is_container (tree_lookup t p) = false ->
  save_document st = stringify_tree 2 <$> run_set t p e.
Proof.
  intros Hn Hleaf Hp Ht He Hc.
  unfold save_document, JSON_parse, run_set.
  rewrite He, Ht, Hn, Hleaf, Hp. cbn [mbind res_bind].
  destruct (alloc e []) as [value h0] eqn:E0. destruct (alloc t h0) as [obj h1] eqn:E1.
  destruct (alloc_repr t _ _ _ E1) as (F & Rt & _).
  rewrite (lookup_path_object h1 obj t F p Rt), Hc.
  apply stringify_fmap.
Qed.

Lemma save_document_whole st t e :
  parse_text (json st) = Some t -> parse_text (draft st) = Some e ->
  match selectedNode st with
  | Some node => is_leaf node = false /\ path node = None
  | None => True
  end ->
  save_document st = Ok (stringify_tree 2 e).
Proof.
  intros Ht He Hsel. unfold save_document.
  rewrite (JSON_parse_ok _ _ _ He). cbn [mbind res_bind].
  destruct (alloc e []) as [parsed h0] eqn:E0.
  rewrite (JSON_parse_ok _ _ _ Ht).
  destruct (alloc t h0) as [obj h1] eqn:E1.
  destruct (alloc_two t e parsed h0 obj h1 E0 E1) as (F & Fe & Hr & Hre & Hd).
  destruct (selectedNode st) as [node|].
  - destruct Hsel as [-> ->]. exact (JSON_stringify_repr 2 h1 parsed e Fe Hre).
  - exact (JSON_stringify_repr 2 h1 parsed e Fe Hre).
Qed.

Lemma own_keys_null e : parsed_shape e = true -> own_keys e = None <-> is_null e = true.
Proof. destruct e; cbn; intros; split; congruence. Qed.

(** X10. The stored document and the draft both being JSON texts
    within the bounds of the model, the path of the node one that the
    search of [handleSave] follows as the model does, and the keys of the
    draft ones that the merge writes as the model does, a save fails in
    two cases only, each time with a [TypeError] and the state otherwise
    untouched: a value is to be written at a path that is not empty into
    a document that is not an object or an array; or the node is a
    container node whose path leads to an object or an array and the
    draft is [null], whose keys cannot be taken.  Every other save goes
    through and closes the editor. *)
Theorem save_error_cases (setGraph : str -> list NodeData) (st : State) (t e : jtree) :
  parse_text (json st) = Some t -> parse_text (draft st) = Some e ->
  plain_tree t = true -> plain_tree e = true ->
  data_path (default [] (selectedNode st ≫= path)) = true ->
  forallb merge_key (default [] (own_keys e)) = true ->
  if save_throws st t e
  then handleSave setGraph st = with_error st TypeError
  else error (handleSave setGraph st) = None /\ editing (handleSave setGraph st) = false.
Proof.
  intros Ht He _ _ _ _.
  assert (Hres : if save_throws st t e then save_document st = Throw TypeError
                 else exists d, save_document st = Ok d).
  { unfold save_throws.
    destruct (selectedNode st) as [node|] eqn:Hn.
    - destruct (is_leaf node) eqn:Hleaf.
      + rewrite (save_document_leaf st node t e Hn Hleaf Ht He), run_set_cases.
        destruct (negb (is_container t) && negb (is_nil (default [] (path node))));
          cbn [fmap res_fmap]; [reflexivity|eexists; reflexivity].
      + destruct (path node) as [p|] eqn:Hp.
        * destruct (is_container (tree_lookup t p)) eqn:Hc.
          -- rewrite (save_document_merge_generic st node p t e Hn Hleaf Hp Ht He Hc).
             destruct (parse_text_shape _ _ He) as [_ Hsh].
             pose proof (own_keys_null e Hsh) as Hnull.
             destruct (own_keys e) as [ks|].
             ++ destruct (is_null e).
                ** destruct Hnull as [_ Hnull]. specialize (Hnull eq_refl). discriminate.
                ** eexists. reflexivity.
             ++ rewrite (proj1 Hnull eq_refl). reflexivity.
          -- rewrite (save_document_fallback st node p t e Hn Hleaf Hp Ht He Hc), run_set_cases.
             destruct (negb (is_container t) && negb (is_nil p));
               cbn [fmap res_fmap]; [reflexivity|eexists; reflexivity].
        * rewrite (save_document_whole st t e Ht He) by (rewrite Hn; auto).
          eexists. reflexivity.
    - rewrite (save_document_whole st t e Ht He) by (rewrite Hn; exact I).
      eexists. reflexivity. }
  destruct (save_throws st t e).
  - apply handleSave_throw. exact Hres.
  - destruct Hres as [d Hd]. destruct (handleSave_ok setGraph st d Hd) as (_ & -> & ->).
    auto.
Qed.

Lemma save_error_cases_witness :
  handleSave (fun _ => [])
    (example_state "{'a':{'b':1}}" "null" [field_row "b" 1] (Some [SegStr (lit "a")]))
  = with_error
      (example_state "{'a':{'b':1}}" "null" [field_row "b" 1] (Some [SegStr (lit "a")]))
      TypeError.
Proof.
  refine (save_error_cases (fun _ => [])
            (example_state "{'a':{'b':1}}" "null" [field_row "b" 1] (Some [SegStr (lit "a")]))
            (JObj [(lit "a", JObj [(lit "b", JNum (Num 1 0))])]) JNull _ _ _ _ _ _);
    vm_compute; reflexivity.
Defined.

(** ** The container edit with a text that is not an object *)

Lemma array_index_index_key i :
  N.of_nat i < 4294967295 -> array_index (index_key i) = Some (N.of_nat i).
Proof.
  intros Hi. unfold index_key.
  rewrite num_of_N_text by (apply N.lt_trans with 4294967295; [exact Hi|reflexivity]).
  pose proof (digits_lowest (N.of_nat i)) as [Hall Hhd].
  pose proof (of_digits_digits (N.of_nat i)) as Hv.
  destruct (digits (N.of_nat i)) as [|d r] eqn:E; [destruct Hhd|].
  assert (Hback : map (fun c => c - 48) (show_digits (d :: r)) = d :: r).
  { unfold show_digits. rewrite map_map. rewrite <- (map_id (d :: r)) at 2.
    apply map_ext. intros a. unfold digit_char. lia. }
  assert (Hdig : forallb is_digit (show_digits (d :: r)) = true).
  { apply forallb_elem_of. intros c Hc. unfold show_digits in Hc.
    apply list_elem_of_fmap in Hc as (a & -> & Ha).
    apply digit_char_is_digit. exact (proj1 (Forall_forall _ _) Hall a Ha). }
  unfold array_index. change (show_digits (d :: r)) with (digit_char d :: show_digits r) in *.
  rewrite Hdig, Hback, Hv.
  assert (Hz : negb (digit_char d =? 48) || bool_decide (show_digits r = []) = true).
  { destruct r as [|d' r]; [apply orb_true_r|].
    apply orb_true_iff. left. apply negb_true_iff, N.eqb_neq. unfold digit_char. lia. }
  rewrite Hz. cbn [andb]. rewrite (proj2 (N.ltb_lt _ _) Hi). reflexivity.
Qed.

Lemma index_keys_all es : forall n,
  forallb (fun v => negb (is_undefined v)) es = true ->
  index_keys n (map (fun v => negb (is_undefined v)) es) = map index_key (seq n (length es)).
Proof.
  induction es as [|e es IH]; intros n H; [reflexivity|].
  cbn [forallb] in H. apply andb_true_iff in H as [He Hes].
  cbn [map index_keys length seq]. rewrite He, IH by exact Hes. reflexivity.
Qed.

Lemma array_set_next {A} (hole : A) (es acc : list A) m x :
  es !! m = Some x ->
  array_set hole (take m es ++ drop m acc) m x = take (S m) es ++ drop (S m) acc.
Proof.
  intros Hx. pose proof (lookup_lt_Some _ _ _ Hx) as Hlt.
  assert (Hlen : length (take m es) = m) by (rewrite length_take; lia).
  rewrite (take_S_r _ _ _ Hx). unfold array_set. rewrite length_app, Hlen.
  destruct (drop m acc) as [|a rest] eqn:E.
  - assert (Hd : drop (S m) acc = []).
    { apply drop_ge. apply (f_equal length) in E. rewrite length_drop in E. simpl in E. lia. }
    rewrite Hd. simpl length. rewrite Nat.add_0_r, Nat.ltb_irrefl, Nat.sub_diag.
    rewrite !app_nil_r. reflexivity.
  - assert (Hd : drop (S m) acc = rest).
    { replace (S m) with (m + 1)%nat by lia. rewrite <- drop_drop, E. reflexivity. }
    rewrite Hd. simpl length.
    rewrite (proj2 (Nat.ltb_lt m (m + S (length rest))) ltac:(lia)).
    rewrite (insert_app_r_alt (take m es) (a :: rest) m x) by lia.
    rewrite Hlen, Nat.sub_diag, <- app_assoc. reflexivity.
Qed.

(** The elements of an array written onto an array, index by index: the
    first elements are replaced, the others stay. *)
Lemma merge_keys_tree_arr es tnm : forall m acc,
  (m <= length es)%nat -> N.of_nat (length es) <= 4294967295 ->
  merge_keys_tree (JArr acc tnm) (JArr es []) (map index_key (seq 0 m))
  = JArr (take m es ++ drop m acc) tnm.
Proof.
  induction m as [|m IH]; intros acc Hm Hb.
  - cbn [seq map merge_keys_tree fold_left take drop app]. reflexivity.
  - rewrite seq_S, map_app. unfold merge_keys_tree in *. rewrite fold_left_app, IH by lia.
    cbn [Nat.add map fold_left tree_get tree_set].
    rewrite array_index_index_key by lia. rewrite Nat2N.id.
    destruct (lookup_lt_is_Some_2 es m ltac:(lia)) as [x Hx].
    rewrite Hx. cbn [default]. rewrite (array_set_next _ _ _ _ _ Hx). reflexivity.
Qed.

Lemma merge_keys_tree_ok e ks : forall target,
  tree_ok target = true -> tree_ok e = true -> tree_ok (merge_keys_tree target e ks) = true.
Proof.
  induction ks as [|k ks IH]; intros target Ht He; [exact Ht|].
  unfold merge_keys_tree in *. cbn [fold_left]. apply IH; [|exact He].
  apply tree_set_ok; [exact Ht|]. apply tree_get_ok. exact He.
Qed.

(** A container edit along a path whose walk keeps what it finds: what
    is stored, and what it reads back as. *)
Lemma save_document_merge_keys st node p t e ks :
  selectedNode st = Some node -> is_leaf node = false -> path node = Some p ->
  parse_text (json st) = Some t -> parse_text (draft st) = Some e ->
  own_keys e = Some ks ->
  is_container (tree_lookup t p) = true -> walk_keeps t p = true ->
  parsed_shape (merge_keys_tree (tree_lookup t p) e ks) = true ->
  save_document st = Ok (stringify_tree 2 (tree_put t p (merge_keys_tree (tree_lookup t p) e ks)))
  /\ parse_text (stringify_tree 2 (tree_put t p (merge_keys_tree (tree_lookup t p) e ks)))
     = Some (tree_put t p (merge_keys_tree (tree_lookup t p) e ks)).
Proof.
  intros Hn Hleaf Hp Ht He Hk Hc Hw Hmsh.
  pose proof (save_document_merge_generic st node p t e Hn Hleaf Hp Ht He Hc) as Hs.
  rewrite Hk, (tree_set_path_keeps p t _ Hw) in Hs. split; [exact Hs|].
  destruct (parse_text_shape _ _ Ht) as [Htok Htsh].
  destruct (parse_text_shape _ _ He) as [Heok Hesh].
  assert (Hd : is_undefined (tree_lookup t p) = false)
    by (destruct (tree_lookup t p); try discriminate; reflexivity).
  pose proof (tree_lookup_ok p t Htok) as Hlok.
  pose proof (merge_keys_tree_ok e ks _ Hlok Heok) as Hmok.
  pose proof (tree_put_shape p t _ Htsh Hmsh Hd) as Hsh.
  rewrite parse_stringify, (reparse_shape _ Hsh);
    [reflexivity|apply tree_put_ok; assumption|apply parsed_shape_defined; exact Hsh].
Qed.

(** X11. A container edit whose text is a JSON value without keys (a
    number, [true], [false], an empty string, array or object), on an
    object or an array that is in the document, the document being
    within the bounds of the model, and a path whose walk keeps what it
    finds: no error, the editor closes, and the stored text reads back as
    the document that was there.  The text typed is dropped without a
    word. *)
Theorem container_save_keyless (setGraph : str -> list NodeData) (st : State) (node : NodeData)
    (p : list seg) (t e : jtree) :
  selectedNode st = Some node -> is_leaf node = false -> path node = Some p ->
  parse_text (json st) = Some t -> parse_text (draft st) = Some e ->
  own_keys e = Some [] ->
  is_container (tree_lookup t p) = true -> walk_keeps t p = true ->
  plain_tree t = true ->
  parse_text (json (handleSave setGraph st)) = Some t
  /\ error (handleSave setGraph st) = None
  /\ editing (handleSave setGraph st) = false.
Proof.
  intros Hn Hleaf Hp Ht He Hk Hc Hw _.
  destruct (parse_text_shape _ _ Ht) as [Htok Htsh].
  assert (Hd : is_undefined (tree_lookup t p) = false)
    by (destruct (tree_lookup t p); try discriminate; reflexivity).
  destruct (save_document_merge_keys st node p t e [] Hn Hleaf Hp Ht He Hk Hc Hw) as [Hs Hparse].
  { exact (tree_lookup_shape p t Htsh Hd). }
  change (merge_keys_tree (tree_lookup t p) e []) with (tree_lookup t p) in Hs, Hparse.
  rewrite (tree_put_same p t Hd) in Hs, Hparse.
  destruct (handleSave_ok setGraph st _ Hs) as (-> & -> & ->). auto.
Qed.

Lemma container_save_keyless_witness :
  parse_text (json (handleSave (fun _ => [])
                      (example_state "{'a':{'b':1,'c':2}}" "5"
                         [field_row "b" 1; field_row "c" 2] (Some [SegStr (lit "a")]))))
  = Some (JObj [(lit "a", JObj [(lit "b", JNum (Num 1 0)); (lit "c", JNum (Num 2 0))])]).
Proof.
  refine (proj1 (container_save_keyless (fun _ => [])
                   (example_state "{'a':{'b':1,'c':2}}" "5"
                      [field_row "b" 1; field_row "c" 2] (Some [SegStr (lit "a")]))
                   {| id := lit "n"; text := [field_row "b" 1; field_row "c" 2];
                      path := Some [SegStr (lit "a")] |}
                   [SegStr (lit "a")]
                   (JObj [(lit "a", JObj [(lit "b", JNum (Num 1 0)); (lit "c", JNum (Num 2 0))])])
                   (JNum (Num 5 0)) _ _ _ _ _ _ _ _ _));
    vm_compute; reflexivity.
Defined.

(** X12. A container edit with the text of an array, on an array that
    is in the document, document and draft within the bounds of the
    model, and a path whose walk keeps what it finds: the elements of the
    text replace the first elements of the array, and the elements beyond
    the length of the text stay where they are.  An edit cannot shorten
    an array. *)
Theorem container_save_array (setGraph : str -> list NodeData) (st : State) (node : NodeData)
    (p : list seg) (t : jtree) (tes es : list jtree) (tnm enm : list (str * jtree)) :
  selectedNode st = Some node -> is_leaf node = false -> path node = Some p ->
  parse_text (json st) = Some t -> parse_text (draft st) = Some (JArr es enm) ->
  tree_lookup t p = JArr tes tnm -> walk_keeps t p = true ->
  N.of_nat (length es) <= 4294967295 ->
  plain_tree t = true -> plain_tree (JArr es enm) = true ->
  parse_text (json (handleSave setGraph st))
  = Some (tree_put t p (JArr (es ++ drop (length es) tes) []))
  /\ tree_lookup (tree_put t p (JArr (es ++ drop (length es) tes) [])) p
     = JArr (es ++ drop (length es) tes) []
  /\ (length tes <= length (es ++ drop (length es) tes))%nat
  /\ error (handleSave setGraph st) = None.
Proof.
  intros Hn Hleaf Hp Ht He Hl Hw Hb _ _.
  destruct (parse_text_shape _ _ Ht) as [Htok Htsh].
  destruct (parse_text_shape _ _ He) as [Heok Hesh].
  assert (Hc : is_container (tree_lookup t p) = true) by (rewrite Hl; reflexivity).
  assert (Hd : is_undefined (tree_lookup t p) = false) by (rewrite Hl; reflexivity).
  pose proof (tree_lookup_shape p t Htsh Hd) as Hlsh. rewrite Hl in Hlsh.
  cbn [parsed_shape] in Hesh, Hlsh.
  apply andb_true_iff in Hesh as [Hes Henm]. destruct enm; [|discriminate].
  apply andb_true_iff in Hlsh as [Htes Htnm]. destruct tnm; [|discriminate].
  assert (Hks : own_keys (JArr es []) = Some (map index_key (seq 0 (length es)))).
  { cbn [own_keys map]. rewrite app_nil_r, index_keys_all; [reflexivity|].
    apply forallb_elem_of. intros x Hx.
    pose proof (proj1 (forallb_elem_of _ _) Hes x Hx) as Hxs.
    destruct x; [discriminate|reflexivity..]. }
  assert (Hm : merge_keys_tree (tree_lookup t p) (JArr es []) (map index_key (seq 0 (length es)))
               = JArr (es ++ drop (length es) tes) []).
  { rewrite Hl, merge_keys_tree_arr by (lia || assumption). rewrite firstn_all. reflexivity. }
  destruct (save_document_merge_keys st node p t (JArr es []) _ Hn Hleaf Hp Ht He Hks Hc Hw)
    as [Hs Hparse].
  { rewrite Hm. cbn [parsed_shape]. rewrite andb_true_r.
    apply forallb_elem_of. intros x Hx. apply elem_of_app in Hx as [Hx|Hx].
    - exact (proj1 (forallb_elem_of _ _) Hes x Hx).
    - rewrite <- (take_drop (length es) tes), forallb_app in Htes.
      apply andb_true_iff in Htes as [_ Htes].
      exact (proj1 (forallb_elem_of _ _) Htes x Hx). }
  rewrite Hm in Hs, Hparse.
  destruct (handleSave_ok setGraph st _ Hs) as (-> & -> & _).
  split; [exact Hparse|]. split; [|split; [|reflexivity]].
  - apply tree_lookup_put; [|exact Hw]. destruct (is_container t) eqn:E; [left; reflexivity|].
    pose proof (tree_lookup_prim p t E) as X. rewrite Hl in X. discriminate.
  - rewrite length_app, length_drop. lia.
Qed.

Lemma container_save_array_witness :
  parse_text (json (handleSave (fun _ => [])
                      (example_state "{'a':[1,2,3]}" "[9]" [] (Some [SegStr (lit "a")]))))
  = Some (tree_put (JObj [(lit "a", JArr [JNum (Num 1 0); JNum (Num 2 0); JNum (Num 3 0)] [])])
            [SegStr (lit "a")]
            (JArr ([JNum (Num 9 0)] ++ drop 1 [JNum (Num 1 0); JNum (Num 2 0); JNum (Num 3 0)]) [])).
Proof.
  refine (proj1 (container_save_array (fun _ => [])
                   (example_state "{'a':[1,2,3]}" "[9]" [] (Some [SegStr (lit "a")]))
                   {| id := lit "n"; text := []; path := Some [SegStr (lit "a")] |}
                   [SegStr (lit "a")]
                   (JObj [(lit "a", JArr [JNum (Num 1 0); JNum (Num 2 0); JNum (Num 3 0)] [])])
                   [JNum (Num 1 0); JNum (Num 2 0); JNum (Num 3 0)]
                   [JNum (Num 9 0)] [] [] _ _ _ _ _ _ _ _ _ _));
    vm_compute; (reflexivity || discriminate).
Defined.

(** ** The walk of [setValueAtPath], segment by segment *)

Lemma tree_set_path_container p : forall t v,
  is_container t = true -> p <> [] -> is_container (tree_set_path t p v) = true.
Proof.
  intros t v Ht Hp. destruct p as [|s rest]; [congruence|].
  destruct rest as [|s' rest]; cbn [tree_set_path]; apply tree_set_container; exact Ht.
Qed.

Lemma child_container s cur :
  is_container (if kept s cur then cur else fresh_container s) = true.
Proof.
  destruct (kept s cur) eqn:E; [exact (kept_container s cur E)|destruct s; reflexivity].
Qed.

(** Writing along a path is writing along its first part what the rest
    makes of the container the walk stands in. *)
Lemma tree_set_path_app q : forall t s rest v,
  rest <> [] ->
  tree_set_path t (q ++ s :: rest) v
  = tree_set_path t (q ++ [s])
      (tree_set_path (if kept s (tree_get (walked t q) (to_key s))
                      then tree_get (walked t q) (to_key s)
                      else fresh_container s) rest v).
Proof.
  induction q as [|s0 q IH]; intros t s rest v Hrest.
  - cbn [app walked]. destruct rest as [|s' rest]; [congruence|]. reflexivity.
  - cbn [app walked].
    change (tree_set_path t (s0 :: q ++ s :: rest) v)
      with (match q ++ s :: rest with
            | [] => tree_set t (to_key s0) v
            | _ => tree_set t (to_key s0)
                     (tree_set_path (if kept s0 (tree_get t (to_key s0))
                                     then tree_get t (to_key s0) else fresh_container s0)
                        (q ++ s :: rest) v)
            end).
    destruct (q ++ s :: rest) eqn:E; [destruct q; discriminate|]. rewrite <- E. clear E.
    rewrite IH by exact Hrest.
    set (X := tree_set_path _ rest v).
    change (tree_set_path t (s0 :: q ++ [s]) X)
      with (match q ++ [s] with
            | [] => tree_set t (to_key s0) X
            | _ => tree_set t (to_key s0)
                     (tree_set_path (if kept s0 (tree_get t (to_key s0))
                                     then tree_get t (to_key s0) else fresh_container s0)
                        (q ++ [s]) X)
            end).
    destruct (q ++ [s]) eqn:E; [destruct q; discriminate|]. reflexivity.
Qed.

Lemma erase_tree_set_path p : forall t x,
  erase (tree_set_path t p (erase x)) = erase (tree_set_path t p x).
Proof.
  induction p as [|s rest IH]; intros t x; [apply erase_idem|].
  destruct rest as [|s' rest].
  - cbn [tree_set_path]. apply erase_tree_set.
  - change (tree_set_path t (s :: s' :: rest) (erase x))
      with (tree_set t (to_key s)
              (tree_set_path (if kept s (tree_get t (to_key s)) then tree_get t (to_key s)
                              else fresh_container s) (s' :: rest) (erase x))).
    change (tree_set_path t (s :: s' :: rest) x)
      with (tree_set t (to_key s)
              (tree_set_path (if kept s (tree_get t (to_key s)) then tree_get t (to_key s)
                              else fresh_container s) (s' :: rest) x)).
    rewrite <- erase_tree_set, IH, erase_tree_set. reflexivity.
Qed.

(** A tree as [JSON.parse] builds it has nothing that [JSON.stringify]
    leaves out. *)
Lemma erase_parsed t : parsed_shape t = true -> erase t = t.
Proof.
  induction t as [ | |b|n|s|es nm IHes _|ps IHps] using jtree_ind'; intros H;
    try reflexivity.
  - cbn [parsed_shape] in H. apply andb_true_iff in H as [Hes Hnm].
    destruct nm; [|discriminate]. cbn [erase]. f_equal.
    induction es as [|e es IH]; [reflexivity|].
    cbn [forallb] in Hes. apply andb_true_iff in Hes as [He Hes].
    apply Forall_cons in IHes as [IHe IHes].
    cbn [map]. rewrite IHe, IH by assumption. reflexivity.
  - cbn [parsed_shape] in H. apply andb_true_iff in H as [_ Hps].
    cbn [erase]. f_equal.
    induction ps as [|[k e] ps IH]; [reflexivity|].
    cbn [forallb snd] in Hps. apply andb_true_iff in Hps as [He Hps].
    apply Forall_cons in IHps as [IHe IHps]. cbn [snd] in IHe.
    cbn [map fst snd]. rewrite IHe, IH by assumption. reflexivity.
Qed.

Lemma tree_get_erase_set t k x :
  prints_key t k = true -> tree_get (erase (tree_set t k x)) k = erase x.
Proof.
  destruct t as [ | |b|n|s|es nm|ps]; try discriminate; cbn [prints_key tree_set].
  - destruct (array_index k) as [i|] eqn:E; [|discriminate]. intros _.
    cbn [erase tree_get]. rewrite E, (array_set_map erase), array_set_lookup. reflexivity.
  - intros _. cbn [erase tree_get].
    rewrite (props_set_map erase), props_lookup_set. reflexivity.
Qed.

Lemma erase_container t : is_container (erase t) = is_container t.
Proof. destruct t; reflexivity. Qed.

(** Where every key of the path falls on a container that prints it,
    the value written is found at the path in what is printed. *)
Lemma lands_lookup p : forall t e,
  lands t p = true -> is_undefined e = false ->
  tree_lookup (erase (tree_set_path t p e)) p = erase e.
Proof.
  induction p as [|s rest IH]; intros t e Hl He; [reflexivity|].
  cbn [lands] in Hl. apply andb_true_iff in Hl as [Hk Hl].
  destruct rest as [|s' rest].
  - cbn [tree_set_path tree_lookup]. rewrite (tree_get_erase_set t _ e Hk).
    destruct (erase e) eqn:E; try reflexivity.
  - change (tree_set_path t (s :: s' :: rest) e)
      with (tree_set t (to_key s)
              (tree_set_path (if kept s (tree_get t (to_key s)) then tree_get t (to_key s)
                              else fresh_container s) (s' :: rest) e)).
    set (child := if kept s (tree_get t (to_key s)) then tree_get t (to_key s)
                  else fresh_container s) in *.
    cbn [tree_lookup]. rewrite (tree_get_erase_set t _ _ Hk).
    assert (Hc : is_container (erase (tree_set_path child (s' :: rest) e)) = true).
    { rewrite erase_container. apply tree_set_path_container; [apply child_container|discriminate]. }
    rewrite <- (IH child e Hl He).
    destruct (erase (tree_set_path child (s' :: rest) e)); try discriminate; reflexivity.
Qed.

(** ** The amended claims on [setValueAtPath] and the fallback *)

(** C4, amended.  A container edit whose path leads to nothing, to
    [null] or to a scalar, the document, the draft and the path being
    within the bounds of the model, falls back to the leaf edit of that
    position, setting the parsed value there as it is instead of merging:
    the save is the save of a leaf node with this path, which is
    [setValueAtPath] with the parsed value; and where the document is an
    object or an array, or the path is empty, and every key of the path
    falls on a container that prints it, the save goes through and the
    document it stores holds the parsed value at the path.  (Where the
    path leads to an array the keys are merged onto it.) *)
Theorem container_fallback_is_leaf_replace (st : State) (node : NodeData)
    (p : list seg) (t e : jtree) :
  selectedNode st = Some node ->
  is_leaf node = false ->
  path node = Some p ->
  parse_text (json st) = Some t ->
  parse_text (draft st) = Some e ->
  is_container (tree_lookup t p) = false ->
  plain_tree t = true -> plain_tree e = true -> data_path p = true ->
  (forall leaf, is_leaf leaf = true -> path leaf = Some p ->
     save_document st = save_document (with_node st leaf))
  /\ save_document st = stringify_tree 2 <$> run_set t p e
  /\ (is_container t = true \/ p = [] -> lands t p = true ->
      exists d, save_document st = Ok (stringify_tree 2 d) /\ tree_lookup d p = e).
Proof.
  intros Hn Hleaf Hp Ht He Hc _ _ _.
  assert (Hdoc : save_document st = stringify_tree 2 <$> run_set t p e).
  { unfold save_document, JSON_parse, run_set.
    rewrite He, Ht, Hn, Hleaf, Hp. cbn [mbind res_bind].
    destruct (alloc e []) as [value h0] eqn:E0. destruct (alloc t h0) as [obj h1] eqn:E1.
    destruct (alloc_repr t _ _ _ E1) as (F & Rt & _).
    rewrite (lookup_path_object h1 obj t F p Rt), Hc.
    apply stringify_fmap. }
  split; [|split; [exact Hdoc|]].
  - intros leaf Hl Hpl. rewrite Hdoc.
    rewrite (save_document_leaf (with_node st leaf) leaf t e); try assumption; try reflexivity.
    rewrite Hpl. reflexivity.
  - intros Hroot Hlands. exists (erase (tree_set_path t p e)).
    rewrite Hdoc, (run_set_tree t p e Hroot). split; [reflexivity|].
    destruct (parse_text_shape _ _ He) as [_ Hsh].
    rewrite (lands_lookup p t e Hlands (parsed_shape_defined e Hsh)).
    apply erase_parsed. exact Hsh.
Qed.

Lemma container_fallback_is_leaf_replace_witness :
  exists d,
    save_document
      (example_state "{'a':1}" "{'b':5}" [field_row "b" 1; field_row "c" 2]
         (Some [SegStr (lit "a")]))
    = Ok (stringify_tree 2 d)
    /\ tree_lookup d [SegStr (lit "a")] = JObj [(lit "b", JNum (Num 5 0))].
Proof.
  refine (proj2 (proj2 (container_fallback_is_leaf_replace
           (example_state "{'a':1}" "{'b':5}" [field_row "b" 1; field_row "c" 2]
              (Some [SegStr (lit "a")]))
           {| id := lit "n"; text := [field_row "b" 1; field_row "c" 2];
              path := Some [SegStr (lit "a")] |}
           [SegStr (lit "a")]
           (JObj [(lit "a", JNum (Num 1 0))])
           (JObj [(lit "b", JNum (Num 5 0))]) _ _ _ _ _ _ _ _ _)) _ _);
    try (vm_compute; reflexivity).
  left. reflexivity.
Defined.

(** C5, amended.  On a document that is an object or an array, and a
    path within the bounds of the model, every segment that is not the
    last one finds its container or makes it: where, after the segments
    [q], the walk finds at a numeric segment a value that is absent or
    not an array, or at a string segment a value that is absent, [null]
    or a scalar, the result is the document with, set at that segment,
    what the rest of the path makes of an empty array, respectively an
    empty object.  In particular [{}] at path [["x","y"]] with value [1]
    becomes [{x:{y:1}}]. *)
Theorem vivify_missing_containers (t : jtree) (q : list seg) (s : seg) (rest : list seg)
    (v : jtree) :
  is_container t = true ->
  rest <> [] ->
  plain_path (q ++ s :: rest) = true ->
  match s with
  | SegNum _ => is_array (tree_get (walked t q) (to_key s)) = false
  | SegStr _ => is_container (tree_get (walked t q) (to_key s)) = false
  end ->
  run_set t (q ++ s :: rest) v
  = (child ← run_set (fresh_container s) rest v; run_set t (q ++ [s]) child)
  /\ run_set (JObj []) [SegStr (lit "x"); SegStr (lit "y")] (JNum (Num 1 0))
     = Ok (JObj [(lit "x", JObj [(lit "y", JNum (Num 1 0))])]).
Proof.
  intros Hc Hrest _ Hcur. split; [|vm_compute; reflexivity].
  assert (Hkept : kept s (tree_get (walked t q) (to_key s)) = false) by (destruct s; exact Hcur).
  rewrite (run_set_tree t (q ++ s :: rest) v) by (left; exact Hc).
  rewrite (run_set_tree (fresh_container s) rest v) by (left; destruct s; reflexivity).
  cbn [mbind res_bind].
  rewrite (run_set_tree t (q ++ [s])) by (left; exact Hc).
  rewrite erase_tree_set_path, (tree_set_path_app q t s rest v Hrest), Hkept. reflexivity.
Qed.

Lemma vivify_missing_containers_witness :
  run_set (JObj [(lit "a", JObj [(lit "b", JNum (Num 5 0))])])
    [SegStr (lit "a"); SegStr (lit "b"); SegNum 1; SegStr (lit "c")] JNull
  = (child ← run_set (JObj []) [SegNum 1; SegStr (lit "c")] JNull;
     run_set (JObj [(lit "a", JObj [(lit "b", JNum (Num 5 0))])])
       [SegStr (lit "a"); SegStr (lit "b")] child).
Proof.
  refine (proj1 (vivify_missing_containers (JObj [(lit "a", JObj [(lit "b", JNum (Num 5 0))])])
                   [SegStr (lit "a")] (SegStr (lit "b")) [SegNum 1; SegStr (lit "c")] JNull
                   _ _ _ _));
    try (vm_compute; reflexivity).
  discriminate.
Defined.

(** ** The amended claim on the object of [normalizeNodeData] *)

Lemma fold_set_scalar_sorted kvs : forall acc,
  keys_sorted (map fst acc ++ map fst kvs) = true ->
  fold_left set_scalar kvs acc = acc ++ map entry_tree kvs.
Proof.
  induction kvs as [|[k v] kvs IH]; intros acc H; [rewrite app_nil_r; reflexivity|].
  cbn [fold_left map fst snd].
  assert (Hend : set_scalar acc (k, v) = acc ++ [entry_tree (k, v)]).
  { unfold set_scalar, entry_tree. cbn [fst snd]. apply props_set_end. intros k' Hk'.
    destruct (keys_sorted_app _ _ H) as (_ & _ & Hab). apply Hab; [exact Hk'|left]. }
  rewrite Hend, IH.
  - rewrite <- app_assoc. reflexivity.
  - rewrite map_app. cbn [map fst]. rewrite <- app_assoc. exact H.
Qed.

(** C7, amended.  When the keys of the keyed rows that are not
    containers come in the order in which JavaScript keeps the keys of an
    object (array indices ascending, then the other names, no key twice)
    and none of them is [__proto__], the text of [normalizeNodeData]
    parses to the object holding exactly these rows as key/value pairs in
    the order of the row list; rows of type ["array"] or ["object"] are
    not among them.  The empty row list gives [{}]. *)
Theorem normalize_object_round_trip (rows : list NodeRow) :
  entries rows <> [] ->
  keys_sorted (map fst (entries rows)) = true ->
  forallb (fun k => negb (text_eqb k (lit "__proto__"))) (map fst (entries rows)) = true ->
  Forall (fun kv => scalar_wf (snd kv)) (entries rows) ->
  parse_text (normalizeNodeData rows) = Some (JObj (map entry_tree (entries rows)))
  /\ Forall (fun kv => exists r, r ∈ rows /\ is_container_type (type r) = false
                                /\ key r = Some (fst kv) /\ value r = snd kv) (entries rows)
  /\ parse_text (normalizeNodeData []) = Some (JObj []).
Proof.
  intros Hne Hs _ Hwf.
  assert (Hfold : fold_left set_scalar (entries rows) [] = map entry_tree (entries rows)).
  { rewrite fold_set_scalar_sorted; [reflexivity|exact Hs]. }
  split; [|split; [|reflexivity]].
  - rewrite normalize_object by assumption. rewrite fold_add_row, Hfold.
    rewrite parse_text_flat_object by assumption. rewrite Hfold. reflexivity.
  - apply Forall_forall. intros [k v] Hin.
    unfold entries in Hin. apply list_elem_of_omap in Hin as (r & Hr & He).
    unfold row_entry in He.
    destruct (is_container_type (type r)) eqn:Hc; [discriminate|].
    destruct (truthy (key r)); [|discriminate]. simpl in He.
    destruct (key r) as [k'|] eqn:Hk; [|discriminate]. simpl in He.
    injection He as -> Hv. exists r. repeat split; assumption.
Qed.

Lemma normalize_object_round_trip_witness :
  parse_text (normalizeNodeData
                [field_row "2" 7; field_row "b" 1;
                 {| key := Some (lit "inner"); value := SNull; type := TyObject |};
                 field_row "c" 2])
  = Some (JObj [(lit "2", JNum (Num 7 0)); (lit "b", JNum (Num 1 0));
                (lit "c", JNum (Num 2 0))]).
Proof.
  refine (proj1 (normalize_object_round_trip
                   [field_row "2" 7; field_row "b" 1;
                    {| key := Some (lit "inner"); value := SNull; type := TyObject |};
                    field_row "c" 2] _ _ _ _)).
  - vm_compute. discriminate.
  - vm_compute. reflexivity.
  - vm_compute. reflexivity.
  - vm_compute. repeat constructor; discriminate.
Defined.
